(** * Opera Toolkit: keyed reconciler, diff engine, patches and virtual nodes

    A shallow embedding of the reconciliation core of the toolkit
    (the release bundle: [Reconciler], [Diff], [Lifecycle], [Patch] and the
    [Component] child slot) together with the properties stated about it. *)

From Stdlib Require Import ZArith Lia Ascii String.
From stdpp Require Import base list strings gmap sorting.

Local Open Scope Z_scope.
Set Warnings "-register-all".

(** ** Keys

    Sibling keys are JavaScript primitives: strings, or numbers (the
    positional index is the fallback key).  The reconciler only uses
    [Object.is], [===], [>] and truthiness on them, so the key type is an
    interface. *)

Class JSKey (K : Type) := {
  key_is : K -> K -> bool;
  key_gt : K -> K -> bool;
  key_truthy : K -> bool;
  key_is_eq : forall a b, key_is a b = true <-> a = b
}.

(** On the keys of one kind (all strings, or all numbers) [>] is a strict
    total order. *)
Class JSKeyOrder (K : Type) `{JSKey K} : Prop := {
  key_gt_irrefl : forall a, key_gt a a = false;
  key_gt_trans : forall a b c,
    key_gt a b = true -> key_gt b c = true -> key_gt a c = true;
  key_gt_total : forall a b, a <> b -> key_gt a b = true \/ key_gt b a = true
}.

(** Integer-valued number keys. *)
#[export, refine] Instance Z_JSKey : JSKey Z := {|
  key_is := Z.eqb;
  key_gt := Z.gtb;
  key_truthy := fun z => negb (Z.eqb z 0)
|}.
Proof. intros a b. apply Z.eqb_eq. Defined.

(** String keys, compared code unit by code unit. *)
Definition string_gt (a b : string) : bool :=
  match String.compare a b with Gt => true | _ => false end.

#[export, refine] Instance string_JSKey : JSKey string := {|
  key_is := String.eqb;
  key_gt := string_gt;
  key_truthy := fun s => negb (String.eqb s EmptyString)
|}.
Proof. intros a b. apply String.eqb_eq. Defined.


#[export] Instance JSKey_eq_dec {K : Type} `{JSKey K} : EqDecision K.
Proof.
  intros a b. destruct (key_is a b) eqn:E.
  - left. by apply key_is_eq.
  - right. intros Hab. apply key_is_eq in Hab. congruence.
Defined.

(** ** Arrays

    [Array.prototype.splice(start, deleteCount, ...items)]: a negative
    [start] counts from the end, and a [start] beyond the end is the end. *)

Definition splice_start (len : nat) (start : Z) : nat :=
  if start <? 0 then Z.to_nat (Z.max (Z.of_nat len + start) 0)
  else Nat.min (Z.to_nat start) len.

Definition splice {A} (start : Z) (deleteCount : nat) (items : list A)
    (l : list A) : list A :=
  let s := splice_start (length l) start in
  take s l ++ items ++ drop (s + deleteCount) l.

(** [Array.prototype.sort(comparefn)].  The engine sorts an array of fewer
    than 64 elements as a single run: the run the array starts with is
    counted, and reversed when it is strictly descending, and each element
    behind it is put into the sorted front at the place a binary search
    finds for it.  A longer array is cut into several such runs which are
    then merged; with a consistent [comparefn] that gives the same, stable
    order.  [comparefn] is asked about exactly the pairs the engine asks
    it about, so that an inconsistent one is followed as well. *)

(** The elements behind the second one that continue the run. *)
Fixpoint run_rest {A} (cmp : A -> A -> Z) (descending : bool) (previous : A)
    (l : list A) : nat :=
  match l with
  | [] => 0%nat
  | current :: l' =>
      let order := cmp current previous in
      if (if descending then 0 <=? order else order <? 0) then 0%nat
      else S (run_rest cmp descending current l')
  end.

(** The leading run, made ascending, and the elements behind it. *)
Definition countAndMakeRun {A} (cmp : A -> A -> Z) (l : list A)
    : list A * list A :=
  match l with
  | elementHigh :: elementLow :: rest =>
      let descending := cmp elementLow elementHigh <? 0 in
      let runLength := (2 + run_rest cmp descending elementLow rest)%nat in
      let run := take runLength l in
      (if descending then reverse run else run, drop runLength l)
  | _ => (l, [])
  end.

(** The binary search for the place of [pivot] in [sorted], between [left]
    and [right]; every step halves the range, so that as many steps as the
    range is long are enough. *)
Fixpoint insertion_point {A} (cmp : A -> A -> Z) (pivot : A)
    (sorted : list A) (steps left right : nat) : nat :=
  match steps with
  | O => left
  | S steps =>
      if (left <? right)%nat then
        let mid := (left + (right - left) / 2)%nat in
        match sorted !! mid with
        | Some x =>
            if cmp pivot x <? 0
            then insertion_point cmp pivot sorted steps left mid
            else insertion_point cmp pivot sorted steps (S mid) right
        | None => left
        end
      else left
  end.

Definition binary_insert {A} (cmp : A -> A -> Z) (sorted : list A)
    (pivot : A) : list A :=
  let left :=
    insertion_point cmp pivot sorted (length sorted) 0 (length sorted) in
  take left sorted ++ pivot :: drop left sorted.

Definition js_sort {A} (cmp : A -> A -> Z) (l : list A) : list A :=
  let '(run, rest) := countAndMakeRun cmp l in
  foldl (binary_insert cmp) run rest.

(** ** Reconciler *)

Module Move.

Inductive Name := INSERT | MOVE | REMOVE.

Inductive t (K : Type) : Type :=
| insert (item : K) (at_ : Z)
| move (item : K) (from to : Z)
| remove (item : K) (at_ : Z).
Arguments insert {K} item at_.
Arguments move {K} item from to.
Arguments remove {K} item at_.

Definition name {K} (m : t K) : Name :=
  match m with
  | insert _ _ => INSERT
  | move _ _ _ => MOVE
  | remove _ _ => REMOVE
  end.

Definition item {K} (m : t K) : K :=
  match m with
  | insert i _ | move i _ _ | remove i _ => i
  end.

(** The list transformation carried by a move. *)
Definition make {K} (m : t K) (items : list K) : list K :=
  match m with
  | insert item at_ => splice at_ 0 [item] items
  | move item from to => splice to 0 [item] (splice from 1 [] items)
  | remove item at_ => splice at_ 1 [] items
  end.

Definition is_move {K} (m : t K) : bool :=
  match m with move _ _ _ => true | _ => false end.

End Move.

Module Reconciler.
Section WithKey.
Context {K : Type} `{JSKey K}.

Record Item := createItem { key : K; index : nat }.

#[export] Instance Item_eq_dec : EqDecision Item.
Proof. solve_decision. Defined.

Definition comparator (a b : Item) : Z :=
  if key_is (key a) (key b) then 0
  else if key_gt (key a) (key b) then 1 else -1.

Definition sortByIndex (foo bar : Item) : Z :=
  Z.of_nat (index foo) - Z.of_nat (index bar).

(** [keys.map(createItem)] *)
Definition indexed (keys : list K) : list Item :=
  imap (fun index key => createItem key index) keys.

(** The merge walk over the two key-sorted item lists. *)
Fixpoint classify (before after removed inserted : list Item)
    {struct before} : list Item * list Item :=
  match before with
  | [] => (removed, inserted ++ after)
  | b :: before' =>
      (fix walk (after inserted : list Item) {struct after} :=
         match after with
         | [] => (removed ++ before, inserted)
         | a :: after' =>
             let result := comparator a b in
             if result =? 0 then classify before' after' removed inserted
             else if result =? 1
                  then classify before' after (removed ++ [b]) inserted
                  else walk after' (inserted ++ [a])
         end) after inserted
  end.

(** [Array.prototype.indexOf]: the first position, or -1. *)
Fixpoint indexOf (item : K) (l : list K) : Z :=
  match l with
  | [] => -1
  | x :: l' =>
      if key_is x item then 0
      else let r := indexOf item l' in if r <? 0 then -1 else r + 1
  end.

(** [Diff.deepEqual] on two arrays of keys: same length and [Object.is]
    at every position. *)
Fixpoint deepEqual (current next : list K) : bool :=
  match current, next with
  | [], [] => true
  | x :: current', y :: next' => key_is x y && deepEqual current' next'
  | _, _ => false
  end.

(** A move list together with the [result] field attached to it. *)
Record Moves := mkMoves { moves : list (Move.t K); result : list K }.

Definition apply_move (acc : Moves) (m : Move.t K) : Moves :=
  {| moves := moves acc ++ [m]; result := Move.make m (result acc) |}.

Definition moveItemIfNeeded (acc : Moves) (p : nat * K) : Moves :=
  let '(index, item) := p in
  let differs :=
    match result acc !! index with
    | Some x => negb (key_is x item)
    | None => true
    end in
  if differs
  then apply_move acc
         (Move.move item (indexOf item (result acc)) (Z.of_nat index))
  else acc.

Definition calculateIndexChanges (source target : list K) (reversed : bool)
    : Moves :=
  let positions := imap (fun i item => (i, item)) target in
  foldl moveItemIfNeeded {| moves := []; result := source |}
    (if reversed then reverse positions else positions).

(** [favoredToMove && defaultMoves.length === 1 &&
    defaultMoves[0].item !== favoredToMove]; [None] is [null]. *)
Definition favored_differs (favoredToMove : option K)
    (defaultMoves : list (Move.t K)) : bool :=
  match favoredToMove with
  | Some f =>
      key_truthy f && (length defaultMoves =? 1)%nat &&
      match defaultMoves with
      | m :: _ => negb (key_is (Move.item m) f)
      | [] => false
      end
  | None => false
  end.

Definition removed_items (source target : list K) : list Item :=
  let before := js_sort comparator (indexed source) in
  let after := js_sort comparator (indexed target) in
  reverse (js_sort sortByIndex (fst (classify before after [] []))).

Definition inserted_items (source target : list K) : list Item :=
  let before := js_sort comparator (indexed source) in
  let after := js_sort comparator (indexed target) in
  js_sort sortByIndex (snd (classify before after [] [])).

Definition remove_of (it : Item) : Move.t K :=
  Move.remove (key it) (Z.of_nat (index it)).

Definition insert_of (it : Item) : Move.t K :=
  Move.insert (key it) (Z.of_nat (index it)).

(** The removals and insertions, applied to a copy of [source]. *)
Definition setMoves (source target : list K) : Moves :=
  let removed := removed_items source target in
  let inserted := inserted_items source target in
  let acc := {| moves := []; result := source |} in
  let acc := foldl (fun acc it => apply_move acc (remove_of it)) acc removed in
  foldl (fun acc it => apply_move acc (insert_of it)) acc inserted.

(** Running the [make] of every move of a list, in order. *)
Definition apply_moves (ms : list (Move.t K)) (items : list K) : list K :=
  foldl (fun items m => Move.make m items) items ms.

Definition calculateMoves (source target : list K)
    (favoredToMove : option K) : Moves :=
  let phase1 := setMoves source target in
  if deepEqual (result phase1) target then phase1
  else
    let defaultMoves := calculateIndexChanges (result phase1) target false in
    let chosen :=
      if (1 <? length (moves defaultMoves))%nat
         || favored_differs favoredToMove (moves defaultMoves)
      then
        let alternativeMoves :=
          calculateIndexChanges (result phase1) target true in
        if (length (moves alternativeMoves)
              <=? length (moves defaultMoves))%nat
        then alternativeMoves
        else defaultMoves
      else defaultMoves in
    {| moves := moves phase1 ++ moves chosen; result := result chosen |}.

End WithKey.
Arguments Item K : clear implicits.
Arguments Moves K : clear implicits.
End Reconciler.

(** ** The minimality bound

    The bound the operation count is compared with: the keys only one of
    the sequences has, and the keys of the source outside a longest common
    subsequence. *)

Section bound.
Context {K : Type} `{JSKey K}.

Definition difference (l1 l2 : list K) : list K :=
  filter (fun k => k ∉ l2) l1.

Fixpoint lcs_length (l1 l2 : list K) {struct l1} : nat :=
  match l1 with
  | [] => 0%nat
  | x :: l1' =>
      (fix walk (l2 : list K) : nat :=
         match l2 with
         | [] => 0%nat
         | y :: l2' =>
             if key_is x y then S (lcs_length l1' l2')
             else Nat.max (lcs_length l1' l2) (walk l2')
         end) l2
  end.

Definition minimality_bound (source target : list K) : nat :=
  (length (difference source target) + length (difference target source)
   + (length source - lcs_length source target))%nat.
End bound.

(** ** Values

    Props, states and DOM properties are JavaScript values.  Numbers are
    integers here, and a function is known by its identity; a listener
    bound by the sandbox also carries the function it was bound from, its
    [source]. *)

Record Function := mkFunction { fn_id : nat; fn_source : option nat }.

Inductive value : Type :=
| VUndefined
| VNull
| VBool (b : bool)
| VNum (n : Z)
| VStr (s : string)
| VFun (f : Function)
| VArr (items : list value)
| VObj (ctor : nat) (fields : list (string * value)).

(** Constructor identities: [Object], [ElementDescription],
    [ComponentDescription]. *)
Definition ObjectCtor : nat := 0.
Definition ElementDescriptionCtor : nat := 1.
Definition ComponentDescriptionCtor : nat := 2.

Definition plain (fields : list (string * value)) : value :=
  VObj ObjectCtor fields.

(** [object[key]] *)
Fixpoint get (key : string) (fields : list (string * value)) : value :=
  match fields with
  | [] => VUndefined
  | (k, v) :: fields' => if String.eqb k key then v else get key fields'
  end.

Definition truthy (v : value) : bool :=
  match v with
  | VUndefined | VNull => false
  | VBool b => b
  | VNum n => negb (n =? 0)
  | VStr s => negb (String.eqb s EmptyString)
  | VFun _ | VArr _ | VObj _ _ => true
  end.

(** The default comparison of [Array.prototype.sort] on strings. *)
Definition string_order (a b : string) : Z :=
  match String.compare a b with Lt => -1 | Eq => 0 | Gt => 1 end.

Fixpoint strings_equal (l1 l2 : list string) : bool :=
  match l1, l2 with
  | [], [] => true
  | a :: l1', b :: l2' => String.eqb a b && strings_equal l1' l2'
  | _, _ => false
  end.

Module DeepEqual.

Inductive Type_ :=
| t_undefined | t_boolean | t_number | t_string | t_function
| t_null | t_array | t_object.

(** [Diff.getType] *)
Definition getType (item : value) : Type_ :=
  match item with
  | VUndefined => t_undefined
  | VBool _ => t_boolean
  | VNum _ => t_number
  | VStr _ => t_string
  | VFun _ => t_function
  | VNull => t_null
  | VArr _ => t_array
  | VObj _ _ => t_object
  end.

(** [Object.is].  Two arrays or two objects are the same only as
    references, which values do not record: the answer for them is [false],
    and [deepEqual] then compares their contents, which are equal when the
    reference is the same. *)
Definition Object_is (a b : value) : bool :=
  match a, b with
  | VUndefined, VUndefined => true
  | VNull, VNull => true
  | VBool x, VBool y => Bool.eqb x y
  | VNum x, VNum y => x =? y
  | VStr x, VStr y => String.eqb x y
  | VFun f, VFun g => (fn_id f =? fn_id g)%nat
  | _, _ => false
  end.

(** [Diff.deepEqual].  For two objects the source walks the sorted key
    lists side by side, comparing the keys and then the values under them;
    here the sorted key lists are compared first and the values are then
    compared key by key, which answers the same. *)
Fixpoint deepEqual (current next : value) {struct current} : bool :=
  if Object_is current next then true
  else
    match current, next with
    | VArr items, VArr nextItems =>
        (length items =? length nextItems)%nat &&
        (fix each (l1 l2 : list value) {struct l1} : bool :=
           match l1, l2 with
           | x :: l1', y :: l2' => deepEqual x y && each l1' l2'
           | _, _ => true
           end) items nextItems
    | VObj ctor fields, VObj nextCtor nextFields =>
        (ctor =? nextCtor)%nat &&
        (length fields =? length nextFields)%nat &&
        strings_equal (js_sort string_order (fst <$> fields))
                      (js_sort string_order (fst <$> nextFields)) &&
        (fix each (l : list (string * value)) {struct l} : bool :=
           match l with
           | [] => true
           | (key, v) :: l' => deepEqual v (get key nextFields) && each l'
           end) fields
    | _, _ => false
    end.

End DeepEqual.

(** ** Descriptions *)

(** [ToNumber] of a string: the white space around the literal is dropped;
    the empty string is 0; the literal is [Infinity] or a decimal literal,
    with a sign or without, or a binary, octal or hexadecimal integer;
    every other string is [NaN].  The value of a literal is kept exactly,
    as an integer times a power of ten; the rounding to a double is not
    followed.  Strings hold code units below 256 here. *)
Inductive Number :=
| NaN
| Infinity (negative : bool)
| Finite (mantissa exponent : Z).

Module StringToNumber.

Definition code (c : ascii) : Z := Z.of_N (N_of_ascii c).

(** Tab, line feed, vertical tab, form feed, carriage return, space and
    the no-break space. *)
Definition isStrWhiteSpaceChar (c : ascii) : bool :=
  let n := code c in
  (n =? 9) || (n =? 10) || (n =? 11) || (n =? 12) || (n =? 13)
  || (n =? 32) || (n =? 160).

Fixpoint trimStart (l : list ascii) : list ascii :=
  match l with
  | c :: l' => if isStrWhiteSpaceChar c then trimStart l' else l
  | [] => []
  end.

Definition trim (l : list ascii) : list ascii :=
  reverse (trimStart (reverse (trimStart l))).

Definition digit (radix : Z) (c : ascii) : option Z :=
  let n := code c in
  let v := if (48 <=? n) && (n <=? 57) then n - 48
           else if (97 <=? n) && (n <=? 122) then n - 87
           else if (65 <=? n) && (n <=? 90) then n - 55
           else radix in
  if v <? radix then Some v else None.

(** The leading digits: their value on top of [acc], their number on top
    of [count], and what follows them. *)
Fixpoint digits (radix acc : Z) (count : nat) (l : list ascii)
    : Z * nat * list ascii :=
  match l with
  | c :: l' =>
      match digit radix c with
      | Some v => digits radix (acc * radix + v) (S count) l'
      | None => (acc, count, l)
      end
  | [] => (acc, count, [])
  end.

Definition is_char (s : string) (c : ascii) : bool :=
  bool_decide (c ∈ list_ascii_of_string s).

(** A sign, and what follows it. *)
Definition sign (l : list ascii) : bool * list ascii :=
  match l with
  | c :: l' =>
      if is_char "-" c then (true, l')
      else if is_char "+" c then (false, l')
      else (false, l)
  | [] => (false, [])
  end.

(** What follows the digits of a decimal literal: nothing, or an exponent
    part. *)
Definition exponentPart (l : list ascii) : option Z :=
  match l with
  | [] => Some 0
  | c :: l' =>
      if is_char "eE" c then
        let '(negative, l'') := sign l' in
        match digits 10 0 0 l'' with
        | (v, S _, []) => Some (if negative then - v else v)
        | _ => None
        end
      else None
  end.

Definition strUnsignedDecimalLiteral (l : list ascii) : Number :=
  if bool_decide (l = list_ascii_of_string "Infinity") then Infinity false
  else
    let '(int, n, rest) := digits 10 0 0 l in
    let '(mantissa, m, rest) :=
      match rest with
      | c :: rest' =>
          if is_char "." c then digits 10 int 0 rest' else (int, 0%nat, rest)
      | [] => (int, 0%nat, rest)
      end in
    if (n + m =? 0)%nat then NaN
    else
      match exponentPart rest with
      | Some e => Finite mantissa (e - Z.of_nat m)
      | None => NaN
      end.

Definition negate (n : Number) : Number :=
  match n with
  | NaN => NaN
  | Infinity negative => Infinity (negb negative)
  | Finite m e => Finite (- m) e
  end.

Definition nonDecimalIntegerLiteral (l : list ascii) : option Number :=
  match l with
  | zero :: c :: l' =>
      if is_char "0" zero then
        let radix := if is_char "xX" c then 16
                     else if is_char "oO" c then 8
                     else if is_char "bB" c then 2 else 0 in
        if radix =? 0 then None
        else
          match digits radix 0 0 l' with
          | (v, S _, []) => Some (Finite v 0)
          | _ => Some NaN
          end
      else None
  | _ => None
  end.

Definition StringToNumber (s : string) : Number :=
  match trim (list_ascii_of_string s) with
  | [] => Finite 0 0
  | l =>
      match nonDecimalIntegerLiteral l with
      | Some n => n
      | None =>
          match l with
          | c :: l' =>
              if is_char "-" c then negate (strUnsignedDecimalLiteral l')
              else if is_char "+" c then strUnsignedDecimalLiteral l'
              else strUnsignedDecimalLiteral l
          | [] => NaN
          end
      end
  end.

End StringToNumber.

(** [a > b] on numbers: [NaN] is above nothing and below nothing. *)
Definition number_gt (a b : Number) : bool :=
  match a, b with
  | NaN, _ | _, NaN => false
  | Infinity negative, Infinity negative' => negb negative && negative'
  | Infinity negative, Finite _ _ => negb negative
  | Finite _ _, Infinity negative => negative
  | Finite m e, Finite m' e' =>
      let low := Z.min e e' in
      m * 10 ^ (e - low) >? m' * 10 ^ (e' - low)
  end.

(** Keys of descriptions: numbers and strings.  Two strings are compared
    code unit by code unit; a string key against a number (the positional
    index of an unkeyed sibling) converts to a number first.  For a string
    that is not a numeric literal that is [NaN], and [>] answers [false]
    both ways. *)
Inductive Key := KeyNum (n : Z) | KeyStr (s : string).

#[export] Instance Key_eq_dec : EqDecision Key.
Proof. solve_decision. Defined.

Definition Key_ToNumber (k : Key) : Number :=
  match k with
  | KeyNum n => Finite n 0
  | KeyStr s => StringToNumber.StringToNumber s
  end.

#[export, refine] Instance Key_JSKey : JSKey Key := {|
  key_is a b := bool_decide (a = b);
  key_gt a b :=
    match a, b with
    | KeyStr x, KeyStr y => string_gt x y
    | _, _ => number_gt (Key_ToNumber a) (Key_ToNumber b)
    end;
  key_truthy a :=
    match a with
    | KeyNum n => negb (n =? 0)
    | KeyStr s => negb (String.eqb s EmptyString)
    end
|}.
Proof. intros a b. apply bool_decide_eq_true. Defined.

Definition key_value (k : Key) : value :=
  match k with KeyNum n => VNum n | KeyStr s => VStr s end.

Definition value_key (v : value) : option Key :=
  match v with
  | VNum n => Some (KeyNum n)
  | VStr s => Some (KeyStr s)
  | _ => None
  end.

Definition Strings := list (string * string).
Definition Props := list (string * value).
Definition Listeners := list (string * Function).

Record Custom := mkCustom {
  custom_attrs : option Strings;
  custom_listeners : option Listeners
}.

(** The fields of an element description other than its name, key and
    children; a field the template does not give is absent. *)
Record ElementFields := mkElementFields {
  class_ : option string;
  style : option Strings;
  attrs : option Strings;
  listeners : option Listeners;
  dataset : option Strings;
  properties : option Props;
  custom : option Custom;
  text : option string
}.

Inductive Description : Type :=
| ElementDescription (name : string) (key : option Key)
    (fields : ElementFields) (children : option (list Description))
| ComponentDescription (component : nat) (key : option Key)
    (props : option Props) (children : option (list Description)).

Module Description.

Definition key (d : Description) : option Key :=
  match d with
  | ElementDescription _ k _ _ | ComponentDescription _ k _ _ => k
  end.

Definition children (d : Description) : option (list Description) :=
  match d with
  | ElementDescription _ _ _ c | ComponentDescription _ _ _ c => c
  end.

(** [description.props]: element descriptions have none. *)
Definition props (d : Description) : option Props :=
  match d with
  | ElementDescription _ _ _ _ => None
  | ComponentDescription _ _ p _ => p
  end.

Definition fields (d : Description) : ElementFields :=
  match d with
  | ElementDescription _ _ f _ => f
  | ComponentDescription _ _ _ _ =>
      mkElementFields None None None None None None None None
  end.

Definition isComponent (d : Description) : bool :=
  match d with ComponentDescription _ _ _ _ => true | _ => false end.

Definition isElement (d : Description) : bool :=
  match d with ElementDescription _ _ _ _ => true | _ => false end.

(** [isCompatible]: the same constructor, and the same tag name or the
    same component. *)
Definition isCompatible (this description : Description) : bool :=
  match this, description with
  | ElementDescription name _ _ _, ElementDescription name' _ _ _ =>
      String.eqb name name'
  | ComponentDescription c _ _ _, ComponentDescription c' _ _ _ =>
      (c =? c')%nat
  | _, _ => false
  end.

Definition field {A} (name : string) (f : A -> value) (o : option A)
    : list (string * value) :=
  match o with Some a => [(name, f a)] | None => [] end.

Definition strings_value (m : Strings) : value :=
  plain (prod_map id VStr <$> m).

Definition listeners_value (m : Listeners) : value :=
  plain (prod_map id VFun <$> m).

Definition custom_value (c : Custom) : value :=
  plain (field "attrs" strings_value (custom_attrs c)
         ++ field "listeners" listeners_value (custom_listeners c)).

(** The description as the object [deepEqual] is given: its constructor
    and its enumerable properties. *)
Fixpoint to_value (d : Description) : value :=
  let children_value (c : list Description) : value :=
    VArr ((fix each (l : list Description) : list value :=
             match l with
             | [] => []
             | x :: l' => to_value x :: each l'
             end) c) in
  match d with
  | ElementDescription name key f children =>
      VObj ElementDescriptionCtor
        ([("name", VStr name); ("type", VStr "element")]
         ++ field "key" key_value key
         ++ field "class" VStr (class_ f)
         ++ field "style" strings_value (style f)
         ++ field "attrs" strings_value (attrs f)
         ++ field "listeners" listeners_value (listeners f)
         ++ field "dataset" strings_value (dataset f)
         ++ field "properties" plain (properties f)
         ++ field "custom" custom_value (custom f)
         ++ field "text" VStr (text f)
         ++ field "children" children_value children)
  | ComponentDescription component key props children =>
      VObj ComponentDescriptionCtor
        ([("component", VFun (mkFunction component None));
          ("type", VStr "component")]
         ++ field "props" plain props
         ++ field "key" key_value key
         ++ field "children" children_value children)
  end.

End Description.

(** ** Exceptions, state and the observable trace *)

Inductive Error :=
| TypeError (message : string)
| Thrown (message : string)
| DOMException (name : string)
| Unsupported (what : string)
| OutOfFuel.

Inductive Result (A : Type) : Type :=
| Ok (a : A)
| Throw (e : Error).
Arguments Ok {A} a.
Arguments Throw {A} e.

(** A computation on a mutable state that may throw; the state it had
    reached when it threw is kept. *)
Definition M (S A : Type) : Type := S -> S * Result A.

#[export] Instance M_ret {S} : MRet (M S) := fun A a s => (s, Ok a).

#[export] Instance M_bind {S} : MBind (M S) := fun A B k m s =>
  match m s with
  | (s', Ok a) => k a s'
  | (s', Throw e) => (s', Throw e)
  end.

Definition throw {S A} (e : Error) : M S A := fun s => (s, Throw e).
Definition get_state {S} : M S S := fun s => (s, Ok s).
Definition put_state {S} (s : S) : M S unit := fun _ => (s, Ok tt).

Fixpoint for_each {S A} (f : A -> M S unit) (l : list A) : M S unit :=
  match l with
  | [] => mret tt
  | x :: l' => f x ;; for_each f l'
  end.

Inductive Hook :=
| onCreated | onAttached | onPropsReceived | onUpdated
| onDestroyed | onDetached.

(** Calls into the backing target, on the [ref] of the nodes named. *)
Inductive BackingCall :=
| ContainerAppendChild (root : nat)
| ReplaceWith (old new : nat)
| SetAttribute (target : nat) (name value : string) (isCustom : bool)
| RemoveAttribute (target : nat) (name : string) (isCustom : bool)
| SetDataAttribute (target : nat) (name value : string)
| RemoveDataAttribute (target : nat) (name : string)
| SetStyleProperty (target : nat) (prop value : string)
| RemoveStyleProperty (target : nat) (prop : string)
| SetClassName (target : nat) (className : string)
| AddEventListener (target : nat) (name : string) (listener : Function)
    (isCustom : bool)
| RemoveEventListener (target : nat) (name : string) (listener : Function)
    (isCustom : bool)
| SetProperty (target : nat) (key : string) (v : value)
| DeleteProperty (target : nat) (key : string)
| InsertBefore (parent child : nat) (next : option nat)
| InsertAt (parent child : nat) (index : Z)
| RemoveChildRef (parent child : nat)
| PlaceholderReplaceWith (component child : nat)
| ReplaceWithPlaceholder (child component : nat)
| SetTextContent (target : nat) (text : string).

Inductive Event :=
| Called (hook : Hook) (component : nat)
| CleanedUp (component : nat)
| AssertionFailed (message : string)
| Backing (call : BackingCall).

(** ** Virtual nodes *)

(** The placeholder of a component without a child; its text names the
    class of the component. *)
Record Comment := mkComment {
  comment_class : nat;
  comment_parentNode : option nat
}.

(** A node is known by its identity [id]; a child is held by its parent,
    and points back to it with [parentNode]. *)
Inductive VirtualNode : Type :=
| VirtualElement (id : nat) (key : option Key) (parentNode : option nat)
    (description : Description) (children : option (list VirtualNode))
| Component (id : nat) (constructor : nat) (key : option Key)
    (parentNode : option nat) (description : Description)
    (child : option VirtualNode) (comment : option Comment)
    (state : option Props).

Module Node.

Definition id (n : VirtualNode) : nat :=
  match n with
  | VirtualElement i _ _ _ _ | Component i _ _ _ _ _ _ _ => i
  end.

Definition key (n : VirtualNode) : option Key :=
  match n with
  | VirtualElement _ k _ _ _ | Component _ _ k _ _ _ _ _ => k
  end.

Definition parentNode (n : VirtualNode) : option nat :=
  match n with
  | VirtualElement _ _ p _ _ | Component _ _ _ p _ _ _ _ => p
  end.

Definition description (n : VirtualNode) : Description :=
  match n with
  | VirtualElement _ _ _ d _ | Component _ _ _ _ d _ _ _ => d
  end.

Definition isComponent (n : VirtualNode) : bool :=
  match n with Component _ _ _ _ _ _ _ _ => true | _ => false end.

Definition isElement (n : VirtualNode) : bool :=
  match n with VirtualElement _ _ _ _ _ => true | _ => false end.

Definition children (n : VirtualNode) : option (list VirtualNode) :=
  match n with
  | VirtualElement _ _ _ _ c => c
  | Component _ _ _ _ _ _ _ _ => None
  end.

Definition child (n : VirtualNode) : option VirtualNode :=
  match n with
  | VirtualElement _ _ _ _ _ => None
  | Component _ _ _ _ _ c _ _ => c
  end.

Definition comment (n : VirtualNode) : option Comment :=
  match n with
  | VirtualElement _ _ _ _ _ => None
  | Component _ _ _ _ _ _ c _ => c
  end.

Definition state (n : VirtualNode) : option Props :=
  match n with
  | VirtualElement _ _ _ _ _ => None
  | Component _ _ _ _ _ _ _ s => s
  end.

Definition set_parentNode (p : option nat) (n : VirtualNode) : VirtualNode :=
  match n with
  | VirtualElement i k _ d c => VirtualElement i k p d c
  | Component i ctor k _ d c cm s => Component i ctor k p d c cm s
  end.

Definition set_description (d : Description) (n : VirtualNode)
    : VirtualNode :=
  match n with
  | VirtualElement i k p _ c => VirtualElement i k p d c
  | Component i ctor k p _ c cm s => Component i ctor k p d c cm s
  end.

Definition set_state (s : option Props) (n : VirtualNode) : VirtualNode :=
  match n with
  | VirtualElement i k p d c => VirtualElement i k p d c
  | Component i ctor k p d c cm _ => Component i ctor k p d c cm s
  end.

(** [a === b] on nodes. *)
Definition same (a b : VirtualNode) : bool := (id a =? id b)%nat.

(** [this.child === child], where [this.child] may be [null]. *)
Definition is_child (slot : option VirtualNode) (child : VirtualNode) : bool :=
  match slot with Some c => same c child | None => false end.

(** [children.indexOf(child)] *)
Fixpoint indexOf (child : VirtualNode) (children : list VirtualNode) : Z :=
  match children with
  | [] => -1
  | c :: children' =>
      if same c child then 0
      else let r := indexOf child children' in if r <? 0 then -1 else r + 1
  end.

(** [array[index]] for a number that may be negative. *)
Definition at_index' {A} (l : list A) (index : Z) : option A :=
  if index <? 0 then None else l !! Z.to_nat index.

Definition at_index (children : list VirtualNode) (index : Z)
    : option VirtualNode := at_index' children index.

(** The state of a method call: the receiver and the console. *)
Record Call := mkCall { this : VirtualNode; console : list Event }.

Definition emit (e : Event) : M Call unit := fun s =>
  (mkCall (this s) (console s ++ [e]), Ok tt).

Definition set_this (n : VirtualNode) : M Call unit := fun s =>
  (mkCall n (console s), Ok tt).

(** [opr.Toolkit.assert] is [console.assert]: a failed assertion is
    reported, and the caller goes on. *)
Definition assert (condition : bool) (message : string) : M Call unit :=
  if condition then mret tt else emit (AssertionFailed message).

End Node.

Module Component.
Import Node.

(** [new Comment(` ${this.constructor.name} `, this)] *)
Definition createComment (id constructor : nat) : Comment :=
  mkComment constructor (Some id).

(** [new ComponentClass(description, parentNode)]: no child, and the
    placeholder comment. *)
Definition new (id constructor : nat) (description : Description)
    (parentNode : option nat) : VirtualNode :=
  Component id constructor (Description.key description) parentNode
    description None (Some (createComment id constructor)) None.

Definition appendChild (child : VirtualNode) : M Call unit :=
  s ← get_state;
  match this s with
  | Component id ctor k p d _ comment st =>
      (* this.child = child; this.child.parentNode = this; *)
      set_this
        (Component id ctor k p d (Some (set_parentNode (Some id) child))
           comment st) ;;
      match comment with
      | None =>
          throw (TypeError "Cannot set properties of null (parentNode)")
      | Some _ =>
          (* this.comment.parentNode = null; this.comment = null; *)
          set_this
            (Component id ctor k p d (Some (set_parentNode (Some id) child))
               None st)
      end
  | VirtualElement _ _ _ _ _ =>
      throw (TypeError "appendChild is not a function")
  end.

Definition removeChild (child : VirtualNode) : M Call unit :=
  s ← get_state;
  match this s with
  | Component id ctor k p d this_child comment st =>
      assert (is_child this_child child)
        "Specified node is not a child of this node" ;;
      match this_child with
      | None =>
          throw (TypeError "Cannot set properties of null (parentNode)")
      | Some _ =>
          (* this.child.parentNode = null; this.child = null;
             this.comment = this.createComment(); *)
          set_this
            (Component id ctor k p d None (Some (createComment id ctor)) st)
      end
  | VirtualElement _ _ _ _ _ =>
      throw (TypeError "not a component")
  end.

Definition replaceChild (child node : VirtualNode) : M Call unit :=
  s ← get_state;
  match this s with
  | Component id ctor k p d this_child comment st =>
      assert (is_child this_child child)
        "Specified node is not a child of this node" ;;
      match this_child with
      | None =>
          throw (TypeError "Cannot set properties of null (parentNode)")
      | Some _ =>
          (* this.child.parentNode = null; this.child = node;
             this.child.parentNode = this; *)
          set_this
            (Component id ctor k p d (Some (set_parentNode (Some id) node))
               comment st)
      end
  | VirtualElement _ _ _ _ _ =>
      throw (TypeError "not a component")
  end.

(** The [placeholder] getter: the comment of the component, or of the
    component it renders; [None] is [null]. *)
Fixpoint placeholder (this : VirtualNode) : option Comment :=
  match this with
  | Component _ _ _ _ _ child comment _ =>
      match comment with
      | Some c => Some c
      | None =>
          match child with
          | Some c => if isComponent c then placeholder c else None
          | None => None
          end
      end
  | VirtualElement _ _ _ _ _ => None
  end.

End Component.

Module VirtualElement.
Import Node.

(** [new VirtualElement(description, parentNode)], given the nodes made
    for the child descriptions. *)
Definition new (id : nat) (description : Description)
    (parentNode : option nat) (children : option (list VirtualNode))
    : VirtualNode :=
  VirtualElement id
    (match Description.key description with
     | Some k => if key_truthy k then Some k else None
     | None => None
     end)
    parentNode description children.

(** [this.ref.removeChild(child.ref)].  The [ref] of an element holds the
    [ref]s of the nodes in its child list, and no others; for a node that
    is not among them the backing target throws a [NotFoundError]. *)
Definition ref_removeChild (id : nat) (child : VirtualNode)
    (children : list VirtualNode) : M Call unit :=
  emit (Backing (RemoveChildRef id (Node.id child))) ;;
  if 0 <=? indexOf child children then mret tt
  else throw (DOMException "NotFoundError").

Definition insertChild (child : VirtualNode) (index : Z) : M Call unit :=
  s ← get_state;
  match this s with
  | VirtualElement id k p d children =>
      let children := default [] children in
      let nextChild := at_index children index in
      set_this
        (VirtualElement id k p d
           (Some (splice index 0 [set_parentNode (Some id) child] children)))
      ;;
      emit (Backing (InsertBefore id (Node.id child)
                       (Node.id <$> nextChild)))
  | Component _ _ _ _ _ _ _ _ =>
      throw (TypeError "insertChild is not a function")
  end.

Definition moveChild (child : VirtualNode) (from to : Z) : M Call unit :=
  s ← get_state;
  match this s with
  | VirtualElement id k p d (Some children) =>
      let found := at_index children from in
      assert (is_child found child)
        "Specified node is not a child of this element" ;;
      (* the node spliced in is [child]: the one at [from] when the
         assertion holds *)
      let moved := if is_child found child then default child found
                   else child in
      set_this
        (VirtualElement id k p d
           (Some (splice to 0 [moved] (splice from 1 [] children)))) ;;
      ref_removeChild id child children ;;
      emit (Backing (InsertAt id (Node.id child) to))
  | VirtualElement _ _ _ _ None =>
      throw (TypeError "Cannot read properties of undefined (children)")
  | Component _ _ _ _ _ _ _ _ =>
      throw (TypeError "moveChild is not a function")
  end.

Definition replaceChild (child node : VirtualNode) : M Call unit :=
  s ← get_state;
  match this s with
  | VirtualElement id k p d (Some children) =>
      let index := indexOf child children in
      assert (0 <=? index) "Specified node is not a child of this element" ;;
      set_this
        (VirtualElement id k p d
           (Some (splice index 1 [set_parentNode (Some id) node] children)))
      ;;
      emit (Backing (ReplaceWith (Node.id child) (Node.id node)))
  | VirtualElement _ _ _ _ None =>
      throw (TypeError "Cannot read properties of undefined (indexOf)")
  | Component _ _ _ _ _ _ _ _ =>
      throw (TypeError "not an element")
  end.

Definition removeChild (child : VirtualNode) : M Call unit :=
  s ← get_state;
  match this s with
  | VirtualElement id k p d (Some children) =>
      let index := indexOf child children in
      assert (0 <=? index) "Specified node is not a child of this element" ;;
      set_this (VirtualElement id k p d (Some (splice index 1 [] children)))
      ;;
      ref_removeChild id child children
  | VirtualElement _ _ _ _ None =>
      throw (TypeError "Cannot read properties of undefined (indexOf)")
  | Component _ _ _ _ _ _ _ _ =>
      throw (TypeError "not an element")
  end.

End VirtualElement.

(** ** Patches *)

(** A patch captures the nodes it refers to; their [id] says which node of
    the tree is meant. *)
Inductive Patch : Type :=
| initRootComponent (root : VirtualNode)
| updateNode (node : VirtualNode) (prevDescription description : Description)
| appendChild (child parent : VirtualNode)
| replaceChild (child node parent : VirtualNode)
| removeChild (child parent : VirtualNode)
| setAttribute (name value : string) (target : VirtualNode) (isCustom : bool)
| removeAttribute (name : string) (target : VirtualNode) (isCustom : bool)
| setDataAttribute (name value : string) (target : VirtualNode)
| removeDataAttribute (name : string) (target : VirtualNode)
| setStyleProperty (property value : string) (target : VirtualNode)
| removeStyleProperty (property : string) (target : VirtualNode)
| setClassName (className : string) (target : VirtualNode)
| addListener (name : string) (listener : Function) (target : VirtualNode)
    (isCustom : bool)
| replaceListener (name : string) (removed added : Function)
    (target : VirtualNode) (isCustom : bool)
| removeListener (name : string) (listener : Function) (target : VirtualNode)
    (isCustom : bool)
| setProperty (key : string) (v : value) (target : VirtualNode)
| deleteProperty (key : string) (target : VirtualNode)
| insertChildNode (node : VirtualNode) (at_ : Z) (parent : VirtualNode)
| moveChildNode (node : VirtualNode) (from to : Z) (parent : VirtualNode)
| replaceChildNode (child node parent : VirtualNode)
| removeChildNode (node : VirtualNode) (at_ : Z) (parent : VirtualNode)
| setTextContent (element : VirtualNode) (text : string)
| removeTextContent (element : VirtualNode).

(** The state of one command: the tree under the root, the patch list of
    the [Diff], the next free node identity, and the trace. *)
Record World := mkWorld {
  root : VirtualNode;
  patches : list Patch;
  nextId : nat;
  events : list Event
}.

Module Tree.

(** The node of the tree with a given identity. *)
Fixpoint find (id : nat) (n : VirtualNode) : option VirtualNode :=
  if (Node.id n =? id)%nat then Some n
  else
    match n with
    | VirtualElement _ _ _ _ (Some children) =>
        (fix each (l : list VirtualNode) : option VirtualNode :=
           match l with
           | [] => None
           | c :: l' =>
               match find id c with
               | Some r => Some r
               | None => each l'
               end
           end) children
    | Component _ _ _ _ _ (Some c) _ _ => find id c
    | _ => None
    end.

(** The tree after the node with a given identity has changed. *)
Fixpoint replace (id : nat) (new : VirtualNode) (n : VirtualNode)
    : VirtualNode :=
  if (Node.id n =? id)%nat then new
  else
    match n with
    | VirtualElement i k p d (Some children) =>
        VirtualElement i k p d
          (Some ((fix each (l : list VirtualNode) : list VirtualNode :=
                    match l with
                    | [] => []
                    | c :: l' => replace id new c :: each l'
                    end) children))
    | Component i ctor k p d (Some c) cm st =>
        Component i ctor k p d (Some (replace id new c)) cm st
    | _ => n
    end.

(** A method call on a node a patch refers to: the receiver is the node of
    the tree with that identity (the captured node itself when the tree
    does not hold it), and what the method makes of it goes back into the
    tree. *)
Definition call {A} (target : VirtualNode) (method : M Node.Call A)
    : M World A := fun w =>
  let receiver := default target (find (Node.id target) (root w)) in
  let '(c, r) := method (Node.mkCall receiver (events w)) in
  (mkWorld (replace (Node.id target) (Node.this c) (root w))
     (patches w) (nextId w) (Node.console c), r).

End Tree.

Module Patch.
Import Node.

(** [parent.replaceChild] and [parent.removeChild] are the methods of the
    class of the parent. *)
Definition parent_replaceChild (child node : VirtualNode) : M Call unit :=
  s ← get_state;
  if isComponent (this s) then Component.replaceChild child node
  else VirtualElement.replaceChild child node.

Definition parent_removeChild (child : VirtualNode) : M Call unit :=
  s ← get_state;
  if isComponent (this s) then Component.removeChild child
  else VirtualElement.removeChild child.

Definition on_ref (target : VirtualNode) (c : nat -> BackingCall)
    : M World unit :=
  Tree.call target (emit (Backing (c (id target)))).

Definition apply (p : Patch) : M World unit :=
  match p with
  | initRootComponent root =>
      Tree.call root
        (s ← get_state;
         match Component.placeholder (this s) with
         | Some _ => emit (Backing (ContainerAppendChild (id root)))
         | None => throw (TypeError "Cannot read properties of null (ref)")
         end)
  | updateNode node _ description =>
      Tree.call node
        (s ← get_state; set_this (set_description description (this s)))
  | appendChild child parent =>
      Tree.call parent
        (s ← get_state;
         match Component.placeholder (this s) with
         | Some _ =>
             Component.appendChild child ;;
             emit (Backing (PlaceholderReplaceWith (id parent) (id child)))
         | None => throw (TypeError "Cannot read properties of null (ref)")
         end)
  | replaceChild child node parent =>
      Tree.call parent
        (parent_replaceChild child node ;;
         emit (Backing (ReplaceWith (id child) (id node))))
  | removeChild child parent =>
      Tree.call parent
        (parent_removeChild child ;;
         s ← get_state;
         match Component.placeholder (this s) with
         | Some _ =>
             emit (Backing (ReplaceWithPlaceholder (id child) (id parent)))
         | None => throw (TypeError "Cannot read properties of null (ref)")
         end)
  | setAttribute name value target isCustom =>
      on_ref target (fun t => SetAttribute t name value isCustom)
  | removeAttribute name target isCustom =>
      on_ref target (fun t => RemoveAttribute t name isCustom)
  | setDataAttribute name value target =>
      on_ref target (fun t => SetDataAttribute t name value)
  | removeDataAttribute name target =>
      on_ref target (fun t => RemoveDataAttribute t name)
  | setStyleProperty property value target =>
      on_ref target (fun t => SetStyleProperty t property value)
  | removeStyleProperty property target =>
      on_ref target (fun t => RemoveStyleProperty t property)
  | setClassName className target =>
      on_ref target (fun t => SetClassName t className)
  | addListener name listener target isCustom =>
      on_ref target (fun t => AddEventListener t name listener isCustom)
  | replaceListener name removed added target isCustom =>
      on_ref target (fun t => RemoveEventListener t name removed isCustom) ;;
      on_ref target (fun t => AddEventListener t name added isCustom)
  | removeListener name listener target isCustom =>
      on_ref target (fun t => RemoveEventListener t name listener isCustom)
  | setProperty key v target =>
      on_ref target (fun t => SetProperty t key v)
  | deleteProperty key target =>
      on_ref target (fun t => DeleteProperty t key)
  | insertChildNode node at_ parent =>
      Tree.call parent (VirtualElement.insertChild node at_)
  | moveChildNode node from to parent =>
      Tree.call parent (VirtualElement.moveChild node from to)
  | replaceChildNode child node parent =>
      Tree.call parent (parent_replaceChild child node)
  | removeChildNode node at_ parent =>
      Tree.call parent (parent_removeChild node)
  | setTextContent element text =>
      on_ref element (fun t => SetTextContent t text)
  | removeTextContent element =>
      on_ref element (fun t => SetTextContent t "")
  end.

End Patch.

(** ** The toolkit a tree is rendered by

    Whether it runs in debug mode, and what the component classes say:
    which ones are roots, which lifecycle methods a class defines itself,
    and the description of what [render] returns for given props and
    children. *)
Record Toolkit := mkToolkit {
  isDebug : bool;
  isRootClass : nat -> bool;
  hasOwnMethod : nat -> Hook -> bool;
  render : nat -> Props -> list Description -> Result (option Description)
}.

(** ** Lifecycle

    The lifecycle methods of the components are user code; the trace
    records which method runs on which component, in order. *)

Module Lifecycle.
Section WithToolkit.
Context (toolkit : Toolkit).

Definition call (hook : Hook) (id constructor : nat) : list Event :=
  if hasOwnMethod toolkit constructor hook then [Called hook id] else [].

Fixpoint onNodeCreated (node : VirtualNode) : list Event :=
  match node with
  | VirtualElement _ _ _ _ None => []
  | VirtualElement _ _ _ _ (Some children) =>
      (fix each (l : list VirtualNode) : list Event :=
         match l with
         | [] => []
         | child :: l' => onNodeCreated child ++ each l'
         end) children
  | Component id ctor _ _ _ child _ _ =>
      if isRootClass toolkit ctor then []
      else
        call onCreated id ctor
        ++ match child with Some c => onNodeCreated c | None => [] end
  end.

Definition onRootCreated (root : VirtualNode) : list Event :=
  match root with
  | Component id ctor _ _ _ _ _ _ => call onCreated id ctor
  | VirtualElement _ _ _ _ _ => []
  end.

Fixpoint onNodeAttached (node : VirtualNode) : list Event :=
  match node with
  | VirtualElement _ _ _ _ None => []
  | VirtualElement _ _ _ _ (Some children) =>
      (fix each (l : list VirtualNode) : list Event :=
         match l with
         | [] => []
         | child :: l' => onNodeAttached child ++ each l'
         end) children
  | Component id ctor _ _ _ child _ _ =>
      if isRootClass toolkit ctor then []
      else
        match child with Some c => onNodeAttached c | None => [] end
        ++ call onAttached id ctor
  end.

Definition onRootAttached (root : VirtualNode) : list Event :=
  match root with
  | Component id ctor _ _ _ _ _ _ => call onAttached id ctor
  | VirtualElement _ _ _ _ _ => []
  end.

Definition onNodeReceivedDescription (node : VirtualNode)
    (description : Description) : list Event :=
  match node with
  | Component id ctor _ _ _ _ _ _ => call onPropsReceived id ctor
  | VirtualElement _ _ _ _ _ => []
  end.

Definition onNodeUpdated (node : VirtualNode) (prevDescription : Description)
    : list Event :=
  match node with
  | Component id ctor _ _ _ _ _ _ => call onUpdated id ctor
  | VirtualElement _ _ _ _ _ => []
  end.

Fixpoint onNodeDestroyed (node : VirtualNode) : list Event :=
  match node with
  | VirtualElement _ _ _ _ None => []
  | VirtualElement _ _ _ _ (Some children) =>
      (fix each (l : list VirtualNode) : list Event :=
         match l with
         | [] => []
         | child :: l' => onNodeDestroyed child ++ each l'
         end) children
  | Component id ctor _ _ _ child _ _ =>
      if isRootClass toolkit ctor then []
      else
        CleanedUp id :: call onDestroyed id ctor
        ++ match child with Some c => onNodeDestroyed c | None => [] end
  end.

Fixpoint onNodeDetached (node : VirtualNode) : list Event :=
  match node with
  | VirtualElement _ _ _ _ None => []
  | VirtualElement _ _ _ _ (Some children) =>
      (fix each (l : list VirtualNode) : list Event :=
         match l with
         | [] => []
         | child :: l' => onNodeDetached child ++ each l'
         end) children
  | Component id ctor _ _ _ child _ _ =>
      if isRootClass toolkit ctor then []
      else
        match child with Some c => onNodeDetached c | None => [] end
        ++ call onDetached id ctor
  end.

Definition beforePatchApplied (patch : Patch) : list Event :=
  match patch with
  | appendChild child _ => onNodeCreated child
  | initRootComponent root => onRootCreated root
  | insertChildNode node _ _ => onNodeCreated node
  | removeChildNode node _ _ => onNodeDestroyed node
  | removeChild child _ => onNodeDestroyed child
  | replaceChild child node _ => onNodeDestroyed child ++ onNodeCreated node
  | updateNode node _ description =>
      onNodeReceivedDescription node description
  | _ => []
  end.

Definition beforeUpdate (patches : list Patch) : list Event :=
  concat (beforePatchApplied <$> patches).

Definition afterPatchApplied (patch : Patch) : list Event :=
  match patch with
  | appendChild child _ => onNodeAttached child
  | initRootComponent root => onRootAttached root
  | insertChildNode node _ _ => onNodeAttached node
  | removeChildNode node _ _ => onNodeDetached node
  | removeChild child _ => onNodeDetached child
  | replaceChild child node _ => onNodeDetached child ++ onNodeAttached node
  | updateNode node prevDescription _ => onNodeUpdated node prevDescription
  | _ => []
  end.

Definition afterUpdate (patches : list Patch) : list Event :=
  concat (afterPatchApplied <$> reverse patches).

End WithToolkit.
End Lifecycle.

(** ** Diff *)

Module Diff.
Section WithToolkit.
Context (toolkit : Toolkit).
Import Node.

Definition addPatch (patch : Patch) : M World unit := fun w =>
  (mkWorld (root w) (patches w ++ [patch]) (nextId w) (events w), Ok tt).

(** The identity of a node about to be made. *)
Definition fresh : M World nat := fun w =>
  (mkWorld (root w) (patches w) (S (nextId w)) (events w), Ok (nextId w)).

Definition lift {A} (r : Result A) : M World A := fun w => (w, r).

(** A method call on a node that is not in the tree yet. *)
Definition invoke (receiver : VirtualNode) (method : M Call unit)
    : M World VirtualNode := fun w =>
  let '(c, r) := method (mkCall receiver (events w)) in
  (mkWorld (root w) (patches w) (nextId w) (console c),
   match r with Ok _ => Ok (this c) | Throw e => Throw e end).

Fixpoint map_each {A B} (f : A -> M World B) (l : list A)
    : M World (list B) :=
  match l with
  | [] => mret []
  | x :: l' => y ← f x; ys ← map_each f l'; mret (y :: ys)
  end.

(** [Diff.deepEqual] on two descriptions. *)
Definition deepEqual (current next : Description) : bool :=
  DeepEqual.deepEqual (Description.to_value current)
    (Description.to_value next).

(** [Renderer.render]: the description of what the component renders for
    the props and children given, both empty when absent. *)
Definition Renderer_render (constructor : nat) (props : option Props)
    (children : option (list Description)) : M World (option Description) :=
  lift (render toolkit constructor (default [] props) (default [] children)).

(** [VirtualDOM.createFromDescription].  A component renders what it
    likes, so the recursion is bounded by [fuel]. *)
Fixpoint createFromDescription (fuel : nat) (description : Description)
    (parentNode : option nat) : M World VirtualNode :=
  match fuel with
  | O => throw OutOfFuel
  | S fuel =>
      match description with
      | ElementDescription _ _ _ children =>
          id ← fresh;
          nodes ←
            match children with
            | Some l =>
                l' ← map_each
                       (fun child =>
                          createFromDescription fuel child (Some id)) l;
                mret (Some l')
            | None => mret None
            end;
          mret (VirtualElement.new id description parentNode nodes)
      | ComponentDescription component _ props children =>
          if isRootClass toolkit component
          then throw (Unsupported "a root component inside a tree")
          else
            id ← fresh;
            let component_ :=
              Component.new id component description parentNode in
            childDescription ← Renderer_render component props children;
            match childDescription with
            | Some d =>
                child ← createFromDescription fuel d (Some id);
                invoke component_ (Component.appendChild child)
            | None => mret component_
            end
      end
  end.

Section patches.
Context (create : Description -> option nat -> M World VirtualNode).
Context (childPatches : VirtualNode -> Description -> M World unit).

Definition classNamePatches (current next : option string)
    (target : VirtualNode) : M World unit :=
  let current := default "" current in
  let next := default "" next in
  if String.eqb current next then mret tt
  else addPatch (setClassName next target).

(** The keys of a map that another map lacks, and the keys both have under
    values that differ. *)
Definition keys {V} (m : list (string * V)) : list string := fst <$> m.

Definition includes (key : string) (l : list string) : bool :=
  existsb (String.eqb key) l.

Fixpoint lookup_key {V} (key : string) (m : list (string * V)) : option V :=
  match m with
  | [] => None
  | (k, v) :: m' => if String.eqb k key then Some v else lookup_key key m'
  end.

Definition added {V} (current next : list (string * V)) : list string :=
  List.filter (fun key => negb (includes key (keys current))) (keys next).

Definition removed {V} (current next : list (string * V)) : list string :=
  List.filter (fun key => negb (includes key (keys next))) (keys current).

Definition changed {V} (differ : V -> V -> bool)
    (current next : list (string * V)) : list string :=
  List.filter
    (fun key =>
       includes key (keys next) &&
       match lookup_key key current, lookup_key key next with
       | Some a, Some b => differ a b
       | _, _ => false
       end)
    (keys current).

Definition string_differs (a b : string) : bool := negb (String.eqb a b).

Definition for_keys {V} (l : list string) (m : list (string * V))
    (f : string -> V -> Patch) : M World unit :=
  for_each
    (fun key =>
       match lookup_key key m with
       | Some v => addPatch (f key v)
       | None => mret tt
       end) l.

Definition stylePatches (current next : option Strings)
    (target : VirtualNode) : M World unit :=
  let current := default [] current in
  let next := default [] next in
  for_keys (added current next) next
    (fun prop v => setStyleProperty prop v target) ;;
  for_each (fun prop => addPatch (removeStyleProperty prop target))
    (removed current next) ;;
  for_keys (changed string_differs current next) next
    (fun prop v => setStyleProperty prop v target).

Definition attributePatches (current next : option Strings)
    (target : VirtualNode) (isCustom : bool) : M World unit :=
  let current := default [] current in
  let next := default [] next in
  for_keys (added current next) next
    (fun attr v => setAttribute attr v target isCustom) ;;
  for_each (fun attr => addPatch (removeAttribute attr target isCustom))
    (removed current next) ;;
  for_keys (changed string_differs current next) next
    (fun attr v => setAttribute attr v target isCustom).

(** [current[event] !== next[event] &&
     (current[event].source === undefined &&
      next[event].source === undefined ||
      current[event].source !== next[event].source)] *)
Definition listener_changed (current next : Function) : bool :=
  negb (fn_id current =? fn_id next)%nat &&
  (match fn_source current, fn_source next with
   | None, None => true
   | _, _ => false
   end
   || negb (bool_decide (fn_source current = fn_source next))).

Definition listenerPatches (current next : option Listeners)
    (target : VirtualNode) (isCustom : bool) : M World unit :=
  let current := default [] current in
  let next := default [] next in
  for_keys (added current next) next
    (fun event l => addListener event l target isCustom) ;;
  for_keys (removed current next) current
    (fun event l => removeListener event l target isCustom) ;;
  for_each
    (fun event =>
       match lookup_key event current, lookup_key event next with
       | Some c, Some n => addPatch (replaceListener event c n target isCustom)
       | _, _ => mret tt
       end)
    (changed listener_changed current next).

Definition datasetPatches (current next : option Strings)
    (target : VirtualNode) : M World unit :=
  let current := default [] current in
  let next := default [] next in
  for_keys (added current next) next
    (fun attr v => setDataAttribute attr v target) ;;
  for_each (fun attr => addPatch (removeDataAttribute attr target))
    (removed current next) ;;
  for_keys (changed string_differs current next) next
    (fun attr v => setDataAttribute attr v target).

Definition propertiesPatches (current next : option Props)
    (target : VirtualNode) : M World unit :=
  let current := default [] current in
  let next := default [] next in
  for_keys (added current next) next
    (fun key v => setProperty key v target) ;;
  for_each (fun key => addPatch (deleteProperty key target))
    (removed current next) ;;
  for_keys (changed (fun a b => negb (DeepEqual.deepEqual a b)) current next)
    next (fun key v => setProperty key v target).

Definition elementChildPatches (child : VirtualNode)
    (description : option Description) (parent : VirtualNode)
    : M World unit :=
  match description with
  | None =>
      throw (TypeError "Cannot read properties of undefined (constructor)")
  | Some description =>
      if Description.isCompatible (Node.description child) description
      then
        if deepEqual (Node.description child) description then mret tt
        else childPatches child description
      else
        node ← create description (Some (id parent));
        addPatch (replaceChildNode child node parent)
  end.

(** [description.key || index] *)
Definition key_or_index (key : option Key) (index : nat) : Key :=
  match key with
  | Some k => if key_truthy k then k else KeyNum (Z.of_nat index)
  | None => KeyNum (Z.of_nat index)
  end.

Definition unique_keys (l : list Key) : bool := bool_decide (NoDup l).

(** [node.description.props && node.description.props.beingDragged] *)
Definition beingDragged (node : VirtualNode) : bool :=
  match Description.props (Node.description node) with
  | Some props => truthy (get "beingDragged" props)
  | None => false
  end.

(** What the loop over the moves keeps: the nodes created, by key, and the
    child list the moves are replayed on. *)
Record Replay := mkReplay {
  created : list VirtualNode;
  createdNodesMap : list (Key * VirtualNode);
  replayed : list VirtualNode
}.

Fixpoint map_get (key : Key) (m : list (Key * VirtualNode))
    : option VirtualNode :=
  match m with
  | [] => None
  | (k, v) :: m' => if key_is k key then Some v else map_get key m'
  end.

(** [new Map().set(key, node)]: a later entry for the same key replaces
    the earlier one. *)
Definition map_set (key : Key) (node : VirtualNode)
    (m : list (Key * VirtualNode)) : list (Key * VirtualNode) :=
  (key, node) :: m.

Definition getNode (sourceNodes : list VirtualNode)
    (targetDescriptions : list Description) (from to : list Key)
    (parent : VirtualNode) (key : Key) (isMove : bool) (r : Replay)
    : M World (VirtualNode * Replay) :=
  let undefined := TypeError "Cannot read properties of undefined" in
  let at_ := Reconciler.indexOf key from in
  if 0 <=? at_ then
    match sourceNodes !! Z.to_nat at_ with
    | Some node => mret (node, r)
    | None => throw undefined
    end
  else if isMove then
    match map_get key (createdNodesMap r) with
    | Some node => mret (node, r)
    | None => throw undefined
    end
  else
    let index := Reconciler.indexOf key to in
    match Node.at_index' targetDescriptions index with
    | Some description =>
        node ← create description (Some (id parent));
        mret (node,
              mkReplay (created r ++ [node])
                (map_set key node (createdNodesMap r)) (replayed r))
    | None => throw undefined
    end.

Definition replayMove (sourceNodes : list VirtualNode)
    (targetDescriptions : list Description) (from to : list Key)
    (parent : VirtualNode) (r : Replay) (move : Move.t Key)
    : M World Replay :=
  '(node, r) ← getNode sourceNodes targetDescriptions from to parent
                 (Move.item move)
                 (match Move.name move with Move.MOVE => true | _ => false end)
                 r;
  match move with
  | Move.remove _ at_ =>
      addPatch (removeChildNode node at_ parent) ;;
      mret (mkReplay (created r) (createdNodesMap r)
              (Move.make (Move.remove node at_) (replayed r)))
  | Move.insert _ at_ =>
      addPatch (insertChildNode node at_ parent) ;;
      mret (mkReplay (created r) (createdNodesMap r)
              (Move.make (Move.insert node at_) (replayed r)))
  | Move.move _ from_ to_ =>
      addPatch (moveChildNode node from_ to_ parent) ;;
      mret (mkReplay (created r) (createdNodesMap r)
              (Move.make (Move.move node from_ to_) (replayed r)))
  end.

Fixpoint replayMoves (sourceNodes : list VirtualNode)
    (targetDescriptions : list Description) (from to : list Key)
    (parent : VirtualNode) (r : Replay) (moves : list (Move.t Key))
    : M World Replay :=
  match moves with
  | [] => mret r
  | move :: moves' =>
      r' ← replayMove sourceNodes targetDescriptions from to parent r move;
      replayMoves sourceNodes targetDescriptions from to parent r' moves'
  end.

Definition elementChildrenPatches (sourceNodes : option (list VirtualNode))
    (targetDescriptions : option (list Description)) (parent : VirtualNode)
    : M World unit :=
  let sourceNodes := default [] sourceNodes in
  let targetDescriptions := default [] targetDescriptions in
  let from :=
    imap (fun index node =>
            key_or_index (Description.key (Node.description node)) index)
      sourceNodes in
  let to :=
    imap (fun index description =>
            key_or_index (Description.key description) index)
      targetDescriptions in
  (if isDebug toolkit && negb (unique_keys from && unique_keys to)
   then throw (Thrown "Non-unique keys detected in:")
   else mret tt) ;;
  let nodeFavoredToMove := List.find beingDragged sourceNodes in
  let moves :=
    Reconciler.calculateMoves from to (nodeFavoredToMove ≫= Node.key) in
  r ← replayMoves sourceNodes targetDescriptions from to parent
        (mkReplay [] [] sourceNodes) (Reconciler.moves moves);
  for_each
    (fun '(i, child) =>
       if existsb (same child) (created r) then mret tt
       else elementChildPatches child (targetDescriptions !! i) parent)
    (imap (fun i child => (i, child)) (replayed r)).

Definition isDefined {A} (v : option A) : bool :=
  match v with Some _ => true | None => false end.

Definition elementPatches (element : VirtualNode) (description : Description)
    : M World unit :=
  let current := Node.description element in
  if deepEqual current description then mret tt
  else
    let cur := Description.fields current in
    let next := Description.fields description in
    classNamePatches (class_ cur) (class_ next) element ;;
    stylePatches (style cur) (style next) element ;;
    attributePatches (attrs cur) (attrs next) element false ;;
    listenerPatches (listeners cur) (listeners next) element false ;;
    datasetPatches (dataset cur) (dataset next) element ;;
    propertiesPatches (properties cur) (properties next) element ;;
    (if isDefined (custom cur) || isDefined (custom next)
     then
       attributePatches (custom cur ≫= custom_attrs)
         (custom next ≫= custom_attrs) element true ;;
       listenerPatches (custom cur ≫= custom_listeners)
         (custom next ≫= custom_listeners) element true
     else mret tt) ;;
    (if isDefined (text cur) && negb (isDefined (text next))
     then addPatch (removeTextContent element)
     else mret tt) ;;
    (if isDefined (Node.children element)
        || isDefined (Description.children description)
     then elementChildrenPatches (Node.children element)
            (Description.children description) element
     else mret tt) ;;
    match text next with
    | Some t =>
        if bool_decide (text cur = Some t) then mret tt
        else addPatch (setTextContent element t)
    | None => mret tt
    end ;;
    addPatch (updateNode element current description).

Definition componentChildPatches (child : option VirtualNode)
    (description : option Description) (parent : VirtualNode)
    : M World unit :=
  match child, description with
  | None, None => mret tt
  | None, Some description =>
      node ← create description (Some (id parent));
      addPatch (appendChild node parent)
  | Some child, None => addPatch (removeChild child parent)
  | Some child, Some description =>
      if Description.isCompatible (Node.description child) description
      then
        if deepEqual (Node.description child) description then mret tt
        else childPatches child description
      else
        node ← create description (Some (id parent));
        addPatch (replaceChild child node parent)
  end.

Definition constructor_of (component : VirtualNode) : nat :=
  match component with
  | Component _ ctor _ _ _ _ _ _ => ctor
  | VirtualElement _ _ _ _ _ => 0%nat
  end.

Definition isRoot (node : VirtualNode) : bool :=
  match node with
  | Component _ ctor _ _ _ _ _ _ => isRootClass toolkit ctor
  | VirtualElement _ _ _ _ _ => false
  end.

Definition componentPatches (component : VirtualNode)
    (description : Description) : M World unit :=
  let current := Node.description component in
  if deepEqual current description
     && (if isRoot component then isDefined (Node.state component) else true)
  then mret tt
  else
    childDescription ←
      Renderer_render (constructor_of component)
        (Description.props description) (Description.children description);
    componentChildPatches (Node.child component) childDescription component ;;
    addPatch (updateNode component current description).

End patches.

(** [Diff.childPatches]; the methods above call it back for the children
    they keep, so the depth of the tree bounds it. *)
Fixpoint childPatches (fuel depth : nat) (child : VirtualNode)
    (description : Description) : M World unit :=
  match depth with
  | O => throw OutOfFuel
  | S depth =>
      if isComponent child then
        if isRoot child
        then throw (Unsupported "a root component inside a tree")
        else
          componentPatches (createFromDescription fuel)
            (childPatches fuel depth) child description
      else
        elementPatches (createFromDescription fuel)
          (childPatches fuel depth) child description
  end.

Definition state_value (state : option Props) : value :=
  match state with Some fields => plain fields | None => VNull end.

(** [Template.describe([this.root.constructor, nextState])]: the state is
    the props of the root, when it has any, and gives it its key. *)
Definition describe_root (constructor : nat) (nextState : option Props)
    : Description :=
  match nextState with
  | Some ((_ :: _) as props) =>
      ComponentDescription constructor
        (if truthy (get "key" props) then value_key (get "key" props)
         else None)
        (Some props) None
  | _ => ComponentDescription constructor None None None
  end.

Definition set_root_state (nextState : option Props) : M World unit :=
  fun w =>
    (mkWorld (set_state nextState (root w)) (patches w) (nextId w)
       (events w), Ok tt).

Definition rootPatches (fuel : nat) (currentState nextState : option Props)
    : M World (list Patch) :=
  w ← get_state;
  (if isDefined currentState then mret tt
   else addPatch (initRootComponent (root w))) ;;
  if DeepEqual.deepEqual (state_value currentState) (state_value nextState)
  then mret []
  else
    let description := describe_root (constructor_of (root w)) nextState in
    componentPatches (createFromDescription fuel) (childPatches fuel fuel)
      (root w) description ;;
    set_root_state nextState ;;
    w' ← get_state;
    mret (patches w').

Definition emit_all (l : list Event) : M World unit := fun w =>
  (mkWorld (root w) (patches w) (nextId w) (events w ++ l), Ok tt).

(** [Diff.apply] *)
Definition apply : M World unit :=
  w ← get_state;
  match patches w with
  | [] => mret tt
  | _ :: _ =>
      emit_all (Lifecycle.beforeUpdate toolkit (patches w)) ;;
      for_each Patch.apply (patches w) ;;
      emit_all (Lifecycle.afterUpdate toolkit (patches w))
  end.

End WithToolkit.
End Diff.

Module Renderer.

(** [Renderer.update]: a new [Diff] bound to the root, its patches
    computed and applied. *)
Definition update (toolkit : Toolkit) (fuel : nat)
    (prevState nextState : option Props) : M World (list Patch) :=
  (fun w => (mkWorld (root w) [] (nextId w) (events w), Ok tt)) ;;
  Diff.rootPatches toolkit fuel prevState nextState ;;
  Diff.apply toolkit ;;
  w ← get_state;
  mret (patches w).

End Renderer.

(** ** Names

    The attributes and events a template may name, and their names in the
    backing document.  A character is a code unit below 256. *)

Module Consts.

Definition SUPPORTED_EVENTS : list string :=
  ["onAuxClick"; "onClick"; "onContextMenu"; "onDoubleClick"; "onDrag";
   "onDragEnd"; "onDragEnter"; "onDragExit"; "onDragLeave"; "onDragOver";
   "onDragStart"; "onDrop"; "onMouseDown"; "onMouseEnter"; "onMouseLeave";
   "onMouseMove"; "onMouseOut"; "onMouseOver"; "onMouseUp"; "onKeyDown";
   "onKeyPress"; "onKeyUp"; "onFocus"; "onBlur"; "onChange"; "onInput";
   "onInvalid"; "onSubmit"; "onCopy"; "onCut"; "onPaste";
   "onCompositionEnd"; "onCompositionStart"; "onCompositionUpdate";
   "onSelect"; "onTouchCancel"; "onTouchEnd"; "onTouchMove";
   "onTouchStart"; "onScroll"; "onWheel"; "onAbort"; "onCanPlay";
   "onCanPlayThrough"; "onDurationChange"; "onEmptied"; "onEncrypted";
   "onEnded"; "onError"; "onLoadedData"; "onLoadedMetadata"; "onLoadStart";
   "onPause"; "onPlay"; "onPlaying"; "onProgress"; "onRateChange";
   "onSeeked"; "onSeeking"; "onStalled"; "onSuspend"; "onTimeUpdate";
   "onVolumeChange"; "onWaiting"; "onLoad"; "onError"; "onAnimationStart";
   "onAnimationEnd"; "onAnimationIteration"; "onTransitionEnd"; "onSearch";
   "onToggle"]%string.

Definition SUPPORTED_ATTRIBUTES : list string :=
  ["tabIndex"; "href"; "draggable"; "name"; "disabled"; "type"; "value";
   "id"; "checked"; "contentEditable"; "readOnly"; "alt"; "title"; "width";
   "height"; "required"; "for"; "label"; "minLength"; "maxLength";
   "method"; "src"; "rel"; "accept"; "acceptCharset"; "accessKey";
   "action"; "allowFullScreen"; "allowTransparency"; "async";
   "autoComplete"; "autoFocus"; "autoPlay"; "capture"; "cellPadding";
   "cellSpacing"; "challenge"; "charSet"; "cite"; "classID"; "colSpan";
   "cols"; "content"; "contextMenu"; "controls"; "coords"; "crossOrigin";
   "data"; "dateTime"; "default"; "defer"; "dir"; "download"; "encType";
   "form"; "frameBorder"; "headers"; "hidden"; "high"; "hrefLang";
   "httpEquiv"; "icon"; "incremental"; "inputMode"; "integrity"; "is";
   "keyParams"; "keyType"; "kind"; "lang"; "list"; "loop"; "low";
   "manifest"; "marginHeight"; "marginWidth"; "max"; "media"; "mediaGroup";
   "min"; "multiple"; "muted"; "noValidate"; "nonce"; "open"; "optimum";
   "pattern"; "placeholder"; "poster"; "preload"; "profile"; "radioGroup";
   "reversed"; "role"; "rowSpan"; "rows"; "sandbox"; "scope"; "scoped";
   "scrolling"; "seamless"; "selected"; "shape"; "size"; "sizes"; "span";
   "spellCheck"; "srcDoc"; "srcLang"; "srcSet"; "start"; "step"; "summary";
   "target"; "useMap"; "wmode"; "wrap"; "ariaActiveDescendant";
   "ariaAtomic"; "ariaAutoComplete"; "ariaBusy"; "ariaChecked";
   "ariaControls"; "ariaDescribedBy"; "ariaDisabled"; "ariaDropEffect";
   "ariaExpanded"; "ariaFlowTo"; "ariaGrabbed"; "ariaHasPopup";
   "ariaHidden"; "ariaInvalid"; "ariaLabel"; "ariaLabelLedBy"; "ariaLevel";
   "ariaLive"; "ariaMultiLine"; "ariaMultiSelectable"; "ariaOrientation";
   "ariaOwns"; "ariaPosInSet"; "ariaPressed"; "ariaReadOnly";
   "ariaRelevant"; "ariaRequired"; "ariaSelected"; "ariaSetSize";
   "ariaSort"; "ariaValueMax"; "ariaValueMin"; "ariaValueNow";
   "ariaValueText"]%string.

End Consts.

Module utils.

Definition code (c : ascii) : N := N_of_ascii c.

(** The classes [[a-z]] and [[A-Z]] of a regular expression. *)
Definition is_a_z (c : ascii) : bool :=
  ((97 <=? code c) && (code c <=? 122))%N.

Definition is_A_Z (c : ascii) : bool :=
  ((65 <=? code c) && (code c <=? 90))%N.

(** The code units [toLowerCase] changes: the letters A to Z and the
    capital letters of Latin-1, which are the code units 192 to 222 but
    215, the multiplication sign.  Each is 32 below its small letter. *)
Definition is_capital (c : ascii) : bool :=
  (is_A_Z c
   || ((192 <=? code c) && (code c <=? 222) && negb (code c =? 215)))%N.

Definition lower (c : ascii) : ascii :=
  if is_capital c then ascii_of_N (code c + 32) else c.

(** [String.prototype.toLowerCase] *)
Fixpoint toLowerCase (s : string) : string :=
  match s with
  | EmptyString => EmptyString
  | String c s' => String (lower c) (toLowerCase s')
  end.

(** [string.slice(n)] for a number [n] that is not negative. *)
Fixpoint slice (n : nat) (s : string) : string :=
  match n, s with
  | O, _ => s
  | S _, EmptyString => EmptyString
  | S n', String _ s' => slice n' s'
  end.

(** [name.replace(/([a-z])([A-Z])/g, '$1-$2')]: the matches are found from
    left to right, and the search goes on behind a match. *)
Fixpoint dashed (s : string) : string :=
  match s with
  | String a ((String b s') as rest) =>
      if is_a_z a && is_A_Z b
      then String a (String "-" (String b (dashed s')))
      else String a (dashed rest)
  | _ => s
  end.

Definition lowerDash (name : string) : string :=
  if String.prefix "aria" name
  then ("aria-" ++ toLowerCase (slice 4 name))%string
  else toLowerCase (dashed name).

(** The names [getAttributeName] only turns to lower case. *)
Definition lower_case_attributes : list string :=
  ["accessKey"; "allowFullScreen"; "allowTransparency"; "autoComplete";
   "autoFocus"; "autoPlay"; "cellPadding"; "cellSpacing"; "charSet";
   "classID"; "colSpan"; "contentEditable"; "contextMenu"; "crossOrigin";
   "dateTime"; "encType"; "frameBorder"; "hrefLang"; "inputMode"; "keyType";
   "marginHeight"; "marginWidth"; "maxLength"; "minLength"; "noValidate";
   "radioGroup"; "readOnly"; "rowSpan"; "spellCheck"; "srcDoc"; "srcLang";
   "srcSet"; "useMap"; "tabIndex"]%string.

(** [array.includes(name)] *)
Definition includes (name : string) (l : list string) : bool :=
  existsb (String.eqb name) l.

Definition getAttributeName (name : string) : string :=
  if includes name lower_case_attributes then toLowerCase name
  else lowerDash name.

Definition getEventName (name : string) : string :=
  if String.eqb name "onDoubleClick" then "dblclick"%string
  else toLowerCase (slice 2 name).

End utils.

(** ** The node a component is rendered by *)

Module Rendered.
Section WithToolkit.
Context (toolkit : Toolkit).
Import Node.

(** The [childElement] getter of a component: its child when that is an
    element or a root, the [childElement] of its child when that is a
    component; [None] is [null]. *)
Fixpoint childElement (this : VirtualNode) : option VirtualNode :=
  match this with
  | Component _ _ _ _ _ child _ _ =>
      match child with
      | Some c =>
          if isElement c || Diff.isRoot toolkit c then Some c
          else if isComponent c then childElement c
          else None
      | None => None
      end
  | VirtualElement _ _ _ _ _ => None
  end.

(** What stands for a node in the backing document: the node made for an
    element or a root, known by the identity of the virtual node, or the
    comment that holds the place of a component. *)
Inductive Ref :=
| NodeRef (node : nat)
| CommentRef (comment : Comment).

(** The [renderedNode] getter:
    [this.childElement ? this.childElement.ref : this.placeholder.ref] *)
Definition renderedNode (this : VirtualNode) : Result Ref :=
  match childElement this with
  | Some element => Ok (NodeRef (id element))
  | None =>
      match Component.placeholder this with
      | Some comment => Ok (CommentRef comment)
      | None => Throw (TypeError "Cannot read properties of null (ref)")
      end
  end.

End WithToolkit.
End Rendered.

(** ** Objects as they are built

    The properties of an object, in the order they were added. *)

Module Obj.

(** The names of the properties of an object are listed with the array
    indices first, in ascending order, and the other names behind them in
    the order in which they were added.  An array index is the canonical
    decimal form of an integer from 0 to 2^32 - 2. *)
Definition array_index (key : string) : option Z :=
  match list_ascii_of_string key with
  | [] => None
  | c :: l =>
      match StringToNumber.digits 10 0 0 (c :: l) with
      | (n, _, []) =>
          if (negb (StringToNumber.is_char "0" c) || bool_decide (l = []))
             && (n <=? 4294967294)
          then Some n else None
      | _ => None
      end
  end.

(** Whether a new name goes in front of a name that is there. *)
Definition goes_before (key k : string) : bool :=
  match array_index key, array_index k with
  | Some i, Some j => i <? j
  | Some _, None => true
  | None, _ => false
  end.

(** A new entry, put where its name belongs. *)
Fixpoint add {A} (name : A -> string) (x : A) (l : list A) : list A :=
  match l with
  | [] => [x]
  | y :: l' =>
      if goes_before (name x) (name y) then x :: l
      else y :: add name x l'
  end.

(** [object.hasOwnProperty(key)] *)
Definition has (key : string) (fields : list (string * value)) : bool :=
  existsb (fun kv => String.eqb kv.1 key) fields.

Fixpoint replace (key : string) (v : value)
    (fields : list (string * value)) : list (string * value) :=
  match fields with
  | [] => []
  | (k, x) :: fields' =>
      if String.eqb k key then (k, v) :: fields'
      else (k, x) :: replace key v fields'
  end.

(** [object[key] = v]: a property that is there keeps its place. *)
Definition set (key : string) (v : value) (fields : list (string * value))
    : list (string * value) :=
  if has key fields then replace key v fields
  else add fst (key, v) fields.

(** [Object.assign(target, source)], and the spread of [source] into an
    object literal that holds [target] so far. *)
Definition assign (target source : list (string * value))
    : list (string * value) :=
  foldl (fun target kv => set kv.1 kv.2 target) target source.

Definition is_undefined (v : value) : bool :=
  match v with VUndefined => true | _ => false end.

(** The names an object inherits from [Object.prototype]; what it holds
    under them is not [undefined]. *)
Definition prototype_names : list string :=
  ["constructor"; "__defineGetter__"; "__defineSetter__"; "hasOwnProperty";
   "__lookupGetter__"; "__lookupSetter__"; "isPrototypeOf";
   "propertyIsEnumerable"; "toString"; "valueOf"; "__proto__";
   "toLocaleString"]%string.

Definition inherits (key : string) : bool :=
  existsb (String.eqb key) prototype_names.

(** [object[key] === undefined], for an object made by an object literal:
    a name the object has no property for is looked up in
    [Object.prototype]. *)
Definition lacks (key : string) (fields : list (string * value)) : bool :=
  if has key fields then is_undefined (get key fields)
  else negb (inherits key).

End Obj.

(** ** Props and states *)

Module Props.

(** [Template.normalizeProps(...overrides)]: an override that is not given
    ([null] or [undefined]) counts as the empty object. *)
Definition normalizeProps (overrides : list (option Props)) : Props :=
  foldl
    (fun result override =>
       foldl
         (fun result kv =>
            if Obj.lacks kv.1 result && negb (Obj.is_undefined kv.2)
            then Obj.set kv.1 kv.2 result
            else result)
         result (default [] override))
    [] overrides.

(** [Root.getUpdatedState(props = {}, state = {})], as the class [Root]
    defines it: the state with the props spread over it. *)
Definition getUpdatedState (props state : option Props) : Props :=
  Obj.assign (Obj.assign [] (default [] state)) (default [] props).

End Props.

(** ** Commands and reducers *)

Module Reducers.

Inductive CommandType :=
| INIT | SET_STATE | UPDATE
| Custom (id : nat).

(** A command: its type and the state it carries, [None] for [null]. *)
Record Command := mkCommand {
  type : CommandType;
  state : option Props
}.

(** A reducer: the function, and the names of its commands. *)
Record Reducer := mkReducer {
  reduce : option Props -> Command -> option Props;
  commands : list string
}.

Definition coreReducer_reduce (state_ : option Props) (command : Command)
    : option Props :=
  match type command with
  | INIT => state command
  | SET_STATE => state command
  | UPDATE =>
      Some (Obj.assign (Obj.assign [] (default [] state_))
              (default [] (state command)))
  | Custom _ => state_
  end.

Definition coreReducer : Reducer :=
  mkReducer coreReducer_reduce ["init"; "setState"; "update"]%string.

(** [Object.assign(commands, reducer.commands)], on the names. *)
Definition assign_names (commands incoming : list string) : list string :=
  foldl
    (fun commands key =>
       if utils.includes key commands then commands
       else Obj.add Datatypes.id key commands)
    commands incoming.

Definition already_defined (overriden : string) : string :=
  ("The " ++ String "034" overriden
   ++ String "034" " command is already defined!")%string.

(** The loop of [combineReducers] over the core reducer and the reducers
    given: the names defined so far, or the error for the first name found
    defined already.  An empty name is falsy, and goes unnoticed. *)
Fixpoint define (commands : list string) (reducers : list Reducer)
    : Result (list string) :=
  match reducers with
  | [] => Ok commands
  | reducer :: reducers' =>
      let defined := commands in
      let incoming := Reducers.commands reducer in
      match List.find (fun key => utils.includes key defined) incoming with
      | Some overriden =>
          if negb (String.eqb overriden "")
          then Throw (Thrown (already_defined overriden))
          else define (assign_names commands incoming) reducers'
      | None => define (assign_names commands incoming) reducers'
      end
  end.

Definition combineReducers (reducers : list Reducer) : Result Reducer :=
  match define [] (coreReducer :: reducers) with
  | Ok commands =>
      Ok (mkReducer
            (fun state_ command =>
               foldl (fun state_ reducer => reduce reducer state_ command)
                 state_ (coreReducer :: reducers))
            commands)
  | Throw e => Throw e
  end.

End Reducers.

(** ** Dispatching a command to a root *)

Module Root.
Section WithToolkit.
Context (toolkit : Toolkit).

(** What a listener plugin of the root is told: [onBeforeUpdate] with the
    command and the two states, [onUpdate] with the patches as well.  The
    methods of a plugin are user code; the record is of which method runs
    for which listener, in order. *)
Inductive Notice :=
| onBeforeUpdate (listener : nat) (command : Reducers.Command)
    (from to : option Props)
| onUpdate (listener : nat) (command : Reducers.Command)
    (from to : option Props) (patches : list Patch).

(** The state of a dispatch: the world of the root, and what its listeners
    have been told. *)
Record Session := mkSession {
  world : World;
  told : list Notice
}.

(** [plugins.notify(action, event)] *)
Definition notify (notice : nat -> Notice) (listeners : list nat)
    : M Session unit := fun s =>
  (mkSession (world s) (told s ++ (notice <$> listeners)), Ok tt).

Definition in_world {A} (m : M World A) : M Session A := fun s =>
  let '(w, r) := m (world s) in (mkSession w (told s), r).

(** [Renderer.updateDOM] *)
Definition updateDOM (fuel : nat) (listeners : list nat)
    (command : Reducers.Command) (prevState nextState : option Props)
    : M Session unit :=
  notify (fun l => onBeforeUpdate l command prevState nextState) listeners ;;
  patches ← in_world (Renderer.update toolkit fuel prevState nextState);
  notify (fun l => onUpdate l command prevState nextState patches) listeners.

(** [root.dispatch(command)], for the reducer of the root and its listener
    plugins. *)
Definition dispatch (fuel : nat) (reducer : Reducers.Reducer)
    (listeners : list nat) (command : Reducers.Command) : M Session unit :=
  s ← get_state;
  let prevState := Node.state (root (world s)) in
  let nextState := Reducers.reduce reducer prevState command in
  updateDOM fuel listeners command prevState nextState.

End WithToolkit.
End Root.

(** ** Class names

    [Template.getClassName] resolves the [class] of a template to a string
    of class names separated by spaces. *)

Module Template.

(** What [getClassName] comes to: the string it returns, or the error it
    throws, [new Error(`Invalid value: ${JSON.stringify(value)}`)], known
    by the value it is about. *)
Inductive Outcome :=
| Returns (className : string)
| InvalidValue (v : value).

Definition nonempty (s : string) : bool := negb (String.eqb s EmptyString).

(** [items.filter(item => item).join(' ')], on strings *)
Definition join_names (items : list string) : string :=
  String.concat " " (List.filter nonempty items).

(** [Template.getClassName]: nothing for a falsy value, a string as it is,
    the names of the items of an array, the keys of an object that have a
    truthy value (the fields are in the order that [Object.keys] gives);
    any other value is an error.

    In an array, [reduce] collects a string for each truthy item, the item
    itself or the class name it resolves to.  In an object,
    [value[key] && key] is the key under a truthy value and a falsy value
    otherwise, so that the filter keeps the keys that are not empty. *)
Fixpoint getClassName (v : value) : Outcome :=
  if negb (truthy v) then Returns ""
  else
    match v with
    | VStr s => Returns s
    | VArr items =>
        (fix reduce (items : list value) (result : list string) : Outcome :=
           match items with
           | [] => Returns (join_names result)
           | item :: items' =>
               if negb (truthy item) then reduce items' result
               else
                 match item with
                 | VStr s => reduce items' (result ++ [s])
                 | _ =>
                     match getClassName item with
                     | Returns s => reduce items' (result ++ [s])
                     | InvalidValue x => InvalidValue x
                     end
                 end
           end) items []
    | VObj _ fields =>
        match fields with
        | [] => Returns ""
        | _ :: _ =>
            Returns
              (join_names
                 (omap (fun key =>
                          if truthy (get key fields) then Some key else None)
                    (fst <$> fields)))
        end
    | _ => InvalidValue v
    end.

End Template.

(** ** The root of a node

    A node points to its parent, which is known by its identity here: to
    follow [parentNode] is to look the parent up in the tree. *)

Module Ancestry.
Section WithTree.
Context (toolkit : Toolkit) (tree : VirtualNode).

(** The [rootNode] getter of a node: the node when it is a root, the
    [rootNode] of its parent otherwise. *)
Fixpoint rootNode (fuel : nat) (this : VirtualNode) : Result VirtualNode :=
  match fuel with
  | O => Throw OutOfFuel
  | S fuel =>
      if Diff.isRoot toolkit this then Ok this
      else
        match Node.parentNode this with
        | Some parent =>
            match Tree.find parent tree with
            | Some parentNode => rootNode fuel parentNode
            | None => Throw (Unsupported "a parent outside the tree")
            end
        | None => Throw (Thrown "Inconsistent virtual DOM tree detected!")
        end
  end.

End WithTree.
End Ancestry.

(** ** The modules of the loader

    A module of the loader is known by its identity; [dependencies] gives
    the set of the dependencies of each module, in the order they were
    added. *)

Module Loader.
Section WithModules.
Context (dependencies : nat -> list nat).

(** [collect] of the [deepDependencies] getter: the dependencies of the
    module that [deps] does not have are added to it, each followed by
    what it brings in turn.  The set [deps] is shared by all the calls,
    and is given back here. *)
Fixpoint collect (fuel : nat) (module : nat) (deps : list nat)
    : Result (list nat) :=
  match fuel with
  | O => Throw OutOfFuel
  | S fuel =>
      (fix each (l : list nat) (deps : list nat) : Result (list nat) :=
         match l with
         | [] => Ok deps
         | dependency :: l' =>
             if bool_decide (dependency ∈ deps) then each l' deps
             else
               match collect fuel dependency (deps ++ [dependency]) with
               | Ok deps => each l' deps
               | Throw e => Throw e
               end
         end) (dependencies module) deps
  end.

(** The [deepDependencies] getter of a module. *)
Definition deepDependencies (fuel : nat) (this : nat) : Result (list nat) :=
  collect fuel this [].

End WithModules.
End Loader.

(* ===== PROOFS ===== *)

(** * Properties *)

(** ** Keys *)

#[export] Instance Z_JSKeyOrder : JSKeyOrder Z.
Proof.
  split.
  - intros a. simpl. rewrite Z.gtb_ltb. apply Z.ltb_irrefl.
  - intros a b c. simpl. rewrite !Z.gtb_ltb, !Z.ltb_lt. lia.
  - intros a b Hab. simpl. rewrite !Z.gtb_ltb, !Z.ltb_lt. lia.
Qed.


Lemma string_compare_refl (a : string) : String.compare a a = Eq.
Proof.
  induction a as [|x a IH]; simpl; [reflexivity|].
  unfold Ascii.compare. rewrite N.compare_refl. exact IH.
Qed.

Lemma string_compare_gt_trans (a b c : string) :
  String.compare a b = Gt -> String.compare b c = Gt ->
  String.compare a c = Gt.
Proof.
  revert b c. induction a as [|x a IH]; intros [|y b] [|z c]; simpl;
    try discriminate; try reflexivity.
  destruct (Ascii.compare x y) eqn:Hxy; try discriminate.
  - apply Ascii.compare_eq_iff in Hxy. subst y.
    destruct (Ascii.compare x z) eqn:Hxz; try discriminate; try reflexivity.
    apply IH.
  - intros _. destruct (Ascii.compare y z) eqn:Hyz; try discriminate.
    + apply Ascii.compare_eq_iff in Hyz. subst z. rewrite Hxy. reflexivity.
    + intros _.
      assert (Hgt : Ascii.compare x z = Gt).
      { unfold Ascii.compare in *.
        rewrite N.compare_gt_iff in *. lia. }
      rewrite Hgt. reflexivity.
Qed.

#[export] Instance string_JSKeyOrder : JSKeyOrder string.
Proof.
  split.
  - intros a. simpl. unfold string_gt. by rewrite string_compare_refl.
  - intros a b c. simpl. unfold string_gt.
    destruct (String.compare a b) eqn:Hab; try discriminate.
    destruct (String.compare b c) eqn:Hbc; try discriminate.
    by rewrite (string_compare_gt_trans a b c Hab Hbc).
  - intros a b Hab. simpl. unfold string_gt.
    rewrite (String.compare_antisym a b).
    destruct (String.compare b a) eqn:Hba; simpl; auto.
    apply String.compare_eq_iff in Hba. congruence.
Qed.

Section key_facts.
Context {K : Type} `{JSKey K}.


Lemma key_is_false (a b : K) : key_is a b = false <-> a <> b.
Proof.
  split.
  - intros E Hab. apply key_is_eq in Hab. congruence.
  - intros Hab. destruct (key_is a b) eqn:E; [|done].
    by apply key_is_eq in E.
Qed.

Lemma key_is_refl (a : K) : key_is a a = true.
Proof. by apply key_is_eq. Qed.

End key_facts.

(** ** Lists *)


Lemma filter_all {A} (P : A -> Prop) `{!forall x, Decision (P x)} (l : list A) :
  (forall x, x ∈ l -> P x) -> filter P l = l.
Proof.
  induction l as [|x l IH]; intros HP; [done|].
  rewrite filter_cons_True by (apply HP; left).
  f_equal. apply IH. intros y Hy. apply HP. by right.
Qed.

Lemma filter_ext_in {A} (P Q : A -> Prop) `{!forall x, Decision (P x)}
    `{!forall x, Decision (Q x)} (l : list A) :
  (forall x, x ∈ l -> P x <-> Q x) -> filter P l = filter Q l.
Proof.
  induction l as [|x l IH]; intros HP; [done|].
  rewrite !filter_cons.
  rewrite IH by (intros y Hy; apply HP; by right).
  apply decide_ext, HP. left.
Qed.

Lemma filter_none {A} (P : A -> Prop) `{!forall x, Decision (P x)}
    (l : list A) :
  (forall x, x ∈ l -> ~ P x) -> filter P l = [].
Proof.
  induction l as [|x l IH]; intros HP; [done|].
  rewrite filter_cons_False by (apply HP; left).
  apply IH. intros y Hy. apply HP. by right.
Qed.

Lemma splice_nat {A} (i d : nat) (ins l : list A) :
  splice (Z.of_nat i) d ins l = take i l ++ ins ++ drop (i + d) l.
Proof.
  unfold splice, splice_start.
  destruct (Z.ltb_spec (Z.of_nat i) 0) as [?|_]; [lia|].
  rewrite Nat2Z.id.
  destruct (decide (i <= length l)%nat) as [Hi|Hi].
  - by rewrite Nat.min_l.
  - rewrite Nat.min_r by lia.
    rewrite !take_ge by lia. by rewrite !drop_ge by lia.
Qed.

Lemma foldl_step {A B} (f : A -> B -> A) (a : A) (x : B) (l : list B) :
  foldl f a (x :: l) = foldl f (f a x) l.
Proof. reflexivity. Qed.

Lemma StronglySorted_reverse {A} (R : relation A) (l : list A) :
  StronglySorted R l -> StronglySorted (flip R) (reverse l).
Proof.
  induction 1 as [|x l Hl IH Hx]; [constructor|].
  rewrite reverse_cons. apply StronglySorted_app_2; [|done|].
  - intros x1 x2 Hx1 ->%list_elem_of_singleton.
    rewrite Forall_forall in Hx. apply Hx. by apply elem_of_reverse.
  - repeat constructor.
Qed.

(** ** Sorting *)


Section sort_facts.
Context {A : Type} (cmp : A -> A -> Z).

Lemma countAndMakeRun_perm (l : list A) :
  (countAndMakeRun cmp l).1 ++ (countAndMakeRun cmp l).2 ≡ₚ l.
Proof.
  unfold countAndMakeRun. destruct l as [|x0 [|x1 rest]]; [done..|].
  cbn [fst snd]. destruct (cmp x1 x0 <? 0).
  - by rewrite reverse_Permutation, take_drop.
  - by rewrite take_drop.
Qed.

Lemma binary_insert_perm (sorted : list A) (pivot : A) :
  binary_insert cmp sorted pivot ≡ₚ pivot :: sorted.
Proof.
  unfold binary_insert. rewrite <- Permutation_middle. by rewrite take_drop.
Qed.

Lemma foldl_binary_insert_perm (rest run : list A) :
  foldl (binary_insert cmp) run rest ≡ₚ run ++ rest.
Proof.
  revert run. induction rest as [|x rest IH]; intros run; simpl.
  - by rewrite app_nil_r.
  - rewrite IH, binary_insert_perm. by rewrite <- Permutation_middle.
Qed.

Lemma js_sort_perm (l : list A) : js_sort cmp l ≡ₚ l.
Proof.
  unfold js_sort. pose proof (countAndMakeRun_perm l) as Hp.
  destruct (countAndMakeRun cmp l) as [run rest]. simpl in Hp.
  by rewrite foldl_binary_insert_perm.
Qed.

Definition cmp_le (x y : A) : Prop := cmp x y <= 0.

(** The binary search ends within as many steps as the range is long: more
    steps find the same place. *)
Lemma insertion_point_steps (pivot : A) (sorted : list A)
    (steps steps' left right : nat) :
  (right - left <= steps)%nat -> (right - left <= steps')%nat ->
  insertion_point cmp pivot sorted steps left right
  = insertion_point cmp pivot sorted steps' left right.
Proof.
  revert steps' left right.
  induction steps as [|steps IH]; intros [|steps'] left right Hs Hs';
    cbn [insertion_point]; [done| | |].
  - destruct (Nat.ltb_spec left right); [lia|done].
  - destruct (Nat.ltb_spec left right); [lia|done].
  - destruct (Nat.ltb_spec left right) as [Hlt|]; [|done].
    set (mid := (left + (right - left) / 2)%nat).
    assert (Hmid : (left <= mid < right)%nat).
    { unfold mid.
      assert ((right - left) / 2 < right - left)%nat
        by (apply Nat.div_lt; lia). lia. }
    destruct (sorted !! mid) as [x|]; [|done].
    destruct (cmp pivot x <? 0); apply IH; lia.
Qed.

Section sorted.
Context (P : A -> Prop).
Hypothesis cmp_ge : forall x y, P x -> P y -> 0 <= cmp x y -> cmp_le y x.
Hypothesis cmp_trans :
  forall x y z, P x -> P y -> P z -> cmp_le x y -> cmp_le y z -> cmp_le x z.

Lemma insertion_point_spec (pivot : A) (sorted : list A)
    (steps left right : nat) :
  P pivot -> Forall P sorted -> StronglySorted cmp_le sorted ->
  (left <= right <= length sorted)%nat -> (right - left <= steps)%nat ->
  Forall (fun x => cmp_le x pivot) (take left sorted) ->
  Forall (fun x => cmp_le pivot x) (drop right sorted) ->
  Forall (fun x => cmp_le x pivot)
    (take (insertion_point cmp pivot sorted steps left right) sorted)
  /\ Forall (fun x => cmp_le pivot x)
       (drop (insertion_point cmp pivot sorted steps left right) sorted).
Proof.
  intros Hp HP Hs. revert left right.
  induction steps as [|steps IH]; intros left right Hlr Hst Hl Hr;
    cbn [insertion_point].
  { replace right with left in Hr by lia. done. }
  destruct (Nat.ltb_spec left right) as [Hlt|Hge].
  2:{ replace right with left in Hr by lia. done. }
  set (mid := (left + (right - left) / 2)%nat).
  assert (Hmid : (left <= mid < right)%nat).
  { unfold mid.
    assert ((right - left) / 2 < right - left)%nat
      by (apply Nat.div_lt; lia). lia. }
  destruct (lookup_lt_is_Some_2 sorted mid) as [x Hx]; [lia|].
  rewrite Hx.
  assert (Px : P x).
  { rewrite Forall_forall in HP. apply HP. by eapply list_elem_of_lookup_2. }
  pose proof (take_drop_middle sorted mid x Hx) as Hsplit.
  rewrite <- Hsplit in Hs.
  apply StronglySorted_app in Hs as (Hs3 & Hs1 & Hs2).
  apply StronglySorted_cons in Hs2 as [Hxd Hs2].
  destruct (Z.ltb_spec (cmp pivot x) 0) as [Hc|Hc].
  - apply IH; [lia|lia|done|].
    rewrite (drop_S _ _ _ Hx). constructor; [unfold cmp_le; lia|].
    rewrite Forall_forall in Hxd |- *. intros y Hy.
    apply (cmp_trans pivot x y); [done|done| |unfold cmp_le; lia|by apply Hxd].
    rewrite Forall_forall in HP. apply HP.
    by apply (subseteq_drop (S mid) sorted).
  - apply IH; [lia|lia| |done].
    rewrite (take_S_r _ _ _ Hx). apply Forall_app. split.
    + rewrite Forall_forall. intros y Hy.
      assert (Py : P y).
      { rewrite Forall_forall in HP. apply HP.
        by eapply subseteq_take. }
      apply (cmp_trans y x pivot); [done..| |by apply cmp_ge].
      apply (Hs3 y x Hy). left.
    + constructor; [|constructor]. by apply cmp_ge.
Qed.

Lemma binary_insert_sorted (sorted : list A) (pivot : A) :
  P pivot -> Forall P sorted -> StronglySorted cmp_le sorted ->
  StronglySorted cmp_le (binary_insert cmp sorted pivot).
Proof.
  intros Hp HP Hs. unfold binary_insert.
  destruct (insertion_point_spec pivot sorted (length sorted) 0
              (length sorted) Hp HP Hs) as [Hl Hr];
    [lia|lia|by rewrite take_0|by rewrite drop_all|].
  set (p := insertion_point cmp pivot sorted (length sorted) 0 (length sorted))
    in *.
  rewrite <- (take_drop p sorted) in Hs.
  apply StronglySorted_app in Hs as (Hs3 & Hs1 & Hs2).
  apply StronglySorted_app_2; [|done|by constructor].
  intros x y Hx [->|Hy]%elem_of_cons.
  - rewrite Forall_forall in Hl. by apply Hl.
  - by apply Hs3.
Qed.

Lemma run_rest_ascending (previous : A) (l : list A) :
  P previous -> Forall P l ->
  StronglySorted cmp_le (previous :: take (run_rest cmp false previous l) l).
Proof.
  revert previous. induction l as [|current l IH]; intros previous Hp HP.
  { repeat constructor. }
  apply Forall_cons in HP as [Hc HP]. cbn [run_rest].
  destruct (Z.ltb_spec (cmp current previous) 0) as [Hlt|Hge].
  { repeat constructor. }
  cbn [take]. specialize (IH current Hc HP).
  constructor; [done|]. pose proof (cmp_ge _ _ Hc Hp Hge) as Hle.
  constructor; [done|].
  apply StronglySorted_cons in IH as [IH _].
  rewrite Forall_forall in IH |- *. intros y Hy.
  apply (cmp_trans previous current y); [done..| |done|by apply IH].
  rewrite Forall_forall in HP. apply HP. by eapply subseteq_take.
Qed.

Lemma run_rest_descending (previous : A) (l : list A) :
  P previous -> Forall P l ->
  StronglySorted (flip cmp_le)
    (previous :: take (run_rest cmp true previous l) l).
Proof.
  revert previous. induction l as [|current l IH]; intros previous Hp HP.
  { repeat constructor. }
  apply Forall_cons in HP as [Hc HP]. cbn [run_rest].
  destruct (Z.leb_spec 0 (cmp current previous)) as [Hge|Hlt].
  { repeat constructor. }
  cbn [take]. specialize (IH current Hc HP).
  constructor; [done|].
  assert (Hle : cmp_le current previous) by (unfold cmp_le; lia).
  constructor; [done|].
  apply StronglySorted_cons in IH as [IH _].
  rewrite Forall_forall in IH |- *. intros y Hy. unfold flip.
  apply (cmp_trans y current previous); [|done..|by apply IH|done].
  rewrite Forall_forall in HP. apply HP. by eapply subseteq_take.
Qed.

Lemma StronglySorted_flip_reverse (l : list A) :
  StronglySorted (flip cmp_le) l -> StronglySorted cmp_le (reverse l).
Proof. apply (StronglySorted_reverse (flip cmp_le)). Qed.

Lemma countAndMakeRun_sorted (l : list A) :
  Forall P l -> StronglySorted cmp_le (countAndMakeRun cmp l).1.
Proof.
  intros HP. unfold countAndMakeRun.
  destruct l as [|x0 [|x1 rest]]; [repeat constructor..|].
  apply Forall_cons in HP as [H0 HP]. pose proof HP as HP'.
  apply Forall_cons in HP as [H1 HP].
  cbn [fst]. change (take (2 + ?n) (x0 :: x1 :: rest))
    with (x0 :: x1 :: take n rest).
  destruct (Z.ltb_spec (cmp x1 x0) 0) as [Hlt|Hge].
  - apply StronglySorted_flip_reverse.
    pose proof (run_rest_descending x1 rest H1 HP) as Hr.
    constructor; [done|].
    assert (Hle : cmp_le x1 x0) by (unfold cmp_le; lia).
    constructor; [done|].
    apply StronglySorted_cons in Hr as [Hr _].
    rewrite Forall_forall in Hr |- *. intros y Hy. unfold flip.
    apply (cmp_trans y x1 x0); [|done..|by apply Hr|done].
    rewrite Forall_forall in HP. apply HP. by eapply subseteq_take.
  - pose proof (run_rest_ascending x1 rest H1 HP) as Hr.
    constructor; [done|].
    pose proof (cmp_ge _ _ H1 H0 Hge) as Hle.
    constructor; [done|].
    apply StronglySorted_cons in Hr as [Hr _].
    rewrite Forall_forall in Hr |- *. intros y Hy.
    apply (cmp_trans x0 x1 y); [done..| |done|by apply Hr].
    rewrite Forall_forall in HP. apply HP. by eapply subseteq_take.
Qed.

Lemma foldl_binary_insert_sorted (rest run : list A) :
  Forall P run -> Forall P rest -> StronglySorted cmp_le run ->
  StronglySorted cmp_le (foldl (binary_insert cmp) run rest).
Proof.
  revert run. induction rest as [|x rest IH]; intros run Hrun Hrest Hs; [done|].
  apply Forall_cons in Hrest as [Hx Hrest]. simpl.
  apply IH; [|done|by apply binary_insert_sorted].
  rewrite binary_insert_perm. by constructor.
Qed.

Lemma js_sort_sorted (l : list A) :
  Forall P l -> StronglySorted cmp_le (js_sort cmp l).
Proof.
  intros HP. unfold js_sort.
  pose proof (countAndMakeRun_perm l) as Hp.
  pose proof (countAndMakeRun_sorted l HP) as Hs.
  destruct (countAndMakeRun cmp l) as [run rest]. simpl in *.
  rewrite <- Hp in HP. apply Forall_app in HP as [? ?].
  by apply foldl_binary_insert_sorted.
Qed.

End sorted.
End sort_facts.

(** ** Set reconciliation: removals, then insertions *)

Section reconciler_set_phase.
Context {K : Type} `{JSKey K}.
Import Reconciler.


Lemma classify_nil_r (b : Item K) before removed inserted :
  classify (b :: before) [] removed inserted
  = (removed ++ b :: before, inserted).
Proof. reflexivity. Qed.

Lemma classify_cons (a b : Item K) before after removed inserted :
  classify (b :: before) (a :: after) removed inserted
  = if comparator a b =? 0 then classify before after removed inserted
    else if comparator a b =? 1
         then classify before (a :: after) (removed ++ [b]) inserted
         else classify (b :: before) after removed (inserted ++ [a]).
Proof. reflexivity. Qed.

Definition indexed_from (n : nat) (l : list K) : list (Item K) :=
  imap (fun i k => createItem k (n + i)) l.

Lemma indexed_from_0 (l : list K) : indexed l = indexed_from 0 l.
Proof. reflexivity. Qed.

Lemma indexed_from_cons (n : nat) (x : K) (l : list K) :
  indexed_from n (x :: l) = createItem x n :: indexed_from (S n) l.
Proof.
  unfold indexed_from. rewrite imap_cons, Nat.add_0_r. f_equal.
  apply imap_ext. intros i k _. simpl. f_equal. lia.
Qed.

Lemma key_indexed_from (n : nat) (l : list K) : key <$> indexed_from n l = l.
Proof.
  revert n. induction l as [|x l IH]; intros n; [done|].
  rewrite indexed_from_cons, fmap_cons. simpl. by rewrite IH.
Qed.

Lemma elem_of_indexed_from (n : nat) (l : list K) (it : Item K) :
  it ∈ indexed_from n l <->
  (n <= index it)%nat /\ l !! (index it - n)%nat = Some (key it).
Proof.
  revert n. induction l as [|x l IH]; intros n.
  - split; [by intros ?%elem_of_nil|]. by intros [_ ?].
  - rewrite indexed_from_cons, elem_of_cons, IH. destruct it as [k i]. simpl.
    split.
    + intros [E|[Hle Hl]].
      * inversion E; subst. split; [lia|]. by rewrite Nat.sub_diag.
      * split; [lia|]. by replace (i - n)%nat with (S (i - S n)) by lia.
    + intros [Hle Hl]. destruct (decide (i = n)) as [->|Hne].
      * left. rewrite Nat.sub_diag in Hl. simpl in Hl. congruence.
      * right. split; [lia|].
        by replace (i - n)%nat with (S (i - S n)) in Hl by lia.
Qed.

Lemma elem_of_indexed (l : list K) (it : Item K) :
  it ∈ indexed l <-> l !! index it = Some (key it).
Proof.
  rewrite indexed_from_0, elem_of_indexed_from, Nat.sub_0_r.
  split; [by intros [_ ?]|]. intros. split; [lia|done].
Qed.

(** Strictly increasing indices. *)
Definition index_sorted (l : list (Item K)) : Prop :=
  StronglySorted (fun a b => (index a < index b)%nat) l.

Lemma indexed_from_sorted (n : nat) (l : list K) :
  index_sorted (indexed_from n l).
Proof.
  revert n. induction l as [|x l IH]; intros n; [constructor|].
  rewrite indexed_from_cons. constructor; [apply IH|].
  apply Forall_forall. intros it Hit.
  apply elem_of_indexed_from in Hit. simpl. lia.
Qed.

Lemma index_sorted_filter (P : Item K -> Prop) `{!forall x, Decision (P x)}
    (l : list (Item K)) :
  index_sorted l -> index_sorted (filter P l).
Proof.
  induction 1 as [|x l Hl IH Hx]; [constructor|].
  rewrite filter_cons. destruct (decide (P x)); [|done].
  constructor; [done|].
  apply Forall_forall. intros y Hy. apply list_elem_of_filter in Hy as [_ Hy].
  rewrite Forall_forall in Hx. by apply Hx.
Qed.

Lemma sortByIndex_unique (X Y : list (Item K)) (l : list K) :
  X ≡ₚ Y -> index_sorted Y -> (forall it, it ∈ Y -> it ∈ indexed l) ->
  js_sort sortByIndex X = Y.
Proof.
  intros HXY HY Hin.
  apply (StronglySorted_unique_strong (cmp_le sortByIndex)).
  - intros x1 x2 Hx1 Hx2 H1 H2.
    rewrite js_sort_perm, HXY in Hx1.
    apply Hin, elem_of_indexed in Hx1. apply Hin, elem_of_indexed in Hx2.
    unfold cmp_le, sortByIndex in H1, H2.
    destruct x1 as [k1 i1], x2 as [k2 i2]. simpl in *.
    assert (i1 = i2) by lia. subst. congruence.
  - apply (js_sort_sorted sortByIndex (fun _ => True)).
    + unfold cmp_le, sortByIndex. intros; lia.
    + unfold cmp_le, sortByIndex. intros; lia.
    + by apply Forall_true.
  - clear HXY Hin. induction HY as [|y Y HY IH Hy]; constructor; [done|].
    eapply Forall_impl; [exact Hy|].
    intros z Hz. simpl in Hz. unfold cmp_le, sortByIndex. lia.
  - by rewrite js_sort_perm.
Qed.

Lemma foldl_apply_move (acc : Moves K) (ms : list (Move.t K)) :
  foldl apply_move acc ms
  = {| moves := moves acc ++ ms; result := apply_moves ms (result acc) |}.
Proof.
  revert acc. induction ms as [|m ms IH]; intros acc; simpl.
  - rewrite app_nil_r. by destruct acc.
  - rewrite IH. simpl. by rewrite <- app_assoc.
Qed.

Lemma apply_moves_app (ms1 ms2 : list (Move.t K)) (l : list K) :
  apply_moves (ms1 ++ ms2) l = apply_moves ms2 (apply_moves ms1 l).
Proof. apply foldl_app. Qed.

Lemma apply_moves_cons (m : Move.t K) (ms : list (Move.t K)) (l : list K) :
  apply_moves (m :: ms) l = apply_moves ms (Move.make m l).
Proof. reflexivity. Qed.

Lemma setMoves_eq (source target : list K) :
  setMoves source target
  = let ms := (remove_of <$> removed_items source target)
              ++ (insert_of <$> inserted_items source target) in
    {| moves := ms; result := apply_moves ms source |}.
Proof.
  unfold setMoves.
  rewrite <- (foldl_fmap apply_move _ (inserted_items source target)).
  rewrite <- (foldl_fmap apply_move _ (removed_items source target)).
  rewrite !foldl_apply_move. simpl. by rewrite apply_moves_app.
Qed.

(** Removing from the back leaves the front of the list in place. *)
Lemma remove_phase (P : Item K -> Prop) `{!forall x, Decision (P x)}
    (pre l : list K) :
  apply_moves
    (remove_of <$> reverse (filter P (indexed_from (length pre) l)))
    (pre ++ l)
  = pre ++ (key <$> filter (fun it => ~ P it) (indexed_from (length pre) l)).
Proof.
  revert pre. induction l as [|x l IH]; intros pre; [done|].
  rewrite indexed_from_cons, !filter_cons.
  specialize (IH (pre ++ [x])).
  rewrite length_app, Nat.add_1_r, <- app_assoc in IH. simpl in IH.
  destruct (decide (P (createItem x (length pre)))) as [HP|HP].
  - rewrite decide_False by tauto.
    rewrite reverse_cons, fmap_app, apply_moves_app, IH. simpl.
    unfold apply_moves. simpl. rewrite splice_nat.
    rewrite drop_app_length' by (rewrite length_app; simpl; lia).
    by rewrite <- app_assoc, take_app_length.
  - rewrite decide_True by done. rewrite IH.
    by rewrite <- app_assoc.
Qed.

Lemma key_filter_indexed_from (Q : K -> Prop) `{!forall x, Decision (Q x)}
    (n : nat) (l : list K) :
  key <$> filter (fun it => Q (key it)) (indexed_from n l) = filter Q l.
Proof.
  revert n. induction l as [|x l IH]; intros n; [done|].
  rewrite indexed_from_cons, !filter_cons. simpl.
  destruct (decide (Q x)); simpl; by rewrite IH.
Qed.

Lemma make_insert_perm (k : K) (i : nat) (l : list K) :
  Move.make (Move.insert k (Z.of_nat i)) l ≡ₚ k :: l.
Proof.
  simpl. rewrite splice_nat, Nat.add_0_r. simpl.
  rewrite <- Permutation_middle. by rewrite take_drop.
Qed.

Lemma insert_phase_perm (its : list (Item K)) (l : list K) :
  apply_moves (insert_of <$> its) l ≡ₚ (key <$> its) ++ l.
Proof.
  revert l. induction its as [|it its IH]; intros l; [done|].
  rewrite !fmap_cons, apply_moves_cons, IH.
  unfold insert_of at 1. rewrite make_insert_perm.
  simpl. by rewrite <- Permutation_middle.
Qed.

(** The sequence after the set phase: the removals and insertions applied
    to the source. *)
Definition intermediate (source target : list K) : list K :=
  result (setMoves source target).

Lemma comparator_zero (a b : Item K) :
  (comparator a b =? 0) = key_is (key a) (key b).
Proof.
  unfold comparator. destruct (key_is (key a) (key b)); [done|].
  by destruct (key_gt (key a) (key b)).
Qed.

(** Whatever the comparisons answer, the walk pairs items of equal keys and
    leaves the rest of [before] removed and the rest of [after] inserted. *)
Lemma classify_perm (before after removed inserted : list (Item K)) :
  exists Mb Ma R I,
    classify before after removed inserted = (removed ++ R, inserted ++ I)
    /\ before ≡ₚ Mb ++ R /\ after ≡ₚ Ma ++ I /\ key <$> Mb = key <$> Ma.
Proof.
  revert after removed inserted.
  induction before as [|b before IHb]; intros after.
  { intros removed inserted. exists [], [], [], after.
    simpl. by rewrite app_nil_r. }
  induction after as [|a after IHa]; intros removed inserted.
  { exists [], [], (b :: before), []. rewrite classify_nil_r.
    by rewrite app_nil_r. }
  rewrite classify_cons, comparator_zero.
  destruct (key_is (key a) (key b)) eqn:E.
  - apply key_is_eq in E.
    destruct (IHb after removed inserted) as (Mb & Ma & R & I & -> & Hb & Ha & Hk).
    exists (b :: Mb), (a :: Ma), R, I. split; [done|].
    split; [by rewrite Hb|]. split; [by rewrite Ha|].
    rewrite !fmap_cons. congruence.
  - destruct (comparator a b =? 1).
    + destruct (IHb (a :: after) (removed ++ [b]) inserted)
        as (Mb & Ma & R & I & -> & Hb & Ha & Hk).
      exists Mb, Ma, (b :: R), I. rewrite <- app_assoc. split; [done|].
      split; [|done]. rewrite Hb. apply Permutation_middle.
    + destruct (IHa removed (inserted ++ [a]))
        as (Mb & Ma & R & I & -> & Hb & Ha & Hk).
      exists Mb, Ma, R, (a :: I). rewrite <- app_assoc. split; [done|].
      split; [done|]. split; [|done]. rewrite Ha. apply Permutation_middle.
Qed.

Lemma NoDup_indexed (l : list K) : NoDup (indexed l).
Proof.
  rewrite indexed_from_0. generalize 0%nat.
  induction l as [|x l IH]; intros n; [constructor|].
  rewrite indexed_from_cons. constructor; [|apply IH].
  intros Hin%elem_of_indexed_from. simpl in Hin. lia.
Qed.

(** The set phase turns a duplicate-free source into a permutation of the
    target, on any keys. *)
Lemma intermediate_perm (source target : list K) :
  NoDup source -> NoDup target -> intermediate source target ≡ₚ target.
Proof.
  intros Hs Ht. unfold intermediate. rewrite setMoves_eq. cbn [result].
  rewrite apply_moves_app, insert_phase_perm.
  unfold removed_items, inserted_items.
  destruct (classify_perm (js_sort comparator (indexed source))
              (js_sort comparator (indexed target)) [] [])
    as (Mb & Ma & R & I & -> & Hb & Ha & Hk).
  cbn [fst snd app].
  rewrite js_sort_perm in Hb, Ha.
  assert (HndS : NoDup (Mb ++ R)) by (rewrite <- Hb; apply NoDup_indexed).
  apply NoDup_app in HndS as (HndM & Hdisj & HndR).
  assert (HR : js_sort sortByIndex R
               = filter (fun it => it ∈ R) (indexed source)).
  { apply (sortByIndex_unique _ _ source).
    - apply NoDup_Permutation; [done|apply NoDup_filter, NoDup_indexed|].
      intros it. rewrite list_elem_of_filter, Hb, elem_of_app. tauto.
    - apply index_sorted_filter. rewrite indexed_from_0.
      apply indexed_from_sorted.
    - intros it Hit. by apply list_elem_of_filter in Hit as [_ ?]. }
  rewrite HR, indexed_from_0.
  pose proof (remove_phase (fun it => it ∈ R) [] source) as Hr.
  cbn [length app] in Hr. rewrite Hr. clear Hr.
  assert (HM : filter (fun it => ~ it ∈ R) (indexed_from 0 source) ≡ₚ Mb).
  { apply NoDup_Permutation; [|done|].
    - apply NoDup_filter. rewrite <- indexed_from_0. apply NoDup_indexed.
    - intros it. rewrite list_elem_of_filter, <- indexed_from_0, Hb, elem_of_app.
      split; [tauto|]. intros Hit. split; [|by left].
      by apply Hdisj. }
  rewrite HM, js_sort_perm, Hk, <- fmap_app.
  rewrite (Permutation_app_comm I Ma), <- Ha.
  by rewrite indexed_from_0, key_indexed_from.
Qed.

End reconciler_set_phase.

(** ** Reordering: the forward and the reverse scan *)

Section reconciler_phase2.
Context {K : Type} `{JSKey K}.
Import Reconciler.


Lemma deepEqual_eq (l1 l2 : list K) : deepEqual l1 l2 = true <-> l1 = l2.
Proof.
  revert l2. induction l1 as [|x l1 IH]; intros [|y l2]; simpl;
    try (split; [discriminate|done]); [done|].
  rewrite andb_true_iff, key_is_eq, IH. split.
  - by intros [-> ->].
  - intros E. by inversion E.
Qed.

Lemma indexOf_nonneg (t : K) (l : list K) : -1 <= indexOf t l.
Proof.
  induction l as [|x l IH]; simpl; [lia|].
  destruct (key_is x t); [lia|].
  destruct (Z.ltb_spec (indexOf t l) 0); lia.
Qed.

Lemma indexOf_middle (t : K) (l1 l2 : list K) :
  t ∉ l1 -> indexOf t (l1 ++ t :: l2) = Z.of_nat (length l1).
Proof.
  induction l1 as [|x l1 IH]; intros Hn; simpl.
  - by rewrite key_is_refl.
  - apply not_elem_of_cons in Hn as [Hne Hn].
    rewrite (proj2 (key_is_false x t)) by done.
    rewrite IH by done.
    destruct (Z.ltb_spec (Z.of_nat (length l1)) 0); lia.
Qed.

Lemma move_step_forward (pre m r : list K) (t : K) :
  t ∉ pre -> t ∉ m ->
  Move.make
    (Move.move t (indexOf t (pre ++ m ++ t :: r)) (Z.of_nat (length pre)))
    (pre ++ m ++ t :: r)
  = pre ++ t :: m ++ r.
Proof.
  intros Hpre Hm. rewrite app_assoc, indexOf_middle
    by (rewrite elem_of_app; tauto).
  simpl. rewrite !splice_nat. simpl.
  rewrite take_app_length, Nat.add_1_r.
  rewrite (cons_middle t (pre ++ m) r), app_assoc.
  rewrite drop_app_length' by (rewrite !length_app; simpl; lia).
  rewrite <- app_assoc, take_app_length, Nat.add_0_r, drop_app_length.
  done.
Qed.

Lemma move_step_reverse (m r suf : list K) (t : K) :
  t ∉ m ->
  Move.make
    (Move.move t (indexOf t (m ++ t :: r ++ suf))
       (Z.of_nat (length m + length r)))
    (m ++ t :: r ++ suf)
  = m ++ r ++ t :: suf.
Proof.
  intros Hm. rewrite indexOf_middle by done.
  simpl. rewrite !splice_nat. simpl.
  rewrite take_app_length, Nat.add_1_r.
  rewrite (cons_middle t m (r ++ suf)), app_assoc.
  rewrite drop_app_length' by (rewrite !length_app; simpl; lia).
  rewrite Nat.add_0_r, (app_assoc m r suf).
  rewrite take_app_length' by (by rewrite length_app).
  rewrite drop_app_length' by (by rewrite length_app).
  by rewrite <- app_assoc.
Qed.

Definition positions_from (n : nat) (l : list K) : list (nat * K) :=
  imap (fun i item => ((n + i)%nat, item)) l.

Lemma positions_from_cons (n : nat) (x : K) (l : list K) :
  positions_from n (x :: l) = (n, x) :: positions_from (S n) l.
Proof.
  unfold positions_from. rewrite imap_cons, Nat.add_0_r. f_equal.
  apply imap_ext. intros i k _. simpl. f_equal. lia.
Qed.

Lemma positions_from_snoc (n : nat) (x : K) (l : list K) :
  positions_from n (l ++ [x])
  = positions_from n l ++ [((n + length l)%nat, x)].
Proof.
  unfold positions_from. rewrite imap_app. simpl. by rewrite Nat.add_0_r.
Qed.

Lemma moveItemIfNeeded_same (acc : Moves K) (i : nat) (item : K) :
  result acc !! i = Some item -> moveItemIfNeeded acc (i, item) = acc.
Proof. unfold moveItemIfNeeded. intros ->. by rewrite key_is_refl. Qed.

Lemma moveItemIfNeeded_diff (acc : Moves K) (i : nat) (item : K) :
  result acc !! i <> Some item ->
  moveItemIfNeeded acc (i, item)
  = apply_move acc
      (Move.move item (indexOf item (result acc)) (Z.of_nat i)).
Proof.
  unfold moveItemIfNeeded. intros Hne.
  destruct (result acc !! i) as [x|]; [|done].
  destruct (key_is x item) eqn:E; [|done].
  apply key_is_eq in E. congruence.
Qed.

(** A scan only appends [move] operations, and its [result] is what they
    make of the list it started from. *)
Lemma scan_moves (acc : Moves K) (ps : list (nat * K)) :
  exists ms, Forall (fun m => Move.is_move m = true) ms /\
    foldl moveItemIfNeeded acc ps
    = {| moves := moves acc ++ ms; result := apply_moves ms (result acc) |}.
Proof.
  revert acc. induction ps as [|[i item] ps IH]; intros acc.
  - exists []. split; [constructor|]. simpl. rewrite app_nil_r.
    by destruct acc.
  - rewrite foldl_step.
    destruct (decide (result acc !! i = Some item)) as [E|E].
    + rewrite moveItemIfNeeded_same by done. apply IH.
    + rewrite moveItemIfNeeded_diff by done.
      destruct (IH (apply_move acc
        (Move.move item (indexOf item (result acc)) (Z.of_nat i))))
        as (ms & Hms & ->).
      exists (Move.move item (indexOf item (result acc)) (Z.of_nat i) :: ms).
      split; [by constructor|].
      simpl. by rewrite <- app_assoc.
Qed.

Lemma lookup_unique_middle (l1 l2 : list K) (t : K) (i : nat) :
  NoDup (l1 ++ t :: l2) -> (l1 ++ t :: l2) !! i = Some t -> i = length l1.
Proof.
  intros Hnd Hi. eapply NoDup_lookup; [exact Hnd|exact Hi|].
  by apply list_lookup_middle.
Qed.

Lemma forward_result (target pre rest : list K) (ms : list (Move.t K)) :
  NoDup (pre ++ target) -> rest ≡ₚ target ->
  result (foldl moveItemIfNeeded {| moves := ms; result := pre ++ rest |}
            (positions_from (length pre) target))
  = pre ++ target.
Proof.
  revert pre rest ms.
  induction target as [|t target IH]; intros pre rest ms Hnd Hperm.
  { apply Permutation_nil_r in Hperm. by subst. }
  rewrite positions_from_cons, foldl_step.
  assert (Hnd' : NoDup (pre ++ rest)) by (by rewrite Hperm).
  apply Permutation_cons_inv_r in Hperm as (m & r & -> & Hperm).
  assert (Htpre : t ∉ pre).
  { apply NoDup_app in Hnd as (_ & Hd & _). intros Hin.
    apply (Hd _ Hin). left. }
  assert (Htm : t ∉ m).
  { apply NoDup_app in Hnd' as (_ & _ & Hr).
    apply NoDup_app in Hr as (_ & Hd & _). intros Hin.
    apply (Hd _ Hin). left. }
  assert (Hnext : NoDup ((pre ++ [t]) ++ target))
    by (by rewrite <- app_assoc).
  specialize (IH (pre ++ [t]) (m ++ r)).
  rewrite length_app, Nat.add_1_r, <- !app_assoc in IH. simpl in IH.
  destruct (decide ((pre ++ m ++ t :: r) !! length pre = Some t)) as [E|E].
  - rewrite moveItemIfNeeded_same by done.
    rewrite app_assoc in E, Hnd'.
    apply lookup_unique_middle in E; [|done].
    rewrite length_app in E. destruct m; [|simpl in E; lia].
    simpl. by apply IH.
  - rewrite moveItemIfNeeded_diff by done.
    unfold apply_move. cbn [moves result].
    rewrite move_step_forward by done. by apply IH.
Qed.

Lemma reverse_result (target rest suf : list K) (ms : list (Move.t K)) :
  NoDup (target ++ suf) -> rest ≡ₚ target ->
  result (foldl moveItemIfNeeded {| moves := ms; result := rest ++ suf |}
            (reverse (positions_from 0 target)))
  = target ++ suf.
Proof.
  revert rest suf ms.
  induction target as [|t target IH] using rev_ind;
    intros rest suf ms Hnd Hperm.
  { apply Permutation_nil_r in Hperm. by subst. }
  rewrite positions_from_snoc, reverse_snoc, foldl_step.
  assert (Hnd' : NoDup (rest ++ suf)) by (by rewrite Hperm).
  assert (Hlen : length rest = S (length target)).
  { rewrite Hperm, length_app. simpl. lia. }
  rewrite <- Permutation_cons_append in Hperm.
  apply Permutation_cons_inv_r in Hperm as (m & r & -> & Hperm).
  assert (Htm : t ∉ m).
  { apply NoDup_app in Hnd' as (Hr & _ & _).
    apply NoDup_app in Hr as (_ & Hd & _). intros Hin.
    apply (Hd _ Hin). left. }
  assert (Hnext : NoDup (target ++ t :: suf))
    by (by rewrite <- app_assoc in Hnd).
  rewrite length_app in Hlen. simpl in Hlen.
  assert (Hi : (0 + length target)%nat = (length m + length r)%nat) by lia.
  specialize (IH (m ++ r) (t :: suf)).
  rewrite <- !app_assoc in IH. rewrite <- !app_assoc.
  change ([t] ++ suf) with (t :: suf).
  change ((t :: r) ++ suf) with (t :: r ++ suf). rewrite Hi.
  rewrite <- app_assoc in Hnd'.
  change ((t :: r) ++ suf) with (t :: r ++ suf) in Hnd'.
  symmetry in Hperm.
  destruct (decide ((m ++ t :: r ++ suf) !! (length m + length r)%nat
                    = Some t)) as [E|E].
  - rewrite moveItemIfNeeded_same by done.
    apply lookup_unique_middle in E; [|done].
    destruct r; [|simpl in E; lia].
    by apply IH.
  - rewrite moveItemIfNeeded_diff by done.
    unfold apply_move. cbn [moves result].
    rewrite move_step_reverse by done. by apply IH.
Qed.

Lemma scan_in_place (acc : Moves K) (ps : list (nat * K)) :
  (forall i item, (i, item) ∈ ps -> result acc !! i = Some item) ->
  foldl moveItemIfNeeded acc ps = acc.
Proof.
  induction ps as [|[i item] ps IH]; intros Hps; [done|].
  rewrite foldl_step, moveItemIfNeeded_same by (apply Hps; left).
  apply IH. intros j it Hj. apply Hps. by right.
Qed.

(** A sequence that is already the target needs no move. *)
Lemma calculateIndexChanges_same (target : list K) :
  calculateIndexChanges target target false
  = {| moves := []; result := target |}.
Proof.
  unfold calculateIndexChanges. apply scan_in_place.
  intros i item Hin. apply elem_of_lookup_imap in Hin as (j & x & E & Hj).
  inversion E; subst. exact Hj.
Qed.

(** Either scan turns a duplicate-free permutation of the target into the
    target, using [move] operations only. *)
Lemma calculateIndexChanges_spec (source target : list K) (reversed : bool) :
  NoDup target -> source ≡ₚ target ->
  exists ms, Forall (fun m => Move.is_move m = true) ms /\
    calculateIndexChanges source target reversed
    = {| moves := ms; result := target |} /\
    apply_moves ms source = target.
Proof.
  intros Hnd Hperm. unfold calculateIndexChanges.
  destruct (scan_moves {| moves := []; result := source |}
    (if reversed then reverse (imap (fun i item => (i, item)) target)
     else imap (fun i item => (i, item)) target)) as (ms & Hms & Hfold).
  assert (Hres : result (foldl moveItemIfNeeded
    {| moves := []; result := source |}
    (if reversed then reverse (imap (fun i item => (i, item)) target)
     else imap (fun i item => (i, item)) target)) = target).
  { destruct reversed.
    - pose proof (reverse_result target source [] []) as Hr.
      rewrite !app_nil_r in Hr. by apply Hr.
    - by apply (forward_result target [] source []). }
  rewrite Hfold in Hres |- *. simpl in Hres.
  exists ms. split; [done|]. split; [|done]. simpl. by rewrite Hres.
Qed.

End reconciler_phase2.

(** ** The reconciler as a whole *)

Section reconciler_main.
Context {K : Type} `{JSKey K}.
Import Reconciler.


Lemma calculateMoves_shape (source target : list K)
    (favoredToMove : option K) :
  NoDup source -> NoDup target ->
  exists reorder,
    Forall (fun m => Move.is_move m = true) reorder /\
    calculateMoves source target favoredToMove
    = {| moves := moves (setMoves source target) ++ reorder;
         result := target |} /\
    apply_moves reorder (intermediate source target) = target /\
    (intermediate source target = target -> reorder = []).
Proof.
  intros Hs Ht. unfold calculateMoves.
  fold (intermediate source target).
  destruct (deepEqual (intermediate source target) target) eqn:E.
  - apply deepEqual_eq in E. exists []. split; [constructor|].
    rewrite app_nil_r. split; [|done]. unfold intermediate in E.
    destruct (setMoves source target) as [ms r]. simpl in *. by subst.
  - assert (Hne : intermediate source target <> target).
    { intros Heq. apply deepEqual_eq in Heq. congruence. }
    pose proof (intermediate_perm source target Hs Ht) as Hperm.
    destruct (calculateIndexChanges_spec _ _ false Ht Hperm)
      as (msd & Hmd & -> & Had).
    destruct (calculateIndexChanges_spec _ _ true Ht Hperm)
      as (msa & Hma & -> & Haa).
    cbn [moves result].
    match goal with
    | |- context [if ?b then _ else _] => destruct b
    end; [destruct (_ <=? _)%nat|]; cbn [moves result].
    + by exists msa.
    + by exists msd.
    + by exists msd.
Qed.

(** C10. For duplicate-free key sequences, running the list
    transformation of every returned move, in order, on a copy of the
    source gives a sequence deep-equal to the target, and the [result]
    attached to the returned move list is the target. *)
Theorem calculateMoves_reaches_target (source target : list K)
    (favoredToMove : option K) :
  NoDup source -> NoDup target ->
  deepEqual
    (apply_moves (moves (calculateMoves source target favoredToMove)) source)
    target = true
  /\ result (calculateMoves source target favoredToMove) = target.
Proof.
  intros Hs Ht.
  destruct (calculateMoves_shape source target favoredToMove Hs Ht)
    as (reorder & _ & -> & Happ & _).
  split; [|done]. apply deepEqual_eq. cbn [moves].
  rewrite apply_moves_app. unfold intermediate in Happ.
  rewrite setMoves_eq in Happ |- *. exact Happ.
Qed.

End reconciler_main.

(** ** The reconciler on ordered keys *)

Section ordered_keys.
Context {K : Type} `{JSKey K}.

(** [>] orders the keys of a list when it is a strict total order on them:
    no key is above itself, a key above a key that is above a third is
    above the third, and of two different keys one is above the other. *)
Definition keys_ordered (l : list K) : bool :=
  forallb (fun a => negb (key_gt a a)) l
  && forallb (fun a => forallb (fun b => forallb (fun c =>
       implb (key_gt a b && key_gt b c) (key_gt a c)) l) l) l
  && forallb (fun a => forallb (fun b =>
       key_is a b || key_gt a b || key_gt b a) l) l.

Lemma keys_ordered_spec (l : list K) :
  keys_ordered l = true <->
  (forall a, a ∈ l -> key_gt a a = false)
  /\ (forall a b c, a ∈ l -> b ∈ l -> c ∈ l ->
        key_gt a b = true -> key_gt b c = true -> key_gt a c = true)
  /\ (forall a b, a ∈ l -> b ∈ l -> a <> b ->
        key_gt a b = true \/ key_gt b a = true).
Proof.
  unfold keys_ordered. rewrite !andb_true_iff, !forallb_forall.
  setoid_rewrite forallb_forall. setoid_rewrite forallb_forall.
  setoid_rewrite <- list_elem_of_In.
  split.
  - intros [[Hi Ht] Ho]. split_and!.
    + intros a Ha. by apply negb_true_iff, Hi.
    + intros a b c Ha Hb Hc Hab Hbc.
      specialize (Ht a Ha b Hb c Hc). by rewrite Hab, Hbc in Ht.
    + intros a b Ha Hb Hne. specialize (Ho a Ha b Hb).
      apply key_is_false in Hne. rewrite Hne in Ho. simpl in Ho.
      by apply orb_true_iff in Ho.
  - intros (Hi & Ht & Ho). split_and!.
    + intros a Ha. by apply negb_true_iff, Hi.
    + intros a Ha b Hb c Hc.
      destruct (key_gt a b) eqn:Hab, (key_gt b c) eqn:Hbc; simpl; try done.
      by apply (Ht a b c).
    + intros a Ha b Hb. destruct (key_is a b) eqn:E; [done|]. simpl.
      apply key_is_false in E. apply orb_true_iff. by apply Ho.
Qed.

Lemma keys_ordered_subseteq (l l' : list K) :
  (forall a, a ∈ l' -> a ∈ l) -> keys_ordered l = true ->
  keys_ordered l' = true.
Proof.
  rewrite !keys_ordered_spec. intros Hin (Hi & Ht & Ho). split_and!.
  - intros a Ha. apply Hi; auto.
  - intros a b c Ha Hb Hc. apply Ht; auto.
  - intros a b Ha Hb. apply Ho; auto.
Qed.

(** Keys of a kind that [>] orders are ordered in every list. *)
Lemma JSKeyOrder_keys_ordered `{!JSKeyOrder K} (l : list K) :
  keys_ordered l = true.
Proof.
  apply keys_ordered_spec. split_and!.
  - intros a _. apply key_gt_irrefl.
  - intros a b c _ _ _. apply key_gt_trans.
  - intros a b _ _. apply key_gt_total.
Qed.

End ordered_keys.

Lemma key_gt_numbers (a b : Z) : key_gt (KeyNum a) (KeyNum b) = (a >? b).
Proof.
  change (key_gt (KeyNum a) (KeyNum b)) with (a * 1 >? b * 1).
  by rewrite !Z.mul_1_r.
Qed.

(** Lists of number keys and lists of string keys are ordered. *)
Lemma number_keys_ordered (l : list Z) : keys_ordered (KeyNum <$> l) = true.
Proof.
  apply keys_ordered_spec. split_and!.
  - intros a (n & -> & _)%list_elem_of_fmap. rewrite key_gt_numbers.
    rewrite Z.gtb_ltb. apply Z.ltb_irrefl.
  - intros a b c (n1 & -> & _)%list_elem_of_fmap
      (n2 & -> & _)%list_elem_of_fmap (n3 & -> & _)%list_elem_of_fmap.
    rewrite !key_gt_numbers, !Z.gtb_ltb, !Z.ltb_lt. lia.
  - intros a b (n1 & -> & _)%list_elem_of_fmap
      (n2 & -> & _)%list_elem_of_fmap Hne.
    rewrite !key_gt_numbers, !Z.gtb_ltb, !Z.ltb_lt.
    assert (n1 <> n2) by congruence. lia.
Qed.

Lemma string_keys_ordered (l : list string) :
  keys_ordered (KeyStr <$> l) = true.
Proof.
  apply keys_ordered_spec. split_and!.
  - intros a (s & -> & _)%list_elem_of_fmap.
    exact (key_gt_irrefl (K := string) s).
  - intros a b c (s1 & -> & _)%list_elem_of_fmap
      (s2 & -> & _)%list_elem_of_fmap (s3 & -> & _)%list_elem_of_fmap.
    exact (key_gt_trans (K := string) s1 s2 s3).
  - intros a b (s1 & -> & _)%list_elem_of_fmap
      (s2 & -> & _)%list_elem_of_fmap Hne.
    assert (Hs : s1 <> s2) by congruence.
    exact (key_gt_total (K := string) s1 s2 Hs).
Qed.

Section reconciler_ordered.
Context {K : Type} `{JSKey K}.
Import Reconciler.

(** The keys the comparisons are made on, which [>] orders. *)
Context (D : list K).
Hypothesis HD : keys_ordered D = true.

Definition keyed_in (it : Item K) : Prop := key it ∈ D.

Lemma key_gt_irrefl_in (a : K) : a ∈ D -> key_gt a a = false.
Proof. apply keys_ordered_spec in HD as (Hi & _). apply Hi. Qed.

Lemma key_gt_trans_in (a b c : K) :
  a ∈ D -> b ∈ D -> c ∈ D ->
  key_gt a b = true -> key_gt b c = true -> key_gt a c = true.
Proof. apply keys_ordered_spec in HD as (_ & Ht & _). apply Ht. Qed.

Lemma key_gt_total_in (a b : K) :
  a ∈ D -> b ∈ D -> a <> b -> key_gt a b = true \/ key_gt b a = true.
Proof. apply keys_ordered_spec in HD as (_ & _ & Ho). apply Ho. Qed.

Lemma key_gt_asym (a b : K) :
  a ∈ D -> b ∈ D -> key_gt a b = true -> key_gt b a = false.
Proof.
  intros Ha Hb Hab. destruct (key_gt b a) eqn:Hba; [|done].
  pose proof (key_gt_trans_in _ _ _ Ha Hb Ha Hab Hba) as Haa.
  by rewrite key_gt_irrefl_in in Haa.
Qed.

Lemma comparator_le (a b : Item K) :
  keyed_in a -> keyed_in b ->
  cmp_le comparator a b <-> key a = key b \/ key_gt (key b) (key a) = true.
Proof.
  intros Ha Hb. unfold cmp_le, comparator.
  destruct (key_is (key a) (key b)) eqn:E.
  - apply key_is_eq in E. split; [auto|lia].
  - apply key_is_false in E.
    destruct (key_gt (key a) (key b)) eqn:G.
    + split; [lia|]. intros [?|G']; [done|].
      apply key_gt_asym in G'; [congruence|done..].
    + split; [|lia]. intros _. right.
      destruct (key_gt_total_in _ _ Ha Hb E); [congruence|done].
Qed.

(** The comparator is consistent on these keys: what is not below is
    above. *)
Lemma comparator_ge (a b : Item K) :
  keyed_in a -> keyed_in b ->
  0 <= comparator a b -> cmp_le comparator b a.
Proof.
  intros Ha Hb Hge. apply comparator_le; [done..|].
  unfold comparator in Hge.
  destruct (key_is (key a) (key b)) eqn:E.
  - apply key_is_eq in E. by left.
  - destruct (key_gt (key a) (key b)) eqn:G; [by right|lia].
Qed.

Lemma comparator_trans (a b c : Item K) :
  keyed_in a -> keyed_in b -> keyed_in c ->
  cmp_le comparator a b -> cmp_le comparator b c -> cmp_le comparator a c.
Proof.
  intros Ha Hb Hc. rewrite !comparator_le by done. intros [E1|G1] [E2|G2].
  - left. congruence.
  - right. by rewrite E1.
  - right. by rewrite <- E2.
  - right. by eapply (key_gt_trans_in (key c) (key b) (key a)).
Qed.

(** Strictly increasing keys. *)
Definition key_sorted (l : list (Item K)) : Prop :=
  StronglySorted (fun a b => key_gt (key b) (key a) = true) l.

Lemma js_sort_key_sorted (l : list (Item K)) :
  Forall keyed_in l -> NoDup (key <$> l) ->
  key_sorted (js_sort comparator l).
Proof.
  intros HD' Hnd.
  assert (Hnd' : NoDup (key <$> js_sort comparator l))
    by (by rewrite js_sort_perm).
  assert (HD'' : Forall keyed_in (js_sort comparator l))
    by (by rewrite js_sort_perm).
  pose proof (js_sort_sorted comparator keyed_in comparator_ge
                comparator_trans l HD') as Hs.
  revert Hnd' HD'' Hs. generalize (js_sort comparator l). clear Hnd HD' l.
  intros l Hnd HDl Hs. induction Hs as [|x l Hl IH Hx]; [constructor|].
  rewrite fmap_cons in Hnd. apply NoDup_cons in Hnd as [Hx' Hnd].
  apply Forall_cons in HDl as [HDx HDl].
  constructor; [by apply IH|].
  rewrite Forall_forall in Hx, HDl |- *. intros y Hy.
  destruct (proj1 (comparator_le x y HDx (HDl y Hy)) (Hx y Hy)) as [E|G];
    [|done].
  destruct Hx'. rewrite E. by apply list_elem_of_fmap_2.
Qed.

Lemma comparator_cases (a b : Item K) :
  keyed_in a -> keyed_in b ->
  (key a = key b /\ comparator a b = 0)
  \/ (key_gt (key a) (key b) = true /\ comparator a b = 1)
  \/ (key_gt (key b) (key a) = true /\ comparator a b = -1).
Proof.
  intros Ha Hb. unfold comparator. destruct (key_is (key a) (key b)) eqn:E.
  - left. by apply key_is_eq in E.
  - apply key_is_false in E. destruct (key_gt (key a) (key b)) eqn:G.
    + right. by left.
    + right. right.
      destruct (key_gt_total_in _ _ Ha Hb E); [congruence|done].
Qed.

Lemma key_sorted_head_notin (x : Item K) l :
  keyed_in x -> key_sorted (x :: l) -> key x ∉ key <$> l.
Proof.
  intros HDx Hs Hin. apply StronglySorted_cons in Hs as [Hx _].
  apply list_elem_of_fmap in Hin as (y & E & Hy).
  rewrite Forall_forall in Hx. specialize (Hx y Hy).
  rewrite <- E, key_gt_irrefl_in in Hx; done.
Qed.

Lemma key_sorted_below_notin (x y : Item K) l :
  keyed_in x -> Forall keyed_in (y :: l) ->
  key_sorted (y :: l) -> key_gt (key y) (key x) = true ->
  key x ∉ key <$> y :: l.
Proof.
  intros HDx HDl Hs G Hin. apply StronglySorted_cons in Hs as [Hy _].
  apply Forall_cons in HDl as [HDy HDl].
  rewrite fmap_cons in Hin. apply elem_of_cons in Hin as [E|Hin].
  - rewrite E, key_gt_irrefl_in in G; [done|]. by rewrite <- E.
  - apply list_elem_of_fmap in Hin as (z & E & Hz).
    rewrite Forall_forall in Hy, HDl. specialize (Hy z Hz).
    pose proof (key_gt_trans_in _ _ _ (HDl z Hz) HDy HDx Hy G) as Hzx.
    rewrite <- E, key_gt_irrefl_in in Hzx; done.
Qed.

(** The walk removes the keys of [before] that [after] lacks and inserts
    the keys of [after] that [before] lacks. *)
Lemma classify_spec (before after removed inserted : list (Item K)) :
  Forall keyed_in before -> Forall keyed_in after ->
  key_sorted before -> key_sorted after ->
  classify before after removed inserted
  = (removed ++ filter (fun b => key b ∉ key <$> after) before,
     inserted ++ filter (fun a => key a ∉ key <$> before) after).
Proof.
  revert after removed inserted.
  induction before as [|b before IHb];
    intros after removed inserted HDb HDa Hb Ha.
  { simpl. rewrite app_nil_r. do 2 f_equal. symmetry.
    apply filter_all. intros x _. apply not_elem_of_nil. }
  revert removed inserted.
  induction after as [|a after IHa]; intros removed inserted.
  { rewrite classify_nil_r, filter_nil, app_nil_r. do 2 f_equal.
    rewrite filter_cons_True by apply not_elem_of_nil.
    f_equal. symmetry. apply filter_all. intros x _. apply not_elem_of_nil. }
  rewrite classify_cons.
  pose proof (proj2 (proj1 (StronglySorted_cons _ _ _) Hb)) as Hb'.
  pose proof (proj2 (proj1 (StronglySorted_cons _ _ _) Ha)) as Ha'.
  pose proof (proj1 (Forall_cons _ _ _) HDb) as [HDb0 HDb'].
  pose proof (proj1 (Forall_cons _ _ _) HDa) as [HDa0 HDa'].
  destruct (comparator_cases a b HDa0 HDb0) as [[E ->]|[[G ->]|[G ->]]].
  - (* common key *)
    change (classify before after removed inserted = 
      (removed ++ filter (fun b0 => key b0 ∉ key <$> a :: after) (b :: before),
       inserted ++ filter (fun a0 => key a0 ∉ key <$> b :: before) (a :: after))).
    rewrite IHb by done.
    rewrite (filter_cons_False _ b)
      by (rewrite fmap_cons, E; intros Hn; apply Hn; left).
    rewrite (filter_cons_False _ a)
      by (rewrite fmap_cons, E; intros Hn; apply Hn; left).
    f_equal; f_equal; apply filter_ext_in; intros x Hx;
      rewrite fmap_cons, not_elem_of_cons; split; try tauto; intros Hn;
      (split; [|done]); intros Hk.
    + apply (key_sorted_head_notin b before HDb0 Hb).
      rewrite <- E, <- Hk. by apply list_elem_of_fmap_2.
    + apply (key_sorted_head_notin a after HDa0 Ha).
      rewrite E, <- Hk. by apply list_elem_of_fmap_2.
  - (* [b] is removed *)
    change (classify before (a :: after) (removed ++ [b]) inserted = 
      (removed ++ filter (fun b0 => key b0 ∉ key <$> a :: after) (b :: before),
       inserted ++ filter (fun a0 => key a0 ∉ key <$> b :: before) (a :: after))).
    rewrite IHb by done.
    pose proof (key_sorted_below_notin b a after HDb0 HDa Ha G) as Hnb.
    rewrite (filter_cons_True _ b) by done.
    rewrite <- app_assoc. simpl. do 2 f_equal.
    apply filter_ext_in. intros x Hx.
    rewrite not_elem_of_cons. split; [|tauto].
    intros Hn. split; [|done]. intros Hk. apply Hnb.
    rewrite <- Hk. by apply list_elem_of_fmap_2.
  - (* [a] is inserted *)
    change (classify (b :: before) after removed (inserted ++ [a]) = 
      (removed ++ filter (fun b0 => key b0 ∉ key <$> a :: after) (b :: before),
       inserted ++ filter (fun a0 => key a0 ∉ key <$> b :: before) (a :: after))).
    rewrite IHa by done.
    pose proof (key_sorted_below_notin a b before HDa0 HDb Hb G) as Hna.
    rewrite (filter_cons_True _ a) by done.
    rewrite <- app_assoc. simpl. f_equal.
    f_equal. apply filter_ext_in. intros x Hx.
    rewrite not_elem_of_cons. split; [|tauto].
    intros Hn. split; [|done]. intros Hk. apply Hna.
    rewrite <- Hk. by apply list_elem_of_fmap_2.
Qed.

Lemma NoDup_key_indexed (l : list K) :
  NoDup l -> NoDup (key <$> indexed l).
Proof. by rewrite indexed_from_0, key_indexed_from. Qed.

Lemma key_sorted_indexed (l : list K) :
  key <$> js_sort comparator (indexed l) ≡ₚ l.
Proof. by rewrite js_sort_perm, indexed_from_0, key_indexed_from. Qed.

Lemma keyed_in_indexed (l : list K) :
  (forall k, k ∈ l -> k ∈ D) -> Forall keyed_in (indexed l).
Proof.
  intros Hin. apply Forall_forall. intros it Hit%elem_of_indexed.
  apply Hin. by eapply list_elem_of_lookup_2.
Qed.

Lemma keyed_in_sorted (l : list K) :
  (forall k, k ∈ l -> k ∈ D) ->
  Forall keyed_in (js_sort comparator (indexed l)).
Proof. intros Hin. rewrite js_sort_perm. by apply keyed_in_indexed. Qed.

(** The removed items are the source keys missing from the target, from
    the last one to the first. *)
Lemma removed_items_spec (source target : list K) :
  (forall k, k ∈ source -> k ∈ D) -> (forall k, k ∈ target -> k ∈ D) ->
  NoDup source -> NoDup target ->
  removed_items source target
  = reverse (filter (fun it => key it ∉ target) (indexed source)).
Proof.
  intros HDs HDt Hs Ht. unfold removed_items. f_equal.
  rewrite classify_spec;
    [|by apply keyed_in_sorted|by apply keyed_in_sorted
     |apply js_sort_key_sorted;
        [by apply keyed_in_indexed|by apply NoDup_key_indexed]
     |apply js_sort_key_sorted;
        [by apply keyed_in_indexed|by apply NoDup_key_indexed]].
  simpl. apply (sortByIndex_unique _ _ source).
  - etrans; [apply filter_Permutation, js_sort_perm|].
    erewrite list_filter_iff; [done|]. intros it. simpl.
    by rewrite (key_sorted_indexed target).
  - apply index_sorted_filter. rewrite indexed_from_0.
    apply indexed_from_sorted.
  - intros it Hit. by apply list_elem_of_filter in Hit as [_ ?].
Qed.

(** The inserted items are the target keys missing from the source, from
    the first one to the last. *)
Lemma inserted_items_spec (source target : list K) :
  (forall k, k ∈ source -> k ∈ D) -> (forall k, k ∈ target -> k ∈ D) ->
  NoDup source -> NoDup target ->
  inserted_items source target
  = filter (fun it => key it ∉ source) (indexed target).
Proof.
  intros HDs HDt Hs Ht. unfold inserted_items.
  rewrite classify_spec;
    [|by apply keyed_in_sorted|by apply keyed_in_sorted
     |apply js_sort_key_sorted;
        [by apply keyed_in_indexed|by apply NoDup_key_indexed]
     |apply js_sort_key_sorted;
        [by apply keyed_in_indexed|by apply NoDup_key_indexed]].
  simpl. apply (sortByIndex_unique _ _ target).
  - etrans; [apply filter_Permutation, js_sort_perm|].
    erewrite list_filter_iff; [done|]. intros it. simpl.
    by rewrite (key_sorted_indexed source).
  - apply index_sorted_filter. rewrite indexed_from_0.
    apply indexed_from_sorted.
  - intros it Hit. by apply list_elem_of_filter in Hit as [_ ?].
Qed.

Lemma setMoves_permutation (source target : list K) :
  (forall k, k ∈ source -> k ∈ D) ->
  NoDup source -> NoDup target -> source ≡ₚ target ->
  setMoves source target = {| moves := []; result := source |}.
Proof.
  intros HDs Hs Ht Hperm.
  assert (HDt : forall k, k ∈ target -> k ∈ D).
  { intros k Hk. apply HDs. by rewrite Hperm. }
  rewrite setMoves_eq.
  rewrite removed_items_spec, inserted_items_spec by done.
  rewrite !filter_none; [done| |].
  - intros it Hit%elem_of_indexed Hn. apply Hn. rewrite Hperm.
    by eapply list_elem_of_lookup_2.
  - intros it Hit%elem_of_indexed Hn. apply Hn. rewrite <- Hperm.
    by eapply list_elem_of_lookup_2.
Qed.

End reconciler_ordered.

Section reconciler_on_ordered_keys.
Context {K : Type} `{JSKey K}.
Import Reconciler.

(** C3 (amended). For duplicate-free key sequences whose keys [>] orders,
    the returned list starts with the removals, which are exactly the
    source keys missing from the target in strictly descending source
    index, followed by the insertions, which are exactly the target keys
    missing from the source in strictly ascending target index; applied to
    a copy of the source they give a sequence holding exactly the common
    and the inserted keys; the rest of the list holds [move] operations
    only, and none at all when that sequence is already the target. *)
Theorem calculateMoves_set_reconciliation (source target : list K)
    (favoredToMove : option K) :
  NoDup source -> NoDup target ->
  keys_ordered (source ++ target) = true ->
  let removed := removed_items source target in
  let inserted := inserted_items source target in
  let mid :=
    apply_moves ((remove_of <$> removed) ++ (insert_of <$> inserted))
      source in
  exists reorder,
    moves (calculateMoves source target favoredToMove)
    = (remove_of <$> removed) ++ (insert_of <$> inserted) ++ reorder
    /\ (forall it, it ∈ removed <->
          source !! index it = Some (key it) /\ key it ∉ target)
    /\ StronglySorted (fun a b => (index a > index b)%nat) removed
    /\ (forall it, it ∈ inserted <->
          target !! index it = Some (key it) /\ key it ∉ source)
    /\ StronglySorted (fun a b => (index a < index b)%nat) inserted
    /\ (forall k, k ∈ mid <->
          (k ∈ source /\ k ∈ target) \/ (k ∈ target /\ k ∉ source))
    /\ NoDup mid
    /\ Forall (fun m => Move.is_move m = true) reorder
    /\ (mid = target -> reorder = []).
Proof.
  intros Hs Ht HD removed inserted mid.
  assert (HDs : forall k, k ∈ source -> k ∈ source ++ target)
    by (intros; apply elem_of_app; by left).
  assert (HDt : forall k, k ∈ target -> k ∈ source ++ target)
    by (intros; apply elem_of_app; by right).
  destruct (calculateMoves_shape source target favoredToMove Hs Ht)
    as (reorder & Hmv & -> & _ & Hnil).
  pose proof (intermediate_perm source target Hs Ht) as Hperm.
  unfold intermediate in Hperm, Hnil. rewrite setMoves_eq in Hperm, Hnil.
  cbn [moves result] in Hperm, Hnil. fold removed inserted mid in Hperm, Hnil.
  exists reorder. split_and!.
  - rewrite setMoves_eq. cbn [moves]. by rewrite <- app_assoc.
  - intros it. unfold removed.
    rewrite (removed_items_spec _ HD) by done.
    rewrite elem_of_reverse, list_elem_of_filter, elem_of_indexed. tauto.
  - unfold removed. rewrite (removed_items_spec _ HD) by done.
    apply (StronglySorted_reverse (fun a b => (index a < index b)%nat)).
    apply index_sorted_filter. rewrite indexed_from_0.
    apply indexed_from_sorted.
  - intros it. unfold inserted.
    rewrite (inserted_items_spec _ HD) by done.
    rewrite list_elem_of_filter, elem_of_indexed. tauto.
  - unfold inserted. rewrite (inserted_items_spec _ HD) by done.
    apply index_sorted_filter. rewrite indexed_from_0.
    apply indexed_from_sorted.
  - intros k. rewrite Hperm. destruct (decide (k ∈ source)); tauto.
  - by rewrite Hperm.
  - done.
  - done.
Qed.

Lemma favored_differs_single (f : K) (m : Move.t K) :
  Move.item m <> f -> favored_differs (Some f) [m] = key_truthy f.
Proof.
  intros Hne. unfold favored_differs. cbn [length Nat.eqb].
  apply key_is_false in Hne. rewrite Hne. cbn.
  by rewrite !andb_true_r.
Qed.

Lemma swap_forward (x y z : K) :
  NoDup [x; y; z] ->
  calculateIndexChanges [x; y; z] [y; x; z] false
  = {| moves := [Move.move y 1 0]; result := [y; x; z] |}.
Proof.
  intros Hnd.
  apply NoDup_cons in Hnd as [Hx' Hnd].
  assert (Hxy : x <> y) by (intros ->; apply Hx'; left).
  assert (Exy : key_is x y = false) by (by apply key_is_false).
  unfold calculateIndexChanges. cbn [imap foldl compose].
  rewrite (moveItemIfNeeded_diff _ 0 y) by (cbn; congruence).
  unfold apply_move. cbn [moves result app].
  replace (indexOf y [x; y; z]) with 1
    by (cbn [indexOf]; by rewrite Exy, key_is_refl).
  change (Move.make (Move.move y 1 (Z.of_nat 0)) [x; y; z])
    with [y; x; z].
  rewrite (moveItemIfNeeded_same _ 1 x) by reflexivity.
  by rewrite (moveItemIfNeeded_same _ 2 z) by reflexivity.
Qed.

Lemma swap_reverse (x y z : K) :
  NoDup [x; y; z] ->
  calculateIndexChanges [x; y; z] [y; x; z] true
  = {| moves := [Move.move x 0 1]; result := [y; x; z] |}.
Proof.
  intros Hnd.
  apply NoDup_cons in Hnd as [Hx' Hnd].
  assert (Hxy : x <> y) by (intros ->; apply Hx'; left).
  unfold calculateIndexChanges. cbn [imap compose].
  change (reverse [(0%nat, y); (1%nat, x); (2%nat, z)])
    with [(2%nat, z); (1%nat, x); (0%nat, y)].
  cbn [foldl].
  rewrite (moveItemIfNeeded_same _ 2 z) by reflexivity.
  rewrite (moveItemIfNeeded_diff _ 1 x) by (cbn; congruence).
  unfold apply_move. cbn [moves result app].
  replace (indexOf x [x; y; z]) with 0
    by (cbn [indexOf]; by rewrite key_is_refl).
  change (Move.make (Move.move x 0 (Z.of_nat 1)) [x; y; z])
    with [y; x; z].
  by rewrite (moveItemIfNeeded_same _ 0 y) by reflexivity.
Qed.

(** C2 (amended). For distinct keys [x], [y], [z] that [>] orders, the
    source [[x; y; z]] with the favored key [x] and the target
    [[y; x; z]], exactly one move is emitted: it relocates the favored key
    [x], from index 0 to index 1, when [x] is truthy, and the key [y],
    from index 1 to index 0, when [x] is falsy (the number 0 or the empty
    string).  More generally, on any keys, when the forward scan yields a
    single move of a key other than the favored one, the moves of the
    reverse scan are returned instead whenever the favored key is truthy
    and that scan has at most one move, and the forward move otherwise.
    On keys that [>] does not order the swap is not a single move: for
    the source [['a'; 1; 2]] and the target [[1; 'a'; 2]] with the favored
    key ['a'] the key 1 is removed and inserted again. *)
Theorem favored_key_is_the_one_moved (x y z : K) :
  NoDup [x; y; z] -> keys_ordered [x; y; z] = true ->
  calculateMoves [x; y; z] [y; x; z] (Some x)
  = {| moves := [if key_truthy x then Move.move x 0 1 else Move.move y 1 0];
       result := [y; x; z] |}
  /\ (forall (source target : list K) (f : K) (m : Move.t K),
        moves (calculateIndexChanges (intermediate source target) target
                 false)
        = [m] ->
        Move.item m <> f ->
        let alternativeMoves :=
          calculateIndexChanges (intermediate source target) target true in
        moves (calculateMoves source target (Some f))
        = moves (setMoves source target)
          ++ (if key_truthy f
                 && (length (moves alternativeMoves) <=? 1)%nat
              then moves alternativeMoves else [m]))
  /\ calculateMoves [KeyStr "a"; KeyNum 1; KeyNum 2]
       [KeyNum 1; KeyStr "a"; KeyNum 2] (Some (KeyStr "a"))
     = {| moves := [Move.remove (KeyNum 1) 1; Move.insert (KeyNum 1) 0];
          result := [KeyNum 1; KeyStr "a"; KeyNum 2] |}.
Proof.
  intros Hnd HD. split; [|split].
  - assert (Hnd' : NoDup [y; x; z]).
    { by rewrite (Permutation_swap x y [z]). }
    pose proof (swap_forward x y z Hnd) as Hd.
    pose proof (swap_reverse x y z Hnd) as Ha.
    assert (Hxy : x <> y).
    { apply NoDup_cons in Hnd as [Hx' _]. intros ->. apply Hx'. left. }
    assert (Exy : key_is x y = false) by (by apply key_is_false).
    unfold calculateMoves.
    rewrite (setMoves_permutation [x; y; z] HD);
      [|done|done|done|apply Permutation_swap].
    cbn [moves result deepEqual]. rewrite Exy. cbn [andb].
    rewrite Hd, Ha. cbn [moves result length Nat.ltb Nat.leb orb].
    rewrite favored_differs_single by (cbn; congruence).
    by destruct (key_truthy x).
  - intros source target f m Hm Hne alternativeMoves.
    assert (Hde : deepEqual (intermediate source target) target = false).
    { destruct (deepEqual _ _) eqn:E; [|done].
      apply deepEqual_eq in E. rewrite E in Hm.
      by rewrite calculateIndexChanges_same in Hm. }
    unfold calculateMoves. fold (intermediate source target).
    rewrite Hde, Hm.
    fold alternativeMoves.
    rewrite favored_differs_single by done.
    cbn [length orb Nat.ltb Nat.leb moves].
    destruct (key_truthy f); cbn [andb];
      [destruct (length (moves alternativeMoves) <=? 1)%nat eqn:E|];
      cbn [moves]; by rewrite ?Hm.
  - by vm_compute.
Qed.

End reconciler_on_ordered_keys.


(** ** Instances on string keys *)

Section reconciler_examples.
Import Reconciler.
Local Open Scope string_scope.
Local Open Scope list_scope.

Local Ltac nodup := apply (bool_decide_unpack _); vm_compute; exact I.

Lemma calculateMoves_reaches_target_witness :
  NoDup ["a"; "b"; "c"; "d"] /\ NoDup ["b"; "e"; "a"; "f"; "g"] /\
  deepEqual
    (apply_moves
       (moves (calculateMoves ["a"; "b"; "c"; "d"]
                 ["b"; "e"; "a"; "f"; "g"] None))
       ["a"; "b"; "c"; "d"])
    ["b"; "e"; "a"; "f"; "g"] = true
  /\ result (calculateMoves ["a"; "b"; "c"; "d"]
               ["b"; "e"; "a"; "f"; "g"] None)
     = ["b"; "e"; "a"; "f"; "g"].
Proof.
  split; [nodup|]. split; [nodup|].
  apply (calculateMoves_reaches_target ["a"; "b"; "c"; "d"]
           ["b"; "e"; "a"; "f"; "g"] None); nodup.
Defined.

Lemma calculateMoves_set_reconciliation_witness :
  NoDup ["a"; "b"; "c"; "d"] /\ NoDup ["b"; "e"; "a"; "f"; "g"] /\
  keys_ordered (["a"; "b"; "c"; "d"] ++ ["b"; "e"; "a"; "f"; "g"]) = true /\
  let source := ["a"; "b"; "c"; "d"] in
  let target := ["b"; "e"; "a"; "f"; "g"] in
  let removed := removed_items source target in
  let inserted := inserted_items source target in
  let mid :=
    apply_moves ((remove_of <$> removed) ++ (insert_of <$> inserted))
      source in
  exists reorder,
    moves (calculateMoves source target None)
    = (remove_of <$> removed) ++ (insert_of <$> inserted) ++ reorder
    /\ (forall it, it ∈ removed <->
          source !! index it = Some (key it) /\ key it ∉ target)
    /\ StronglySorted (fun a b => (index a > index b)%nat) removed
    /\ (forall it, it ∈ inserted <->
          target !! index it = Some (key it) /\ key it ∉ source)
    /\ StronglySorted (fun a b => (index a < index b)%nat) inserted
    /\ (forall k, k ∈ mid <->
          (k ∈ source /\ k ∈ target) \/ (k ∈ target /\ k ∉ source))
    /\ NoDup mid
    /\ Forall (fun m => Move.is_move m = true) reorder
    /\ (mid = target -> reorder = []).
Proof.
  split; [nodup|]. split; [nodup|]. split; [by vm_compute|].
  apply (calculateMoves_set_reconciliation ["a"; "b"; "c"; "d"]
           ["b"; "e"; "a"; "f"; "g"] None); [nodup|nodup|by vm_compute].
Defined.

(** C3 as stated fails on keys that [>] does not order, such as the keys
    [key || index] of a list with one keyed item: reconciling [['a'; 1]]
    with [[0; 'a']] removes the key ['a'], which the target has, and
    inserts it again. *)
Lemma mixed_keys_counterexample :
  let source := [KeyStr "a"; KeyNum 1] in
  let target := [KeyNum 0; KeyStr "a"] in
  NoDup source /\ NoDup target
  /\ moves (calculateMoves source target None)
     = [Move.remove (KeyNum 1) 1; Move.remove (KeyStr "a") 0;
        Move.insert (KeyNum 0) 0; Move.insert (KeyStr "a") 1]
  /\ KeyStr "a" ∈ source /\ KeyStr "a" ∈ target
  /\ keys_ordered (source ++ target) = false.
Proof.
  split; [nodup|]. split; [nodup|]. split; [by vm_compute|].
  split; [|split]; [by apply (bool_decide_unpack _)..|by vm_compute].
Qed.

(** C2 as stated fails: with [x] favored, the single move emitted for
    [[x; y; z]] to [[y; x; z]] relocates [x], not [y]. *)
Lemma favored_swap_counterexample :
  ~ (exists from to,
       moves (calculateMoves ["x"; "y"; "z"] ["y"; "x"; "z"] (Some "x"))
       = [Move.move "y" from to]).
Proof. intros (from & to & E). vm_compute in E. discriminate E. Qed.

Lemma favored_key_is_the_one_moved_witness :
  NoDup ["x"; "y"; "z"] /\ keys_ordered ["x"; "y"; "z"] = true /\
  calculateMoves ["x"; "y"; "z"] ["y"; "x"; "z"] (Some "x")
  = {| moves := [Move.move "x" 0 1]; result := ["y"; "x"; "z"] |}.
Proof.
  split; [nodup|]. split; [by vm_compute|].
  refine (proj1 (favored_key_is_the_one_moved "x" "y" "z" _ _));
    [nodup|by vm_compute].
Defined.

(** C5. For the source [[a; b; c; d]] and the target [[b; d; a; c]] the
    number of emitted operations does not exceed the number of keys only
    the source has, plus the number of keys only the target has, plus the
    number of source keys outside a longest common subsequence; that bound
    is 2 here. *)
Theorem minimality_bound_instance (favoredToMove : option string) :
  let source := ["a"; "b"; "c"; "d"] in
  let target := ["b"; "d"; "a"; "c"] in
  (length (moves (calculateMoves source target favoredToMove))
   <= minimality_bound source target)%nat
  /\ minimality_bound source target = 2%nat.
Proof.
  intros source target. split; [|reflexivity].
  destruct favoredToMove as [f|]; vm_compute; lia.
Qed.

End reconciler_examples.

(** ** The child slot of components and elements *)

Section child_slot.
Import Node.


(** Exactly one of the child and the placeholder comment is there. *)
Definition slot_invariant (n : VirtualNode) : Prop :=
  match n with
  | Component _ _ _ _ _ child comment _ =>
      (is_Some child /\ comment = None) \/ (child = None /\ is_Some comment)
  | VirtualElement _ _ _ _ _ => True
  end.




(** C9. A component or root is made with the placeholder comment and no
    child.  On a node that has exactly one of the two, every child-slot
    operation leaves exactly one of the two, whether it returns or throws.
    [appendChild] leaves the given child in the slot and no comment, and
    returns exactly when the slot was empty; [removeChild] leaves the slot
    empty and a comment there, and returns exactly when the slot held a
    child, and the comment is then a new one; [replaceChild] returns
    exactly when the slot held a child, and the new node is then in the
    slot, and still no comment. *)
Theorem child_slot_invariant
    (id ctor : nat) (k : option Key) (p : option nat) (d : Description)
    (slot : option VirtualNode) (comment : option Comment)
    (st : option Props) (child node : VirtualNode) (log : list Event) :
  let this := Component id ctor k p d slot comment st in
  slot_invariant this ->
  let appended := Component.appendChild child (mkCall this log) in
  let removed := Component.removeChild child (mkCall this log) in
  let replaced := Component.replaceChild child node (mkCall this log) in
  (forall id ctor d p, slot_invariant (Component.new id ctor d p))
  /\ slot_invariant (Node.this (fst appended))
  /\ slot_invariant (Node.this (fst removed))
  /\ slot_invariant (Node.this (fst replaced))
  /\ Node.child (Node.this (fst appended))
     = Some (set_parentNode (Some id) child)
  /\ Node.comment (Node.this (fst appended)) = None
  /\ (snd appended = Ok tt <-> slot = None)
  /\ Node.child (Node.this (fst removed)) = None
  /\ is_Some (Node.comment (Node.this (fst removed)))
  /\ (snd removed = Ok tt <-> is_Some slot)
  /\ (is_Some slot ->
      Node.comment (Node.this (fst removed))
      = Some (Component.createComment id ctor))
  /\ (snd replaced = Ok tt <-> is_Some slot)
  /\ (is_Some slot ->
      Node.child (Node.this (fst replaced))
      = Some (set_parentNode (Some id) node)
      /\ Node.comment (Node.this (fst replaced)) = None).
Proof.
  intros this Hinv appended removed replaced.
  split; [intros; right; split; [done|by eexists]|].
  subst this appended removed replaced.
  unfold Component.appendChild, Component.removeChild, Component.replaceChild,
    mbind, M_bind, get_state, assert, emit, set_this, throw, mret, M_ret.
  cbn [Node.this Node.console].
  destruct Hinv as [[[c' ->] ->]|[-> [cm' ->]]].
  - destruct (is_child (Some c') child); cbn;
      (split_and!;
       [left; split; [by eexists|done]
       |right; split; [done|by eexists]
       |left; split; [by eexists|done]
       |done|done|split; [done|intros [=]]
       |done|by eexists|split; [by eexists|done]
       |done|split; [by eexists|done]|done]).
  - cbn. split_and!.
    + left. split; [by eexists|done].
    + right. split; [done|by eexists].
    + right. split; [done|by eexists].
    + done.
    + done.
    + done.
    + done.
    + by eexists.
    + split; [done|by intros [? [=]]].
    + by intros [? [=]].
    + split; [done|by intros [? [=]]].
    + by intros [? [=]].
Qed.


Lemma child_slot_invariant_witness :
  let d := ComponentDescription 1 None None None in
  let this := Component.new 1 1 d None in
  let child := Component.new 2 1 d None in
  let appended := Component.appendChild child (mkCall this []) in
  slot_invariant this
  /\ slot_invariant (Node.this (fst appended))
  /\ Node.child (Node.this (fst appended))
     = Some (set_parentNode (Some 1%nat) child)
  /\ Node.comment (Node.this (fst appended)) = None
  /\ snd appended = Ok tt.
Proof.
  intros d this child appended.
  assert (slot_invariant this) as Hinv.
  { right. split; [reflexivity|]. by eexists. }
  split; [exact Hinv|].
  destruct (child_slot_invariant 1 1 None None d None
              (Some (Component.createComment 1 1)) None child child []
              Hinv) as (_ & Ha & _ & _ & Hc & Hm & Hr & _).
  split_and!; [exact Ha|exact Hc|exact Hm|exact (proj2 Hr eq_refl)].
Defined.
End child_slot.

(** ** Property patches *)

Section property_patches.
Import Node Diff.

(** The world with some more patches at the end of its list. *)
Definition add_patches (ps : list Patch) (w : World) : World :=
  mkWorld (root w) (patches w ++ ps) (nextId w) (events w).

Lemma add_patches_nil (w : World) : add_patches [] w = w.
Proof. destruct w. unfold add_patches. simpl. by rewrite app_nil_r. Qed.

Lemma add_patches_app (ps qs : list Patch) (w : World) :
  add_patches qs (add_patches ps w) = add_patches (ps ++ qs) w.
Proof. unfold add_patches. simpl. by rewrite app_assoc. Qed.

Lemma bind_ok {S A B} (m : M S A) (k : A -> M S B) (s s' : S) (a : A) :
  m s = (s', Ok a) -> (m ≫= k) s = k a s'.
Proof. unfold mbind, M_bind. by intros ->. Qed.

Lemma bind_throw {S A B} (m : M S A) (k : A -> M S B) (s s' : S) (e : Error) :
  m s = (s', Throw e) -> (m ≫= k) s = (s', Throw e).
Proof. unfold mbind, M_bind. by intros ->. Qed.

Lemma addPatch_eq (p : Patch) (w : World) :
  addPatch p w = (add_patches [p] w, Ok tt).
Proof. reflexivity. Qed.

Lemma for_each_addPatch {A} (h : A -> Patch) (l : list A) (w : World) :
  for_each (fun x => addPatch (h x)) l w = (add_patches (h <$> l) w, Ok tt).
Proof.
  revert w. induction l as [|x l IH]; intros w; simpl.
  - by rewrite add_patches_nil.
  - erewrite bind_ok by apply addPatch_eq. rewrite IH.
    by rewrite add_patches_app.
Qed.

Lemma for_each_option {A} (g : A -> option Patch) (l : list A) (w : World) :
  for_each
    (fun x => match g x with Some p => addPatch p | None => mret tt end) l w
  = (add_patches (omap g l) w, Ok tt).
Proof.
  revert w. induction l as [|x l IH]; intros w; simpl.
  - by rewrite add_patches_nil.
  - destruct (g x) as [p|].
    + erewrite bind_ok by apply addPatch_eq. rewrite IH.
      by rewrite add_patches_app.
    + erewrite bind_ok by reflexivity. by rewrite IH.
Qed.

Lemma for_keys_eq {V} (l : list string) (m : list (string * V))
    (f : string -> V -> Patch) (w : World) :
  for_keys l m f w
  = (add_patches (omap (fun key => f key <$> lookup_key key m) l) w, Ok tt).
Proof.
  unfold for_keys. revert w. induction l as [|x l IH]; intros w; simpl.
  - by rewrite add_patches_nil.
  - destruct (lookup_key x m) as [v|]; simpl.
    + erewrite bind_ok by apply addPatch_eq. rewrite IH.
      by rewrite add_patches_app.
    + erewrite bind_ok by reflexivity. by rewrite IH.
Qed.

(** The patches the listener diff adds: one per added event, one per
    removed event, one per event whose listener changed. *)
Definition listener_patch_list (current next : Listeners)
    (target : VirtualNode) (isCustom : bool) : list Patch :=
  omap (fun event =>
          (fun l => addListener event l target isCustom)
          <$> lookup_key event next) (added current next)
  ++ omap (fun event =>
             (fun l => removeListener event l target isCustom)
             <$> lookup_key event current) (removed current next)
  ++ omap (fun event =>
             match lookup_key event current, lookup_key event next with
             | Some c, Some n =>
                 Some (replaceListener event c n target isCustom)
             | _, _ => None
             end) (changed listener_changed current next).

Lemma listenerPatches_eq (current next : option Listeners)
    (target : VirtualNode) (isCustom : bool) (w : World) :
  listenerPatches current next target isCustom w
  = (add_patches
       (listener_patch_list (default [] current) (default [] next) target
          isCustom) w, Ok tt).
Proof.
  unfold listenerPatches, listener_patch_list.
  erewrite bind_ok by apply for_keys_eq.
  erewrite bind_ok by apply for_keys_eq.
  rewrite <- !add_patches_app.
  generalize (add_patches
    (omap (fun key => (fun l => removeListener key l target isCustom)
                      <$> lookup_key key (default [] current))
       (removed (default [] current) (default [] next)))
    (add_patches
       (omap (fun key => (fun l => addListener key l target isCustom)
                         <$> lookup_key key (default [] next))
          (added (default [] current) (default [] next))) w)).
  induction (changed listener_changed (default [] current) (default [] next))
    as [|x l IH]; intros w'; simpl.
  - by rewrite add_patches_nil.
  - destruct (lookup_key x (default [] current)) as [c|];
      [destruct (lookup_key x (default [] next)) as [n|]|].
    + erewrite bind_ok by apply addPatch_eq. rewrite IH.
      by rewrite add_patches_app.
    + erewrite bind_ok by reflexivity. by rewrite IH.
    + erewrite bind_ok by reflexivity. by rewrite IH.
Qed.

(** The event a listener patch is about. *)
Definition listener_event (p : Patch) : option string :=
  match p with
  | addListener name _ _ _ | replaceListener name _ _ _ _
  | removeListener name _ _ _ => Some name
  | _ => None
  end.

Lemma lookup_key_includes {V} (key : string) (m : list (string * V)) (v : V) :
  lookup_key key m = Some v -> includes key (keys m) = true.
Proof.
  induction m as [|[k x] m IH]; [done|].
  unfold includes, keys. cbn [lookup_key fmap list_fmap existsb fst].
  rewrite (String.eqb_sym key k).
  destruct (String.eqb k key) eqn:E; [done|]. exact IH.
Qed.

Lemma elem_of_added {V} (key : string) (current next : list (string * V)) :
  key ∈ added current next -> includes key (keys current) = false.
Proof.
  unfold added. rewrite list_elem_of_In, filter_In.
  intros [_ Hn]. by apply negb_true_iff in Hn.
Qed.

Lemma elem_of_removed {V} (key : string) (current next : list (string * V)) :
  key ∈ removed current next -> includes key (keys next) = false.
Proof.
  unfold removed. rewrite list_elem_of_In, filter_In.
  intros [_ Hn]. by apply negb_true_iff in Hn.
Qed.

Lemma elem_of_changed {V} (differ : V -> V -> bool) (key : string)
    (current next : list (string * V)) :
  key ∈ changed differ current next ->
  exists a b, lookup_key key current = Some a /\ lookup_key key next = Some b
              /\ differ a b = true.
Proof.
  unfold changed. rewrite list_elem_of_In, filter_In.
  intros [_ Hc]. apply andb_true_iff in Hc as [_ Hc].
  destruct (lookup_key key current) as [a|]; [|done].
  destruct (lookup_key key next) as [b|]; [|done]. eauto.
Qed.

Lemma listener_changed_spec (c n : Function) :
  listener_changed c n = true <->
  fn_id c <> fn_id n /\
  ((fn_source c = None /\ fn_source n = None)
   \/ fn_source c <> fn_source n).
Proof.
  unfold listener_changed.
  rewrite andb_true_iff, negb_true_iff, Nat.eqb_neq, orb_true_iff,
    negb_true_iff, bool_decide_eq_false.
  destruct (fn_source c), (fn_source n); intuition congruence.
Qed.

(** C7. When the current and the next description give the same event two
    listeners that are distinct objects bound from the same original (the
    same [source]), the listener diff adds no add-, remove- or
    replace-listener patch for that event.  A replace-listener patch is
    only added for an event both have, under listeners that are distinct
    objects and whose sources differ, or which both have no source. *)
Theorem rebinding_alone_makes_no_patch
    (current next : Listeners) (target : VirtualNode) (isCustom : bool)
    (w : World) (event : string) (c n : Function) (original : nat) :
  lookup_key event current = Some c ->
  lookup_key event next = Some n ->
  fn_id c <> fn_id n ->
  fn_source c = Some original ->
  fn_source n = Some original ->
  exists ps,
    listenerPatches (Some current) (Some next) target isCustom w
    = (add_patches ps w, Ok tt)
    /\ (forall p, p ∈ ps -> listener_event p <> Some event)
    /\ (forall name r a t b,
          replaceListener name r a t b ∈ ps ->
          lookup_key name current = Some r /\ lookup_key name next = Some a
          /\ fn_id r <> fn_id a
          /\ ((fn_source r = None /\ fn_source a = None)
              \/ fn_source r <> fn_source a)).
Proof.
  intros Hc Hn Hid Hsc Hsn.
  exists (listener_patch_list current next target isCustom).
  split; [apply listenerPatches_eq|]. split.
  - intros p Hp He. unfold listener_patch_list in Hp.
    rewrite !elem_of_app, !list_elem_of_omap in Hp.
    destruct Hp as [(k & Hk & Hp)|[(k & Hk & Hp)|(k & Hk & Hp)]].
    + destruct (lookup_key k next); [|done]. simpl in Hp.
      inversion Hp; subst p. simpl in He. inversion He; subst k.
      apply elem_of_added in Hk.
      by rewrite (lookup_key_includes _ _ _ Hc) in Hk.
    + destruct (lookup_key k current); [|done]. simpl in Hp.
      inversion Hp; subst p. simpl in He. inversion He; subst k.
      apply elem_of_removed in Hk.
      by rewrite (lookup_key_includes _ _ _ Hn) in Hk.
    + apply elem_of_changed in Hk as (a & b & Ha & Hb & Hd).
      rewrite Ha, Hb in Hp. inversion Hp; subst p.
      simpl in He. inversion He; subst k.
      assert (a = c) by congruence. assert (b = n) by congruence. subst a b.
      apply listener_changed_spec in Hd as [_ [[Hs _]|Hs]]; congruence.
  - intros name r a t b Hp. unfold listener_patch_list in Hp.
    rewrite !elem_of_app, !list_elem_of_omap in Hp.
    destruct Hp as [(k & Hk & Hp)|[(k & Hk & Hp)|(k & Hk & Hp)]].
    + destruct (lookup_key k next); [|done]. simpl in Hp. inversion Hp.
    + destruct (lookup_key k current); [|done]. simpl in Hp. inversion Hp.
    + apply elem_of_changed in Hk as (x & y & Hx & Hy & Hd).
      rewrite Hx, Hy in Hp. inversion Hp; subst.
      apply listener_changed_spec in Hd. tauto.
Qed.
Lemma rebinding_alone_makes_no_patch_witness :
  let target :=
    VirtualElement.new 1
      (ElementDescription "button" None
         (mkElementFields None None None None None None None None) None)
      None None in
  let w := mkWorld target [] 2 [] in
  exists ps,
    Diff.listenerPatches (Some [("click", mkFunction 1 (Some 7%nat))])
      (Some [("click", mkFunction 2 (Some 7%nat))]) target false w
    = (add_patches ps w, Ok tt)
    /\ (forall p, p ∈ ps -> listener_event p <> Some "click").
Proof.
  intros target w.
  destruct (rebinding_alone_makes_no_patch
              [("click", mkFunction 1 (Some 7%nat))]
              [("click", mkFunction 2 (Some 7%nat))] target false w "click"
              (mkFunction 1 (Some 7%nat)) (mkFunction 2 (Some 7%nat)) 7)
    as (ps & Hps & Hnone & _);
    [reflexivity|reflexivity|simpl; lia|reflexivity|reflexivity|].
  exists ps. by split.
Defined.
End property_patches.

(** ** The order of one update *)

Section update_order.
Import Node.

(** A computation that only ever adds to the trace it is given. *)
Definition appends {S A} (trace : S -> list Event) (m : M S A) : Prop :=
  forall s, trace s `prefix_of` trace (fst (m s)).

Lemma appends_ret {S A} (trace : S -> list Event) (a : A) :
  appends trace (mret a : M S A).
Proof. by intros s. Qed.

Lemma appends_throw {S A} (trace : S -> list Event) (e : Error) :
  appends trace (throw e : M S A).
Proof. by intros s. Qed.

Lemma appends_get_state {S} (trace : S -> list Event) :
  appends trace (get_state : M S S).
Proof. by intros s. Qed.

Lemma appends_bind {S A B} (trace : S -> list Event) (m : M S A)
    (k : A -> M S B) :
  appends trace m -> (forall a, appends trace (k a)) ->
  appends trace (m ≫= k).
Proof.
  intros Hm Hk s. unfold mbind, M_bind.
  specialize (Hm s). destruct (m s) as [s' [a|e]]; simpl in *; [|done].
  etrans; [exact Hm|apply Hk].
Qed.

Lemma appends_emit (e : Event) : appends console (emit e).
Proof. intros s. by apply prefix_app_r. Qed.

Lemma appends_set_this (n : VirtualNode) : appends console (set_this n).
Proof. by intros s. Qed.

Lemma appends_assert (condition : bool) (message : string) :
  appends console (assert condition message).
Proof.
  unfold assert. destruct condition; [apply appends_ret|apply appends_emit].
Qed.

Local Ltac appends_step :=
  first
    [ apply appends_bind; [|intros ?]
    | apply appends_get_state
    | apply appends_ret
    | apply appends_throw
    | apply appends_emit
    | apply appends_set_this
    | apply appends_assert
    | match goal with
      | |- appends _ (match ?x with _ => _ end) => destruct x
      | |- appends _ (if ?x then _ else _) => destruct x
      end ].

Local Ltac appends_auto := repeat appends_step.

Lemma appends_Component_appendChild (child : VirtualNode) :
  appends console (Component.appendChild child).
Proof. unfold Component.appendChild. appends_auto. Qed.

Lemma appends_Component_removeChild (child : VirtualNode) :
  appends console (Component.removeChild child).
Proof. unfold Component.removeChild. appends_auto. Qed.

Lemma appends_Component_replaceChild (child node : VirtualNode) :
  appends console (Component.replaceChild child node).
Proof. unfold Component.replaceChild. appends_auto. Qed.

Lemma appends_insertChild (child : VirtualNode) (index : Z) :
  appends console (VirtualElement.insertChild child index).
Proof. unfold VirtualElement.insertChild. appends_auto. Qed.

Lemma appends_moveChild (child : VirtualNode) (from to : Z) :
  appends console (VirtualElement.moveChild child from to).
Proof. unfold VirtualElement.moveChild. appends_auto. Qed.

Lemma appends_VirtualElement_replaceChild (child node : VirtualNode) :
  appends console (VirtualElement.replaceChild child node).
Proof. unfold VirtualElement.replaceChild. appends_auto. Qed.

Lemma appends_VirtualElement_removeChild (child : VirtualNode) :
  appends console (VirtualElement.removeChild child).
Proof. unfold VirtualElement.removeChild. appends_auto. Qed.

Lemma appends_parent_replaceChild (child node : VirtualNode) :
  appends console (Patch.parent_replaceChild child node).
Proof.
  unfold Patch.parent_replaceChild.
  apply appends_bind; [apply appends_get_state|intros s].
  destruct (isComponent (this s));
    [apply appends_Component_replaceChild
    |apply appends_VirtualElement_replaceChild].
Qed.

Lemma appends_parent_removeChild (child : VirtualNode) :
  appends console (Patch.parent_removeChild child).
Proof.
  unfold Patch.parent_removeChild.
  apply appends_bind; [apply appends_get_state|intros s].
  destruct (isComponent (this s));
    [apply appends_Component_removeChild
    |apply appends_VirtualElement_removeChild].
Qed.

Lemma appends_call {A} (target : VirtualNode) (method : M Call A) :
  appends console method -> appends events (Tree.call target method).
Proof.
  intros Hm w. unfold Tree.call.
  specialize
    (Hm (mkCall (default target (Tree.find (id target) (root w))) (events w))).
  by destruct (method _) as [c r].
Qed.

Lemma appends_on_ref (target : VirtualNode) (c : nat -> BackingCall) :
  appends events (Patch.on_ref target c).
Proof. apply appends_call, appends_emit. Qed.

Lemma appends_Patch_apply (p : Patch) : appends events (Patch.apply p).
Proof.
  destruct p; unfold Patch.apply;
    try apply appends_on_ref;
    try (apply appends_bind; [|intros ?]; apply appends_on_ref);
    apply appends_call; appends_auto;
    auto using appends_Component_appendChild, appends_parent_replaceChild,
      appends_parent_removeChild, appends_insertChild, appends_moveChild.
Qed.

(** What applying one patch adds to the trace. *)
Definition applied (p : Patch) (w : World) : list Event :=
  drop (length (events w)) (events (fst (Patch.apply p w))).

(** What applying the patches one after the other adds, patch by patch. *)
Fixpoint applying (ps : list Patch) (w : World) : list (list Event) :=
  match ps with
  | [] => []
  | p :: ps' => applied p w :: applying ps' (fst (Patch.apply p w))
  end.

Lemma applied_eq (p : Patch) (w : World) :
  events (fst (Patch.apply p w)) = events w ++ applied p w.
Proof.
  unfold applied. destruct (appends_Patch_apply p w) as [l ->].
  by rewrite drop_app_length.
Qed.

Lemma for_each_apply_events (ps : list Patch) (w w' : World) :
  for_each Patch.apply ps w = (w', Ok tt) ->
  events w' = events w ++ concat (applying ps w).
Proof.
  revert w. induction ps as [|p ps IH]; intros w; simpl.
  - intros [= <-]. by rewrite app_nil_r.
  - unfold mbind, M_bind. pose proof (applied_eq p w) as Hp.
    destruct (Patch.apply p w) as [w1 [[]|e]]; [|done]. simpl in *.
    intros Hps. rewrite (IH _ Hps), Hp. by rewrite app_assoc.
Qed.

Lemma length_applying (ps : list Patch) (w : World) :
  length (applying ps w) = length ps.
Proof. revert w. induction ps as [|p ps IH]; intros w; simpl; auto. Qed.

(** C6. When the batch of a [Diff] is not empty and each of its patches
    applies, [Diff.apply] adds to the trace, in this order: what the
    "before" hook does for each patch, in the order of the batch; what
    applying each patch does, in the order of the batch, the first one in
    the world the "before" hooks have left; and what the "after" hook does
    for each patch, in the reverse order of the batch, in the world the
    last patch has left.  An empty batch runs nothing. *)
Theorem update_runs_hooks_around_patches
    (toolkit : Toolkit) (w after : World) :
  patches w <> [] ->
  for_each Patch.apply (patches w)
    (fst (Diff.emit_all (Lifecycle.beforeUpdate toolkit (patches w)) w))
  = (after, Ok tt) ->
  let before :=
    fst (Diff.emit_all (Lifecycle.beforeUpdate toolkit (patches w)) w) in
  Diff.apply toolkit w
  = (fst (Diff.emit_all (Lifecycle.afterUpdate toolkit (patches w)) after),
     Ok tt)
  /\ events (fst (Diff.apply toolkit w))
     = events w
       ++ concat (Lifecycle.beforePatchApplied toolkit <$> patches w)
       ++ concat (applying (patches w) before)
       ++ concat
            (Lifecycle.afterPatchApplied toolkit <$> reverse (patches w))
  /\ length (applying (patches w) before) = length (patches w)
  /\ root before = root w
  /\ root (fst (Diff.apply toolkit w)) = root after
  /\ (forall w0, patches w0 = [] -> Diff.apply toolkit w0 = (w0, Ok tt)).
Proof.
  intros Hne Hrun before.
  assert (Diff.apply toolkit w
          = (fst (Diff.emit_all (Lifecycle.afterUpdate toolkit (patches w))
                    after), Ok tt)) as Happly.
  { unfold Diff.apply. erewrite bind_ok by reflexivity.
    destruct (patches w) as [|p ps] eqn:Hps; [done|].
    erewrite bind_ok by reflexivity.
    rewrite <- Hps in *. unfold Diff.emit_all at 1. simpl in Hrun.
    erewrite bind_ok by exact Hrun. reflexivity. }
  split; [exact Happly|]. rewrite Happly.
  split_and!.
  - simpl. rewrite (for_each_apply_events _ _ _ Hrun). simpl.
    unfold Lifecycle.beforeUpdate, Lifecycle.afterUpdate.
    by rewrite <- !app_assoc.
  - apply length_applying.
  - done.
  - done.
  - intros w0 H0. unfold Diff.apply. erewrite bind_ok by reflexivity.
    by rewrite H0.
Qed.
Lemma update_runs_hooks_around_patches_witness :
  let toolkit :=
    mkToolkit false (fun c => (c =? 10)%nat) (fun _ _ => true)
      (fun _ _ _ => Ok None) in
  let d := ComponentDescription 10 None None None in
  let root := Component.new 0 10 d None in
  let w := mkWorld root [initRootComponent root; updateNode root d d] 1 [] in
  events (fst (Diff.apply toolkit w))
  = [Called onCreated 0; Called onPropsReceived 0;
     Backing (ContainerAppendChild 0);
     Called onUpdated 0; Called onAttached 0].
Proof.
  intros toolkit d root w.
  destruct (update_runs_hooks_around_patches toolkit w
              (fst (for_each Patch.apply (patches w)
                      (fst (Diff.emit_all
                              (Lifecycle.beforeUpdate toolkit (patches w))
                              w)))))
    as (_ & Hev & _); [discriminate|reflexivity|].
  rewrite Hev. reflexivity.
Defined.
End update_order.

(** ** The short-circuit on equal descriptions *)

Section short_circuit.
Import Node.

(** A toolkit whose classes define every lifecycle method, with one root
    class, [10], that renders nothing. *)
Definition plain_toolkit : Toolkit :=
  mkToolkit false (fun c => (c =? 10)%nat) (fun _ _ => true)
    (fun _ _ _ => Ok None).

(** The root [VirtualDOM.createRoot] makes: described by its class alone,
    with no state yet. *)
Definition new_root : VirtualNode :=
  Component.new 0 10 (ComponentDescription 10 None None None) None.

Definition new_world : World := mkWorld new_root [] 1 [].

(** C1 as stated fails: on the first render of a root with the state [{}]
    the next description is deep-equal to the current one, the root has no
    prior state, and the diff makes an update patch after the one that
    initialises the root. *)
Lemma first_render_counterexample :
  let D := Diff.describe_root 10 (Some []) in
  Diff.deepEqual (description new_root) D = true
  /\ state new_root = None
  /\ Diff.rootPatches plain_toolkit 1 None (Some []) new_world
     = (mkWorld (set_state (Some []) new_root)
          [initRootComponent new_root;
           updateNode new_root (description new_root) D] 1 [],
        Ok [initRootComponent new_root;
            updateNode new_root (description new_root) D]).
Proof. by vm_compute. Qed.

(** C1 (amended). Let the next description be deep-equal to the current
    one of a node.  The diff of an element, or of a component that is not a
    root, against it adds no patch and changes nothing; so does the diff of
    a root that has a state.  [rootPatches] called with deep-equal states
    returns the empty list, having added no patch when there is a current
    state, and only the patch that initialises the root when there is
    none.  For a root without a state the short-circuit is skipped: the
    root is rendered, and after the patches of what it renders comes an
    update patch for the root, the last of the list returned. *)
Theorem deep_equal_short_circuit
    (toolkit : Toolkit) (fuel depth : nat) (w : World) (node : VirtualNode)
    (D : Description) (currentState nextState : option Props) :
  Diff.deepEqual (description node) D = true ->
  DeepEqual.deepEqual (Diff.state_value currentState)
    (Diff.state_value nextState) = true ->
  let create := Diff.createFromDescription toolkit fuel in
  let childPatches := Diff.childPatches toolkit fuel depth in
  (Diff.isRoot toolkit node = false ->
   Diff.childPatches toolkit fuel (S depth) node D w = (w, Ok tt))
  /\ (Diff.isRoot toolkit node = true -> is_Some (state node) ->
      Diff.componentPatches toolkit create childPatches node D w
      = (w, Ok tt))
  /\ Diff.rootPatches toolkit fuel currentState nextState w
     = (if Diff.isDefined currentState then w
        else add_patches [initRootComponent (root w)] w, Ok [])
  /\ (forall rendered w',
        Diff.isRoot toolkit node = true ->
        state node = None ->
        Diff.Renderer_render toolkit (Diff.constructor_of node)
          (Description.props D) (Description.children D) w
        = (w, Ok rendered) ->
        Diff.componentChildPatches create childPatches
          (child node) rendered node w
        = (w', Ok tt) ->
        Diff.componentPatches toolkit create childPatches node D w
        = (add_patches [updateNode node (description node) D] w', Ok tt)).
Proof.
  intros Heq Hst create childPatches. split_and!.
  - intros Hroot. cbn [Diff.childPatches].
    unfold Diff.componentPatches, Diff.elementPatches.
    rewrite Heq, Hroot. by destruct (isComponent node).
  - intros Hroot [st Hs]. unfold Diff.componentPatches.
    by rewrite Heq, Hroot, Hs.
  - unfold Diff.rootPatches. erewrite bind_ok by reflexivity.
    rewrite Hst.
    destruct (Diff.isDefined currentState).
    + by erewrite bind_ok by reflexivity.
    + erewrite bind_ok by apply addPatch_eq. reflexivity.
  - intros rendered w' Hroot Hs Hrender Hchild.
    unfold Diff.componentPatches. rewrite Heq, Hroot, Hs.
    cbn [Diff.isDefined andb].
    erewrite bind_ok by exact Hrender.
    erewrite bind_ok by exact Hchild.
    apply addPatch_eq.
Qed.
Lemma deep_equal_short_circuit_witness :
  Diff.rootPatches plain_toolkit 1 None None new_world
  = (add_patches [initRootComponent new_root] new_world, Ok []).
Proof.
  refine (proj1 (proj2 (proj2
            (deep_equal_short_circuit plain_toolkit 1 0 new_world new_root
               (Diff.describe_root 10 (Some [])) None None _ _))));
    reflexivity.
Defined.
End short_circuit.

(** * The round trip of two updates

    What follows leads to the round trip: an update to another state and
    the update back.  The tree is followed through the patches of each
    update as they are applied, first for the children of an element, where
    the moves of the reconciler are replayed, then for elements, components
    and the root. *)

(** ** Trees of nodes *)

Section trees.
Import Node.

(** The nodes a node holds: the children of an element, the child of a
    component. *)
Definition kids (n : VirtualNode) : list VirtualNode :=
  match n with
  | VirtualElement _ _ _ _ (Some children) => children
  | Component _ _ _ _ _ (Some c) _ _ => [c]
  | _ => []
  end.

(** The node with each of the nodes it holds changed by [f]. *)
Definition map_kids (f : VirtualNode -> VirtualNode) (n : VirtualNode)
    : VirtualNode :=
  match n with
  | VirtualElement i k p d (Some children) =>
      VirtualElement i k p d (Some (f <$> children))
  | Component i ctor k p d (Some c) cm st =>
      Component i ctor k p d (Some (f c)) cm st
  | _ => n
  end.

(** The identities of the nodes of a tree, the root first. *)
Fixpoint ids (n : VirtualNode) : list nat :=
  Node.id n ::
  match n with
  | VirtualElement _ _ _ _ (Some children) =>
      (fix each (l : list VirtualNode) : list nat :=
         match l with
         | [] => []
         | c :: l' => ids c ++ each l'
         end) children
  | Component _ _ _ _ _ (Some c) _ _ => ids c
  | _ => []
  end.

Definition ids_of (l : list VirtualNode) : list nat := concat (ids <$> l).

Fixpoint find_in (id : nat) (l : list VirtualNode) : option VirtualNode :=
  match l with
  | [] => None
  | c :: l' =>
      match Tree.find id c with
      | Some r => Some r
      | None => find_in id l'
      end
  end.

Lemma VirtualNode_kids_ind (P : VirtualNode -> Prop) :
  (forall n, Forall P (kids n) -> P n) -> forall n, P n.
Proof.
  intros step.
  fix IH 1. intros n. apply step.
  destruct n as [i k p d [cs|]|i ctor k p d [c|] cm st]; simpl.
  - induction cs as [|c cs IHcs]; constructor; [apply IH|exact IHcs].
  - constructor.
  - repeat constructor. apply IH.
  - constructor.
Qed.

Lemma id_map_kids (f : VirtualNode -> VirtualNode) (n : VirtualNode) :
  Node.id (map_kids f n) = Node.id n.
Proof. by destruct n as [? ? ? ? [?|]|? ? ? ? ? [?|] ? ?]. Qed.

Lemma kids_map_kids (f : VirtualNode -> VirtualNode) (n : VirtualNode) :
  kids (map_kids f n) = f <$> kids n.
Proof. by destruct n as [? ? ? ? [?|]|? ? ? ? ? [?|] ? ?]. Qed.

Lemma ids_eq (n : VirtualNode) : ids n = Node.id n :: ids_of (kids n).
Proof.
  destruct n as [i k p d [cs|]|i ctor k p d [c|] cm st]; simpl; try done.
  - f_equal. unfold ids_of. induction cs as [|c cs IH]; simpl; [done|].
    by rewrite IH.
  - unfold ids_of. simpl. by rewrite app_nil_r.
Qed.

Lemma find_eq (id : nat) (n : VirtualNode) :
  Tree.find id n
  = if (Node.id n =? id)%nat then Some n else find_in id (kids n).
Proof.
  destruct n as [i k p d [cs|]|i ctor k p d [c|] cm st]; simpl; try done.
  - destruct (i =? id)%nat; [done|].
    induction cs as [|c cs IH]; simpl; [done|]. by rewrite IH.
  - destruct (i =? id)%nat; [done|]. by destruct (Tree.find id c).
Qed.

Lemma replace_eq (id : nat) (x n : VirtualNode) :
  Tree.replace id x n
  = if (Node.id n =? id)%nat then x else map_kids (Tree.replace id x) n.
Proof.
  by destruct n as [i k p d [cs|]|i ctor k p d [c|] cm st].
Qed.

Lemma ids_of_cons (c : VirtualNode) (l : list VirtualNode) :
  ids_of (c :: l) = ids c ++ ids_of l.
Proof. reflexivity. Qed.

Lemma ids_of_app (l1 l2 : list VirtualNode) :
  ids_of (l1 ++ l2) = ids_of l1 ++ ids_of l2.
Proof. unfold ids_of. by rewrite fmap_app, concat_app. Qed.

Lemma elem_of_ids_of (j : nat) (l : list VirtualNode) :
  j ∈ ids_of l <-> exists c, c ∈ l /\ j ∈ ids c.
Proof.
  induction l as [|c l IH].
  - split; [by intros ?%elem_of_nil|by intros (? & ?%elem_of_nil & _)].
  - rewrite ids_of_cons, elem_of_app, IH. split.
    + intros [Hj|(c' & Hc' & Hj)]; [exists c|exists c'];
        (split; [|done]); [left|by right].
    + intros (c' & [->|Hc']%elem_of_cons & Hj); [by left|right; eauto].
Qed.

Lemma id_in_ids (n : VirtualNode) : Node.id n ∈ ids n.
Proof. rewrite ids_eq. left. Qed.

Lemma find_in_Some (id : nat) (l : list VirtualNode) (n : VirtualNode) :
  find_in id l = Some n -> exists c, c ∈ l /\ Tree.find id c = Some n.
Proof.
  induction l as [|c l IH]; simpl; [done|].
  destruct (Tree.find id c) as [r|] eqn:Hc.
  - intros [= <-]. exists c. split; [left|done].
  - intros (c' & Hc' & Hf)%IH. exists c'. split; [by right|done].
Qed.

Lemma find_in_None (id : nat) (l : list VirtualNode) :
  find_in id l = None <-> Forall (fun c => Tree.find id c = None) l.
Proof.
  induction l as [|c l IH]; simpl; [by split; [constructor|]|].
  rewrite Forall_cons, <- IH. destruct (Tree.find id c); split; try done.
  - by intros [? _].
  - by intros [_ ?].
Qed.

(** What [find] returns has the identity asked for, and is in the tree. *)
Lemma find_Some (id : nat) (T n : VirtualNode) :
  Tree.find id T = Some n ->
  Node.id n = id /\ (forall j, j ∈ ids n -> j ∈ ids T).
Proof.
  revert n. induction T as [T IH] using VirtualNode_kids_ind. intros n.
  rewrite find_eq, (ids_eq T).
  destruct (Nat.eqb_spec (Node.id T) id) as [He|Hne].
  - intros [= <-]. split; [done|]. intros j. by rewrite <- ids_eq.
  - intros (c & Hc & Hf)%find_in_Some.
    rewrite Forall_forall in IH. destruct (IH c Hc n Hf) as [Hid Hsub].
    split; [done|]. intros j Hj. right. apply elem_of_ids_of. eauto.
Qed.

Lemma find_None (id : nat) (T : VirtualNode) :
  Tree.find id T = None <-> id ∉ ids T.
Proof.
  induction T as [T IH] using VirtualNode_kids_ind.
  rewrite find_eq, (ids_eq T), not_elem_of_cons, elem_of_ids_of.
  rewrite Forall_forall in IH.
  destruct (Nat.eqb_spec (Node.id T) id) as [He|Hne].
  - split; [done|]. intros [? _]. congruence.
  - rewrite find_in_None, Forall_forall. split.
    + intros Hall. split; [congruence|]. intros (c & Hc & Hj).
      by apply (IH c Hc) in Hj; [|auto].
    + intros [_ Hnin] c Hc. apply (IH c Hc). intros Hj. apply Hnin. eauto.
Qed.

Lemma find_is_Some (id : nat) (T : VirtualNode) :
  id ∈ ids T -> is_Some (Tree.find id T).
Proof.
  intros Hin. destruct (Tree.find id T) eqn:Hf; [by eexists|].
  by apply find_None in Hf.
Qed.

Lemma map_kids_ext (f g : VirtualNode -> VirtualNode) (n : VirtualNode) :
  Forall (fun c => f c = g c) (kids n) -> map_kids f n = map_kids g n.
Proof.
  destruct n as [i k p d [cs|]|i ctor k p d [c|] cm st]; simpl; try done.
  - intros Hall. do 2 f_equal. by apply Forall_fmap_ext.
  - intros [-> _]%Forall_cons. done.
Qed.

Lemma map_kids_id (n : VirtualNode) : map_kids (fun c => c) n = n.
Proof.
  destruct n as [i k p d [cs|]|i ctor k p d [c|] cm st]; simpl; try done.
  by rewrite list_fmap_id.
Qed.

Lemma replace_absent (id : nat) (x T : VirtualNode) :
  id ∉ ids T -> Tree.replace id x T = T.
Proof.
  induction T as [T IH] using VirtualNode_kids_ind.
  rewrite replace_eq, (ids_eq T), not_elem_of_cons, elem_of_ids_of.
  intros [Hne Hnin].
  destruct (Nat.eqb_spec (Node.id T) id) as [He|_]; [congruence|].
  rewrite <- (map_kids_id T) at 2. apply map_kids_ext.
  rewrite Forall_forall in IH |- *. intros c Hc. apply (IH c Hc).
  intros Hj. apply Hnin. eauto.
Qed.

Lemma find_in_app (id : nat) (l1 l2 : list VirtualNode) :
  find_in id (l1 ++ l2)
  = match find_in id l1 with Some r => Some r | None => find_in id l2 end.
Proof.
  induction l1 as [|c l1 IH]; simpl; [done|].
  by destruct (Tree.find id c).
Qed.

Lemma find_in_absent (id : nat) (l : list VirtualNode) :
  id ∉ ids_of l -> find_in id l = None.
Proof.
  intros Hnin. apply find_in_None, Forall_forall. intros c Hc.
  apply find_None. intros Hj. apply Hnin, elem_of_ids_of. eauto.
Qed.

Lemma replace_absent_list (id : nat) (x : VirtualNode)
    (l : list VirtualNode) :
  id ∉ ids_of l -> Tree.replace id x <$> l = l.
Proof.
  intros Hnin. rewrite <- (list_fmap_id l) at 2.
  apply Forall_fmap_ext, Forall_forall. intros c Hc.
  apply replace_absent. intros Hj. apply Hnin, elem_of_ids_of. eauto.
Qed.

Lemma ids_map_kids (f : VirtualNode -> VirtualNode) (n : VirtualNode) :
  ids (map_kids f n) = Node.id n :: ids_of (f <$> kids n).
Proof. by rewrite ids_eq, id_map_kids, kids_map_kids. Qed.

Lemma map_kids_compose (f g : VirtualNode -> VirtualNode) (n : VirtualNode) :
  map_kids f (map_kids g n) = map_kids (fun c => f (g c)) n.
Proof.
  destruct n as [i k p d [cs|]|i ctor k p d [c|] cm st]; simpl; try done.
  by rewrite <- list_fmap_compose.
Qed.

(** [At T id n]: the node [n], of identity [id], is in the tree [T], and no
    other node on the way to it or beside it shares an identity with the
    nodes of the subtree it is in. *)
Inductive At : VirtualNode -> nat -> VirtualNode -> Prop :=
| At_here (n : VirtualNode) : At n (Node.id n) n
| At_kid (T : VirtualNode) (l1 l2 : list VirtualNode) (c : VirtualNode)
    (id : nat) (n : VirtualNode) :
    kids T = l1 ++ c :: l2 ->
    (forall j, j ∈ ids c ->
               j <> Node.id T /\ (j ∉ ids_of l1) /\ (j ∉ ids_of l2)) ->
    At c id n ->
    At T id n.

Lemma At_id (T : VirtualNode) (id : nat) (n : VirtualNode) :
  At T id n -> Node.id n = id.
Proof. by induction 1. Qed.

Lemma At_ids (T : VirtualNode) (id : nat) (n : VirtualNode) (j : nat) :
  At T id n -> j ∈ ids n -> j ∈ ids T.
Proof.
  induction 1 as [|T l1 l2 c id n Hk Hd Hat IH]; [done|].
  intros Hj. rewrite ids_eq, Hk. right. apply elem_of_ids_of.
  exists c. split; [|auto]. apply elem_of_app. right. left.
Qed.

Lemma NoDup_ids_kids (T : VirtualNode) (l1 l2 : list VirtualNode)
    (c : VirtualNode) :
  NoDup (ids T) -> kids T = l1 ++ c :: l2 ->
  NoDup (ids c)
  /\ forall j, j ∈ ids c ->
               j <> Node.id T /\ (j ∉ ids_of l1) /\ (j ∉ ids_of l2).
Proof.
  rewrite ids_eq. intros Hnd Hk. rewrite Hk, ids_of_app, ids_of_cons in Hnd.
  apply NoDup_cons in Hnd as [Hhd Hnd].
  apply NoDup_app in Hnd as (_ & Hd1 & Hnd).
  apply NoDup_app in Hnd as (Hc & Hd2 & _).
  split; [done|]. intros j Hj. split_and!.
  - intros ->. apply Hhd. rewrite !elem_of_app. auto.
  - intros Hj1. apply (Hd1 j Hj1). rewrite elem_of_app. auto.
  - by apply Hd2.
Qed.

(** With distinct identities, what [find] returns is [At] the tree. *)
Lemma find_At (id : nat) (T n : VirtualNode) :
  Tree.find id T = Some n -> NoDup (ids T) -> At T id n.
Proof.
  revert n. induction T as [T IH] using VirtualNode_kids_ind. intros n.
  rewrite find_eq.
  destruct (Nat.eqb_spec (Node.id T) id) as [He|Hne].
  - intros [= <-] _. subst id. constructor.
  - intros (c & Hc & Hf)%find_in_Some Hnd.
    apply list_elem_of_split in Hc as (l1 & l2 & Hk).
    destruct (NoDup_ids_kids T l1 l2 c Hnd Hk) as [Hndc Hd].
    econstructor; [exact Hk|exact Hd|].
    rewrite Forall_forall in IH. apply IH; [|done..].
    rewrite Hk. apply elem_of_app. right. left.
Qed.

Lemma At_find (T : VirtualNode) (id : nat) (n : VirtualNode) :
  At T id n -> Tree.find id T = Some n.
Proof.
  induction 1 as [n|T l1 l2 c id n Hk Hd Hat IH].
  - rewrite find_eq. by rewrite Nat.eqb_refl.
  - assert (id ∈ ids c) as Hid.
    { apply (At_ids c id n); [done|]. rewrite <- (At_id _ _ _ Hat).
      apply id_in_ids. }
    destruct (Hd id Hid) as (Hne & Hn1 & Hn2).
    rewrite find_eq. destruct (Nat.eqb_spec (Node.id T) id); [congruence|].
    rewrite Hk, find_in_app, (find_in_absent _ _ Hn1). simpl.
    by rewrite IH.
Qed.

(** A child is [At] its parent. *)
Lemma At_child (T c : VirtualNode) (l1 l2 : list VirtualNode) :
  NoDup (ids T) -> kids T = l1 ++ c :: l2 -> At T (Node.id c) c.
Proof.
  intros Hnd Hk. destruct (NoDup_ids_kids T l1 l2 c Hnd Hk) as [_ Hd].
  econstructor; [exact Hk|exact Hd|constructor].
Qed.

Lemma At_trans (T : VirtualNode) (i : nat) (n : VirtualNode) (j : nat)
    (m : VirtualNode) :
  At T i n -> At n j m -> At T j m.
Proof.
  induction 1 as [|T l1 l2 c id n Hk Hd Hat IH]; [done|].
  intros Hm. econstructor; [exact Hk|exact Hd|auto].
Qed.

(** Replacing the node [At] a place: the kids on the way change in one
    place only. *)
Lemma replace_kids (T : VirtualNode) (l1 l2 : list VirtualNode)
    (c : VirtualNode) (j : nat) (y : VirtualNode) :
  kids T = l1 ++ c :: l2 ->
  j <> Node.id T -> j ∉ ids_of l1 -> j ∉ ids_of l2 ->
  Tree.replace j y T = map_kids (Tree.replace j y) T
  /\ Tree.replace j y <$> kids T = l1 ++ Tree.replace j y c :: l2.
Proof.
  intros Hk Hne Hn1 Hn2. split.
  - rewrite replace_eq. by destruct (Nat.eqb_spec (Node.id T) j); [congruence|].
  - rewrite Hk, fmap_app, fmap_cons.
    by rewrite !replace_absent_list.
Qed.

Lemma At_replace_inner (T : VirtualNode) (id : nat) (n : VirtualNode)
    (j : nat) (y : VirtualNode) :
  At T id n -> j ∈ ids n ->
  Tree.replace j y T = Tree.replace id (Tree.replace j y n) T.
Proof.
  induction 1 as [n|T l1 l2 c id n Hk Hd Hat IH]; intros Hj.
  - rewrite (replace_eq (Node.id n) _ n). by rewrite Nat.eqb_refl.
  - assert (j ∈ ids c) as Hjc by eauto using At_ids.
    assert (id ∈ ids c) as Hid.
    { apply (At_ids c id n); [done|]. rewrite <- (At_id _ _ _ Hat).
      apply id_in_ids. }
    destruct (Hd j Hjc) as (Hne & Hn1 & Hn2).
    destruct (Hd id Hid) as (Hne' & Hn1' & Hn2').
    destruct (replace_kids T l1 l2 c j y Hk) as [-> Hl]; [done..|].
    destruct (replace_kids T l1 l2 c id (Tree.replace j y n) Hk)
      as [-> Hl']; [done..|].
    apply map_kids_ext. rewrite Hk. apply Forall_app. split; [|constructor].
    + apply Forall_forall. intros k Hkin. rewrite !replace_absent; [done|..].
      * intros Hx. apply Hn1', elem_of_ids_of. eauto.
      * intros Hx. apply Hn1, elem_of_ids_of. eauto.
    + auto.
    + apply Forall_forall. intros k Hkin. rewrite !replace_absent; [done|..].
      * intros Hx. apply Hn2', elem_of_ids_of. eauto.
      * intros Hx. apply Hn2, elem_of_ids_of. eauto.
Qed.

(** The identities after a replacement. *)
Lemma At_ids_replace (T : VirtualNode) (id : nat) (n x : VirtualNode) :
  At T id n ->
  exists pre suf,
    ids T = pre ++ ids n ++ suf
    /\ ids (Tree.replace id x T) = pre ++ ids x ++ suf.
Proof.
  induction 1 as [n|T l1 l2 c id n Hk Hd Hat IH].
  - exists [], []. rewrite !app_nil_r. split; [done|].
    rewrite replace_eq. by rewrite Nat.eqb_refl.
  - assert (id ∈ ids c) as Hid.
    { apply (At_ids c id n); [done|]. rewrite <- (At_id _ _ _ Hat).
      apply id_in_ids. }
    destruct (Hd id Hid) as (Hne & Hn1 & Hn2).
    destruct IH as (pre & suf & Hc & Hr).
    destruct (replace_kids T l1 l2 c id x Hk) as [-> Hl]; [done..|].
    exists (Node.id T :: ids_of l1 ++ pre), (suf ++ ids_of l2).
    rewrite ids_map_kids, Hl, (ids_eq T), Hk, !ids_of_app, !ids_of_cons.
    rewrite Hc, Hr. simpl. rewrite <- !app_assoc. done.
Qed.

Lemma NoDup_replace (T : VirtualNode) (id : nat) (n x : VirtualNode) :
  At T id n -> NoDup (ids T) -> NoDup (ids x) ->
  (forall j, j ∈ ids x -> j ∈ ids n \/ j ∉ ids T) ->
  NoDup (ids (Tree.replace id x T)).
Proof.
  intros Hat Hnd Hx Hfresh.
  destruct (At_ids_replace T id n x Hat) as (pre & suf & HT & ->).
  rewrite HT in Hnd, Hfresh.
  apply NoDup_app in Hnd as (Hpre & Hd1 & Hnd).
  apply NoDup_app in Hnd as (Hn & Hd2 & Hsuf).
  apply NoDup_app. split_and!; [done| |].
  - intros j Hj. rewrite elem_of_app. intros [Hjx|Hjs].
    + destruct (Hfresh j Hjx) as [Hjn|Hnin].
      * apply (Hd1 j Hj). rewrite elem_of_app. auto.
      * apply Hnin. rewrite elem_of_app. auto.
    + apply (Hd1 j Hj). rewrite !elem_of_app. auto.
  - apply NoDup_app. split_and!; [done| |done].
    intros j Hjx Hjs. destruct (Hfresh j Hjx) as [Hjn|Hnin].
    + by apply (Hd2 j Hjn).
    + apply Hnin. rewrite !elem_of_app. auto.
Qed.

Lemma elem_of_ids_replace (T : VirtualNode) (id : nat) (n x : VirtualNode)
    (j : nat) :
  At T id n -> j ∈ ids (Tree.replace id x T) -> j ∈ ids T \/ j ∈ ids x.
Proof.
  intros Hat. destruct (At_ids_replace T id n x Hat) as (pre & suf & -> & ->).
  rewrite !elem_of_app. tauto.
Qed.

(** The new node is [At] the place of the old one. *)
Lemma At_replace (T : VirtualNode) (id : nat) (n x : VirtualNode) :
  At T id n -> Node.id x = id ->
  (forall j, j ∈ ids x -> j ∈ ids n \/ j ∉ ids T) ->
  At (Tree.replace id x T) id x.
Proof.
  induction 1 as [n|T l1 l2 c id n Hk Hd Hat IH]; intros Hx Hfresh.
  - rewrite replace_eq, Nat.eqb_refl. rewrite <- Hx. constructor.
  - assert (id ∈ ids c) as Hid.
    { apply (At_ids c id n); [done|]. rewrite <- (At_id _ _ _ Hat).
      apply id_in_ids. }
    destruct (Hd id Hid) as (Hne & Hn1 & Hn2).
    destruct (replace_kids T l1 l2 c id x Hk) as [-> Hl]; [done..|].
    assert (forall j, j ∈ ids x -> j ∈ ids n \/ j ∉ ids c) as Hfresh'.
    { intros j Hj. destruct (Hfresh j Hj) as [?|Hnin]; [by left|right].
      intros Hjc. apply Hnin. rewrite ids_eq, Hk. right.
      apply elem_of_ids_of. exists c. split; [|done].
      apply elem_of_app. right. left. }
    eapply (At_kid _ l1 l2 (Tree.replace id x c)).
    + by rewrite kids_map_kids.
    + intros j Hj. rewrite id_map_kids.
      apply (elem_of_ids_replace c id n x j Hat) in Hj as [Hj|Hj]; [auto|].
      destruct (Hfresh j Hj) as [Hjn|Hnin].
      * apply Hd. eauto using At_ids.
      * rewrite ids_eq, Hk, ids_of_app, ids_of_cons in Hnin.
        rewrite not_elem_of_cons, !not_elem_of_app in Hnin. tauto.
    + by apply IH.
Qed.

Lemma replace_replace (T : VirtualNode) (id : nat) (n x y : VirtualNode) :
  At T id n -> Node.id x = id ->
  Tree.replace id y (Tree.replace id x T) = Tree.replace id y T.
Proof.
  induction 1 as [n|T l1 l2 c id n Hk Hd Hat IH]; intros Hx.
  - rewrite (replace_eq _ x n), Nat.eqb_refl.
    rewrite (replace_eq _ y n), Nat.eqb_refl.
    rewrite replace_eq, Hx. by rewrite Nat.eqb_refl.
  - assert (id ∈ ids c) as Hid.
    { apply (At_ids c id n); [done|]. rewrite <- (At_id _ _ _ Hat).
      apply id_in_ids. }
    destruct (Hd id Hid) as (Hne & Hn1 & Hn2).
    destruct (replace_kids T l1 l2 c id x Hk) as [-> Hl]; [done..|].
    destruct (replace_kids T l1 l2 c id y Hk) as [-> Hl']; [done..|].
    rewrite replace_eq, id_map_kids.
    destruct (Nat.eqb_spec (Node.id T) id); [congruence|].
    rewrite map_kids_compose. apply map_kids_ext.
    rewrite Hk. apply Forall_app. split; [|constructor].
    + apply Forall_forall. intros k Hkin.
      assert (id ∉ ids k) by (intros Hx'; apply Hn1, elem_of_ids_of; eauto).
      by rewrite (replace_absent id x k).
    + auto.
    + apply Forall_forall. intros k Hkin.
      assert (id ∉ ids k) by (intros Hx'; apply Hn2, elem_of_ids_of; eauto).
      by rewrite (replace_absent id x k).
Qed.

Lemma replace_same (T : VirtualNode) (id : nat) (n : VirtualNode) :
  At T id n -> Tree.replace id n T = T.
Proof.
  induction 1 as [n|T l1 l2 c id n Hk Hd Hat IH].
  - rewrite replace_eq. by rewrite Nat.eqb_refl.
  - assert (id ∈ ids c) as Hid.
    { apply (At_ids c id n); [done|]. rewrite <- (At_id _ _ _ Hat).
      apply id_in_ids. }
    destruct (Hd id Hid) as (Hne & Hn1 & Hn2).
    destruct (replace_kids T l1 l2 c id n Hk) as [-> Hl]; [done..|].
    rewrite <- (map_kids_id T) at 2. apply map_kids_ext.
    rewrite Hk. apply Forall_app. split; [|constructor].
    + apply Forall_forall. intros k Hkin.
      assert (id ∉ ids k) by (intros Hx'; apply Hn1, elem_of_ids_of; eauto).
      by rewrite !replace_absent.
    + auto.
    + apply Forall_forall. intros k Hkin.
      assert (id ∉ ids k) by (intros Hx'; apply Hn2, elem_of_ids_of; eauto).
      by rewrite !replace_absent.
Qed.

Lemma NoDup_ids_of_id (l : list VirtualNode) :
  NoDup (ids_of l) -> NoDup (Node.id <$> l).
Proof.
  induction l as [|x l IH]; [constructor|].
  rewrite ids_of_cons. intros (_ & Hd & Hl)%NoDup_app.
  rewrite fmap_cons. apply NoDup_cons. split; [|auto].
  intros (y & Hy & Hin)%list_elem_of_fmap.
  apply (Hd (Node.id x) (id_in_ids x)). apply elem_of_ids_of.
  exists y. split; [done|]. rewrite Hy. apply id_in_ids.
Qed.

Lemma NoDup_kids (n : VirtualNode) :
  NoDup (ids n) -> NoDup (ids_of (kids n)).
Proof. rewrite ids_eq. by intros [_ ?]%NoDup_cons. Qed.
End trees.

(** ** Deep equality *)

Section deep_equality.
Import DeepEqual.

Lemma value_nested_ind (P : value -> Prop) :
  P VUndefined -> P VNull -> (forall b, P (VBool b)) ->
  (forall n, P (VNum n)) -> (forall s, P (VStr s)) ->
  (forall f, P (VFun f)) ->
  (forall items, Forall P items -> P (VArr items)) ->
  (forall ctor fields, Forall (fun kv => P kv.2) fields ->
                       P (VObj ctor fields)) ->
  forall v, P v.
Proof.
  intros Hu Hn Hb Hz Hs Hf Ha Ho.
  fix IH 1. intros [| |b|n|s|f|items|ctor fields].
  - exact Hu.
  - exact Hn.
  - apply Hb.
  - apply Hz.
  - apply Hs.
  - apply Hf.
  - apply Ha. induction items as [|x l IHl]; constructor;
      [apply IH|exact IHl].
  - apply Ho. induction fields as [|[k x] l IHl]; constructor;
      [apply IH|exact IHl].
Qed.

Definition primitive (v : value) : bool :=
  match v with VArr _ | VObj _ _ => false | _ => true end.

Lemma Object_is_primitive (a b : value) :
  Object_is a b = true -> primitive a = true /\ primitive b = true.
Proof. by destruct a, b. Qed.

Lemma Object_is_trans (a b c : value) :
  Object_is a b = true -> Object_is b c = true -> Object_is a c = true.
Proof.
  destruct a as [| |x|x|x|x|x|? x], b as [| |y|y|y|y|y|? y]; try done;
    destruct c as [| |z|z|z|z|z|? z]; try done; simpl.
  - destruct x, y, z; done.
  - intros ->%Z.eqb_eq ->%Z.eqb_eq. apply Z.eqb_refl.
  - intros ->%String.eqb_eq ->%String.eqb_eq. apply String.eqb_refl.
  - intros ->%Nat.eqb_eq ->%Nat.eqb_eq. apply Nat.eqb_refl.
Qed.

Lemma deepEqual_primitive (a b : value) :
  primitive a = true -> deepEqual a b = Object_is a b.
Proof.
  destruct a; try done; intros _;
    match goal with
    | |- deepEqual ?a b = _ =>
        change (deepEqual a b) with (if Object_is a b then true else false);
        by destruct (Object_is a b)
    end.
Qed.

Lemma deepEqual_primitive_r (a b : value) :
  primitive b = true -> deepEqual a b = Object_is a b.
Proof.
  intros Hb. destruct a; try (by apply deepEqual_primitive);
    by destruct b.
Qed.

Lemma deepEqual_arr (a b : list value) :
  deepEqual (VArr a) (VArr b) = true
  <-> Forall2 (fun x y => deepEqual x y = true) a b.
Proof.
  cbn [deepEqual Object_is]. rewrite andb_true_iff, Nat.eqb_eq.
  revert b. induction a as [|x a IH]; intros [|y b]; simpl.
  - split; [constructor|done].
  - split; [by intros [? _]|by intros ?%Forall2_nil_cons_inv].
  - split; [by intros [? _]|by intros ?%Forall2_cons_nil_inv].
  - rewrite Forall2_cons, andb_true_iff, <- IH. split.
    + intros (Hl & Hx & Hr). split; [done|]. split; [lia|done].
    + intros (Hx & Hl & Hr). split; [lia|]. by split.
Qed.

Lemma deepEqual_arr_inv (a : list value) (v : value) :
  deepEqual (VArr a) v = true -> exists b, v = VArr b.
Proof. destruct v; try done. by eexists. Qed.

Lemma deepEqual_obj (c c' : nat) (f f' : list (string * value)) :
  deepEqual (VObj c f) (VObj c' f') = true
  <-> c = c' /\ length f = length f'
      /\ js_sort string_order f.*1 = js_sort string_order f'.*1
      /\ Forall (fun kv => deepEqual kv.2 (get kv.1 f') = true) f.
Proof.
  cbn [deepEqual Object_is].
  rewrite !andb_true_iff, !Nat.eqb_eq.
  assert (forall l1 l2, strings_equal l1 l2 = true <-> l1 = l2) as Hs.
  { induction l1 as [|x l1 IH]; intros [|y l2]; simpl; try done.
    rewrite andb_true_iff, String.eqb_eq, IH. split.
    - by intros [-> ->].
    - by intros [= -> ->]. }
  rewrite Hs.
  assert (forall l : list (string * value),
            (fix each (l : list (string * value)) : bool :=
               match l with
               | [] => true
               | (key, v) :: l' => deepEqual v (get key f') && each l'
               end) l = true
            <-> Forall (fun kv => deepEqual kv.2 (get kv.1 f') = true) l)
    as He.
  { induction l as [|[k v] l IH]; simpl.
    - split; [constructor|done].
    - by rewrite andb_true_iff, Forall_cons, IH. }
  rewrite He. tauto.
Qed.

Lemma deepEqual_obj_inv (c : nat) (f : list (string * value)) (v : value) :
  deepEqual (VObj c f) v = true -> exists c' f', v = VObj c' f'.
Proof. destruct v; try done. by eexists _, _. Qed.

Lemma get_elem_of (k : string) (l : list (string * value)) :
  k ∈ l.*1 -> (k, get k l) ∈ l.
Proof.
  induction l as [|[k' v] l IH]; simpl; [by intros ?%elem_of_nil|].
  destruct (String.eqb_spec k' k) as [->|Hne]; [left|].
  intros [?|?]%elem_of_cons; [congruence|]. right. auto.
Qed.

Lemma string_sort_perm (l : list string) : js_sort string_order l ≡ₚ l.
Proof. apply js_sort_perm. Qed.

(** [deepEqual] is transitive. *)
Lemma deepEqual_trans (a b c : value) :
  deepEqual a b = true -> deepEqual b c = true -> deepEqual a c = true.
Proof.
  revert b c.
  induction a as [| |x|x|x|x|items IH|ctor fields IH] using value_nested_ind;
    intros b c Hab Hbc;
    try (rewrite deepEqual_primitive in Hab |- * by done;
         destruct (Object_is_primitive _ _ Hab) as [_ Hb];
         rewrite deepEqual_primitive in Hbc by done;
         by eapply Object_is_trans).
  - destruct (deepEqual_arr_inv _ _ Hab) as [items' ->].
    destruct (deepEqual_arr_inv _ _ Hbc) as [items'' ->].
    rewrite deepEqual_arr in Hab, Hbc |- *.
    revert items'' Hbc. induction Hab as [|x y l l' Hxy Hl IHl];
      intros items'' Hbc.
    + by apply Forall2_nil_inv_l in Hbc as ->.
    + apply Forall2_cons_inv_l in Hbc as (z & l'' & Hyz & Hl' & ->).
      apply Forall_cons in IH as [IHx IHl'].
      constructor; [by eapply IHx|]. by apply IHl.
  - destruct (deepEqual_obj_inv _ _ _ Hab) as (c' & f' & ->).
    destruct (deepEqual_obj_inv _ _ _ Hbc) as (c'' & f'' & ->).
    rewrite deepEqual_obj in Hab, Hbc |- *.
    destruct Hab as (-> & Hl & Hk & Hall).
    destruct Hbc as (-> & Hl' & Hk' & Hall').
    split_and!; [done|congruence|congruence|].
    rewrite Forall_forall in IH, Hall, Hall' |- *.
    intros [k v] Hkv. simpl. eapply (IH _ Hkv); [by apply (Hall _ Hkv)|].
    assert (k ∈ f'.*1) as Hin.
    { rewrite <- (string_sort_perm f'.*1), <- Hk, string_sort_perm.
      apply list_elem_of_fmap. by exists (k, v). }
    apply (Hall' _ (get_elem_of _ _ Hin)).
Qed.

(** An object given by the values of a fixed list of property names, some
    of them absent. *)
Definition flatten (view : list (string * option value))
    : list (string * value) :=
  omap (fun nv => (fun v => (nv.1, v)) <$> nv.2) view.

Lemma flatten_cons (n : string) (o : option value)
    (view : list (string * option value)) :
  flatten ((n, o) :: view)
  = match o with Some v => [(n, v)] | None => [] end ++ flatten view.
Proof. unfold flatten. simpl. by destruct o. Qed.

Lemma elem_of_keys_flatten (k : string)
    (view : list (string * option value)) :
  k ∈ (flatten view).*1 <-> exists v, (k, Some v) ∈ view.
Proof.
  induction view as [|[n o] view IH].
  - split; [by intros ?%elem_of_nil|by intros [? ?%elem_of_nil]].
  - rewrite flatten_cons, fmap_app, elem_of_app, IH. split.
    + intros [Hk|[v Hv]].
      * destruct o as [v|]; simpl in Hk; [|by apply elem_of_nil in Hk].
        apply list_elem_of_singleton in Hk. subst k. exists v. left.
      * exists v. by right.
    + intros [v [[= -> <-]|Hv]%elem_of_cons].
      * left. simpl. left.
      * right. eauto.
Qed.

Lemma get_flatten (k : string) (v : value)
    (view : list (string * option value)) :
  NoDup view.*1 -> (k, Some v) ∈ view -> get k (flatten view) = v.
Proof.
  induction view as [|[n o] view IH]; [by intros _ ?%elem_of_nil|].
  rewrite fmap_cons, NoDup_cons. intros [Hn Hnd].
  rewrite flatten_cons. intros [[= -> <-]|Hin]%elem_of_cons.
  - simpl. by rewrite String.eqb_refl.
  - assert (n <> k) as Hne.
    { intros ->. apply Hn. apply list_elem_of_fmap. by exists (k, Some v). }
    destruct o as [v'|]; simpl; [|by apply IH].
    destruct (String.eqb_spec n k); [done|]. by apply IH.
Qed.

(** Two deep-equal objects over the same property names have the same
    names present, with deep-equal values. *)
Lemma deepEqual_views (c c' : nat) (names : list string)
    (os os' : list (option value)) :
  NoDup names -> length os = length names -> length os' = length names ->
  deepEqual (VObj c (flatten (zip names os)))
    (VObj c' (flatten (zip names os'))) = true ->
  c = c'
  /\ Forall2 (fun o o' =>
                match o, o' with
                | Some v, Some v' => deepEqual v v' = true
                | None, None => True
                | _, _ => False
                end) os os'.
Proof.
  intros Hnd Hl Hl' (-> & _ & Hk & Hall)%deepEqual_obj. split; [done|].
  assert (forall k, k ∈ (flatten (zip names os)).*1
                    <-> k ∈ (flatten (zip names os')).*1) as Hkeys.
  { intros k. by rewrite <- (string_sort_perm (_.*1)), Hk, string_sort_perm. }
  assert ((zip names os).*1 = names) as Hz by (apply fst_zip; lia).
  assert ((zip names os').*1 = names) as Hz' by (apply fst_zip; lia).
  apply Forall2_same_length_lookup_2; [congruence|].
  intros i o o' Ho Ho'.
  destruct (lookup_lt_is_Some_2 names i) as [n Hn].
  { rewrite <- Hl. by eapply lookup_lt_Some. }
  assert ((n, o) ∈ zip names os) as Hin.
  { apply list_elem_of_lookup. exists i. apply lookup_zip_with_Some.
    by exists n, o. }
  assert ((n, o') ∈ zip names os') as Hin'.
  { apply list_elem_of_lookup. exists i. apply lookup_zip_with_Some.
    by exists n, o'. }
  assert (forall (l : list (option value)) x y,
            length l = length names ->
            (n, x) ∈ zip names l -> (n, y) ∈ zip names l -> x = y) as Huniq.
  { intros l x y Hlen (j & Hj)%list_elem_of_lookup (j' & Hj')%list_elem_of_lookup.
    apply lookup_zip_with_Some in Hj as (? & ? & [= <- <-] & Hjn & Hjx).
    apply lookup_zip_with_Some in Hj' as (? & ? & [= <- <-] & Hjn' & Hjy).
    assert (j = j') as <- by (eapply NoDup_lookup; eauto). congruence. }
  destruct o as [v|], o' as [v'|]; try done.
  - rewrite Forall_forall in Hall.
    assert ((n, v) ∈ flatten (zip names os)) as Hf.
    { unfold flatten. apply list_elem_of_omap. by exists (n, Some v). }
    specialize (Hall _ Hf). simpl in Hall.
    by rewrite (get_flatten n v') in Hall by (by rewrite ?Hz').
  - assert (n ∈ (flatten (zip names os')).*1) as Hn'.
    { apply Hkeys, elem_of_keys_flatten. eauto. }
    apply elem_of_keys_flatten in Hn' as [v' Hv'].
    by specialize (Huniq os' _ _ Hl' Hin' Hv').
  - assert (n ∈ (flatten (zip names os)).*1) as Hn'.
    { apply Hkeys, elem_of_keys_flatten. eauto. }
    apply elem_of_keys_flatten in Hn' as [v Hv].
    by specialize (Huniq os _ _ Hl Hin Hv).
Qed.
End deep_equality.

(** ** Descriptions up to deep equality *)

Section descriptions.
Import DeepEqual.

Lemma Description_nested_ind (P : Description -> Prop) :
  (forall name key f, P (ElementDescription name key f None)) ->
  (forall name key f l, Forall P l ->
                        P (ElementDescription name key f (Some l))) ->
  (forall c key p, P (ComponentDescription c key p None)) ->
  (forall c key p l, Forall P l ->
                     P (ComponentDescription c key p (Some l))) ->
  forall d, P d.
Proof.
  intros He He' Hc Hc'.
  fix IH 1. intros [name key f [l|]|c key p [l|]].
  - apply He'. induction l as [|x l IHl]; constructor; [apply IH|exact IHl].
  - apply He.
  - apply Hc'. induction l as [|x l IHl]; constructor; [apply IH|exact IHl].
  - apply Hc.
Qed.

Definition children_value (l : list Description) : value :=
  VArr (Description.to_value <$> l).

Definition element_names : list string :=
  ["name"; "type"; "key"; "class"; "style"; "attrs"; "listeners";
   "dataset"; "properties"; "custom"; "text"; "children"]%string.

Definition element_view (name : string) (key : option Key)
    (f : ElementFields) (children : option (list Description))
    : list (option value) :=
  [Some (VStr name); Some (VStr "element"); key_value <$> key;
   VStr <$> class_ f; Description.strings_value <$> style f;
   Description.strings_value <$> attrs f;
   Description.listeners_value <$> listeners f;
   Description.strings_value <$> dataset f; plain <$> properties f;
   Description.custom_value <$> custom f; VStr <$> text f;
   children_value <$> children].

Definition component_names : list string :=
  ["component"; "type"; "props"; "key"; "children"]%string.

Definition component_view (c : nat) (key : option Key) (p : option Props)
    (children : option (list Description)) : list (option value) :=
  [Some (VFun (mkFunction c None)); Some (VStr "component"); plain <$> p;
   key_value <$> key; children_value <$> children].

Lemma field_view {A} (n : string) (f : A -> value) (o : option A) :
  match f <$> o with Some v => [(n, v)] | None => [] end
  = Description.field n f o.
Proof. by destruct o. Qed.

Lemma to_value_element (name : string) (key : option Key)
    (f : ElementFields) (children : option (list Description)) :
  Description.to_value (ElementDescription name key f children)
  = VObj ElementDescriptionCtor
      (flatten (zip element_names (element_view name key f children))).
Proof.
  unfold element_names, element_view. cbn [zip zip_with].
  rewrite !flatten_cons, !field_view.
  change (flatten []) with (@nil (string * value)). rewrite app_nil_r.
  reflexivity.
Qed.

Lemma to_value_component (c : nat) (key : option Key) (p : option Props)
    (children : option (list Description)) :
  Description.to_value (ComponentDescription c key p children)
  = VObj ComponentDescriptionCtor
      (flatten (zip component_names (component_view c key p children))).
Proof.
  unfold component_names, component_view. cbn [zip zip_with].
  rewrite !flatten_cons, !field_view.
  change (flatten []) with (@nil (string * value)). rewrite app_nil_r.
  reflexivity.
Qed.

Lemma key_value_deepEqual (k k' : Key) :
  deepEqual (key_value k) (key_value k') = true -> k = k'.
Proof.
  destruct k, k'; rewrite deepEqual_primitive by done; simpl; try done.
  - by intros ->%Z.eqb_eq.
  - by intros ->%String.eqb_eq.
Qed.

Local Ltac nodup_names := apply (bool_decide_unpack _); vm_compute; exact I.

(** What deep-equal descriptions share. *)
Lemma deepEqual_description (d d' : Description) :
  Diff.deepEqual d d' = true ->
  match d, d' with
  | ElementDescription n k f ch, ElementDescription n' k' f' ch' =>
      n = n' /\ k = k'
      /\ match ch, ch' with
         | Some l, Some l' =>
             Forall2 (fun x y => Diff.deepEqual x y = true) l l'
         | None, None => True
         | _, _ => False
         end
  | ComponentDescription c k p ch, ComponentDescription c' k' p' ch' =>
      c = c' /\ k = k'
  | _, _ => False
  end.
Proof.
  unfold Diff.deepEqual.
  destruct d as [n k f ch|c k p ch], d' as [n' k' f' ch'|c' k' p' ch'];
    rewrite ?to_value_element, ?to_value_component.
  - intros [_ Hall]%deepEqual_views; [|nodup_names|done..].
    unfold element_view in Hall.
    apply Forall2_cons in Hall as [Hn Hall].
    apply Forall2_cons in Hall as [_ Hall].
    apply Forall2_cons in Hall as [Hk Hall].
    do 8 (apply Forall2_cons in Hall as [_ Hall]).
    apply Forall2_cons in Hall as [Hch _].
    split_and!.
    + rewrite deepEqual_primitive in Hn by done.
      by apply String.eqb_eq in Hn.
    + destruct k, k'; simpl in Hk; try done. f_equal.
      by apply key_value_deepEqual.
    + destruct ch as [l|], ch' as [l'|]; simpl in Hch; try done.
      by apply deepEqual_arr, Forall2_fmap in Hch.
  - intros (Hc & _ & _)%deepEqual_obj. done.
  - intros (Hc & _ & _)%deepEqual_obj. done.
  - intros [_ Hall]%deepEqual_views; [|nodup_names|done..].
    unfold component_view in Hall.
    apply Forall2_cons in Hall as [Hc Hall].
    do 2 (apply Forall2_cons in Hall as [_ Hall]).
    apply Forall2_cons in Hall as [Hk _].
    split.
    + rewrite deepEqual_primitive in Hc by done.
      by apply Nat.eqb_eq in Hc.
    + destruct k, k'; simpl in Hk; try done. f_equal.
      by apply key_value_deepEqual.
Qed.

Lemma deepEqual_description_trans (a b c : Description) :
  Diff.deepEqual a b = true -> Diff.deepEqual b c = true ->
  Diff.deepEqual a c = true.
Proof. apply deepEqual_trans. Qed.

(** A node's description is the one given, or deep-equal to it. *)
Definition agrees (d0 d : Description) : Prop :=
  d0 = d \/ Diff.deepEqual d0 d = true.

Lemma agrees_deepEqual (d0 d d' : Description) :
  agrees d0 d -> Diff.deepEqual d d' = true -> agrees d0 d'.
Proof.
  intros [->|H0] Hd; right; [done|].
  by eapply deepEqual_description_trans.
Qed.

Lemma agrees_key (d0 d : Description) :
  agrees d0 d -> Description.key d0 = Description.key d.
Proof.
  intros [->|H%deepEqual_description]; [done|].
  destruct d0, d; try done; simpl; tauto.
Qed.

Lemma agrees_isCompatible (d0 d : Description) :
  agrees d0 d -> Description.isCompatible d0 d = true.
Proof.
  intros [->|H%deepEqual_description].
  - destruct d; simpl; [apply String.eqb_refl|apply Nat.eqb_refl].
  - destruct d0, d; try done; simpl; destruct H as [-> _];
      [apply String.eqb_refl|apply Nat.eqb_refl].
Qed.
End descriptions.

(** ** Trees that render a description *)

Section rendering.
Import Node.
Context (toolkit : Toolkit).

(** What the component a description names renders for it. *)
Definition render_of (d : Description) : Result (option Description) :=
  match d with
  | ComponentDescription c _ p ch =>
      render toolkit c (default [] p) (default [] ch)
  | ElementDescription _ _ _ _ => Ok None
  end.

(** [renders n d]: the tree under [n] is what [d] describes.  The
    description of each node is the one of [d] for its place, or deep-equal
    to it; an element has a child for each child description, in order; a
    component is of the class named and holds what it renders. *)
Fixpoint renders (n : VirtualNode) (d : Description) {struct n} : Prop :=
  match n with
  | VirtualElement _ _ _ d0 ch =>
      Description.isElement d = true /\ agrees d0 d /\
      match ch with
      | None => default [] (Description.children d) = []
      | Some l =>
          (fix each (l : list VirtualNode) (ds : list Description)
               {struct l} : Prop :=
             match l, ds with
             | [], [] => True
             | c :: l', x :: ds' => renders c x /\ each l' ds'
             | _, _ => False
             end) l (default [] (Description.children d))
      end
  | Component _ c _ _ d0 child _ _ =>
      (exists k p ch, d = ComponentDescription c k p ch) /\ agrees d0 d /\
      match render_of d with
      | Ok (Some d') =>
          match child with Some x => renders x d' | None => False end
      | Ok None => child = None
      | Throw _ => False
      end
  end.

Lemma renders_element (i : nat) (k : option Key) (p : option nat)
    (d0 : Description) (ch : option (list VirtualNode)) (d : Description) :
  renders (VirtualElement i k p d0 ch) d
  <-> Description.isElement d = true /\ agrees d0 d
      /\ Forall2 renders (default [] ch)
           (default [] (Description.children d)).
Proof.
  cbn [renders].
  assert (forall l ds,
            (fix each (l : list VirtualNode) (ds : list Description)
                 {struct l} : Prop :=
               match l, ds with
               | [], [] => True
               | c :: l', x :: ds' => renders c x /\ each l' ds'
               | _, _ => False
               end) l ds <-> Forall2 renders l ds) as He.
  { induction l as [|c l IH]; intros [|x ds].
    - split; [constructor|done].
    - split; [done|by intros ?%Forall2_nil_cons_inv].
    - split; [done|by intros ?%Forall2_cons_nil_inv].
    - by rewrite Forall2_cons, IH. }
  destruct ch as [l|]; simpl.
  - by rewrite He.
  - split.
    + intros (? & ? & ->). split_and!; [done..|constructor].
    + intros (? & ? & ->%Forall2_nil_inv_l). done.
Qed.

(** The keys the children are reconciled by: [key || index]. *)
Definition eff_keys (ds : list Description) : list Key :=
  imap (fun i d => Diff.key_or_index (Description.key d) i) ds.

(** Sibling elements have distinct keys, all the way down. *)
Fixpoint keyed (d : Description) : Prop :=
  match d with
  | ElementDescription _ _ _ (Some l) =>
      NoDup (eff_keys l)
      /\ (fix each (l : list Description) : Prop :=
            match l with
            | [] => True
            | x :: l' => keyed x /\ each l'
            end) l
  | _ => True
  end.

Lemma keyed_element (n : string) (k : option Key) (f : ElementFields)
    (l : list Description) :
  keyed (ElementDescription n k f (Some l))
  <-> NoDup (eff_keys l) /\ Forall keyed l.
Proof.
  cbn [keyed].
  assert ((fix each (l : list Description) : Prop :=
             match l with
             | [] => True
             | x :: l' => keyed x /\ each l'
             end) l <-> Forall keyed l) as ->; [|done].
  induction l as [|x l IH]; [by split; [constructor|]|].
  by rewrite Forall_cons, IH.
Qed.

(** What holds of each node of a well-formed tree: it renders its own
    description, its children point back to it and have distinct keys, a
    component has either its child or its placeholder; [top] says whether
    the node is the root of a tree. *)
Definition node_ok (top : bool) (n : VirtualNode) : Prop :=
  renders n (description n)
  /\ Forall (fun c => parentNode c = Some (id n)) (kids n)
  /\ NoDup (eff_keys (description <$> kids n))
  /\ slot_invariant n
  /\ match n with
     | VirtualElement _ _ _ _ _ => top = false
     | Component _ c _ _ _ _ _ _ => isRootClass toolkit c = top
     end.

Fixpoint well_formed (n : VirtualNode) : Prop :=
  node_ok false n
  /\ match n with
     | VirtualElement _ _ _ _ (Some l) =>
         (fix each (l : list VirtualNode) : Prop :=
            match l with
            | [] => True
            | c :: l' => well_formed c /\ each l'
            end) l
     | Component _ _ _ _ _ (Some c) _ _ => well_formed c
     | _ => True
     end.

Lemma well_formed_eq (n : VirtualNode) :
  well_formed n <-> node_ok false n /\ Forall well_formed (kids n).
Proof.
  destruct n as [i k p d [cs|]|i ctor k p d [c|] cm st]; cbn [well_formed kids].
  - assert ((fix each (l : list VirtualNode) : Prop :=
               match l with
               | [] => True
               | c :: l' => well_formed c /\ each l'
               end) cs <-> Forall well_formed cs) as ->; [|done].
    induction cs as [|x l IH]; [by split; [constructor|]|].
    by rewrite Forall_cons, IH.
  - split; [by intros [? _]; split; [|constructor]|by intros [? _]].
  - rewrite Forall_cons. split; [by intros [? ?]; split_and!; [..|constructor]|].
    by intros (? & ? & _).
  - split; [by intros [? _]; split; [|constructor]|by intros [? _]].
Qed.

(** The root of a tree: a component of a root class over well-formed
    nodes. *)
Definition well_formed_root (n : VirtualNode) : Prop :=
  node_ok true n /\ Forall well_formed (kids n).

(** Rendering is a function of the description up to deep equality. *)
Definition pure_render : Prop :=
  forall d d',
    Diff.deepEqual d d' = true ->
    match render_of d, render_of d' with
    | Ok (Some a), Ok (Some b) => Diff.deepEqual a b = true
    | Ok None, Ok None => True
    | Throw _, Throw _ => True
    | _, _ => False
    end.

(** What is rendered has distinct sibling keys. *)
Definition keyed_render : Prop :=
  forall c p ch d, render toolkit c p ch = Ok (Some d) -> keyed d.


(** What a diff asks of the descriptions [K] that it comes across: the
    children of an element have distinct keys; and it comes across the
    children of its elements and what its components render. *)
Record keyed_on (K : Description -> Prop) : Prop := mk_keyed_on {
  keyed_on_siblings :
    forall n k f l,
      K (ElementDescription n k f (Some l)) -> NoDup (eff_keys l);
  keyed_on_children :
    forall n k f l, K (ElementDescription n k f (Some l)) -> Forall K l;
  keyed_on_rendered :
    forall c k p ch d,
      K (ComponentDescription c k p ch) ->
      render toolkit c (default [] p) (default [] ch) = Ok (Some d) -> K d
}.

(** A description with [K] is rendered like every description deep-equal
    to it. *)
Definition pure_on (K : Description -> Prop) : Prop :=
  forall d d',
    K d' -> Diff.deepEqual d d' = true ->
    match render_of d, render_of d' with
    | Ok (Some a), Ok (Some b) => Diff.deepEqual a b = true
    | Ok None, Ok None => True
    | Throw _, Throw _ => True
    | _, _ => False
    end.

Lemma keyed_render_on : keyed_render -> keyed_on keyed.
Proof.
  intros Hkeyed. split.
  - intros n k f l Hk. by apply keyed_element in Hk as [? _].
  - intros n k f l Hk. by apply keyed_element in Hk as [_ ?].
  - intros c k p ch d _ Hr. by eapply Hkeyed.
Qed.

Lemma pure_render_on (K : Description -> Prop) : pure_render -> pure_on K.
Proof. intros Hpure d d' _. apply Hpure. Qed.



Lemma renders_deepEqual_in (K : Description -> Prop) (n : VirtualNode)
    (d d' : Description) :
  (forall n k f l, K (ElementDescription n k f (Some l)) -> Forall K l) ->
  (forall c k p ch x,
     K (ComponentDescription c k p ch) ->
     render toolkit c (default [] p) (default [] ch) = Ok (Some x) -> K x) ->
  pure_on K -> K d' ->
  renders n d -> Diff.deepEqual d d' = true -> renders n d'.
Proof.
  intros Hchildren Hrendered Hpure. revert d d'.
  induction n as [n IH] using VirtualNode_kids_ind. intros d d' HK Hr Heq.
  pose proof (deepEqual_description d d' Heq) as Hd.
  destruct n as [i k p d0 ch|i c k p d0 child cm st].
  - apply renders_element in Hr as (He & Hs & Hch).
    apply renders_element.
    destruct d as [n0 k0 f0 ch0|]; [|done].
    destruct d' as [n1 k1 f1 ch1|]; [|done].
    destruct Hd as (-> & -> & Hd).
    split_and!; [done|by eapply agrees_deepEqual|].
    simpl in Hch |- *.
    assert (Forall2 (fun x y => Diff.deepEqual x y = true)
              (default [] ch0) (default [] ch1)) as Hd'.
    { destruct ch0, ch1; simpl; done. }
    assert (Forall K (default [] ch1)) as HK1.
    { destruct ch1 as [l|]; [by eapply Hchildren|constructor]. }
    assert (kids (VirtualElement i k p d0 ch) = default [] ch) as Hk
      by (by destruct ch).
    rewrite Hk in IH. clear Hk Hd HK.
    revert IH Hd' HK1. generalize (default [] ch1).
    induction Hch as [|c x l ds Hc Hl IHl]; intros ds' IH Hd' HK1.
    + apply Forall2_nil_inv_l in Hd' as ->. constructor.
    + apply Forall2_cons_inv_l in Hd' as (y & ds'' & Hxy & Hds & ->).
      apply Forall_cons in IH as [IHc IH].
      apply Forall_cons in HK1 as [HKy HK1].
      constructor; [by eapply IHc|by apply IHl].
  - cbn [renders] in Hr |- *. destruct Hr as ((k0 & p0 & ch0 & ->) & Hs & Hr).
    destruct d' as [|c1 k1 p1 ch1]; [done|]. destruct Hd as [<- <-].
    split_and!; [by eexists _, _, _|by eapply agrees_deepEqual|].
    pose proof (Hpure _ _ HK Heq) as Hp.
    pose proof (Hrendered c k0 p1 ch1) as Hnext.
    cbn [render_of] in Hr, Hp |- *.
    destruct (render toolkit c (default [] p0) (default [] ch0))
      as [[a|]|e]; [| |done].
    + destruct (render toolkit c (default [] p1) (default [] ch1))
        as [[b|]|e]; [|done..].
      destruct child as [x|]; [|done]. simpl in IH.
      apply Forall_cons in IH as [IHx _].
      eapply IHx; [by eapply Hnext|exact Hr|exact Hp].
    + by destruct (render toolkit c (default [] p1) (default [] ch1))
        as [[b|]|e].
Qed.

Lemma renders_deepEqual (n : VirtualNode) (d d' : Description) :
  pure_render ->
  renders n d -> Diff.deepEqual d d' = true -> renders n d'.
Proof.
  intros Hpure.
  apply (renders_deepEqual_in (fun _ => True)); try done.
  - intros. by apply Forall_true.
  - by apply pure_render_on.
Qed.

Lemma renders_deepEqual_on (K : Description -> Prop) (n : VirtualNode)
    (d d' : Description) :
  keyed_on K -> pure_on K -> K d' ->
  renders n d -> Diff.deepEqual d d' = true -> renders n d'.
Proof.
  intros [_ ? ?]. by apply renders_deepEqual_in.
Qed.

Lemma renders_agrees (n : VirtualNode) (d : Description) :
  renders n d -> agrees (description n) d.
Proof.
  destruct n; [by intros (_ & ? & _)%renders_element|].
  cbn [renders]. by intros (_ & ? & _).
Qed.

Lemma renders_key (n : VirtualNode) (d : Description) :
  renders n d -> Description.key (description n) = Description.key d.
Proof. intros ?%renders_agrees. by apply agrees_key. Qed.
End rendering.

(** ** What applying a patch does to the tree *)

Section applying.
Import Node.

(** [runs ps T T']: applied in order to a world whose tree is [T], the
    patches all return, and leave the tree [T']. *)
Definition runs (ps : list Patch) (T T' : VirtualNode) : Prop :=
  forall pl i ev,
    exists ev',
      for_each Patch.apply ps (mkWorld T pl i ev)
      = (mkWorld T' pl i ev', Ok tt).

Lemma runs_nil (T : VirtualNode) : runs [] T T.
Proof. intros pl i ev. by exists ev. Qed.

Lemma for_each_app {S A} (f : A -> M S unit) (l1 l2 : list A) (s : S) :
  for_each f (l1 ++ l2) s
  = match for_each f l1 s with
    | (s', Ok _) => for_each f l2 s'
    | (s', Throw e) => (s', Throw e)
    end.
Proof.
  revert s. induction l1 as [|x l1 IH]; intros s; [done|].
  simpl. unfold mbind, M_bind. destruct (f x s) as [s1 [[]|e]]; [|done].
  apply IH.
Qed.

Lemma runs_app (ps1 ps2 : list Patch) (T T1 T2 : VirtualNode) :
  runs ps1 T T1 -> runs ps2 T1 T2 -> runs (ps1 ++ ps2) T T2.
Proof.
  intros H1 H2 pl i ev. destruct (H1 pl i ev) as [ev1 E1].
  destruct (H2 pl i ev1) as [ev2 E2]. exists ev2.
  by rewrite for_each_app, E1.
Qed.

Lemma runs_one (p : Patch) (T T' : VirtualNode) :
  (forall pl i ev,
     exists ev', Patch.apply p (mkWorld T pl i ev)
                 = (mkWorld T' pl i ev', Ok tt)) ->
  runs [p] T T'.
Proof.
  intros Hp pl i ev. destruct (Hp pl i ev) as [ev' E]. exists ev'.
  simpl. unfold mbind, M_bind. by rewrite E.
Qed.

Lemma runs_cons (p : Patch) (ps : list Patch) (T T1 T2 : VirtualNode) :
  runs [p] T T1 -> runs ps T1 T2 -> runs (p :: ps) T T2.
Proof. apply (runs_app [p]). Qed.

(** A method call on the node [At] a place of the tree. *)
Lemma call_At {A} (target : VirtualNode) (m : M Call A)
    (T cur cur' : VirtualNode) (pl : list Patch) (i : nat)
    (ev ev' : list Event) (r : Result A) :
  At T (id target) cur ->
  m (mkCall cur ev) = (mkCall cur' ev', r) ->
  Tree.call target m (mkWorld T pl i ev)
  = (mkWorld (Tree.replace (id target) cur' T) pl i ev', r).
Proof.
  intros Hat Hm. unfold Tree.call. cbn [root events patches nextId].
  rewrite (At_find _ _ _ Hat).
  change (default target (Some cur)) with cur. by rewrite Hm.
Qed.

(** The patches that only touch the backing target. *)
Definition neutral (p : Patch) : bool :=
  match p with
  | setAttribute _ _ _ _ | removeAttribute _ _ _
  | setDataAttribute _ _ _ | removeDataAttribute _ _
  | setStyleProperty _ _ _ | removeStyleProperty _ _
  | setClassName _ _
  | addListener _ _ _ _ | replaceListener _ _ _ _ _ | removeListener _ _ _ _
  | setProperty _ _ _ | deleteProperty _ _
  | setTextContent _ _ | removeTextContent _ => true
  | _ => false
  end.

Lemma on_ref_neutral (target : VirtualNode) (c : nat -> BackingCall)
    (T : VirtualNode) (pl : list Patch) (i : nat) (ev : list Event) :
  NoDup (ids T) ->
  Patch.on_ref target c (mkWorld T pl i ev)
  = (mkWorld T pl i (ev ++ [Backing (c (id target))]), Ok tt).
Proof.
  intros Hnd. unfold Patch.on_ref, Tree.call.
  cbn [root events patches nextId].
  destruct (Tree.find (id target) T) as [r|] eqn:Hf; cbn.
  - by rewrite (replace_same T (id target) r) by (by apply find_At).
  - by rewrite replace_absent by (by apply find_None).
Qed.

Lemma runs_neutral (p : Patch) (T : VirtualNode) :
  neutral p = true -> NoDup (ids T) -> runs [p] T T.
Proof.
  intros Hp Hnd. apply runs_one. intros pl i ev.
  destruct p; try done; cbn [Patch.apply];
    try (rewrite on_ref_neutral by done; by eexists).
  erewrite bind_ok by (by apply on_ref_neutral).
  rewrite on_ref_neutral by done. by eexists.
Qed.

Lemma runs_all_neutral (ps : list Patch) (T : VirtualNode) :
  Forall (fun p => neutral p = true) ps -> NoDup (ids T) -> runs ps T T.
Proof.
  induction 1 as [|p ps Hp Hps IH]; intros Hnd; [apply runs_nil|].
  eapply runs_cons; [by apply runs_neutral|by apply IH].
Qed.

Lemma runs_updateNode (node cur : VirtualNode) (prev d : Description)
    (T : VirtualNode) :
  At T (id node) cur ->
  runs [updateNode node prev d] T
    (Tree.replace (id node) (set_description d cur) T).
Proof.
  intros Hat. apply runs_one. intros pl i ev. exists ev.
  cbn [Patch.apply]. by apply (call_At _ _ _ cur).
Qed.

Lemma runs_appendChild (child parent : VirtualNode) (T : VirtualNode)
    (i c : nat) (k : option Key) (p : option nat) (d : Description)
    (cm : Comment) (st : option Props) :
  At T (id parent) (Component i c k p d None (Some cm) st) ->
  runs [appendChild child parent] T
    (Tree.replace (id parent)
       (Component i c k p d (Some (set_parentNode (Some i) child)) None st)
       T).
Proof.
  intros Hat. apply runs_one. intros pl j ev. eexists.
  cbn [Patch.apply]. by eapply call_At.
Qed.

Lemma runs_replaceChild (child node parent : VirtualNode) (T : VirtualNode)
    (i c : nat) (k : option Key) (p : option nat) (d : Description)
    (c0 : VirtualNode) (cm : option Comment) (st : option Props) :
  At T (id parent) (Component i c k p d (Some c0) cm st) ->
  runs [replaceChild child node parent] T
    (Tree.replace (id parent)
       (Component i c k p d (Some (set_parentNode (Some i) node)) cm st) T).
Proof.
  intros Hat. apply runs_one. intros pl j ev. cbn [Patch.apply].
  match goal with
  | |- exists ev', Tree.call _ ?m _ = _ =>
      assert (exists ev',
                m (mkCall (Component i c k p d (Some c0) cm st) ev)
                = (mkCall
                     (Component i c k p d
                        (Some (set_parentNode (Some i) node)) cm st) ev',
                   Ok tt)) as [ev' Hm]
  end.
  { unfold Patch.parent_replaceChild, Component.replaceChild, mbind, M_bind,
      get_state, assert. cbn [this isComponent is_child].
    destruct (same c0 child); by eexists. }
  exists ev'. by eapply call_At.
Qed.

Lemma runs_removeChild (child parent : VirtualNode) (T : VirtualNode)
    (i c : nat) (k : option Key) (p : option nat) (d : Description)
    (c0 : VirtualNode) (cm : option Comment) (st : option Props) :
  At T (id parent) (Component i c k p d (Some c0) cm st) ->
  runs [removeChild child parent] T
    (Tree.replace (id parent)
       (Component i c k p d None (Some (Component.createComment i c)) st) T).
Proof.
  intros Hat. apply runs_one. intros pl j ev. cbn [Patch.apply].
  match goal with
  | |- exists ev', Tree.call _ ?m _ = _ =>
      assert (exists ev',
                m (mkCall (Component i c k p d (Some c0) cm st) ev)
                = (mkCall
                     (Component i c k p d None
                        (Some (Component.createComment i c)) st) ev',
                   Ok tt)) as [ev' Hm]
  end.
  { unfold Patch.parent_removeChild, Component.removeChild, mbind, M_bind,
      get_state, assert. cbn [this isComponent is_child].
    destruct (same c0 child); by eexists. }
  exists ev'. by eapply call_At.
Qed.

Lemma runs_insertChildNode (node : VirtualNode) (at_ : Z)
    (parent T : VirtualNode) (i : nat) (k : option Key) (p : option nat)
    (d : Description) (ch : option (list VirtualNode)) :
  At T (id parent) (VirtualElement i k p d ch) ->
  runs [insertChildNode node at_ parent] T
    (Tree.replace (id parent)
       (VirtualElement i k p d
          (Some (splice at_ 0 [set_parentNode (Some i) node]
                   (default [] ch)))) T).
Proof.
  intros Hat. apply runs_one. intros pl j ev. eexists.
  cbn [Patch.apply]. eapply call_At; [done|].
  unfold VirtualElement.insertChild, mbind, M_bind, get_state, set_this,
    emit. cbn [this console]. reflexivity.
Qed.

Lemma indexOf_found (node : VirtualNode) (cs : list VirtualNode) (j : nat)
    (c : VirtualNode) :
  cs !! j = Some c -> id c = id node -> (0 <=? indexOf node cs) = true.
Proof.
  revert j. induction cs as [|x cs IH]; intros j Hj Hid; [done|].
  cbn [indexOf]. unfold same.
  destruct (Nat.eqb_spec (id x) (id node)) as [He|Hne]; [done|].
  destruct j as [|j]; simpl in Hj; [congruence|].
  specialize (IH j Hj Hid). apply Z.leb_le in IH.
  destruct (Z.ltb_spec (indexOf node cs) 0); [lia|]. apply Z.leb_le. lia.
Qed.

Lemma runs_moveChildNode (node : VirtualNode) (from to : Z)
    (parent T : VirtualNode) (i : nat) (k : option Key) (p : option nat)
    (d : Description) (cs : list VirtualNode) (found : VirtualNode) :
  At T (id parent) (VirtualElement i k p d (Some cs)) ->
  0 <= from -> cs !! Z.to_nat from = Some found -> id found = id node ->
  runs [moveChildNode node from to parent] T
    (Tree.replace (id parent)
       (VirtualElement i k p d
          (Some (splice to 0 [found] (splice from 1 [] cs)))) T).
Proof.
  intros Hat Hge Hf Hid. apply runs_one. intros pl j ev. eexists.
  cbn [Patch.apply]. eapply call_At; [done|].
  unfold VirtualElement.moveChild, mbind, M_bind, get_state, assert,
    at_index, at_index'. cbn [this].
  destruct (Z.ltb_spec from 0); [lia|]. rewrite Hf.
  cbn [is_child default]. unfold same. rewrite Hid, Nat.eqb_refl.
  unfold VirtualElement.ref_removeChild, mbind, M_bind.
  rewrite (indexOf_found node cs _ found Hf Hid). reflexivity.
Qed.

Lemma indexOf_lookup (node : VirtualNode) (cs : list VirtualNode) (j : nat)
    (c : VirtualNode) :
  NoDup (id <$> cs) -> cs !! j = Some c -> id c = id node ->
  indexOf node cs = Z.of_nat j.
Proof.
  revert j. induction cs as [|x cs IH]; intros j Hnd Hj Hid; [done|].
  rewrite fmap_cons in Hnd. apply NoDup_cons in Hnd as [Hx Hnd].
  cbn [indexOf]. unfold same. destruct j as [|j]; simpl in Hj.
  - injection Hj as ->. by rewrite Hid, Nat.eqb_refl.
  - destruct (Nat.eqb_spec (id x) (id node)) as [He|_].
    + exfalso. apply Hx. rewrite He, <- Hid.
      apply list_elem_of_fmap. exists c. split; [done|].
      by eapply list_elem_of_lookup_2.
    + rewrite (IH j Hnd Hj Hid).
      destruct (Z.ltb_spec (Z.of_nat j) 0); lia.
Qed.

Lemma runs_removeChildNode (node : VirtualNode) (at_ : Z)
    (parent T : VirtualNode) (i : nat) (k : option Key) (p : option nat)
    (d : Description) (cs : list VirtualNode) (j : nat) (c : VirtualNode) :
  At T (id parent) (VirtualElement i k p d (Some cs)) ->
  NoDup (id <$> cs) -> cs !! j = Some c -> id c = id node ->
  runs [removeChildNode node at_ parent] T
    (Tree.replace (id parent)
       (VirtualElement i k p d (Some (splice (Z.of_nat j) 1 [] cs))) T).
Proof.
  intros Hat Hnd Hj Hid. apply runs_one. intros pl n ev. eexists.
  cbn [Patch.apply]. eapply call_At; [done|].
  unfold Patch.parent_removeChild, VirtualElement.removeChild, mbind,
    M_bind, get_state, assert. cbn [this isComponent].
  unfold VirtualElement.ref_removeChild, mbind, M_bind.
  rewrite (indexOf_lookup node cs j c Hnd Hj Hid).
  destruct (Z.leb_spec 0 (Z.of_nat j)); [|lia]. reflexivity.
Qed.

Lemma runs_replaceChildNode (child node parent T : VirtualNode) (i : nat)
    (k : option Key) (p : option nat) (d : Description)
    (cs : list VirtualNode) (j : nat) (c : VirtualNode) :
  At T (id parent) (VirtualElement i k p d (Some cs)) ->
  NoDup (id <$> cs) -> cs !! j = Some c -> id c = id child ->
  runs [replaceChildNode child node parent] T
    (Tree.replace (id parent)
       (VirtualElement i k p d
          (Some (splice (Z.of_nat j) 1 [set_parentNode (Some i) node] cs)))
       T).
Proof.
  intros Hat Hnd Hj Hid. apply runs_one. intros pl n ev. eexists.
  cbn [Patch.apply]. eapply call_At; [done|].
  unfold Patch.parent_replaceChild, VirtualElement.replaceChild, mbind,
    M_bind, get_state, assert. cbn [this isComponent].
  rewrite (indexOf_lookup child cs j c Hnd Hj Hid).
  destruct (Z.leb_spec 0 (Z.of_nat j)); [|lia]. reflexivity.
Qed.
End applying.

(** ** Every move applies to what it names *)

Section reconciler_valid.
Import Reconciler.
Context {K : Type} `{JSKey K}.

(** When a move is made: a removal is of the item at its index, an item
    of the source; an insertion is of an item not in the list; a move takes
    the item from its index. *)
Definition step_valid (source l : list K) (m : Move.t K) : Prop :=
  match m with
  | Move.remove x at_ =>
      0 <= at_ /\ l !! Z.to_nat at_ = Some x /\ x ∈ source
  | Move.insert x at_ => (x ∉ l) /\ 0 <= at_
  | Move.move x from to => 0 <= from /\ l !! Z.to_nat from = Some x /\ 0 <= to
  end.

Fixpoint valid (source l : list K) (ms : list (Move.t K)) : Prop :=
  match ms with
  | [] => True
  | m :: ms' => step_valid source l m /\ valid source (Move.make m l) ms'
  end.

Lemma valid_app (source l : list K) (ms1 ms2 : list (Move.t K)) :
  valid source l (ms1 ++ ms2)
  <-> valid source l ms1 /\ valid source (apply_moves ms1 l) ms2.
Proof.
  revert l. induction ms1 as [|m ms1 IH]; intros l; simpl; [tauto|].
  rewrite IH. unfold apply_moves. simpl. tauto.
Qed.

Lemma remove_phase_valid (P : Item K -> Prop) `{!forall x, Decision (P x)}
    (source pre l : list K) :
  (forall x, x ∈ l -> x ∈ source) ->
  valid source (pre ++ l)
    (remove_of <$> reverse (filter P (indexed_from (length pre) l))).
Proof.
  revert pre. induction l as [|x l IH]; intros pre Hsub; [done|].
  rewrite indexed_from_cons, !filter_cons.
  assert (forall y, y ∈ l -> y ∈ source) as Hsub'
    by (intros y Hy; apply Hsub; by right).
  specialize (IH (pre ++ [x]) Hsub').
  rewrite length_app, Nat.add_1_r, <- app_assoc in IH. simpl in IH.
  destruct (decide (P (createItem x (length pre)))) as [HP|HP]; [|done].
  rewrite reverse_cons, fmap_app, valid_app. split; [done|].
  pose proof (remove_phase P (pre ++ [x]) l) as Hr.
  rewrite length_app, Nat.add_1_r, <- app_assoc in Hr. simpl in Hr.
  rewrite Hr. simpl. split; [|done]. split_and!; [lia| |apply Hsub; left].
  rewrite Nat2Z.id, <- app_assoc. simpl.
  rewrite lookup_app_r by lia. by rewrite Nat.sub_diag.
Qed.

Lemma insert_phase_valid (source : list K) (its : list (Item K))
    (l : list K) :
  NoDup ((key <$> its) ++ l) -> valid source l (insert_of <$> its).
Proof.
  revert l. induction its as [|it its IH]; intros l Hnd; [done|].
  simpl in Hnd. apply NoDup_cons in Hnd as [Hnin Hnd].
  rewrite fmap_cons. cbn [valid]. split.
  - unfold insert_of. cbn [step_valid]. split; [|lia].
    intros Hin. apply Hnin, elem_of_app. by right.
  - apply IH. apply NoDup_app in Hnd as (Hits & Hdisj & Hl).
    change (Move.make (insert_of it) l)
      with (Move.make (Move.insert (key it) (Z.of_nat (index it))) l).
    apply NoDup_app. split_and!; [done| |].
    + intros x Hx. rewrite make_insert_perm, elem_of_cons. intros [->|Hxl].
      * apply Hnin, elem_of_app. by left.
      * by apply (Hdisj x).
    + rewrite make_insert_perm. apply NoDup_cons. split; [|done].
      intros Hin. apply Hnin, elem_of_app. by right.
Qed.

Lemma indexOf_elem (item : K) (l : list K) :
  item ∈ l ->
  0 <= indexOf item l /\ l !! Z.to_nat (indexOf item l) = Some item.
Proof.
  induction l as [|x l IH]; [by intros ?%elem_of_nil|].
  intros Hin. simpl. destruct (key_is x item) eqn:E.
  - apply key_is_eq in E as ->. done.
  - apply key_is_false in E.
    apply elem_of_cons in Hin as [?|Hin]; [congruence|].
    destruct (IH Hin) as [Hge Hl].
    destruct (Z.ltb_spec (indexOf item l) 0); [lia|].
    split; [lia|]. by rewrite Z2Nat.inj_add, Nat.add_1_r by lia.
Qed.

Lemma make_move_perm (item : K) (from to : Z) (l : list K) :
  0 <= from -> l !! Z.to_nat from = Some item ->
  Move.make (Move.move item from to) l ≡ₚ l.
Proof.
  intros Hge Hl. simpl.
  assert (splice from 1 [] l ≡ₚ delete (Z.to_nat from) l) as Hdel.
  { rewrite <- (Z2Nat.id from) at 1 by done. rewrite splice_nat. simpl.
    rewrite delete_take_drop. by rewrite Nat.add_1_r. }
  unfold splice at 1. set (s := splice_start _ _).
  rewrite Nat.add_0_r. simpl.
  rewrite <- Permutation_middle, take_drop, Hdel.
  symmetry. by apply delete_Permutation.
Qed.

Lemma scan_valid (source : list K) (ps : list (nat * K)) (acc : Moves K) :
  Forall (fun p => p.2 ∈ result acc) ps ->
  exists ms,
    foldl moveItemIfNeeded acc ps
    = {| moves := moves acc ++ ms; result := apply_moves ms (result acc) |}
    /\ valid source (result acc) ms.
Proof.
  revert acc. induction ps as [|[i item] ps IH]; intros acc Hall.
  - exists []. destruct acc. simpl. by rewrite app_nil_r.
  - apply Forall_cons in Hall as [Hin Hall]. simpl in Hin.
    cbn [foldl].
    destruct (decide (result acc !! i = Some item)) as [Hs|Hd].
    + rewrite moveItemIfNeeded_same by done. apply IH, Hall.
    + rewrite moveItemIfNeeded_diff by done.
      destruct (indexOf_elem item (result acc) Hin) as [Hge Hl].
      set (m := Move.move item (indexOf item (result acc)) (Z.of_nat i)).
      destruct (IH (apply_move acc m)) as (ms & -> & Hv).
      { eapply Forall_impl; [exact Hall|]. intros p Hp.
        unfold apply_move. cbn [result]. subst m.
        by rewrite make_move_perm. }
      exists (m :: ms). cbn [apply_move moves result].
      rewrite <- app_assoc. split; [done|]. simpl. split; [|done].
      split_and!; [done..|lia].
Qed.

Lemma calculateIndexChanges_valid (source current target : list K)
    (reversed : bool) :
  current ≡ₚ target ->
  valid source current (moves (calculateIndexChanges current target reversed)).
Proof.
  intros Hperm. unfold calculateIndexChanges.
  set (ps := if reversed then _ else _).
  destruct (scan_valid source ps {| moves := []; result := current |})
    as (ms & -> & Hv); [|done].
  apply Forall_forall. intros [i item] Hin. simpl. rewrite Hperm.
  assert ((i, item) ∈ imap (fun i item => (i, item)) target) as Hin'.
  { subst ps. destruct reversed; [|done]. by rewrite elem_of_reverse in Hin. }
  apply elem_of_lookup_imap in Hin' as (j & y & [= -> ->] & Hj).
  by eapply list_elem_of_lookup_2.
Qed.

(** Every move [calculateMoves] returns is valid when its turn comes. *)
Lemma calculateMoves_valid (source target : list K)
    (favoredToMove : option K) :
  NoDup source -> NoDup target ->
  valid source source (moves (calculateMoves source target favoredToMove)).
Proof.
  intros Hs Ht.
  assert (valid source source (moves (setMoves source target))) as Hset.
  { rewrite setMoves_eq. cbn [moves]. apply valid_app.
    pose proof (intermediate_perm source target Hs Ht) as Hperm.
    unfold intermediate in Hperm. rewrite setMoves_eq in Hperm.
    cbn [result] in Hperm. rewrite apply_moves_app in Hperm.
    assert (NoDup (apply_moves
                     (insert_of <$> inserted_items source target)
                     (apply_moves
                        (remove_of <$> removed_items source target) source)))
      as Hnd by (by rewrite Hperm).
    rewrite insert_phase_perm in Hnd.
    split; [|by apply insert_phase_valid].
    unfold removed_items.
    destruct (classify_perm (js_sort comparator (indexed source))
                (js_sort comparator (indexed target)) [] [])
      as (Mb & Ma & R & I & -> & Hb & Ha & Hk).
    cbn [fst snd app].
    rewrite js_sort_perm in Hb.
    assert (HndS : NoDup (Mb ++ R)) by (rewrite <- Hb; apply NoDup_indexed).
    apply NoDup_app in HndS as (HndM & Hdisj & HndR).
    assert (HR : js_sort sortByIndex R
                 = filter (fun it => it ∈ R) (indexed source)).
    { apply (sortByIndex_unique _ _ source).
      - apply NoDup_Permutation; [done|apply NoDup_filter, NoDup_indexed|].
        intros it. rewrite list_elem_of_filter, Hb, elem_of_app. tauto.
      - apply index_sorted_filter. rewrite indexed_from_0.
        apply indexed_from_sorted.
      - intros it Hit. by apply list_elem_of_filter in Hit as [_ ?]. }
    rewrite HR, indexed_from_0.
    apply (remove_phase_valid (fun it => it ∈ R) source [] source). auto. }
  unfold calculateMoves. fold (intermediate source target).
  destruct (deepEqual (intermediate source target) target); [done|].
  cbn [moves]. apply valid_app. split; [done|].
  assert (apply_moves (moves (setMoves source target)) source
          = intermediate source target) as ->.
  { unfold intermediate. by rewrite setMoves_eq. }
  pose proof (intermediate_perm source target Hs Ht) as Hperm.
  match goal with
  | |- context [if ?b then _ else _] => destruct b
  end; [destruct (_ <=? _)%nat|]; by apply calculateIndexChanges_valid.
Qed.

(** A valid move keeps a list free of duplicates so. *)
Lemma step_valid_NoDup (source l : list K) (m : Move.t K) :
  step_valid source l m -> NoDup l -> NoDup (Move.make m l).
Proof.
  destruct m as [x at_|x from to|x at_]; simpl.
  - intros [Hnin Hge] Hnd.
    rewrite <- (Z2Nat.id at_) by done.
    rewrite (make_insert_perm x (Z.to_nat at_) l). by apply NoDup_cons.
  - intros (Hge & Hl & _) Hnd.
    pose proof (make_move_perm x from to l Hge Hl) as Hp. simpl in Hp.
    by rewrite Hp.
  - intros (Hge & Hl & _) Hnd.
    rewrite <- (Z2Nat.id at_) by done. rewrite splice_nat. simpl.
    rewrite Nat.add_1_r, <- delete_take_drop.
    eapply sublist_NoDup; [exact Hnd|apply sublist_delete].
Qed.
(** An insertion is of a key of the target. *)
Definition of_target (target : list K) (m : Move.t K) : Prop :=
  match m with
  | Move.insert x _ => x ∈ target
  | _ => True
  end.

Lemma calculateMoves_of_target (source target : list K)
    (favoredToMove : option K) :
  NoDup source -> NoDup target ->
  Forall (of_target target)
    (moves (calculateMoves source target favoredToMove)).
Proof.
  intros Hs Ht.
  destruct (calculateMoves_shape source target favoredToMove Hs Ht)
    as (reorder & Hre & -> & _).
  cbn [moves]. rewrite setMoves_eq. cbn [moves].
  rewrite !Forall_app. split_and!.
  - apply Forall_fmap, Forall_true. by intros it.
  - apply Forall_fmap, Forall_forall. intros it Hit. simpl.
    unfold inserted_items in Hit. rewrite js_sort_perm in Hit.
    destruct (classify_perm (js_sort comparator (indexed source))
                (js_sort comparator (indexed target)) [] [])
      as (Mb & Ma & R & I & Hc & _ & Ha & _).
    rewrite Hc in Hit. simpl in Hit.
    assert (it ∈ indexed target) as Hin.
    { rewrite <- (js_sort_perm comparator (indexed target)), Ha.
      apply elem_of_app. by right. }
    apply elem_of_indexed in Hin. by eapply list_elem_of_lookup_2.
  - eapply Forall_impl; [exact Hre|]. by intros [| |].
Qed.
End reconciler_valid.

(** ** Making nodes *)

Section creating.
Import Node.
Context (toolkit : Toolkit).
Context (K : Description -> Prop).
Hypothesis HK : keyed_on toolkit K.

(** [extends w w' ps]: the diff went from [w] to [w'] adding the patches
    [ps]; the tree is as it was, and identities were only handed out. *)
Definition extends (w w' : World) (ps : list Patch) : Prop :=
  root w' = root w /\ patches w' = patches w ++ ps
  /\ (nextId w <= nextId w')%nat.

Lemma extends_refl (w : World) : extends w w [].
Proof. split_and!; [done|by rewrite app_nil_r|done]. Qed.

Lemma extends_trans (w w1 w2 : World) (ps1 ps2 : list Patch) :
  extends w w1 ps1 -> extends w1 w2 ps2 -> extends w w2 (ps1 ++ ps2).
Proof.
  intros (Hr & Hp & Hn) (Hr' & Hp' & Hn'). split_and!.
  - congruence.
  - by rewrite Hp', Hp, app_assoc.
  - lia.
Qed.

Lemma extends_addPatch (p : Patch) (w : World) :
  extends w (add_patches [p] w) [p].
Proof. done. Qed.

Lemma extends_add_patches (ps : list Patch) (w : World) :
  extends w (add_patches ps w) ps.
Proof. done. Qed.

(** What a node just made for [d] under the parent [p] is like; its
    identities are the ones handed out from [lo] up to [hi]. *)
Definition made (node : VirtualNode) (d : Description) (p : option nat)
    (lo hi : nat) : Prop :=
  well_formed toolkit node /\ renders toolkit node d
  /\ parentNode node = p /\ NoDup (ids node)
  /\ forall j, j ∈ ids node -> (lo <= j < hi)%nat.

Lemma set_parentNode_same (p : option nat) (n : VirtualNode) :
  parentNode n = p -> set_parentNode p n = n.
Proof. destruct n; simpl; by intros ->. Qed.

Lemma bind_Ok_inv {S A B} (m : M S A) (k : A -> M S B) (s s' : S) (b : B) :
  (m ≫= k) s = (s', Ok b) ->
  exists s1 a, m s = (s1, Ok a) /\ k a s1 = (s', Ok b).
Proof.
  unfold mbind, M_bind. destruct (m s) as [s1 [a|e]]; [|done].
  intros Hk. by exists s1, a.
Qed.

Lemma eff_keys_ext (ds ds' : list Description) :
  Forall2 (fun d d' => Description.key d = Description.key d') ds ds' ->
  eff_keys ds = eff_keys ds'.
Proof.
  unfold eff_keys. intros Hall.
  apply list_eq. intros i. rewrite !list_lookup_imap.
  destruct (ds !! i) as [d|] eqn:Hd; simpl.
  - destruct (Forall2_lookup_l _ _ _ _ _ Hall Hd) as (d' & -> & Hk).
    simpl. by rewrite Hk.
  - apply Forall2_length in Hall.
    apply lookup_ge_None in Hd. rewrite Hall in Hd.
    apply lookup_ge_None in Hd. by rewrite Hd.
Qed.

Lemma eff_keys_renders (l : list VirtualNode) (ds : list Description) :
  Forall2 (renders toolkit) l ds ->
  eff_keys (description <$> l) = eff_keys ds.
Proof.
  intros Hall. apply eff_keys_ext, Forall2_fmap_l.
  eapply Forall2_impl; [exact Hall|]. intros n d. apply renders_key.
Qed.

Lemma map_each_made (fuel : nat) (p : option nat) (l : list Description)
    (w w' : World) (nodes : list VirtualNode) :
  (forall d w w' node,
     d ∈ l ->
     Diff.createFromDescription toolkit fuel d p w = (w', Ok node) ->
     K d ->
     extends w w' [] /\ made node d p (nextId w) (nextId w')) ->
  Diff.map_each (fun child => Diff.createFromDescription toolkit fuel child p)
    l w = (w', Ok nodes) ->
  Forall K l ->
  extends w w' []
  /\ Forall2 (fun node d => made node d p (nextId w) (nextId w')) nodes l
  /\ NoDup (ids_of nodes).
Proof.
  revert w nodes. induction l as [|d l IH]; intros w nodes Hcreate Hm Hk.
  - injection Hm as <- <-. split_and!; [apply extends_refl|constructor..].
  - cbn [Diff.map_each] in Hm.
    apply bind_Ok_inv in Hm as (w1 & y & Hy & Hm).
    apply bind_Ok_inv in Hm as (w2 & ys & Hys & Hm).
    injection Hm as <- <-.
    apply Forall_cons in Hk as [Hkd Hkl].
    destruct (Hcreate d w w1 y) as [He Hmade]; [left|done..|].
    destruct (IH w1 ys) as (He' & Hall & Hnd); [|done..|].
    { intros d' wa wb node Hin. apply Hcreate. by right. }
    pose proof (extends_trans _ _ _ _ _ He He') as Hext.
    destruct He as (_ & _ & Hn), He' as (_ & _ & Hn').
    split_and!; [done| |].
    + constructor.
      * destruct Hmade as (? & ? & ? & ? & Hr). split_and!; [done..|].
        intros j Hj. specialize (Hr j Hj). lia.
      * eapply Forall2_impl; [exact Hall|]. intros node d'.
        intros (? & ? & ? & ? & Hr). split_and!; [done..|].
        intros j Hj. specialize (Hr j Hj). lia.
    + rewrite ids_of_cons. apply NoDup_app.
      destruct Hmade as (_ & _ & _ & Hndy & Hr). split_and!; [done| |done].
      intros j Hj (c & Hc & Hjc)%elem_of_ids_of.
      apply list_elem_of_lookup in Hc as (i & Hi).
      destruct (Forall2_lookup_l _ _ _ _ _ Hall Hi)
        as (d' & _ & (_ & _ & _ & _ & Hr')).
      specialize (Hr j Hj). specialize (Hr' j Hjc). lia.
Qed.

Lemma createFromDescription_made (fuel : nat) (d : Description)
    (p : option nat) (w w' : World) (node : VirtualNode) :
  Diff.createFromDescription toolkit fuel d p w = (w', Ok node) ->
  K d ->
  extends w w' [] /\ made node d p (nextId w) (nextId w').
Proof.
  revert d p w w' node. induction fuel as [|fuel IH];
    intros d p w w' node Hc Hk; [done|].
  cbn [Diff.createFromDescription] in Hc.
  destruct d as [name key f children|c key props children].
  - apply bind_Ok_inv in Hc as (w1 & i & Hi & Hc).
    injection Hi as <- <-.
    apply bind_Ok_inv in Hc as (w2 & nodes & Hn & Hc).
    injection Hc as <- <-.
    set (w1 := mkWorld (root w) (patches w) (S (nextId w)) (events w)) in *.
    assert (extends w w1 []) as He1.
    { split_and!; [done|by rewrite app_nil_r|simpl; lia]. }
    assert (exists l,
               extends w1 w2 []
               /\ kids (VirtualElement.new (nextId w)
                          (ElementDescription name key f children) p nodes)
                  = l
               /\ nodes = (fun _ => l) <$> children
               /\ Forall2 (fun node d =>
                             made node d (Some (nextId w)) (nextId w1)
                               (nextId w2))
                    l (default [] children)
               /\ NoDup (ids_of l)) as (l & He2 & Hkids & Hnodes & Hall & Hnd).
    { destruct children as [ds|].
      - apply bind_Ok_inv in Hn as (w3 & l & Hl & Hn). injection Hn as <- <-.
        pose proof (keyed_on_children toolkit K HK _ _ _ _ Hk) as Hkl.
        destruct (map_each_made fuel (Some (nextId w)) ds w1 w3 l)
          as (He & Hall & Hnd); [|done..|].
        { intros; by apply IH. }
        exists l. by split_and!.
      - injection Hn as <- <-. exists [].
        split_and!; first [done|apply extends_refl|constructor]. }
    split; [rewrite <- (app_nil_r []); by eapply extends_trans|].
    assert (Forall2 (renders toolkit) l (default [] children)) as Hren.
    { eapply Forall2_impl; [exact Hall|]. by intros ? ? (? & ? & _). }
    assert (renders toolkit
              (VirtualElement.new (nextId w)
                 (ElementDescription name key f children) p nodes)
              (ElementDescription name key f children)) as Hr.
    { apply renders_element. split_and!; [done|by left|].
      subst nodes. by destruct children. }
    destruct He2 as (_ & _ & Hn2). simpl in Hn2.
    assert (forall c, c ∈ l ->
              exists d', made c d' (Some (nextId w)) (nextId w1) (nextId w2))
      as Hmade.
    { intros c (i & Hi)%list_elem_of_lookup.
      destruct (Forall2_lookup_l _ _ _ _ _ Hall Hi) as (d' & _ & Hm).
      by exists d'. }
    split_and!.
    + apply well_formed_eq. rewrite Hkids. split.
      * split_and!; [exact Hr| | |done|done]; rewrite Hkids.
        -- apply Forall_forall. intros c Hc.
           by destruct (Hmade c Hc) as (d' & _ & _ & ? & _).
        -- rewrite (eff_keys_renders _ _ Hren).
           destruct children as [ds|]; [|constructor].
           by eapply (keyed_on_siblings toolkit K HK).
      * apply Forall_forall. intros c Hc.
        by destruct (Hmade c Hc) as (d' & ? & _).
    + exact Hr.
    + done.
    + rewrite ids_eq, Hkids. apply NoDup_cons. split; [|done].
      intros (c & Hc & Hj)%elem_of_ids_of.
      destruct (Hmade c Hc) as (d' & _ & _ & _ & _ & Hr').
      specialize (Hr' _ Hj). simpl in Hr'. lia.
    + intros j. rewrite ids_eq, Hkids.
      intros [->|(c & Hc & Hj)%elem_of_ids_of]%elem_of_cons; [simpl; lia|].
      destruct (Hmade c Hc) as (d' & _ & _ & _ & _ & Hr').
      specialize (Hr' _ Hj). simpl in Hr'. lia.
  - destruct (isRootClass toolkit c) eqn:Hroot; [done|].
    apply bind_Ok_inv in Hc as (w1 & i & Hi & Hc).
    injection Hi as <- <-.
    set (w1 := mkWorld (root w) (patches w) (S (nextId w)) (events w)) in *.
    apply bind_Ok_inv in Hc as (w2 & rendered & Hren & Hc).
    unfold Diff.Renderer_render, Diff.lift in Hren.
    injection Hren as <- Hren.
    set (d := ComponentDescription c key props children) in *.
    destruct rendered as [d'|].
    + apply bind_Ok_inv in Hc as (w2 & child & Hchild & Hc).
      destruct (IH d' (Some (nextId w)) w1 w2 child Hchild)
        as [(Hr2 & Hp2 & Hn2) (Hwf & Hrc & Hpc & Hndc & Hrange)].
      { by eapply (keyed_on_rendered toolkit K HK). }
      unfold Diff.invoke in Hc. cbn in Hc. injection Hc as <- <-.
      rewrite (set_parentNode_same _ _ Hpc).
      split; [split_and!; simpl in *; [congruence|congruence|lia]|].
      assert (renders toolkit
                (Component (nextId w) c (Description.key d) p d (Some child)
                   None None) d) as Hr.
      { cbn [renders]. split_and!; [by eexists _, _, _|by left|].
        subst d. cbn [render_of]. by rewrite Hren. }
      split_and!.
      * apply well_formed_eq. cbn [kids]. split; [|by repeat constructor].
        split_and!; [exact Hr|by repeat constructor| |left; by split; [eexists|]
                    |done].
        apply NoDup_singleton.
      * exact Hr.
      * done.
      * rewrite ids_eq. cbn [kids]. rewrite ids_of_cons.
        unfold ids_of at 1. simpl. rewrite app_nil_r.
        apply NoDup_cons. split; [|done].
        intros Hj. specialize (Hrange _ Hj). simpl in Hrange. lia.
      * intros j. rewrite ids_eq. cbn [kids]. rewrite ids_of_cons.
        unfold ids_of at 1. simpl. rewrite app_nil_r.
        intros [->|Hj]%elem_of_cons; [simpl in *; lia|].
        specialize (Hrange _ Hj). simpl in *. lia.
    + injection Hc as <- <-.
      split; [split_and!; simpl; [done|by rewrite app_nil_r|lia]|].
      assert (renders toolkit (Component.new (nextId w) c d p) d) as Hr.
      { cbn [renders Component.new]. split_and!; [by eexists _, _, _|by left|].
        subst d. cbn [render_of]. by rewrite Hren. }
      split_and!.
      * apply well_formed_eq. cbn [kids Component.new].
        split; [|constructor].
        split_and!; [exact Hr|constructor|constructor
                    |right; by split; [|eexists]|done].
      * exact Hr.
      * done.
      * repeat constructor. by intros ?%elem_of_nil.
      * intros j [->|?%elem_of_nil]%elem_of_cons; [simpl; lia|done].
Qed.
(** *** When making a node returns

    Making a node can only fail where a component is rendered: it may
    throw, may be a root class inside a tree, or may render without end,
    which the fuel stands for. *)

(** [renderable fuel d]: everything under [d] renders, no deeper than
    [fuel]. *)
Fixpoint renderable (fuel : nat) (d : Description) : Prop :=
  match fuel with
  | O => False
  | S fuel =>
      match d with
      | ElementDescription _ _ _ children =>
          Forall (renderable fuel) (default [] children)
      | ComponentDescription c _ p ch =>
          isRootClass toolkit c = false
          /\ match render toolkit c (default [] p) (default [] ch) with
             | Ok (Some d') => renderable fuel d'
             | Ok None => True
             | Throw _ => False
             end
      end
  end.

Lemma renderable_mono (fuel fuel' : nat) (d : Description) :
  (fuel <= fuel')%nat -> renderable fuel d -> renderable fuel' d.
Proof.
  revert fuel' d. induction fuel as [|fuel IH]; intros fuel' d Hle; [done|].
  destruct fuel' as [|fuel']; [lia|]. assert (fuel <= fuel')%nat by lia.
  destruct d as [n k f ch|c k p ch]; cbn [renderable].
  - intros Hd. eapply Forall_impl; [exact Hd|]. intros x. by apply IH.
  - intros [Hc Hr]. split; [done|].
    destruct (render toolkit c (default [] p) (default [] ch)) as [[d'|]|];
      [by apply IH|done..].
Qed.

Lemma map_each_returns {A B} (f : A -> M World B) (l : list A) (w : World) :
  Forall (fun x => forall w, exists w' y, f x w = (w', Ok y)) l ->
  exists w' ys, Diff.map_each f l w = (w', Ok ys).
Proof.
  intros Hl. revert w. induction Hl as [|x l Hx Hl IH]; intros w.
  - by eexists _, _.
  - destruct (Hx w) as (w1 & y & Hy). destruct (IH w1) as (w2 & ys & Hys).
    exists w2, (y :: ys). cbn [Diff.map_each].
    erewrite bind_ok by exact Hy. by erewrite bind_ok by exact Hys.
Qed.

Lemma createFromDescription_returns (fuel : nat) (d : Description)
    (p : option nat) (w : World) :
  renderable fuel d ->
  exists w' node,
    Diff.createFromDescription toolkit fuel d p w = (w', Ok node).
Proof.
  revert d p w. induction fuel as [|fuel IH]; intros d p w Hd; [done|].
  destruct d as [n k f ch|c k pr ch]; cbn [renderable] in Hd;
    cbn [Diff.createFromDescription].
  - unfold Diff.fresh. unfold mbind at 1, M_bind at 1.
    destruct ch as [l|].
    + simpl in Hd.
      destruct (map_each_returns
                  (fun child =>
                     Diff.createFromDescription toolkit fuel child
                       (Some (nextId w))) l
                  (mkWorld (root w) (patches w) (S (nextId w)) (events w)))
        as (w1 & ys & Hys).
      { eapply Forall_impl; [exact Hd|]. intros x Hx w0. by apply IH. }
      erewrite bind_ok; [|by erewrite bind_ok by exact Hys]. by eexists _, _.
    + by eexists _, _.
  - destruct Hd as [-> Hr]. unfold Diff.fresh.
    unfold mbind at 1, M_bind at 1.
    unfold Diff.Renderer_render, Diff.lift. unfold mbind at 1, M_bind at 1.
    destruct (render toolkit c (default [] pr) (default [] ch))
      as [[d'|]|]; [| |done].
    + destruct (IH d' (Some (nextId w))
                  (mkWorld (root w) (patches w) (S (nextId w)) (events w)) Hr)
        as (w1 & child & Hchild).
      erewrite bind_ok by exact Hchild.
      unfold Diff.invoke, Component.new, Component.appendChild, mbind, M_bind,
        get_state, set_this. cbn [this console]. by eexists _, _.
    + by eexists _, _.
Qed.
End creating.

(** ** The patches of a diff, applied *)

Section diffing.
Import Node.
Context (toolkit : Toolkit).
Context (K : Description -> Prop).
Hypothesis HK : keyed_on toolkit K.
Hypothesis Hpure : pure_on toolkit K.

(** A tree with distinct identities, all below [lo]. *)
Definition fits (T : VirtualNode) (lo : nat) : Prop :=
  NoDup (ids T) /\ forall j, j ∈ ids T -> (j < lo)%nat.

Lemma fits_mono (T : VirtualNode) (lo hi : nat) :
  fits T lo -> (lo <= hi)%nat -> fits T hi.
Proof. intros [? Hb] ?. split; [done|]. intros j Hj. specialize (Hb j Hj). lia. Qed.

Lemma At_NoDup (T : VirtualNode) (i : nat) (n : VirtualNode) :
  At T i n -> NoDup (ids T) -> NoDup (ids n).
Proof.
  intros Hat Hnd. destruct (At_ids_replace T i n n Hat) as (pre & suf & HT & _).
  rewrite HT in Hnd. apply NoDup_app in Hnd as (_ & _ & Hnd).
  by apply NoDup_app in Hnd as (? & _ & _).
Qed.

Lemma At_fits (T : VirtualNode) (i : nat) (n : VirtualNode) (lo : nat) :
  At T i n -> fits T lo -> fits n lo.
Proof.
  intros Hat [Hnd Hb]. split; [by eapply At_NoDup|].
  intros j Hj. apply Hb. by eapply At_ids.
Qed.

(** Replacing the node at a place by one whose new identities are fresh. *)
Lemma fits_replace (T : VirtualNode) (i : nat) (n x : VirtualNode)
    (lo hi : nat) :
  At T i n -> fits T lo -> id x = i -> NoDup (ids x) ->
  (forall j, j ∈ ids x -> j ∈ ids n \/ (lo <= j < hi)%nat) ->
  (lo <= hi)%nat ->
  At (Tree.replace i x T) i x /\ fits (Tree.replace i x T) hi.
Proof.
  intros Hat [Hnd Hb] Hid Hx Hnew Hle.
  assert (forall j, j ∈ ids x -> j ∈ ids n \/ j ∉ ids T) as Hfresh.
  { intros j Hj. destruct (Hnew j Hj) as [?|Hr]; [by left|right].
    intros Hin. specialize (Hb j Hin). lia. }
  split; [by apply (At_replace T i n x)|]. split.
  - by apply (NoDup_replace T i n x).
  - intros j Hj. apply (elem_of_ids_replace T i n x j Hat) in Hj as [Hj|Hj].
    + specialize (Hb j Hj). lia.
    + destruct (Hnew j Hj) as [Hjn|?]; [|lia].
      assert (j ∈ ids T) as HjT by (by eapply At_ids).
      specialize (Hb j HjT). lia.
Qed.

(** What making nodes and diffing children are assumed to do, for the
    methods that call them. *)
Definition create_ok
    (create : Description -> option nat -> M World VirtualNode) : Prop :=
  forall d p w w' node,
    create d p w = (w', Ok node) -> K d ->
    extends w w' [] /\ made toolkit node d p (nextId w) (nextId w').

(** [updated n n' d lo hi ps]: the patches [ps] turn the node [n], where it
    is in a tree, into [n'], which renders [d]. *)
Definition updated (n n' : VirtualNode) (d : Description) (lo hi : nat)
    (ps : list Patch) : Prop :=
  id n' = id n /\ parentNode n' = parentNode n
  /\ renders toolkit n' d /\ well_formed toolkit n'
  /\ NoDup (ids n')
  /\ (forall j, j ∈ ids n' -> j ∈ ids n \/ (lo <= j < hi)%nat)
  /\ forall T, At T (id n) n -> fits T lo ->
               runs ps T (Tree.replace (id n) n' T).

Definition patches_ok
    (cp : VirtualNode -> Description -> M World unit) : Prop :=
  forall n d w w',
    cp n d w = (w', Ok tt) ->
    well_formed toolkit n ->
    Description.isCompatible (description n) d = true ->
    K d -> fits n (nextId w) ->
    exists ps n',
      extends w w' ps /\ updated n n' d (nextId w) (nextId w') ps.

(** What becomes of a child: [c'] is in the place of [c], and renders
    [d]. *)
Definition slot (c c' : VirtualNode) (d : Description) (lo hi : nat)
    : Prop :=
  renders toolkit c' d /\ well_formed toolkit c'
  /\ parentNode c' = parentNode c /\ NoDup (ids c')
  /\ forall j, j ∈ ids c' -> j ∈ ids c \/ (lo <= j < hi)%nat.

Lemma updated_slot (n n' : VirtualNode) (d : Description) (lo hi : nat)
    (ps : list Patch) :
  updated n n' d lo hi ps -> slot n n' d lo hi.
Proof. intros (_ & ? & ? & ? & ? & ? & _). by split_and!. Qed.

Lemma well_formed_renders (n : VirtualNode) :
  well_formed toolkit n -> renders toolkit n (description n).
Proof. by intros [(? & _) _]%well_formed_eq. Qed.

(** That they return, for the descriptions with [P]. *)
Definition create_returns (P : Description -> Prop)
    (create : Description -> option nat -> M World VirtualNode) : Prop :=
  forall d p w, P d -> exists w' node, create d p w = (w', Ok node).

Definition patches_return (P : Description -> Prop)
    (cp : VirtualNode -> Description -> M World unit) : Prop :=
  forall n d w,
    P d ->
    well_formed toolkit n ->
    Description.isCompatible (description n) d = true ->
    K d -> fits n (nextId w) ->
    exists w', cp n d w = (w', Ok tt).

Section methods.
Context (create : Description -> option nat -> M World VirtualNode).
Context (cp : VirtualNode -> Description -> M World unit).
Hypothesis Hcreate : create_ok create.
Hypothesis Hcp : patches_ok cp.

(** The kids of an element with one of them changed. *)
Lemma replace_child (i : nat) (k : option Key) (p : option nat)
    (d0 : Description) (l1 l2 : list VirtualNode) (c c' : VirtualNode) :
  NoDup (ids (VirtualElement i k p d0 (Some (l1 ++ c :: l2)))) ->
  id c' = id c ->
  Tree.replace (id c) c' (VirtualElement i k p d0 (Some (l1 ++ c :: l2)))
  = VirtualElement i k p d0 (Some (l1 ++ c' :: l2)).
Proof.
  intros Hnd Hid.
  set (P := VirtualElement i k p d0 (Some (l1 ++ c :: l2))).
  destruct (NoDup_ids_kids P l1 l2 c Hnd eq_refl) as [_ Hd].
  destruct (Hd (id c) (id_in_ids c)) as (Hne & Hn1 & Hn2).
  destruct (replace_kids P l1 l2 c (id c) c' eq_refl Hne Hn1 Hn2)
    as [-> Hl].
  subst P. cbn [map_kids]. cbn [kids] in Hl. rewrite Hl.
  by rewrite (replace_eq (id c) c' c), Nat.eqb_refl.
Qed.

Lemma elementChildPatches_ok (c : VirtualNode) (d : Description)
    (parent : VirtualNode) (w w' : World) :
  Diff.elementChildPatches create cp c (Some d) parent w = (w', Ok tt) ->
  well_formed toolkit c -> K d -> fits c (nextId w) ->
  parentNode c = Some (id parent) ->
  exists ps c',
    extends w w' ps /\ slot c c' d (nextId w) (nextId w')
    /\ forall T k p d0 l1 l2,
         At T (id parent)
           (VirtualElement (id parent) k p d0 (Some (l1 ++ c :: l2))) ->
         fits T (nextId w) ->
         runs ps T
           (Tree.replace (id parent)
              (VirtualElement (id parent) k p d0 (Some (l1 ++ c' :: l2))) T).
Proof.
  intros Hrun Hwf Hk Hfit Hpar. unfold Diff.elementChildPatches in Hrun.
  destruct (Description.isCompatible (description c) d) eqn:Hcompat.
  - destruct (Diff.deepEqual (description c) d) eqn:Heq.
    + injection Hrun as <-. exists [], c.
      split; [apply extends_refl|]. split.
      * destruct Hfit as [Hnd Hb]. split_and!; [|done..|by left].
        eapply (renders_deepEqual_on toolkit K); [done|done|done|by apply well_formed_renders|done].
      * intros T k p d0 l1 l2 Hat _.
        rewrite (replace_same _ _ _ Hat). apply runs_nil.
    + destruct (Hcp c d w w' Hrun Hwf Hcompat Hk Hfit)
        as (ps & c' & Hext & Hup).
      exists ps, c'. split; [done|]. split; [by eapply updated_slot|].
      intros T k p d0 l1 l2 Hat HT.
      destruct Hup as (Hid & _ & _ & _ & _ & _ & Hruns).
      set (P := VirtualElement (id parent) k p d0 (Some (l1 ++ c :: l2))) in *.
      assert (At P (id c) c) as Hc.
      { apply (At_child P c l1 l2); [|done]. eapply At_NoDup; [done|apply HT]. }
      specialize (Hruns T (At_trans _ _ _ _ _ Hat Hc) HT).
      rewrite (At_replace_inner T (id parent) P (id c) c' Hat) in Hruns
        by (eapply At_ids; [exact Hc|apply id_in_ids]).
      subst P. rewrite replace_child in Hruns; [done| |done].
      eapply At_NoDup; [done|apply HT].
  - apply bind_Ok_inv in Hrun as (w1 & node & Hnode & Hrun).
    injection Hrun as <-.
    destruct (Hcreate d (Some (id parent)) w w1 node Hnode Hk)
      as [(Hr & Hp & Hn) (Hwfn & Hrn & Hpn & Hndn & Hrange)].
    exists [replaceChildNode c node parent], node. split_and!.
    + split_and!; simpl; [done|by rewrite Hp, app_nil_r|lia].
    + split_and!; [done|done|congruence|done|].
      intros j Hj. right. auto.
    + intros T k p d0 l1 l2 Hat HT.
      set (P := VirtualElement (id parent) k p d0 (Some (l1 ++ c :: l2))) in *.
      assert (NoDup (ids P)) as HndP by (eapply At_NoDup; [done|apply HT]).
      pose proof (runs_replaceChildNode c node parent T (id parent) k p d0
                    (l1 ++ c :: l2) (length l1) c Hat) as Hruns.
      rewrite (set_parentNode_same _ _ Hpn) in Hruns.
      rewrite splice_nat, take_app_length in Hruns.
      rewrite (cons_middle c l1 l2), app_assoc in Hruns.
      rewrite drop_app_length' in Hruns by (rewrite length_app; simpl; lia).
      rewrite <- app_assoc, <- cons_middle in Hruns.
      apply Hruns; [|by rewrite list_lookup_middle|done].
      apply NoDup_ids_of_id. by apply NoDup_kids in HndP.
Qed.

Lemma swap_kid (i : nat) (k : option Key) (p : option nat)
    (d0 : Description) (l1 l2 : list VirtualNode) (c c' : VirtualNode)
    (lo hi : nat) :
  fits (VirtualElement i k p d0 (Some (l1 ++ c :: l2))) lo ->
  NoDup (ids c') ->
  (forall j, j ∈ ids c' -> j ∈ ids c \/ (lo <= j < hi)%nat) ->
  NoDup (ids (VirtualElement i k p d0 (Some (l1 ++ c' :: l2))))
  /\ forall j,
       j ∈ ids (VirtualElement i k p d0 (Some (l1 ++ c' :: l2))) ->
       j ∈ ids (VirtualElement i k p d0 (Some (l1 ++ c :: l2)))
       \/ (lo <= j < hi)%nat.
Proof.
  intros [Hnd Hb] Hc' Hnew.
  assert (forall x, ids (VirtualElement i k p d0 (Some (l1 ++ x :: l2)))
                    = i :: ids_of l1 ++ ids x ++ ids_of l2) as Hids.
  { intros x. rewrite ids_eq. cbn [kids id].
    by rewrite ids_of_app, ids_of_cons. }
  rewrite !Hids in *. clear Hids.
  assert (forall j, j ∈ ids c' ->
            j ∉ i :: ids_of l1 ++ ids_of l2) as Hfresh.
  { intros j Hj. destruct (Hnew j Hj) as [Hjc|Hr].
    - apply NoDup_cons in Hnd as [Hi Hnd].
      apply NoDup_app in Hnd as (_ & Hd1 & Hnd).
      apply NoDup_app in Hnd as (_ & Hd2 & _).
      rewrite not_elem_of_cons, not_elem_of_app. split_and!.
      + intros ->. apply Hi. rewrite !elem_of_app. auto.
      + intros Hj1. apply (Hd1 j Hj1). rewrite elem_of_app. auto.
      + by apply Hd2.
    - intros Hin. assert (j < lo)%nat; [|lia]. apply Hb.
      rewrite elem_of_cons, elem_of_app in Hin.
      rewrite elem_of_cons, !elem_of_app. tauto. }
  split.
  - apply NoDup_cons in Hnd as [Hi Hnd].
    apply NoDup_app in Hnd as (Hl1 & Hd1 & Hnd).
    apply NoDup_app in Hnd as (_ & Hd2 & Hl2).
    apply NoDup_cons. split.
    + rewrite !elem_of_app. intros [?|[Hic|?]].
      * apply Hi. rewrite !elem_of_app. auto.
      * apply (Hfresh i Hic). left.
      * apply Hi. rewrite !elem_of_app. auto.
    + apply NoDup_app. split_and!; [done| |].
      * intros j Hj1. rewrite elem_of_app. intros [Hjc|Hj2].
        -- apply (Hfresh j Hjc). right. apply elem_of_app. by left.
        -- apply (Hd1 j Hj1). rewrite elem_of_app. auto.
      * apply NoDup_app. split_and!; [done| |done].
        intros j Hjc Hj2. apply (Hfresh j Hjc). right.
        apply elem_of_app. by right.
  - intros j. rewrite !elem_of_cons, !elem_of_app.
    intros [?|[?|[Hjc|?]]]; auto.
    destruct (Hnew j Hjc); auto.
Qed.

(** The loop over the children of an element after the moves: each child
    that was not just made is diffed against the description of its
    place. *)
Definition item_pre (created : list VirtualNode) (parent : VirtualNode)
    (c : VirtualNode) (d : Description) : Prop :=
  well_formed toolkit c /\ parentNode c = Some (id parent) /\ K d
  /\ (existsb (same c) created = true -> renders toolkit c d).

Lemma children_loop (created : list VirtualNode) (tds : list Description)
    (parent : VirtualNode) (rest : list VirtualNode)
    (ds : list Description) (n0 : nat) (w w' : World) :
  for_each
    (fun '(i, child) =>
       if existsb (same child) created then mret tt
       else Diff.elementChildPatches create cp child (tds !! i) parent)
    (imap (fun i child => ((n0 + i)%nat, child)) rest) w = (w', Ok tt) ->
  (forall i d, ds !! i = Some d -> tds !! (n0 + i)%nat = Some d) ->
  Forall2 (item_pre created parent) rest ds ->
  NoDup (ids_of rest) -> (forall j, j ∈ ids_of rest -> (j < nextId w)%nat) ->
  exists ps rest',
    extends w w' ps
    /\ Forall2 (fun c' d =>
                  renders toolkit c' d /\ well_formed toolkit c'
                  /\ parentNode c' = Some (id parent)) rest' ds
    /\ NoDup (ids_of rest')
    /\ (forall j, j ∈ ids_of rest' ->
                  j ∈ ids_of rest \/ (nextId w <= j < nextId w')%nat)
    /\ forall T k p d0 done,
         At T (id parent)
           (VirtualElement (id parent) k p d0 (Some (done ++ rest))) ->
         fits T (nextId w) ->
         runs ps T
           (Tree.replace (id parent)
              (VirtualElement (id parent) k p d0 (Some (done ++ rest'))) T).
Proof.
  intros Hrun Htds Hpre. revert n0 w Hrun Htds.
  induction Hpre as [|c d rest ds Hc Hrest IH]; intros n0 w Hrun Htds Hnd Hb.
  - injection Hrun as <-. exists [], []. split_and!;
      [apply extends_refl|constructor|constructor|by intros ? ?%elem_of_nil|].
    intros T k p d0 done Hat _. rewrite (replace_same _ _ _ Hat).
    apply runs_nil.
  - rewrite imap_cons in Hrun. cbn [for_each] in Hrun.
    apply bind_Ok_inv in Hrun as (w1 & [] & Hbody & Hrun).
    pose proof (Htds 0%nat d eq_refl) as Htd.
    rewrite Htd in Hbody. clear Htd.
    rewrite ids_of_cons in Hnd, Hb.
    apply NoDup_app in Hnd as (Hndc & Hdisj & Hndr).
    destruct Hc as (Hwf & Hpar & Hk & Hcreated).
    assert (exists ps1 c',
               extends w w1 ps1 /\ slot c c' d (nextId w) (nextId w1)
               /\ forall T k p d0 l1 l2,
                    At T (id parent)
                      (VirtualElement (id parent) k p d0
                         (Some (l1 ++ c :: l2))) ->
                    fits T (nextId w) ->
                    runs ps1 T
                      (Tree.replace (id parent)
                         (VirtualElement (id parent) k p d0
                            (Some (l1 ++ c' :: l2))) T))
      as (ps1 & c' & He1 & Hslot & Hruns1).
    { destruct (existsb (same c) created) eqn:Hex.
      - injection Hbody as <-. exists [], c. split; [apply extends_refl|].
        split; [split_and!; [auto|done|done|done|by left]|].
        intros T k p d0 l1 l2 Hat _. rewrite (replace_same _ _ _ Hat).
        apply runs_nil.
      - apply (elementChildPatches_ok c d parent w w1 Hbody); [done..| |done].
        split; [done|]. intros j Hj. apply Hb, elem_of_app. by left. }
    destruct He1 as (Hr1 & Hp1 & Hn1).
    destruct (IH (S n0) w1) as (ps2 & rest' & He2 & Hall & Hndr' & Hbr & Hruns2).
    { erewrite imap_ext; [exact Hrun|]. intros i x _. simpl. f_equal. lia. }
    { intros i d' Hd'. rewrite <- (Htds (S i) d' Hd'). f_equal. lia. }
    { done. }
    { intros j Hj. assert (j < nextId w)%nat; [|lia].
      apply Hb, elem_of_app. by right. }
    destruct Hslot as (Hrc' & Hwfc' & Hpc' & Hndc' & Hbc').
    destruct He2 as (Hr2 & Hp2 & Hn2).
    exists (ps1 ++ ps2), (c' :: rest'). split_and!.
    + split_and!; [congruence|by rewrite Hp2, Hp1, app_assoc|lia].
    + constructor; [|done]. split_and!; [done..|congruence].
    + rewrite ids_of_cons. apply NoDup_app. split_and!; [done| |done].
      intros j Hjc Hjr.
      destruct (Hbc' j Hjc) as [Hjc0|?], (Hbr j Hjr) as [Hjr0|?]; try lia.
      * by apply (Hdisj j).
      * assert (j < nextId w)%nat; [|lia]. apply Hb, elem_of_app. by left.
      * assert (j < nextId w)%nat; [|lia]. apply Hb, elem_of_app. by right.
    + intros j. rewrite !ids_of_cons, !elem_of_app. intros [Hjc|Hjr].
      * destruct (Hbc' j Hjc); [auto|right; lia].
      * destruct (Hbr j Hjr); [auto|right; lia].
    + intros T k p d0 done Hat HT.
      set (P := VirtualElement (id parent) k p d0 (Some (done ++ c :: rest))).
      set (P1 := VirtualElement (id parent) k p d0 (Some (done ++ c' :: rest))).
      destruct (swap_kid (id parent) k p d0 done rest c c' (nextId w)
                  (nextId w1)) as [HndP1 HbP1]; [by eapply At_fits|done..|].
      destruct (fits_replace T (id parent) P P1 (nextId w) (nextId w1))
        as [Hat1 HT1]; [done..|].
      eapply runs_app; [by apply Hruns1|].
      specialize (Hruns2 (Tree.replace (id parent) P1 T) k p d0 (done ++ [c'])).
      rewrite <- !app_assoc in Hruns2. simpl in Hruns2.
      rewrite (replace_replace T (id parent) P P1) in Hruns2 by done.
      by apply Hruns2.
Qed.
Section returns.
Context (P : Description -> Prop).
Hypothesis Hcreate_returns : create_returns P create.
Hypothesis Hcp_returns : patches_return P cp.

Lemma elementChildPatches_returns (c : VirtualNode) (d : Description)
    (parent : VirtualNode) (w : World) :
  P d -> well_formed toolkit c -> K d -> fits c (nextId w) ->
  exists w',
    Diff.elementChildPatches create cp c (Some d) parent w = (w', Ok tt).
Proof.
  intros HP Hwf Hk Hfit. unfold Diff.elementChildPatches.
  destruct (Description.isCompatible (description c) d) eqn:Hcompat.
  - destruct (Diff.deepEqual (description c) d); [by eexists|].
    by apply Hcp_returns.
  - destruct (Hcreate_returns d (Some (id parent)) w HP) as (w1 & node & Hn).
    erewrite bind_ok by exact Hn. by eexists.
Qed.

Lemma children_loop_returns (created : list VirtualNode)
    (tds : list Description) (parent : VirtualNode)
    (rest : list VirtualNode) (ds : list Description) (n0 : nat)
    (w : World) :
  (forall i d, ds !! i = Some d -> tds !! (n0 + i)%nat = Some d) ->
  Forall2 (item_pre created parent) rest ds ->
  Forall P ds ->
  NoDup (ids_of rest) -> (forall j, j ∈ ids_of rest -> (j < nextId w)%nat) ->
  exists w',
    for_each
      (fun '(i, child) =>
         if existsb (same child) created then mret tt
         else Diff.elementChildPatches create cp child (tds !! i) parent)
      (imap (fun i child => ((n0 + i)%nat, child)) rest) w = (w', Ok tt).
Proof.
  intros Htds Hpre. revert n0 w Htds.
  induction Hpre as [|c d rest ds Hc Hrest IH]; intros n0 w Htds HP Hnd Hb.
  - by eexists.
  - rewrite imap_cons. cbn [for_each].
    apply Forall_cons in HP as [HPd HP].
    rewrite ids_of_cons in Hnd, Hb.
    apply NoDup_app in Hnd as (Hndc & _ & Hndr).
    destruct Hc as (Hwf & Hpar & Hk & _).
    rewrite (Htds 0%nat d eq_refl).
    assert (exists w1,
              (if existsb (same c) created then mret tt
               else Diff.elementChildPatches create cp c (Some d) parent) w
              = (w1, Ok tt) /\ (nextId w <= nextId w1)%nat)
      as (w1 & Hbody & Hle).
    { destruct (existsb (same c) created); [by eexists|].
      assert (fits c (nextId w)) as Hfit.
      { split; [done|]. intros j Hj. apply Hb, elem_of_app. by left. }
      destruct (elementChildPatches_returns c d parent w HPd Hwf Hk Hfit)
        as [w1 Hw1].
      exists w1. split; [done|].
      destruct (elementChildPatches_ok c d parent w w1 Hw1 Hwf Hk Hfit Hpar)
        as (ps & c' & (_ & _ & ?) & _). done. }
    erewrite bind_ok by exact Hbody.
    destruct (IH (S n0) w1) as [w' Hw']; [|done|done| |].
    { intros i d' Hd'. rewrite <- (Htds (S i) d' Hd'). f_equal. lia. }
    { intros j Hj. assert (j < nextId w)%nat; [|lia].
      apply Hb, elem_of_app. by right. }
    exists w'. erewrite imap_ext; [exact Hw'|].
    intros i x _. simpl. f_equal. lia.
Qed.
End returns.
End methods.
End diffing.

(** ** Replaying the moves on the children *)

Section list_facts.
Import Node.

Lemma ids_of_middle (a : list VirtualNode) (x : VirtualNode)
    (b : list VirtualNode) :
  ids_of (a ++ x :: b) ≡ₚ ids x ++ ids_of (a ++ b).
Proof.
  rewrite !ids_of_app, ids_of_cons. apply Permutation_app_swap_app.
Qed.

Lemma ids_of_insert (s : nat) (x : VirtualNode) (l : list VirtualNode) :
  ids_of (take s l ++ x :: drop s l) ≡ₚ ids x ++ ids_of l.
Proof. by rewrite ids_of_middle, take_drop. Qed.

Lemma ids_of_delete (j : nat) (x : VirtualNode) (l : list VirtualNode) :
  l !! j = Some x ->
  ids_of l ≡ₚ ids x ++ ids_of (take j l ++ drop (S j) l).
Proof.
  intros Hj. rewrite <- (take_drop_middle l j x Hj) at 1.
  apply ids_of_middle.
Qed.

Lemma ids_of_lookup (l : list VirtualNode) (a : nat) (x : VirtualNode)
    (j : nat) :
  l !! a = Some x -> j ∈ ids x -> j ∈ ids_of l.
Proof.
  intros Ha Hj. apply elem_of_ids_of. exists x. split; [|done].
  by eapply list_elem_of_lookup_2.
Qed.

Lemma ids_of_disjoint (l : list VirtualNode) (a b : nat)
    (x y : VirtualNode) (j : nat) :
  NoDup (ids_of l) -> l !! a = Some x -> l !! b = Some y -> a <> b ->
  j ∈ ids x -> j ∉ ids y.
Proof.
  intros Hnd Ha Hb Hab Hjx Hjy.
  rewrite (ids_of_delete a x l Ha) in Hnd.
  apply NoDup_app in Hnd as (_ & Hd & _). apply (Hd j Hjx).
  apply elem_of_ids_of. exists y. split; [|done].
  apply list_elem_of_lookup.
  destruct (decide (b < a)%nat).
  - exists b. rewrite lookup_app_l by (rewrite length_take; apply lookup_lt_Some in Ha; lia).
    by rewrite lookup_take_lt.
  - exists (b - 1)%nat.
    apply lookup_lt_Some in Ha as Hla.
    rewrite lookup_app_r by (rewrite length_take; lia).
    rewrite length_take, lookup_drop. rewrite <- Hb. f_equal. lia.
Qed.

Lemma splice_remove {A} (j : nat) (l : list A) :
  splice (Z.of_nat j) 1 [] l = take j l ++ drop (S j) l.
Proof. rewrite splice_nat. simpl. by rewrite Nat.add_1_r. Qed.

Lemma splice_insert {A} (at_ : Z) (x : A) (l : list A) :
  exists s, splice at_ 0 [x] l = take s l ++ x :: drop s l.
Proof.
  unfold splice. eexists. by rewrite Nat.add_0_r.
Qed.

Lemma splice_start_length (n m : nat) (start : Z) :
  n = m -> splice_start n start = splice_start m start.
Proof. by intros ->. Qed.

(** The same [splice] on two lists in step. *)
Lemma Forall2_splice {A B} (P : A -> B -> Prop) (start : Z) (n : nat)
    (xs : list A) (ys : list B) (l : list A) (k : list B) :
  Forall2 P l k -> Forall2 P xs ys ->
  Forall2 P (splice start n xs l) (splice start n ys k).
Proof.
  intros Hlk Hxy. unfold splice.
  rewrite (Forall2_length _ _ _ Hlk).
  apply Forall2_app; [by apply Forall2_take|].
  apply Forall2_app; [done|by apply Forall2_drop].
Qed.
End list_facts.

Section replay.
Import Node Reconciler.
Context (toolkit : Toolkit).
Context (K : Description -> Prop).
Context (create : Description -> option nat -> M World VirtualNode).
Hypothesis Hcreate : create_ok toolkit K create.
Context (cs : list VirtualNode) (tds : list Description).
Context (parent : VirtualNode) (lo0 : nat).

(** The keys of the children an element has: [key || index] of their
    descriptions. *)
Definition node_keys (l : list VirtualNode) : list Key :=
  imap (fun index node =>
          Diff.key_or_index (Description.key (description node)) index) l.

Hypothesis Hfrom : NoDup (node_keys cs).
Hypothesis Hto : NoDup (eff_keys tds).
Hypothesis Hwf :
  Forall (fun c => well_formed toolkit c /\ parentNode c = Some (id parent))
    cs.
Hypothesis Hnd : NoDup (ids_of cs).
Hypothesis Hlo : forall j, j ∈ ids_of cs -> (j < lo0)%nat.
Hypothesis Hkeys : Forall K tds.

(** The node a key stands for: the source node of that key, or the node
    made for it. *)
Definition node_of (m : list (Key * VirtualNode)) (k : Key)
    : option VirtualNode :=
  if 0 <=? indexOf k (node_keys cs)
  then cs !! Z.to_nat (indexOf k (node_keys cs))
  else Diff.map_get k m.

Lemma indexOf_absent (k : Key) (l : list Key) :
  k ∉ l -> indexOf k l = -1.
Proof.
  induction l as [|x l IH]; [done|].
  rewrite not_elem_of_cons. intros [Hne Hnin]. simpl.
  rewrite bool_decide_eq_false_2 by done. by rewrite IH.
Qed.

Lemma indexOf_lookup_Key (k : Key) (l : list Key) (j : nat) :
  NoDup l -> l !! j = Some k -> indexOf k l = Z.of_nat j.
Proof.
  intros Hn Hj. destruct (indexOf_elem k l) as [Hge Hl].
  { by eapply list_elem_of_lookup_2. }
  assert (Z.to_nat (indexOf k l) = j) by (by eapply NoDup_lookup). lia.
Qed.

Lemma node_of_source (m : list (Key * VirtualNode)) (k : Key) :
  k ∈ node_keys cs ->
  exists j node,
    node_keys cs !! j = Some k /\ cs !! j = Some node
    /\ indexOf k (node_keys cs) = Z.of_nat j
    /\ node_of m k = Some node.
Proof.
  intros Hin. destruct (indexOf_elem k _ Hin) as [Hge Hl].
  exists (Z.to_nat (indexOf k (node_keys cs))).
  assert (forall j, node_keys cs !! j
                    = (fun node =>
                         Diff.key_or_index (Description.key (description node))
                           j) <$> cs !! j) as Hlk.
  { intros j. unfold node_keys. apply list_lookup_imap. }
  pose proof Hl as Hl'. rewrite Hlk in Hl'.
  destruct (cs !! Z.to_nat (indexOf k (node_keys cs))) as [node|] eqn:Hc;
    [|done].
  exists node. split_and!; [done|done|lia|].
  unfold node_of. destruct (Z.leb_spec 0 (indexOf k (node_keys cs))); [done|lia].
Qed.

Lemma node_of_made (m : list (Key * VirtualNode)) (k : Key) :
  k ∉ node_keys cs -> node_of m k = Diff.map_get k m.
Proof. intros Hnin. unfold node_of. by rewrite indexOf_absent. Qed.

Lemma map_get_Some (k : Key) (m : list (Key * VirtualNode))
    (node : VirtualNode) :
  Diff.map_get k m = Some node -> (k, node) ∈ m.
Proof.
  induction m as [|[k' v] m IH]; [done|]. simpl.
  destruct (decide (k' = k)) as [->|Hne].
  - rewrite bool_decide_eq_true_2 by done. intros [= ->]. left.
  - rewrite bool_decide_eq_false_2 by done. intros ?. right. auto.
Qed.

Lemma map_get_None (k : Key) (m : list (Key * VirtualNode)) :
  k ∉ m.*1 -> Diff.map_get k m = None.
Proof.
  induction m as [|[k' v] m IH]; [done|].
  rewrite fmap_cons, not_elem_of_cons. intros [Hne Hnin]. simpl.
  rewrite bool_decide_eq_false_2 by done. auto.
Qed.

(** What is known of the node made for a key. *)
Definition made_for (hi : nat) (kn : Key * VirtualNode) : Prop :=
  (kn.1 ∉ node_keys cs)
  /\ exists i d lo hi',
       eff_keys tds !! i = Some kn.1 /\ tds !! i = Some d
       /\ made toolkit kn.2 d (Some (id parent)) lo hi'
       /\ (lo0 <= lo)%nat /\ (hi' <= hi)%nat.

(** What the loop over the moves keeps true: [l] is the key list the moves
    made so far lead to. *)
Record Inv (r : Diff.Replay) (l : list Key) (hi : nat) : Prop := {
  inv_nodes :
    Forall2 (fun node k => node_of (Diff.createdNodesMap r) k = Some node)
      (Diff.replayed r) l;
  inv_nodup : NoDup l;
  inv_map : Forall (made_for hi) (Diff.createdNodesMap r);
  inv_map_keys : forall k, k ∈ (Diff.createdNodesMap r).*1 -> k ∈ l;
  inv_created :
    forall node, node ∈ Diff.created r
                 <-> node ∈ (Diff.createdNodesMap r).*2;
  inv_ids : NoDup (ids_of (Diff.replayed r));
  inv_src :
    forall j, j ∈ ids_of (Diff.replayed r) ->
              j ∈ ids_of cs \/ (lo0 <= j < hi)%nat
}.

Lemma made_for_mono (hi hi' : nat) (kn : Key * VirtualNode) :
  (hi <= hi')%nat -> made_for hi kn -> made_for hi' kn.
Proof.
  intros Hle (Hn & i & d & lo & h & ? & ? & ? & ? & ?).
  split; [done|]. exists i, d, lo, h. split_and!; [done..|lia].
Qed.

Lemma Inv_mono (r : Diff.Replay) (l : list Key) (hi hi' : nat) :
  (hi <= hi')%nat -> Inv r l hi -> Inv r l hi'.
Proof.
  intros Hle [H1 H2 H3 H4 H5 H6 H7]. split; try done.
  - eapply Forall_impl; [exact H3|]. intros kn. by apply made_for_mono.
  - intros j Hj. destruct (H7 j Hj); [auto|right; lia].
Qed.

(** A node a key of the list stands for: where it comes from. *)
Lemma node_of_info (r : Diff.Replay) (l : list Key) (hi : nat) (k : Key)
    (node : VirtualNode) :
  Inv r l hi -> node_of (Diff.createdNodesMap r) k = Some node ->
  well_formed toolkit node /\ parentNode node = Some (id parent)
  /\ NoDup (ids node)
  /\ ((exists j, node_keys cs !! j = Some k /\ cs !! j = Some node)
      \/ ((k ∉ node_keys cs) /\ made_for hi (k, node))).
Proof.
  intros HI Hn.
  destruct (decide (k ∈ node_keys cs)) as [Hin|Hnin].
  - destruct (node_of_source (Diff.createdNodesMap r) k Hin)
      as (j & node' & Hj & Hc & _ & Hn').
    assert (node' = node) as -> by congruence.
    rewrite Forall_forall in Hwf.
    destruct (Hwf node) as [? ?]; [by eapply list_elem_of_lookup_2|].
    split_and!; [done..| |left; eauto].
    rewrite (ids_of_delete j node cs Hc) in Hnd.
    by apply NoDup_app in Hnd as (? & _ & _).
  - rewrite node_of_made in Hn by done. apply map_get_Some in Hn.
    pose proof (inv_map _ _ _ HI) as Hm. rewrite Forall_forall in Hm.
    specialize (Hm _ Hn). pose proof Hm as Hm'.
    destruct Hm' as (_ & i & d & lo & h & _ & _ & Hmade & _).
    destruct Hmade as (? & _ & ? & ? & _).
    split_and!; [done..|]. right. by split.
Qed.

Lemma made_ids (hi : nat) (k : Key) (node : VirtualNode) (j : nat) :
  made_for hi (k, node) -> j ∈ ids node -> (lo0 <= j < hi)%nat.
Proof.
  intros (_ & i & d & lo & h & _ & _ & Hmade & ? & ?) Hj.
  destruct Hmade as (_ & _ & _ & _ & Hr). specialize (Hr j Hj). lia.
Qed.

Context (ch : option (list VirtualNode)).
Hypothesis Hch : default [] ch = cs.

(** The patches made so far, applied to the tree the element is in, leave
    the element with the children the replay has. *)
Definition Runs (r : Diff.Replay) (ps : list Patch) : Prop :=
  exists cur,
    default [] cur = Diff.replayed r
    /\ (ps = [] -> cur = ch)
    /\ forall T0 k pp d0,
         At T0 (id parent) (VirtualElement (id parent) k pp d0 ch) ->
         fits T0 lo0 ->
         runs ps T0
           (Tree.replace (id parent)
              (VirtualElement (id parent) k pp d0 cur) T0).

Lemma kids_element (i : nat) (k : option Key) (pp : option nat)
    (d0 : Description) (cur : option (list VirtualNode)) :
  kids (VirtualElement i k pp d0 cur) = default [] cur.
Proof. by destruct cur. Qed.

Lemma ids_element (i : nat) (k : option Key) (pp : option nat)
    (d0 : Description) (cur : option (list VirtualNode)) :
  ids (VirtualElement i k pp d0 cur) = i :: ids_of (default [] cur).
Proof. by rewrite ids_eq, kids_element. Qed.

Lemma Runs_step (r r' : Diff.Replay) (l : list Key) (hi : nat)
    (ps0 : list Patch) (p : Patch) :
  Inv r l hi -> Runs r ps0 ->
  (forall T k pp d0 cur,
     default [] cur = Diff.replayed r ->
     At T (id parent) (VirtualElement (id parent) k pp d0 cur) ->
     runs [p] T
       (Tree.replace (id parent)
          (VirtualElement (id parent) k pp d0 (Some (Diff.replayed r'))) T)) ->
  Runs r' (ps0 ++ [p]).
Proof.
  intros HI (cur & Hcur & _ & Hruns) Hp.
  exists (Some (Diff.replayed r')). split; [done|].
  split; [by intros [_ [=]]%app_eq_nil|]. intros T0 k pp d0 Hat HT.
  eapply runs_app; [by apply Hruns|].
  set (n0 := VirtualElement (id parent) k pp d0 ch).
  set (x := VirtualElement (id parent) k pp d0 cur).
  assert (At (Tree.replace (id parent) x T0) (id parent) x) as Hat'.
  { apply (At_replace T0 (id parent) n0 x Hat); [done|].
    intros j. subst x n0. rewrite !ids_element, Hcur, Hch.
    intros [->|Hj]%elem_of_cons; [left; left|].
    destruct (inv_src _ _ _ HI j Hj) as [?|Hr]; [left; by right|right].
    intros Hin. destruct HT as [_ Hb]. specialize (Hb j Hin). lia. }
  specialize (Hp _ k pp d0 cur Hcur Hat').
  by rewrite (replace_replace T0 (id parent) n0 x) in Hp.
Qed.

Lemma elem_of_splice_remove (k x : Key) (j : nat) (l : list Key) :
  l !! j = Some x -> k ∈ l -> k <> x -> k ∈ take j l ++ drop (S j) l.
Proof.
  intros Hj Hk Hne. rewrite <- (take_drop_middle l j x Hj) in Hk.
  rewrite elem_of_app, elem_of_cons in Hk. rewrite elem_of_app.
  destruct Hk as [?|[?|?]]; auto. done.
Qed.

Lemma replay_remove (r r' : Diff.Replay) (l : list Key) (w w' : World)
    (x : Key) (at_ : Z) (ps0 : list Patch) :
  Inv r l (nextId w) -> Runs r ps0 ->
  step_valid (node_keys cs) l (Move.remove x at_) ->
  Diff.replayMove create cs tds (node_keys cs) (eff_keys tds) parent r
    (Move.remove x at_) w = (w', Ok r') ->
  exists p,
    extends w w' [p]
    /\ Inv r' (Move.make (Move.remove x at_) l) (nextId w')
    /\ Runs r' (ps0 ++ [p]).
Proof.
  intros HI HR (Hge & Hl & Hin) Hrun.
  destruct (node_of_source (Diff.createdNodesMap r) x Hin)
    as (j & node & Hj & Hc & Hidx & Hnode).
  unfold Diff.replayMove, Diff.getNode in Hrun. cbn [Move.item Move.name] in Hrun.
  rewrite Hidx in Hrun.
  destruct (Z.leb_spec 0 (Z.of_nat j)); [|lia].
  rewrite Nat2Z.id, Hc in Hrun. cbn in Hrun. injection Hrun as <- <-.
  pose proof (inv_nodes _ _ _ HI) as Hnodes.
  destruct (Forall2_lookup_r _ _ _ _ _ Hnodes Hl) as (node' & HL & Hn').
  assert (node' = node) as -> by congruence.
  remember (Z.to_nat at_) as a eqn:Ha.
  assert (at_ = Z.of_nat a) as -> by lia. clear Ha.
  exists (removeChildNode node (Z.of_nat a) parent). split; [done|]. split.
  - split; cbn [Diff.replayed Diff.createdNodesMap Diff.created Move.make
                nextId add_patches].
    + apply Forall2_splice; [done|constructor].
    + apply (step_valid_NoDup (node_keys cs) l (Move.remove x (Z.of_nat a)));
        [split_and!; [lia|by rewrite Nat2Z.id|done]|apply HI].
    + apply HI.
    + intros k Hk. rewrite splice_remove.
      apply (elem_of_splice_remove k x); [done|by apply (inv_map_keys _ _ _ HI)|].
      intros ->. pose proof (inv_map _ _ _ HI) as Hm.
      rewrite Forall_forall in Hm.
      apply list_elem_of_fmap in Hk as ([k' n'] & -> & Hkn).
      by destruct (Hm _ Hkn) as [? _].
    + apply HI.
    + rewrite splice_remove.
      pose proof (inv_ids _ _ _ HI) as Hids.
      rewrite (ids_of_delete a node _ HL) in Hids.
      by apply NoDup_app in Hids as (_ & _ & ?).
    + intros i Hi. apply (inv_src _ _ _ HI).
      rewrite splice_remove in Hi.
      rewrite (ids_of_delete a node _ HL). apply elem_of_app. by right.
  - eapply Runs_step; [done..|].
    intros T k pp d0 cur Hcur Hat.
    cbn [Diff.replayed Move.make].
    destruct cur as [L|]; [|simpl in Hcur; by rewrite <- Hcur in HL].
    simpl in Hcur. subst L.
    apply (runs_removeChildNode node (Z.of_nat a) parent T (id parent) k pp d0
             _ a node); [done| |done|done].
    apply NoDup_ids_of_id, HI.
Qed.

Lemma getNode_known (r : Diff.Replay) (k : Key) (isMove : bool)
    (node : VirtualNode) (w : World) :
  node_of (Diff.createdNodesMap r) k = Some node ->
  (isMove = true \/ k ∈ node_keys cs) ->
  Diff.getNode create cs tds (node_keys cs) (eff_keys tds) parent k isMove r
    w = (w, Ok (node, r)).
Proof.
  unfold node_of, Diff.getNode. intros Hn Hor.
  destruct (Z.leb_spec 0 (indexOf k (node_keys cs))) as [Hge|Hlt].
  - by rewrite Hn.
  - destruct Hor as [->|Hin]; [by rewrite Hn|].
    destruct (indexOf_elem k _ Hin). lia.
Qed.

Lemma replay_move (r r' : Diff.Replay) (l : list Key) (w w' : World)
    (x : Key) (from to : Z) (ps0 : list Patch) :
  Inv r l (nextId w) -> Runs r ps0 ->
  step_valid (node_keys cs) l (Move.move x from to) ->
  Diff.replayMove create cs tds (node_keys cs) (eff_keys tds) parent r
    (Move.move x from to) w = (w', Ok r') ->
  exists p,
    extends w w' [p]
    /\ Inv r' (Move.make (Move.move x from to) l) (nextId w')
    /\ Runs r' (ps0 ++ [p]).
Proof.
  intros HI HR (Hge & Hl & Hto') Hrun.
  pose proof (inv_nodes _ _ _ HI) as Hnodes.
  destruct (Forall2_lookup_r _ _ _ _ _ Hnodes Hl) as (node & HL & Hnode).
  unfold Diff.replayMove in Hrun. cbn [Move.item Move.name] in Hrun.
  erewrite bind_ok in Hrun by (apply getNode_known; [exact Hnode|by left]).
  cbn in Hrun. injection Hrun as <- <-.
  remember (Z.to_nat from) as a eqn:Ha.
  assert (from = Z.of_nat a) as -> by lia. clear Ha.
  exists (moveChildNode node (Z.of_nat a) to parent). split; [done|].
  assert (ids_of (splice to 0 [node] (splice (Z.of_nat a) 1 [] (Diff.replayed r)))
          ≡ₚ ids_of (Diff.replayed r)) as Hperm.
  { destruct (splice_insert to node
                (splice (Z.of_nat a) 1 [] (Diff.replayed r))) as [s ->].
    rewrite ids_of_insert, splice_remove.
    by rewrite <- (ids_of_delete a node _ HL). }
  split.
  - split; cbn [Diff.replayed Diff.createdNodesMap Diff.created Move.make
                nextId add_patches].
    + apply Forall2_splice; [|by repeat constructor].
      apply Forall2_splice; [done|constructor].
    + apply (step_valid_NoDup (node_keys cs) l (Move.move x (Z.of_nat a) to));
        [split_and!; [lia|by rewrite Nat2Z.id|done]|apply HI].
    + apply HI.
    + intros k Hk.
      pose proof (make_move_perm x (Z.of_nat a) to l) as Hp. simpl in Hp.
      rewrite Hp; [by apply (inv_map_keys _ _ _ HI)|lia|by rewrite Nat2Z.id].
    + apply HI.
    + rewrite Hperm. apply HI.
    + intros i. rewrite Hperm. apply HI.
  - eapply Runs_step; [done..|].
    intros T k pp d0 cur Hcur Hat.
    cbn [Diff.replayed Move.make].
    destruct cur as [L|]; [|simpl in Hcur; by rewrite <- Hcur in HL].
    simpl in Hcur. subst L.
    apply (runs_moveChildNode node (Z.of_nat a) to parent T (id parent) k pp
             d0 _ node); [done|lia|by rewrite Nat2Z.id|done].
Qed.

Lemma node_of_set (m : list (Key * VirtualNode)) (x k : Key)
    (node : VirtualNode) :
  k <> x -> node_of (Diff.map_set x node m) k = node_of m k.
Proof.
  intros Hne. unfold node_of, Diff.map_set. simpl.
  by rewrite bool_decide_eq_false_2 by done.
Qed.

Lemma replay_insert (r r' : Diff.Replay) (l : list Key) (w w' : World)
    (x : Key) (at_ : Z) (ps0 : list Patch) :
  Inv r l (nextId w) -> (lo0 <= nextId w)%nat -> Runs r ps0 ->
  step_valid (node_keys cs) l (Move.insert x at_) ->
  Diff.replayMove create cs tds (node_keys cs) (eff_keys tds) parent r
    (Move.insert x at_) w = (w', Ok r') ->
  exists p,
    extends w w' [p]
    /\ Inv r' (Move.make (Move.insert x at_) l) (nextId w')
    /\ Runs r' (ps0 ++ [p]).
Proof.
  intros HI Hlow HR (Hnin & Hge) Hrun.
  pose proof (inv_nodes _ _ _ HI) as Hnodes.
  unfold Diff.replayMove in Hrun. cbn [Move.item Move.name] in Hrun.
  (* what the nodes of the list are *)
  assert (forall j node k, Diff.replayed r !! j = Some node ->
            l !! j = Some k ->
            node_of (Diff.createdNodesMap r) k = Some node) as Hat_l.
  { intros j node k Hj Hk.
    destruct (Forall2_lookup_l _ _ _ _ _ Hnodes Hj) as (k' & Hk' & Hn).
    congruence. }
  destruct (decide (x ∈ node_keys cs)) as [Hin|Hout].
  - destruct (node_of_source (Diff.createdNodesMap r) x Hin)
      as (jx & node & Hjx & Hcx & Hidx & Hnode).
    erewrite bind_ok in Hrun by (apply getNode_known; [exact Hnode|by right]).
    cbn in Hrun. injection Hrun as <- <-.
    exists (insertChildNode node at_ parent). split; [done|].
    destruct (splice_insert at_ node (Diff.replayed r)) as [s Hs].
    pose proof Hwf as Hwf'. rewrite Forall_forall in Hwf'.
    destruct (Hwf' node) as [Hwfn Hpn]; [by eapply list_elem_of_lookup_2|].
    split.
    + split; cbn [Diff.replayed Diff.createdNodesMap Diff.created Move.make
                  nextId add_patches].
      * apply Forall2_splice; [done|by repeat constructor].
      * apply (step_valid_NoDup (node_keys cs) l (Move.insert x at_));
          [done|apply HI].
      * apply HI.
      * intros k Hk. unfold splice. rewrite !elem_of_app.
        apply (inv_map_keys _ _ _ HI) in Hk.
        rewrite <- (take_drop (splice_start (length l) at_) l) in Hk.
        rewrite Nat.add_0_r. apply elem_of_app in Hk as [?|?]; auto.
      * apply HI.
      * rewrite Hs, ids_of_insert. apply NoDup_app. split_and!.
        -- rewrite (ids_of_delete jx node cs Hcx) in Hnd.
           by apply NoDup_app in Hnd as (? & _ & _).
        -- intros i Hi (node' & Hn' & Hi')%elem_of_ids_of.
           apply list_elem_of_lookup in Hn' as (j & Hj).
           destruct (Forall2_lookup_l _ _ _ _ _ Hnodes Hj) as (k' & Hk' & Hn).
           destruct (node_of_info r l _ k' node' HI Hn)
             as (_ & _ & _ & [(j' & Hj' & Hc')|[_ Hm]]).
           ++ assert (jx <> j') as Hne.
              { intros ->. assert (k' = x) as -> by congruence.
                apply Hnin. by eapply list_elem_of_lookup_2. }
              by apply (ids_of_disjoint cs jx j' node node' i Hnd Hcx Hc' Hne).
           ++ pose proof (made_ids _ _ _ _ Hm Hi').
              assert (i < lo0)%nat; [|lia].
              apply Hlo. by eapply ids_of_lookup.
        -- apply HI.
      * intros i. rewrite Hs, ids_of_insert, elem_of_app. intros [Hi|Hi].
        -- left. by eapply ids_of_lookup.
        -- by apply (inv_src _ _ _ HI).
    + eapply Runs_step; [done..|].
      intros T k pp d0 cur Hcur Hat.
      cbn [Diff.replayed Move.make].
      pose proof (runs_insertChildNode node at_ parent T (id parent) k pp d0
                    cur Hat) as Hr.
      by rewrite (set_parentNode_same _ _ Hpn), Hcur in Hr.
  - unfold Diff.getNode in Hrun.
    rewrite (indexOf_absent x _ Hout) in Hrun. cbn [Z.leb] in Hrun.
    change (0 <=? -1) with false in Hrun. cbn iota in Hrun.
    unfold at_index' in Hrun.
    destruct (Z.ltb_spec (indexOf x (eff_keys tds)) 0) as [?|Hge'];
      [done|].
    destruct (tds !! Z.to_nat (indexOf x (eff_keys tds))) as [d|] eqn:Hd;
      [|done].
    apply bind_Ok_inv in Hrun as (w1 & [node r1] & Hget & Hrun).
    apply bind_Ok_inv in Hget as (w2 & node' & Hcr & Hget).
    injection Hget as <- <- <-.
    cbn in Hrun. injection Hrun as <- <-.
    assert (K d) as Hkd.
    { rewrite Forall_forall in Hkeys. apply Hkeys.
      by eapply list_elem_of_lookup_2. }
    destruct (Hcreate d (Some (id parent)) w w2 node' Hcr Hkd)
      as [(Hr & Hp & Hn) Hmade].
    assert (x ∈ eff_keys tds) as Hxto.
    { destruct (decide (x ∈ eff_keys tds)); [done|].
      rewrite indexOf_absent in Hge' by done. lia. }
    destruct (indexOf_elem x _ Hxto) as [_ Hxi].
    exists (insertChildNode node' at_ parent).
    split; [split_and!; simpl; [done|by rewrite Hp, app_nil_r|lia]|].
    destruct (splice_insert at_ node' (Diff.replayed r)) as [s Hs].
    assert (made_for (nextId w2) (x, node')) as Hmf.
    { split; [done|].
      exists (Z.to_nat (indexOf x (eff_keys tds))), d, (nextId w), (nextId w2).
      split_and!; [done..|lia]. }
    split.
    + split; cbn [Diff.replayed Diff.createdNodesMap Diff.created Move.make
                  nextId add_patches].
      * apply Forall2_splice.
        -- apply Forall2_same_length_lookup_2;
             [by eapply Forall2_length|].
           intros j n k Hj Hk. rewrite node_of_set; [by eapply Hat_l|].
           intros ->. apply Hnin. by eapply list_elem_of_lookup_2.
        -- repeat constructor. rewrite node_of_made by done.
           unfold Diff.map_set. simpl. by rewrite bool_decide_eq_true_2.
      * apply (step_valid_NoDup (node_keys cs) l (Move.insert x at_));
          [done|apply HI].
      * unfold Diff.map_set. constructor; [done|].
        eapply Forall_impl; [apply HI|]. intros kn. by apply made_for_mono.
      * unfold Diff.map_set. rewrite fmap_cons.
        intros k Hk. unfold splice. rewrite !elem_of_app, Nat.add_0_r.
        apply elem_of_cons in Hk as [->|Hk]; [right; left; left|].
        apply (inv_map_keys _ _ _ HI) in Hk.
        rewrite <- (take_drop (splice_start (length l) at_) l) in Hk.
        apply elem_of_app in Hk as [?|?]; auto.
      * intros n. unfold Diff.map_set.
        rewrite fmap_cons, elem_of_app, elem_of_cons, (inv_created _ _ _ HI).
        simpl. rewrite elem_of_nil, elem_of_cons. tauto.
      * rewrite Hs, ids_of_insert. apply NoDup_app.
        destruct Hmade as (_ & _ & _ & Hndn & Hrange).
        split_and!; [done| |apply HI].
        intros i Hi Hi'. specialize (Hrange i Hi).
        destruct (inv_src _ _ _ HI i Hi') as [Hsrc|?]; [|lia].
        specialize (Hlo i Hsrc). lia.
      * intros i. rewrite Hs, ids_of_insert, elem_of_app. intros [Hi|Hi].
        -- destruct Hmade as (_ & _ & _ & _ & Hrange).
           specialize (Hrange i Hi). right. lia.
        -- destruct (inv_src _ _ _ HI i Hi); [auto|right; lia].
    + eapply Runs_step; [done..|].
      intros T k pp d0 cur Hcur Hat.
      cbn [Diff.replayed Move.make].
      pose proof (runs_insertChildNode node' at_ parent T (id parent) k pp d0
                    cur Hat) as Hr'.
      destruct Hmade as (_ & _ & Hpn & _).
      by rewrite (set_parentNode_same _ _ Hpn), Hcur in Hr'.
Qed.

Lemma replayMoves_ok (moves : list (Move.t Key)) (r r' : Diff.Replay)
    (l : list Key) (w w' : World) (ps0 : list Patch) :
  Inv r l (nextId w) -> (lo0 <= nextId w)%nat -> Runs r ps0 ->
  valid (node_keys cs) l moves ->
  Diff.replayMoves create cs tds (node_keys cs) (eff_keys tds) parent r
    moves w = (w', Ok r') ->
  exists ps,
    extends w w' ps
    /\ Inv r' (apply_moves moves l) (nextId w')
    /\ Runs r' (ps0 ++ ps).
Proof.
  revert r l w ps0. induction moves as [|m moves IH];
    intros r l w ps0 HI Hlow HR Hv Hrun.
  - injection Hrun as <- <-. exists []. rewrite app_nil_r.
    split; [apply extends_refl|done].
  - cbn [Diff.replayMoves] in Hrun.
    apply bind_Ok_inv in Hrun as (w1 & r1 & Hstep & Hrun).
    destruct Hv as [Hm Hv].
    assert (exists p,
               extends w w1 [p]
               /\ Inv r1 (Move.make m l) (nextId w1)
               /\ Runs r1 (ps0 ++ [p])) as (p & He & HI1 & HR1).
    { destruct m as [x at_|x from to|x at_].
      - by eapply replay_insert.
      - by eapply replay_move.
      - by eapply replay_remove. }
    destruct (IH r1 (Move.make m l) w1 (ps0 ++ [p]) HI1) as (ps & He' & HI' & HR');
      [destruct He as (_ & _ & ?); lia|done..|].
    exists (p :: ps). split_and!.
    + by apply (extends_trans w w1 w' [p] ps).
    + done.
    + by rewrite <- app_assoc in HR'.
Qed.

Lemma Inv_start : Inv (Diff.mkReplay [] [] cs) (node_keys cs) lo0.
Proof.
  split; cbn [Diff.replayed Diff.createdNodesMap Diff.created].
  - apply Forall2_same_length_lookup_2;
      [unfold node_keys; by rewrite length_imap|].
    intros j node k Hj Hk. unfold node_of.
    rewrite (indexOf_lookup_Key k _ j Hfrom Hk).
    destruct (Z.leb_spec 0 (Z.of_nat j)); [|lia]. by rewrite Nat2Z.id.
  - done.
  - constructor.
  - by intros k ?%elem_of_nil.
  - done.
  - done.
  - auto.
Qed.

Lemma Runs_start : Runs (Diff.mkReplay [] [] cs) [].
Proof.
  exists ch. split_and!; [done..|].
  intros T0 k pp d0 Hat _. rewrite (replace_same _ _ _ Hat). apply runs_nil.
Qed.

Context (cp : VirtualNode -> Description -> M World unit).
Hypothesis Hcp : patches_ok toolkit K cp.
Hypothesis HK : keyed_on toolkit K.
Hypothesis Hpure : pure_on toolkit K.

(** After the moves that lead to the target keys, each node is in the
    place of the description it is to be diffed against. *)
Lemma Inv_item_pre (r : Diff.Replay) (hi : nat) :
  Inv r (eff_keys tds) hi ->
  Forall2 (item_pre toolkit K (Diff.created r) parent) (Diff.replayed r) tds.
Proof.
  intros HI. pose proof (inv_nodes _ _ _ HI) as Hnodes.
  apply Forall2_same_length_lookup_2.
  { rewrite (Forall2_length _ _ _ Hnodes). unfold eff_keys.
    by rewrite length_imap. }
  intros i node d Hnode Hd.
  destruct (Forall2_lookup_l _ _ _ _ _ Hnodes Hnode) as (k & Hk & Hn).
  destruct (node_of_info r _ hi k node HI Hn) as (Hwfn & Hpn & Hndn & Hwhere).
  split_and!; [done..| |].
  { rewrite Forall_forall in Hkeys. apply Hkeys.
    by eapply list_elem_of_lookup_2. }
  rewrite existsb_exists. intros (c & Hc & Hsame).
  apply list_elem_of_In in Hc. apply (inv_created _ _ _ HI) in Hc.
  apply list_elem_of_fmap in Hc as ([k' c'] & -> & Hc).
  pose proof (inv_map _ _ _ HI) as Hm. rewrite Forall_forall in Hm.
  specialize (Hm _ Hc). simpl in Hsame.
  unfold same in Hsame. apply Nat.eqb_eq in Hsame.
  destruct Hwhere as [(j & Hj & Hcj)|[Hout Hmade]].
  - exfalso. pose proof (made_ids _ _ _ _ Hm (id_in_ids c')) as Hr.
    assert (id node < lo0)%nat; [|lia].
    apply Hlo. eapply ids_of_lookup; [done|apply id_in_ids].
  - destruct Hmade as (_ & i' & d' & lo & h & Hi' & Hd' & Hmade & _).
    simpl in Hi'.
    assert (i' = i) as -> by (eapply NoDup_lookup; [exact Hto|done..]).
    assert (d' = d) as -> by congruence.
    by destruct Hmade as (_ & ? & _).
Qed.

Lemma elementChildrenPatches_replayed (tdo : option (list Description))
    (w w' : World) :
  default [] tdo = tds -> lo0 = nextId w ->
  Diff.elementChildrenPatches toolkit create cp ch tdo parent w
  = (w', Ok tt) ->
  exists ps cur,
    extends w w' ps
    /\ Forall2 (fun c' d =>
                  renders toolkit c' d /\ well_formed toolkit c'
                  /\ parentNode c' = Some (id parent))
         (default [] cur) tds
    /\ NoDup (ids_of (default [] cur))
    /\ (forall j, j ∈ ids_of (default [] cur) ->
                  j ∈ ids_of cs \/ (nextId w <= j < nextId w')%nat)
    /\ forall T k pp d0,
         At T (id parent) (VirtualElement (id parent) k pp d0 ch) ->
         fits T (nextId w) ->
         runs ps T
           (Tree.replace (id parent)
              (VirtualElement (id parent) k pp d0 cur) T).
Proof.
  intros Htdo Hlo0 Hrun. unfold Diff.elementChildrenPatches in Hrun.
  rewrite Hch, Htdo in Hrun.
  change (imap _ cs) with (node_keys cs) in Hrun.
  change (imap _ tds) with (eff_keys tds) in Hrun.
  apply bind_Ok_inv in Hrun as (w0 & [] & Hdebug & Hrun).
  assert (w0 = w) as ->.
  { unfold Diff.unique_keys in Hdebug.
    rewrite !bool_decide_eq_true_2 in Hdebug by done.
    rewrite andb_false_r in Hdebug. by injection Hdebug. }
  clear Hdebug.
  apply bind_Ok_inv in Hrun as (w1 & r & Hreplay & Hloop).
  set (fav := List.find Diff.beingDragged cs ≫= Node.key) in *.
  pose proof (calculateMoves_valid (node_keys cs) (eff_keys tds) fav Hfrom Hto)
    as Hvalid.
  destruct (calculateMoves_reaches_target (node_keys cs) (eff_keys tds) fav
              Hfrom Hto) as [Hreach _].
  apply deepEqual_eq in Hreach.
  assert (lo0 <= nextId w)%nat as Hle by lia.
  destruct (replayMoves_ok _ _ r _ w w1 []
              (Inv_mono _ _ _ _ Hle Inv_start) Hle Runs_start
              Hvalid Hreplay) as (ps1 & He1 & HI & HR).
  rewrite Hreach in HI. simpl in HR.
  pose proof (Inv_item_pre r _ HI) as Hpre.
  destruct He1 as (Hr1 & Hp1 & Hn1).
  destruct (children_loop toolkit K HK Hpure create cp Hcreate Hcp
              (Diff.created r) tds parent (Diff.replayed r) tds 0 w1 w')
    as (ps2 & L' & He2 & Hall & HndL & HbL & Hruns2);
    [exact Hloop|done|done|apply HI| |].
  { intros j Hj. destruct (inv_src _ _ _ HI j Hj) as [Hs|?]; [|lia].
    specialize (Hlo j Hs). lia. }
  destruct He2 as (Hr2 & Hp2 & Hn2).
  destruct HR as (cur & Hcur & Hnil & Hruns1).
  destruct cur as [L|].
  - simpl in Hcur. subst L.
    exists (ps1 ++ ps2), (Some L'). split_and!.
    + split_and!; [congruence|by rewrite Hp2, Hp1, app_assoc|lia].
    + done.
    + done.
    + intros j Hj. destruct (HbL j Hj) as [Hj'|?]; [|right; lia].
      destruct (inv_src _ _ _ HI j Hj') as [?|?]; [by left|right; lia].
    + intros T k pp d0 Hat HT. rewrite <- Hlo0 in HT.
      eapply runs_app; [by apply Hruns1|].
      set (n0 := VirtualElement (id parent) k pp d0 ch).
      set (x := VirtualElement (id parent) k pp d0 (Some (Diff.replayed r))).
      pose proof (At_fits _ _ _ _ Hat HT) as [HndP HbP].
      subst n0. rewrite ids_element, Hch in HndP, HbP.
      apply NoDup_cons in HndP as [Hpid _].
      destruct (fits_replace T (id parent)
                  (VirtualElement (id parent) k pp d0 ch) x lo0 (nextId w1))
        as [Hat1 HT1]; [done|done|done| | |lia|].
      { subst x. rewrite ids_element. cbn [default from_option].
        apply NoDup_cons. split; [|apply HI].
        intros Hin. destruct (inv_src _ _ _ HI _ Hin) as [?|?]; [done|].
        assert (id parent < lo0)%nat; [|lia]. apply HbP. left. }
      { intros j. subst x. rewrite !ids_element, Hch. cbn [default from_option].
        intros [->|Hj]%elem_of_cons; [left; left|].
        destruct (inv_src _ _ _ HI _ Hj) as [?|?]; [left; by right|by right]. }
      specialize (Hruns2 _ k pp d0 [] Hat1 HT1). simpl in Hruns2.
      by rewrite (replace_replace T (id parent)
                    (VirtualElement (id parent) k pp d0 ch) x) in Hruns2.
  - simpl in Hcur. rewrite <- Hcur in *.
    apply Forall2_nil_inv_l in Hpre as Htds'.
    rewrite Htds' in Hall. apply Forall2_nil_inv_r in Hall as ->.
    injection Hloop as <-.
    exists ps1, None. split_and!.
    + by split_and!.
    + rewrite Htds'. constructor.
    + constructor.
    + by intros j ?%elem_of_nil.
    + intros T k pp d0 Hat HT. rewrite <- Hlo0 in HT. by apply Hruns1.
Qed.
(** *** The replay returns *)

Context (P : Description -> Prop).
Hypothesis HP : Forall P tds.
Hypothesis Hcreate_returns : create_returns P create.
Hypothesis Hcp_returns : patches_return toolkit K P cp.

(** Each move finds the node it names: a source node, a node made by an
    earlier insertion, or the description to make it from. *)
Lemma replayMove_returns (r : Diff.Replay) (l : list Key) (m : Move.t Key)
    (w : World) :
  Inv r l (nextId w) ->
  step_valid (node_keys cs) l m -> of_target (eff_keys tds) m ->
  exists w' r',
    Diff.replayMove create cs tds (node_keys cs) (eff_keys tds) parent r m w
    = (w', Ok r').
Proof.
  intros HI Hv Ht. pose proof (inv_nodes _ _ _ HI) as Hnodes.
  unfold Diff.replayMove.
  destruct m as [x at_|x from to|x at_]; cbn [Move.item Move.name].
  - destruct Hv as [Hnin Hge]. cbn [of_target] in Ht.
    destruct (decide (x ∈ node_keys cs)) as [Hin|Hout].
    + destruct (node_of_source (Diff.createdNodesMap r) x Hin)
        as (jx & node & _ & _ & _ & Hnode).
      erewrite bind_ok by (apply getNode_known; [exact Hnode|by right]).
      by eexists _, _.
    + unfold Diff.getNode. rewrite (indexOf_absent x _ Hout).
      change (0 <=? -1) with false. cbn iota.
      destruct (indexOf_elem x _ Ht) as [Hge' Hl].
      apply lookup_lt_Some in Hl. unfold eff_keys in Hl at 2.
      rewrite length_imap in Hl.
      destruct (lookup_lt_is_Some_2 tds _ Hl) as [d Hd].
      unfold at_index'.
      destruct (Z.ltb_spec (indexOf x (eff_keys tds)) 0) as [?|_]; [lia|].
      rewrite Hd.
      assert (P d) as HPd.
      { rewrite Forall_forall in HP. apply HP.
        by eapply list_elem_of_lookup_2. }
      destruct (Hcreate_returns d (Some (id parent)) w HPd)
        as (w1 & node & Hnode).
      erewrite bind_ok; [|by erewrite bind_ok by exact Hnode].
      by eexists _, _.
  - destruct Hv as (Hge & Hl & _).
    destruct (Forall2_lookup_r _ _ _ _ _ Hnodes Hl) as (node & _ & Hnode).
    erewrite bind_ok by (apply getNode_known; [exact Hnode|by left]).
    by eexists _, _.
  - destruct Hv as (Hge & Hl & Hin).
    destruct (node_of_source (Diff.createdNodesMap r) x Hin)
      as (jx & node & _ & _ & _ & Hnode).
    erewrite bind_ok by (apply getNode_known; [exact Hnode|by right]).
    by eexists _, _.
Qed.

Lemma replayMoves_returns (moves : list (Move.t Key)) (r : Diff.Replay)
    (l : list Key) (w : World) (ps0 : list Patch) :
  Inv r l (nextId w) -> (lo0 <= nextId w)%nat -> Runs r ps0 ->
  valid (node_keys cs) l moves ->
  Forall (of_target (eff_keys tds)) moves ->
  exists w' r',
    Diff.replayMoves create cs tds (node_keys cs) (eff_keys tds) parent r
      moves w = (w', Ok r').
Proof.
  revert r l w ps0. induction moves as [|m moves IH];
    intros r l w ps0 HI Hlow HR Hv Ht; [by eexists _, _|].
  destruct Hv as [Hm Hv]. apply Forall_cons in Ht as [Htm Ht].
  destruct (replayMove_returns r l m w HI Hm Htm) as (w1 & r1 & Hstep).
  assert (exists p,
             extends w w1 [p]
             /\ Inv r1 (Move.make m l) (nextId w1)
             /\ Runs r1 (ps0 ++ [p])) as (p & He & HI1 & HR1).
  { destruct m as [x at_|x from to|x at_].
    - by eapply replay_insert.
    - by eapply replay_move.
    - by eapply replay_remove. }
  destruct (IH r1 (Move.make m l) w1 (ps0 ++ [p]) HI1) as (w' & r' & Hrest);
    [destruct He as (_ & _ & ?); lia|done..|].
  exists w', r'. cbn [Diff.replayMoves]. by erewrite bind_ok by exact Hstep.
Qed.

Lemma elementChildrenPatches_returns (tdo : option (list Description))
    (w : World) :
  default [] tdo = tds -> lo0 = nextId w ->
  exists w',
    Diff.elementChildrenPatches toolkit create cp ch tdo parent w
    = (w', Ok tt).
Proof.
  intros Htdo Hlo0. unfold Diff.elementChildrenPatches.
  rewrite Hch, Htdo.
  change (imap _ cs) with (node_keys cs).
  change (imap _ tds) with (eff_keys tds).
  unfold Diff.unique_keys. rewrite !bool_decide_eq_true_2 by done.
  rewrite andb_false_r. unfold mbind at 1, M_bind at 1, mret at 1, M_ret at 1.
  set (fav := List.find Diff.beingDragged cs ≫= Node.key).
  pose proof (calculateMoves_valid (node_keys cs) (eff_keys tds) fav Hfrom Hto)
    as Hvalid.
  pose proof (calculateMoves_of_target (node_keys cs) (eff_keys tds) fav
                Hfrom Hto) as Htarget.
  destruct (calculateMoves_reaches_target (node_keys cs) (eff_keys tds) fav
              Hfrom Hto) as [Hreach _].
  apply deepEqual_eq in Hreach.
  assert (lo0 <= nextId w)%nat as Hle by lia.
  destruct (replayMoves_returns _ (Diff.mkReplay [] [] cs) _ w []
              (Inv_mono _ _ _ _ Hle Inv_start) Hle Runs_start Hvalid Htarget)
    as (w1 & r & Hreplay).
  destruct (replayMoves_ok _ _ r _ w w1 []
              (Inv_mono _ _ _ _ Hle Inv_start) Hle Runs_start
              Hvalid Hreplay) as (ps1 & (_ & _ & Hn1) & HI & _).
  rewrite Hreach in HI.
  erewrite bind_ok by exact Hreplay.
  apply (children_loop_returns toolkit K HK Hpure create cp Hcreate Hcp P
           Hcreate_returns Hcp_returns (Diff.created r) tds parent
           (Diff.replayed r) tds 0 w1); [done| |done|apply HI|].
  - by apply (Inv_item_pre r (nextId w1)).
  - intros j Hj. destruct (inv_src _ _ _ HI j Hj) as [Hs|?]; [|lia].
    specialize (Hlo j Hs). lia.
Qed.
End replay.

(** ** The patches of an element *)

Section property_diffs.
Import Node.

(** A computation that returns, having added patches that only touch the
    backing target. *)
Definition adds_neutral (m : M World unit) : Prop :=
  forall w,
    exists ps,
      m w = (add_patches ps w, Ok tt)
      /\ Forall (fun p => neutral p = true) ps.

Lemma adds_neutral_ret : adds_neutral (mret tt).
Proof. intros w. exists []. by rewrite add_patches_nil. Qed.

Lemma adds_neutral_addPatch (p : Patch) :
  neutral p = true -> adds_neutral (Diff.addPatch p).
Proof. intros Hp w. exists [p]. split; [done|by constructor]. Qed.

Lemma adds_neutral_bind (m : M World unit) (k : unit -> M World unit) :
  adds_neutral m -> (forall u, adds_neutral (k u)) -> adds_neutral (m ≫= k).
Proof.
  intros Hm Hk w. destruct (Hm w) as (ps1 & E1 & H1).
  destruct (Hk tt (add_patches ps1 w)) as (ps2 & E2 & H2).
  exists (ps1 ++ ps2). split; [|by apply Forall_app].
  erewrite bind_ok by exact E1. by rewrite E2, add_patches_app.
Qed.

Lemma adds_neutral_for_each {A} (f : A -> M World unit) (l : list A) :
  (forall x, adds_neutral (f x)) -> adds_neutral (for_each f l).
Proof.
  intros Hf. induction l as [|x l IH]; [apply adds_neutral_ret|].
  simpl. apply adds_neutral_bind; [apply Hf|by intros []].
Qed.

Lemma adds_neutral_for_keys {V} (l : list string) (m : list (string * V))
    (f : string -> V -> Patch) :
  (forall key v, neutral (f key v) = true) ->
  adds_neutral (Diff.for_keys l m f).
Proof.
  intros Hf. unfold Diff.for_keys. apply adds_neutral_for_each.
  intros key. destruct (Diff.lookup_key key m);
    [by apply adds_neutral_addPatch|apply adds_neutral_ret].
Qed.

End property_diffs.

Local Ltac neutral_step :=
  first
    [ apply adds_neutral_bind; [|intros ?]
    | apply adds_neutral_for_keys; intros ? ?; reflexivity
    | apply adds_neutral_for_each; intros ?
    | apply adds_neutral_addPatch; reflexivity
    | apply adds_neutral_ret
    | match goal with
      | |- adds_neutral (if ?b then _ else _) => destruct b
      | |- adds_neutral (match ?x with _ => _ end) => destruct x
      end ].


Section element_diffs.
Import Node.
Context (toolkit : Toolkit).
Context (K : Description -> Prop).
Hypothesis HK : keyed_on toolkit K.
Hypothesis Hpure : pure_on toolkit K.
Context (create : Description -> option nat -> M World VirtualNode).
Context (cp : VirtualNode -> Description -> M World unit).
Hypothesis Hcreate : create_ok toolkit K create.
Hypothesis Hcp : patches_ok toolkit K cp.

Lemma adds_neutral_text (element : VirtualNode) (cur next : ElementFields) :
  adds_neutral
    (match text next with
     | Some t =>
         if bool_decide (text cur = Some t) then mret tt
         else Diff.addPatch (setTextContent element t)
     | None => mret tt
     end).
Proof. repeat neutral_step. Qed.

Lemma neutral_then (m : M World unit) (k : unit -> M World unit)
    (ps0 : list Patch) (w w' : World) :
  adds_neutral m ->
  Forall (fun p => neutral p = true) ps0 ->
  (m ≫= k) (add_patches ps0 w) = (w', Ok tt) ->
  exists ps,
    Forall (fun p => neutral p = true) ps
    /\ k tt (add_patches ps w) = (w', Ok tt).
Proof.
  intros Hm H0 Hk. destruct (Hm (add_patches ps0 w)) as (ps1 & E1 & H1).
  erewrite bind_ok in Hk by exact E1. rewrite add_patches_app in Hk.
  exists (ps0 ++ ps1). split; [by apply Forall_app|done].
Qed.

Lemma Forall2_left {A B} (R : A -> B -> Prop) (P : A -> Prop)
    (l : list A) (l' : list B) :
  Forall2 R l l' -> (forall x y, R x y -> P x) -> Forall P l.
Proof. induction 1; intros HP; constructor; eauto. Qed.

Lemma node_keys_eff (l : list VirtualNode) :
  node_keys l = eff_keys (description <$> l).
Proof. unfold node_keys, eff_keys. by rewrite imap_fmap. Qed.

(** [Diff.elementPatches] on an element of a well-formed tree. *)
Lemma elementPatches_ok (n : VirtualNode) (d : Description) (w w' : World) :
  isComponent n = false ->
  Diff.elementPatches toolkit create cp n d w = (w', Ok tt) ->
  well_formed toolkit n ->
  Description.isCompatible (description n) d = true ->
  K d -> fits n (nextId w) ->
  exists ps n',
    extends w w' ps /\ updated toolkit n n' d (nextId w) (nextId w') ps.
Proof.
  intros Hel Hrun Hwf Hcompat Hk Hfit.
  destruct n as [i k p d0 ch|]; [clear Hel|done].
  unfold Diff.elementPatches in Hrun. cbn [description] in Hrun, Hcompat.
  destruct (Diff.deepEqual d0 d) eqn:Heq.
  { injection Hrun as <-. exists [], (VirtualElement i k p d0 ch).
    split; [apply extends_refl|]. destruct Hfit as [Hnd Hb].
    split_and!; try done.
    - eapply (renders_deepEqual_on toolkit K); [done|done|done| |exact Heq].
      by apply (well_formed_renders toolkit (VirtualElement i k p d0 ch)).
    - by left.
    - intros T Hat _. cbn [id] in *. rewrite (replace_same _ _ _ Hat).
      apply runs_nil. }
  pose proof Hwf as [(Hown & Hpar & Hkeys & _ & _) Hkids]%well_formed_eq.
  cbn [description] in Hown.
  apply renders_element in Hown as (Hd0 & _ & Hch0).
  destruct d0 as [nm0 k0 f0 c0|]; [clear Hd0|done].
  destruct d as [nm k1 f1 c1|]; [|done].
  cbn [Description.fields Description.children children] in Hrun.
  rewrite <- (add_patches_nil w) in Hrun at 1.
  assert (exists ps1,
            Forall (fun q => neutral q = true) ps1
            /\ ((if Diff.isDefined ch || Diff.isDefined c1
                 then Diff.elementChildrenPatches toolkit create cp ch c1
                        (VirtualElement i k p
                           (ElementDescription nm0 k0 f0 c0) ch)
                 else mret tt) ;;
                match text f1 with
                | Some t =>
                    if bool_decide (text f0 = Some t) then mret tt
                    else Diff.addPatch
                           (setTextContent
                              (VirtualElement i k p
                                 (ElementDescription nm0 k0 f0 c0) ch) t)
                | None => mret tt
                end ;;
                Diff.addPatch
                  (updateNode
                     (VirtualElement i k p
                        (ElementDescription nm0 k0 f0 c0) ch)
                     (ElementDescription nm0 k0 f0 c0)
                     (ElementDescription nm k1 f1 c1)))
                 (add_patches ps1 w) = (w', Ok tt)) as (ps1 & Hn1 & Hrest).
  { repeat
      match type of Hrun with
      | (_ ≫= _) (add_patches ?ps0 w) = _ =>
          lazymatch type of Hrun with
          | ((if Diff.isDefined ch || _ then _ else _) ≫= _) _ = _ => fail
          | _ =>
              let Hps := fresh "Hps" in
              let ps := fresh "ps" in
              apply neutral_then in Hrun as (ps & Hps & Hrun);
              [|unfold Diff.classNamePatches, Diff.stylePatches,
                  Diff.attributePatches, Diff.listenerPatches,
                  Diff.datasetPatches, Diff.propertiesPatches;
                repeat neutral_step|first [assumption|constructor]]
          end
      end.
    eexists. split; [|exact Hrun]. assumption. }
  clear Hrun.
  apply bind_Ok_inv in Hrest as (w1 & [] & Hchildren & Hrest).
  rewrite <- (add_patches_nil w1) in Hrest.
  apply neutral_then in Hrest as (ps3 & Hn3 & Hupd);
    [|apply adds_neutral_text|constructor].
  unfold Diff.addPatch in Hupd.
  set (n := VirtualElement i k p (ElementDescription nm0 k0 f0 c0) ch) in *.
  set (d := ElementDescription nm k1 f1 c1) in *.
  destruct Hfit as [Hnd Hb].
  unfold n in Hnd, Hb. rewrite ids_element in Hnd, Hb.
  apply NoDup_cons in Hnd as [Hi Hndk].
  cbn [kids] in Hpar, Hkeys, Hkids. fold (default [] ch) in Hpar, Hkeys, Hkids.
  assert (exists ps2 cur,
            extends (add_patches ps1 w) w1 ps2
            /\ Forall2 (fun c' x => renders toolkit c' x
                                    /\ well_formed toolkit c'
                                    /\ parentNode c' = Some i)
                 (default [] cur) (default [] c1)
            /\ NoDup (ids_of (default [] cur))
            /\ (forall j, j ∈ ids_of (default [] cur) ->
                          j ∈ ids_of (default [] ch)
                          \/ (nextId w <= j < nextId w1)%nat)
            /\ forall T k pp x,
                 At T i (VirtualElement i k pp x ch) ->
                 fits T (nextId w) ->
                 runs ps2 T
                   (Tree.replace i (VirtualElement i k pp x cur) T))
    as (ps2 & cur & Hext & Hall & Hndc & Hbc & Hruns).
  { destruct (Diff.isDefined ch || Diff.isDefined c1) eqn:Hdef.
    - assert (keyed_kids : NoDup (eff_keys (default [] c1))
                           /\ Forall K (default [] c1)).
      { destruct c1 as [l|];
        [split; [by eapply (keyed_on_siblings toolkit K HK)
                |by eapply (keyed_on_children toolkit K HK)]|].
        split; constructor. }
      destruct keyed_kids as [Hk1 Hk2].
      apply (elementChildrenPatches_replayed toolkit K create Hcreate
               (default [] ch) (default [] c1) n (nextId w)) in Hchildren;
        try done.
      + by rewrite node_keys_eff.
      + apply Forall_forall. intros c Hc. split.
        * by eapply Forall_forall in Hkids.
        * by eapply Forall_forall in Hpar.
      + intros j Hj. apply Hb. by right.
    - apply orb_false_iff in Hdef as [Hc Hc1].
      destruct ch; [done|]. destruct c1; [done|].
      injection Hchildren as <-. exists [], None. split_and!.
      + apply extends_refl.
      + constructor.
      + constructor.
      + by intros j ?%elem_of_nil.
      + intros T k' pp x Hat _. rewrite (replace_same _ _ _ Hat).
        apply runs_nil. }
  injection Hupd as <-. destruct Hext as (Hroot & Hpatches & Hnext).
  cbn [add_patches root patches nextId] in Hroot, Hpatches, Hnext.
  exists (ps1 ++ ps2 ++ ps3 ++ [updateNode n (ElementDescription nm0 k0 f0 c0) d]),
    (VirtualElement i k p d cur).
  assert (Hrc : Forall2 (renders toolkit) (default [] cur) (default [] c1)).
  { eapply Forall2_impl; [exact Hall|]. by intros ? ? (? & _). }
  assert (Hnew : forall j, j ∈ ids (VirtualElement i k p d cur) ->
                   j ∈ ids n \/ (nextId w <= j < nextId w1)%nat).
  { intros j. unfold n. rewrite !ids_element, !elem_of_cons.
    intros [->|Hj]; [by left; left|].
    destruct (Hbc j Hj); [by left; right|by right]. }
  assert (Hndn : NoDup (ids (VirtualElement i k p d cur))).
  { rewrite ids_element. apply NoDup_cons. split; [|done].
    intros Hj. destruct (Hbc i Hj) as [?|?]; [done|].
    assert (i < nextId w)%nat by (apply Hb; by left). lia. }
  split.
  { split_and!; cbn [add_patches root patches nextId]; [done| |done].
    rewrite Hpatches. by rewrite <- !app_assoc. }
  cbn [add_patches nextId]. split_and!; try done.
  - apply renders_element. split_and!; [done|by left|done].
  - apply well_formed_eq. rewrite kids_element. split.
    + split_and!; cbn [description id slot_invariant];
        rewrite ?kids_element; try done.
      * apply renders_element. split_and!; [done|by left|done].
      * eapply Forall2_left; [exact Hall|].
        by intros ? ? (_ & _ & ?).
      * rewrite (eff_keys_renders toolkit _ _ Hrc).
        destruct c1 as [l|]; [|constructor].
        by eapply (keyed_on_siblings toolkit K HK).
    + eapply Forall2_left; [exact Hall|]. by intros ? ? (_ & ? & _).
  - intros T Hat Hfit. cbn [id] in *.
    assert (Hat1 : At (Tree.replace i (VirtualElement i k p
                     (ElementDescription nm0 k0 f0 c0) cur) T) i
                     (VirtualElement i k p
                        (ElementDescription nm0 k0 f0 c0) cur)
                   /\ fits (Tree.replace i (VirtualElement i k p
                        (ElementDescription nm0 k0 f0 c0) cur) T)
                        (nextId w1)).
    { apply (fits_replace T i n _ (nextId w) (nextId w1)); try done. }
    destruct Hat1 as [Hat1 Hfit1].
    eapply runs_app; [apply runs_all_neutral; [done|apply Hfit]|].
    eapply runs_app; [by apply Hruns|].
    eapply runs_app; [apply runs_all_neutral; [done|apply Hfit1]|].
    pose proof (runs_updateNode n _ (ElementDescription nm0 k0 f0 c0) d _
                  Hat1) as Hu.
    cbn [set_description] in Hu. change (id n) with i in *.
    rewrite (replace_replace T i n
               (VirtualElement i k p (ElementDescription nm0 k0 f0 c0) cur)
               (VirtualElement i k p d cur) Hat eq_refl) in Hu.
    exact Hu.
Qed.
(** *** The diff of an element returns *)

Lemma neutral_then_returns (m : M World unit) (k : unit -> M World unit)
    (w : World) :
  adds_neutral m ->
  (forall w1, nextId w1 = nextId w -> exists w', k tt w1 = (w', Ok tt)) ->
  exists w', (m ≫= k) w = (w', Ok tt).
Proof.
  intros Hm Hk. destruct (Hm w) as (ps & E & _).
  erewrite bind_ok by exact E. by apply Hk.
Qed.

Context (P : Description -> Prop).
Hypothesis Hcreate_returns : create_returns P create.
Hypothesis Hcp_returns : patches_return toolkit K P cp.

Lemma elementPatches_returns (n : VirtualNode) (d : Description)
    (w : World) :
  isComponent n = false ->
  Forall P (default [] (Description.children d)) ->
  well_formed toolkit n ->
  Description.isCompatible (description n) d = true ->
  K d -> fits n (nextId w) ->
  exists w', Diff.elementPatches toolkit create cp n d w = (w', Ok tt).
Proof.
  intros Hel HP Hwf Hcompat Hk Hfit.
  destruct n as [i k p d0 ch|]; [clear Hel|done].
  unfold Diff.elementPatches. cbn [description] in Hcompat |- *.
  destruct (Diff.deepEqual d0 d); [by eexists|].
  pose proof Hwf as [(Hown & Hpar & Hkeys & _ & _) Hkids]%well_formed_eq.
  cbn [description] in Hown.
  apply renders_element in Hown as (Hd0 & _ & _).
  destruct d0 as [nm0 k0 f0 c0|]; [clear Hd0|done].
  destruct d as [nm k1 f1 c1|]; [|done].
  cbn [Description.fields Description.children children] in HP |- *.
  set (n := VirtualElement i k p (ElementDescription nm0 k0 f0 c0) ch) in *.
  assert (Hw : nextId w = nextId w) by done. revert Hw.
  generalize w at 1 3. intros w1 Hw1.
  repeat
    lazymatch goal with
    | |- exists w', ((if Diff.isDefined ch || _ then _ else _) ≫= _) _ = _ =>
        fail
    | |- exists w', (_ ≫= _) _ = _ =>
        apply neutral_then_returns;
        [unfold Diff.classNamePatches, Diff.stylePatches,
           Diff.attributePatches, Diff.listenerPatches,
           Diff.datasetPatches, Diff.propertiesPatches;
         repeat neutral_step
        |let w2 := fresh "w" in
         let Hw2 := fresh "Hw" in
         intros w2 Hw2; rewrite Hw1 in Hw2; clear Hw1; clear w1;
         rename w2 into w1; rename Hw2 into Hw1]
    end.
  assert (exists w2,
            (if Diff.isDefined ch || Diff.isDefined c1
             then Diff.elementChildrenPatches toolkit create cp ch c1 n
             else mret tt) w1 = (w2, Ok tt)) as [w2 Hchildren].
  { destruct (Diff.isDefined ch || Diff.isDefined c1); [|by eexists].
    destruct Hfit as [Hnd Hb]. unfold n in Hnd, Hb.
    rewrite ids_element in Hnd, Hb. apply NoDup_cons in Hnd as [_ Hndk].
    cbn [kids] in Hpar, Hkeys, Hkids.
    fold (default [] ch) in Hpar, Hkeys, Hkids.
    assert (keyed_kids : NoDup (eff_keys (default [] c1))
                         /\ Forall K (default [] c1)).
    { destruct c1 as [l|];
        [split; [by eapply (keyed_on_siblings toolkit K HK)
                |by eapply (keyed_on_children toolkit K HK)]|].
      split; constructor. }
    destruct keyed_kids as [Hk1 Hk2].
    apply (elementChildrenPatches_returns toolkit K create Hcreate
             (default [] ch) (default [] c1) n (nextId w)) with (P := P);
      try done.
    - by rewrite node_keys_eff.
    - apply Forall_forall. intros c Hc. split.
      + by eapply Forall_forall in Hkids.
      + by eapply Forall_forall in Hpar.
    - intros j Hj. apply Hb. by right. }
  erewrite bind_ok by exact Hchildren.
  apply neutral_then_returns; [apply adds_neutral_text|].
  intros w3 _. by eexists.
Qed.
End element_diffs.

(** ** The patches of a component *)

Section component_diffs.
Import Node.
Context (toolkit : Toolkit).
Context (K : Description -> Prop).
Hypothesis HK : keyed_on toolkit K.
Hypothesis Hpure : pure_on toolkit K.
Context (create : Description -> option nat -> M World VirtualNode).
Context (cp : VirtualNode -> Description -> M World unit).
Hypothesis Hcreate : create_ok toolkit K create.
Hypothesis Hcp : patches_ok toolkit K cp.

(** What a component holds after its child was diffed against what it
    renders now. *)
Definition holds (rendered : option Description)
    (child : option VirtualNode) : Prop :=
  match rendered, child with
  | Some d, Some c => renders toolkit c d
  | None, None => True
  | _, _ => False
  end.

Lemma componentChildPatches_ok (i c : nat) (k : option Key) (p : option nat)
    (d0 : Description) (child : option VirtualNode) (cm : option Comment)
    (st : option Props) (rendered : option Description) (w w' : World) :
  Diff.componentChildPatches create cp child rendered
    (Component i c k p d0 child cm st) w = (w', Ok tt) ->
  Forall (well_formed toolkit) (kids (Component i c k p d0 child cm st)) ->
  Forall (fun x => parentNode x = Some i)
    (kids (Component i c k p d0 child cm st)) ->
  slot_invariant (Component i c k p d0 child cm st) ->
  fits (Component i c k p d0 child cm st) (nextId w) ->
  (forall d, rendered = Some d -> K d) ->
  exists ps child' cm',
    extends w w' ps
    /\ holds rendered child'
    /\ Forall (well_formed toolkit)
         (kids (Component i c k p d0 child' cm' st))
    /\ Forall (fun x => parentNode x = Some i)
         (kids (Component i c k p d0 child' cm' st))
    /\ slot_invariant (Component i c k p d0 child' cm' st)
    /\ NoDup (ids (Component i c k p d0 child' cm' st))
    /\ (forall j, j ∈ ids (Component i c k p d0 child' cm' st) ->
                  j ∈ ids (Component i c k p d0 child cm st)
                  \/ (nextId w <= j < nextId w')%nat)
    /\ forall T st' x,
         At T i (Component i c k p x child cm st') ->
         fits T (nextId w) ->
         runs ps T
           (Tree.replace i (Component i c k p x child' cm' st') T).
Proof.
  intros Hrun Hwf Hpar Hslot Hfit Hk.
  unfold Diff.componentChildPatches in Hrun.
  destruct child as [c0|], rendered as [d|].
  - (* a child, and something to render *)
    specialize (Hk d eq_refl). cbn [kids] in Hwf, Hpar.
    rewrite Forall_singleton in Hwf, Hpar.
    assert (Hfit0 : fits c0 (nextId w)).
    { eapply At_fits; [|exact Hfit].
      apply (At_child _ c0 [] []); [apply Hfit|done]. }
    destruct (Description.isCompatible (description c0) d) eqn:Hcompat.
    + destruct (Diff.deepEqual (description c0) d) eqn:Heq.
      * injection Hrun as <-. exists [], (Some c0), cm.
        split; [apply extends_refl|]. split_and!.
        -- eapply (renders_deepEqual_on toolkit K); [done|done|done| |exact Heq].
           by apply well_formed_renders.
        -- by apply Forall_singleton.
        -- by apply Forall_singleton.
        -- done.
        -- apply Hfit.
        -- by left.
        -- intros T st' x Hat _. rewrite (replace_same _ _ _ Hat).
           apply runs_nil.
      * destruct (Hcp c0 d w w' Hrun Hwf Hcompat Hk Hfit0)
          as (ps & c0' & Hext & Hid & Hp' & Hr' & Hwf' & Hnd' & Hb' & Hruns).
        exists ps, (Some c0'), cm. split; [done|].
        destruct Hfit as [Hnd Hb]. rewrite ids_eq in Hnd, Hb.
        cbn [kids id] in Hnd, Hb. rewrite ids_of_cons, app_nil_r in Hnd, Hb.
        apply NoDup_cons in Hnd as [Hi Hnd].
        split_and!; cbn [kids].
        -- done.
        -- by apply Forall_singleton.
        -- apply Forall_singleton. congruence.
        -- destruct Hslot as [[_ ->]|[[=] _]]. by left.
        -- rewrite ids_eq. cbn [kids id]. rewrite ids_of_cons, app_nil_r.
           apply NoDup_cons. split; [|done].
           intros Hj. destruct (Hb' i Hj) as [?|?]; [done|].
           assert (i < nextId w)%nat by (apply Hb; by left). lia.
        -- intros j. rewrite !ids_eq. cbn [kids id].
           rewrite !ids_of_cons, !app_nil_r, !elem_of_cons.
           intros [->|Hj]; [by left; left|].
           destruct (Hb' j Hj); [by left; right|by right].
        -- intros T st' x Hat HT.
           set (P := Component i c k p x (Some c0) cm st') in *.
           assert (NoDup (ids P)) as HndP
             by (eapply At_NoDup; [done|apply HT]).
           assert (At P (id c0) c0) as Hc
             by (by apply (At_child P c0 [] [])).
           specialize (Hruns T (At_trans _ _ _ _ _ Hat Hc) HT).
           rewrite (At_replace_inner T i P (id c0) c0' Hat) in Hruns
             by (eapply At_ids; [exact Hc|apply id_in_ids]).
           replace (Tree.replace (id c0) c0' P)
             with (Component i c k p x (Some c0') cm st') in Hruns; [done|].
           subst P. rewrite replace_eq. cbn [id map_kids].
           destruct (Nat.eqb_spec i (id c0)) as [Hii|_].
           { rewrite ids_eq in HndP. cbn [kids id] in HndP.
             apply NoDup_cons in HndP as [Hni _]. exfalso. apply Hni.
             rewrite ids_of_cons. apply elem_of_app. left.
             rewrite Hii. apply id_in_ids. }
           by rewrite replace_eq, Nat.eqb_refl.
    + apply bind_Ok_inv in Hrun as (w1 & node & Hnode & Hrun).
      injection Hrun as <-.
      destruct (Hcreate d (Some i) w w1 node Hnode Hk)
        as [(Hr & Hp & Hn) (Hwfn & Hrn & Hpn & Hndn & Hrange)].
      exists [replaceChild c0 node (Component i c k p d0 (Some c0) cm st)],
        (Some node), cm.
      destruct Hfit as [Hnd Hb]. split_and!; cbn [kids].
      * split_and!; simpl; [done|by rewrite Hp, app_nil_r|lia].
      * done.
      * by apply Forall_singleton.
      * by apply Forall_singleton.
      * destruct Hslot as [[_ ->]|[[=] _]]. by left.
      * rewrite ids_eq. cbn [kids id]. rewrite ids_of_cons, app_nil_r.
        apply NoDup_cons. split; [|done].
        intros Hj. specialize (Hrange i Hj).
        assert (i < nextId w)%nat by (apply Hb; rewrite ids_eq; by left).
        lia.
      * intros j. rewrite !ids_eq. cbn [kids id add_patches nextId].
        rewrite !ids_of_cons, !app_nil_r, !elem_of_cons.
        intros [->|Hj]; [by left; left|]. right. auto.
      * intros T st' x Hat HT.
        pose proof (runs_replaceChild c0 node
                      (Component i c k p d0 (Some c0) cm st) T i c k p x c0
                      cm st' Hat) as Hruns.
        by rewrite (set_parentNode_same _ _ Hpn) in Hruns.
  - (* a child, and nothing to render *)
    injection Hrun as <-.
    exists [removeChild c0 (Component i c k p d0 (Some c0) cm st)], None,
      (Some (Component.createComment i c)).
    destruct Hfit as [Hnd Hb]. split_and!; cbn [kids].
    + apply extends_addPatch.
    + done.
    + constructor.
    + constructor.
    + right. by split.
    + rewrite ids_eq. cbn [kids id]. apply NoDup_singleton.
    + intros j. rewrite !ids_eq. cbn [kids id].
      rewrite !elem_of_cons. intros [->|Hj%elem_of_nil]; [|done]. by left; left.
    + intros T st' x Hat HT.
      apply (runs_removeChild c0 (Component i c k p d0 (Some c0) cm st) T
               i c k p x c0 cm st' Hat).
  - (* no child, and something to render *)
    specialize (Hk d eq_refl).
    apply bind_Ok_inv in Hrun as (w1 & node & Hnode & Hrun).
    injection Hrun as <-.
    destruct (Hcreate d (Some i) w w1 node Hnode Hk)
      as [(Hr & Hp & Hn) (Hwfn & Hrn & Hpn & Hndn & Hrange)].
    destruct Hslot as [[[? [=]] _]|[_ [cm0 ->]]].
    exists [appendChild node (Component i c k p d0 None (Some cm0) st)],
      (Some node), None.
    destruct Hfit as [Hnd Hb]. split_and!; cbn [kids].
    + split_and!; simpl; [done|by rewrite Hp, app_nil_r|lia].
    + done.
    + by apply Forall_singleton.
    + by apply Forall_singleton.
    + by left.
    + rewrite ids_eq. cbn [kids id]. rewrite ids_of_cons, app_nil_r.
      apply NoDup_cons. split; [|done].
      intros Hj. specialize (Hrange i Hj).
      assert (i < nextId w)%nat by (apply Hb; rewrite ids_eq; by left).
      lia.
    + intros j. rewrite !ids_eq. cbn [kids id add_patches nextId].
      rewrite !ids_of_cons, !app_nil_r, !elem_of_cons.
      intros [->|Hj]; [by left; left|]. right. auto.
    + intros T st' x Hat HT.
      pose proof (runs_appendChild node
                    (Component i c k p d0 None (Some cm0) st) T i c k p x
                    cm0 st' Hat) as Hruns.
      by rewrite (set_parentNode_same _ _ Hpn) in Hruns.
  - (* neither *)
    injection Hrun as <-. exists [], None, cm.
    split; [apply extends_refl|]. split_and!; try done.
    + apply Hfit.
    + by left.
    + intros T st' x Hat _. rewrite (replace_same _ _ _ Hat).
      apply runs_nil.
Qed.

(** The part of [Diff.componentPatches] after the short-circuit: render,
    diff the child, update the description.  [top] says whether the
    component is the root. *)
Lemma component_update (top : bool) (i c : nat) (k : option Key)
    (p : option nat) (d0 : Description) (child : option VirtualNode)
    (cm : option Comment) (st : option Props) (d : Description)
    (w w' : World) :
  (childDescription ←
     Diff.Renderer_render toolkit c (Description.props d)
       (Description.children d);
   Diff.componentChildPatches create cp child childDescription
     (Component i c k p d0 child cm st) ;;
   Diff.addPatch (updateNode (Component i c k p d0 child cm st) d0 d)) w
  = (w', Ok tt) ->
  node_ok toolkit top (Component i c k p d0 child cm st) ->
  Forall (well_formed toolkit) (kids (Component i c k p d0 child cm st)) ->
  Description.isCompatible d0 d = true ->
  K d ->
  fits (Component i c k p d0 child cm st) (nextId w) ->
  exists ps child' cm',
    extends w w' ps
    /\ node_ok toolkit top (Component i c k p d child' cm' st)
    /\ Forall (well_formed toolkit)
         (kids (Component i c k p d child' cm' st))
    /\ NoDup (ids (Component i c k p d child' cm' st))
    /\ (forall j, j ∈ ids (Component i c k p d child' cm' st) ->
                  j ∈ ids (Component i c k p d0 child cm st)
                  \/ (nextId w <= j < nextId w')%nat)
    /\ forall T st',
         At T i (Component i c k p d0 child cm st') ->
         fits T (nextId w) ->
         runs ps T (Tree.replace i (Component i c k p d child' cm' st') T).
Proof.
  intros Hrun (Hown & Hpar & _ & Hslot & Htop) Hwf Hcompat HKd Hfit.
  cbn [description] in Hown. cbn [renders] in Hown.
  destruct Hown as ((k0 & p0 & ch0 & ->) & _ & _).
  destruct d as [|c' k1 p1 ch1]; [done|].
  cbn [Description.isCompatible] in Hcompat.
  apply Nat.eqb_eq in Hcompat as <-.
  apply bind_Ok_inv in Hrun as (w0 & rendered & Hrender & Hrun).
  unfold Diff.Renderer_render, Diff.lift in Hrender.
  cbn [Description.props Description.children] in Hrender.
  injection Hrender as <- Hrender.
  apply bind_Ok_inv in Hrun as (w1 & [] & Hchild & Hupd).
  injection Hupd as <-.
  cbn [id] in Hpar.
  destruct (componentChildPatches_ok i c k p _ child cm st rendered w w1
              Hchild Hwf Hpar Hslot Hfit)
    as (ps & child' & cm' & Hext & Hholds & Hwf' & Hpar' & Hslot' & Hnd'
        & Hb' & Hruns).
  { intros x ->. by eapply (keyed_on_rendered toolkit K HK). }
  set (d0 := ComponentDescription c k0 p0 ch0) in *.
  set (d := ComponentDescription c k1 p1 ch1) in *.
  exists (ps ++ [updateNode (Component i c k p d0 child cm st) d0 d]),
    child', cm'.
  destruct Hext as (Hr & Hp & Hn). split_and!.
  - split_and!; simpl; [done|by rewrite Hp, app_assoc|done].
  - split_and!; try done.
    + cbn [description renders]. split_and!; [by eexists _, _, _|by left|].
      unfold d. cbn [render_of]. rewrite Hrender. unfold holds in Hholds.
      destruct rendered, child'; done.
    + destruct child' as [x|]; cbn [kids fmap list_fmap];
        [apply NoDup_singleton|constructor].
  - done.
  - done.
  - done.
  - intros T st' Hat HT. cbn [add_patches nextId] in *.
    destruct (fits_replace T i (Component i c k p d0 child cm st')
                (Component i c k p d0 child' cm' st') (nextId w) (nextId w1)
                Hat HT eq_refl Hnd' Hb' Hn) as [Hat1 _].
    eapply runs_app; [by apply Hruns|].
    pose proof (runs_updateNode (Component i c k p d0 child cm st) _ d0 d _
                  Hat1) as Hu.
    cbn [set_description id] in Hu.
    rewrite (replace_replace T i _ (Component i c k p d0 child' cm' st')
               (Component i c k p d child' cm' st') Hat eq_refl) in Hu.
    exact Hu.
Qed.

(** [Diff.componentPatches] on a component inside a well-formed tree. *)
Lemma componentPatches_ok (n : VirtualNode) (d : Description)
    (w w' : World) :
  isComponent n = true ->
  Diff.componentPatches toolkit create cp n d w = (w', Ok tt) ->
  well_formed toolkit n ->
  Description.isCompatible (description n) d = true ->
  K d -> fits n (nextId w) ->
  exists ps n',
    extends w w' ps /\ updated toolkit n n' d (nextId w) (nextId w') ps.
Proof.
  intros Hc Hrun Hwf Hcompat HKd Hfit.
  destruct n as [|i c k p d0 child cm st]; [done|clear Hc].
  pose proof Hwf as [Hok Hkids]%well_formed_eq.
  pose proof Hok as (_ & _ & _ & _ & Htop).
  unfold Diff.componentPatches in Hrun.
  cbn [description Diff.isRoot Diff.constructor_of Node.child] in Hrun, Hcompat.
  rewrite Htop, andb_true_r in Hrun.
  destruct (Diff.deepEqual d0 d) eqn:Heq.
  { injection Hrun as <-. exists [], (Component i c k p d0 child cm st).
    split; [apply extends_refl|]. destruct Hfit as [Hnd Hb].
    split_and!; try done.
    - eapply (renders_deepEqual_on toolkit K); [done|done|done| |exact Heq].
      by apply (well_formed_renders toolkit
                  (Component i c k p d0 child cm st)).
    - by left.
    - intros T Hat _. cbn [id] in *. rewrite (replace_same _ _ _ Hat).
      apply runs_nil. }
  destruct (component_update false i c k p d0 child cm st d w w' Hrun Hok
              Hkids Hcompat HKd Hfit)
    as (ps & child' & cm' & Hext & Hok' & Hkids' & Hnd' & Hb' & Hruns).
  exists ps, (Component i c k p d child' cm' st). split; [done|].
  split_and!; try done.
  - apply Hok'.
  - by apply well_formed_eq.
  - intros T Hat HT. by apply Hruns.
Qed.
(** *** The diff of a component returns *)

Context (P : Description -> Prop).
Hypothesis Hcreate_returns : create_returns P create.
Hypothesis Hcp_returns : patches_return toolkit K P cp.

Lemma componentChildPatches_returns (i c : nat) (k : option Key)
    (p : option nat) (d0 : Description) (child : option VirtualNode)
    (cm : option Comment) (st : option Props)
    (rendered : option Description) (w : World) :
  Forall (well_formed toolkit) (kids (Component i c k p d0 child cm st)) ->
  fits (Component i c k p d0 child cm st) (nextId w) ->
  (forall d, rendered = Some d -> K d /\ P d) ->
  exists w',
    Diff.componentChildPatches create cp child rendered
      (Component i c k p d0 child cm st) w = (w', Ok tt).
Proof.
  intros Hwf Hfit HP. unfold Diff.componentChildPatches.
  destruct child as [c0|], rendered as [d|]; try (by eexists).
  - destruct (HP d eq_refl) as [Hk HPd]. cbn [kids] in Hwf.
    rewrite Forall_singleton in Hwf.
    assert (Hfit0 : fits c0 (nextId w)).
    { eapply At_fits; [|exact Hfit].
      apply (At_child _ c0 [] []); [apply Hfit|done]. }
    destruct (Description.isCompatible (description c0) d) eqn:Hcompat.
    + destruct (Diff.deepEqual (description c0) d); [by eexists|].
      by apply Hcp_returns.
    + destruct (Hcreate_returns d (Some i) w HPd) as (w1 & node & Hn).
      cbn [id]. erewrite bind_ok by exact Hn. by eexists.
  - destruct (HP d eq_refl) as [Hk HPd].
    destruct (Hcreate_returns d (Some i) w HPd) as (w1 & node & Hn).
    cbn [id]. erewrite bind_ok by exact Hn. by eexists.
Qed.

(** What a component renders for a description is in [P]. *)
Definition renders_in (d : Description) : Prop :=
  match render_of toolkit d with
  | Ok (Some d') => P d'
  | Ok None => True
  | Throw _ => False
  end.

Lemma componentPatches_returns (top : bool) (n : VirtualNode)
    (d : Description) (w : World) :
  isComponent n = true ->
  renders_in d ->
  K d ->
  node_ok toolkit top n ->
  Forall (well_formed toolkit) (kids n) ->
  Description.isCompatible (description n) d = true ->
  fits n (nextId w) ->
  exists w', Diff.componentPatches toolkit create cp n d w = (w', Ok tt).
Proof.
  intros Hc Hr HKd (Hown & _) Hwf Hcompat Hfit.
  destruct n as [|i c k p d0 child cm st]; [done|clear Hc].
  unfold Diff.componentPatches.
  cbn [description Diff.constructor_of Node.child] in Hcompat, Hown |- *.
  match goal with
  | |- exists w', (if ?b then _ else _) _ = _ => destruct b
  end; [by eexists|].
  cbn [renders] in Hown. destruct Hown as ((k0 & p0 & ch0 & ->) & _).
  destruct d as [|c1 k1 p1 ch1]; [done|].
  cbn [Description.isCompatible] in Hcompat.
  apply Nat.eqb_eq in Hcompat as <-.
  unfold renders_in in Hr. cbn [render_of] in Hr.
  cbn [Description.props Description.children].
  unfold Diff.Renderer_render, Diff.lift.
  unfold mbind at 1, M_bind at 1.
  destruct (render toolkit c (default [] p1) (default [] ch1))
    as [rendered|] eqn:Hrender; [|done].
  destruct (componentChildPatches_returns i c k p
              (ComponentDescription c k0 p0 ch0) child cm st rendered w
              Hwf Hfit) as [w1 Hw1].
  { intros d' ->.
    split; [by eapply (keyed_on_rendered toolkit K HK)|done]. }
  erewrite bind_ok by exact Hw1. by eexists.
Qed.
End component_diffs.

(** ** [Diff.childPatches] *)

Section child_diffs.
Import Node.
Context (toolkit : Toolkit).
Context (K : Description -> Prop).
Hypothesis HK : keyed_on toolkit K.
Hypothesis Hpure : pure_on toolkit K.

Lemma createFromDescription_ok (fuel : nat) :
  create_ok toolkit K (Diff.createFromDescription toolkit fuel).
Proof.
  intros d p w w' node Hrun Hk.
  by apply (createFromDescription_made toolkit K HK fuel d p w w' node).
Qed.

Lemma childPatches_ok (fuel depth : nat) :
  patches_ok toolkit K (Diff.childPatches toolkit fuel depth).
Proof.
  induction depth as [|depth IH]; intros n d w w' Hrun Hwf Hcompat Hk Hfit;
    [done|].
  cbn [Diff.childPatches] in Hrun.
  destruct (isComponent n) eqn:Hc.
  - destruct (Diff.isRoot toolkit n); [done|].
    by eapply (componentPatches_ok toolkit K HK Hpure
                 (Diff.createFromDescription toolkit fuel)
                 (Diff.childPatches toolkit fuel depth)
                 (createFromDescription_ok fuel) IH).
  - by eapply (elementPatches_ok toolkit K HK Hpure
                 (Diff.createFromDescription toolkit fuel)
                 (Diff.childPatches toolkit fuel depth)
                 (createFromDescription_ok fuel) IH).
Qed.
Lemma childPatches_returns (fuel depth : nat) :
  (depth <= fuel)%nat ->
  patches_return toolkit K (renderable toolkit depth)
    (Diff.childPatches toolkit fuel depth).
Proof.
  induction depth as [|depth IH]; intros Hle n d w HP Hwf Hcompat Hk Hfit;
    [done|].
  assert (create_returns (renderable toolkit depth)
            (Diff.createFromDescription toolkit fuel)) as Hcreate.
  { intros x p w0 Hx. apply createFromDescription_returns.
    eapply renderable_mono; [|exact Hx]. lia. }
  assert (patches_return toolkit K (renderable toolkit depth)
            (Diff.childPatches toolkit fuel depth)) as Hcp
    by (apply IH; lia).
  pose proof Hwf as [Hok Hkids]%well_formed_eq.
  cbn [Diff.childPatches].
  destruct n as [i k p d0 ch|i c k p d0 child cm st]; cbn [isComponent].
  - assert (Forall (renderable toolkit depth)
              (default [] (Description.children d))) as HPd.
    { destruct Hok as (Hown & _). cbn [description] in Hown, Hcompat.
      apply renders_element in Hown as (Hd0 & _).
      destruct d0; [|done]. destruct d; [exact HP|done]. }
    by apply (elementPatches_returns toolkit K HK Hpure
                (Diff.createFromDescription toolkit fuel)
                (Diff.childPatches toolkit fuel depth)
                (createFromDescription_ok fuel)
                (childPatches_ok fuel depth)
                (renderable toolkit depth) Hcreate Hcp).
  - pose proof Hok as (Hown & _ & _ & _ & Htop).
    cbn [Diff.isRoot]. rewrite Htop.
    apply (componentPatches_returns toolkit K HK
             (Diff.createFromDescription toolkit fuel)
             (Diff.childPatches toolkit fuel depth)
             (renderable toolkit depth) Hcreate Hcp false); try done.
    destruct d as [|c1 k1 p1 ch1]; [by destruct d0|].
    unfold renders_in. cbn [render_of]. by destruct HP as [_ ?].
Qed.
End child_diffs.

(** ** An update of the root *)

Section root_update.
Import Node.
Context (toolkit : Toolkit).
Context (K : Description -> Prop).
Hypothesis HK : keyed_on toolkit K.
Hypothesis Hpure : pure_on toolkit K.

Lemma renders_set_state (s : option Props) (n : VirtualNode)
    (d : Description) :
  renders toolkit (set_state s n) d <-> renders toolkit n d.
Proof. by destruct n. Qed.

Lemma well_formed_root_set_state (s : option Props) (n : VirtualNode) :
  well_formed_root toolkit (set_state s n) <-> well_formed_root toolkit n.
Proof. by destruct n. Qed.

Lemma ids_set_state (s : option Props) (n : VirtualNode) :
  ids (set_state s n) = ids n.
Proof. by destruct n. Qed.

(** Applying the patches of a diff whose patches run. *)
Lemma apply_runs (w : World) (T' : VirtualNode) :
  runs (patches w) (root w) T' ->
  exists ev,
    Diff.apply toolkit w = (mkWorld T' (patches w) (nextId w) ev, Ok tt).
Proof.
  intros Hruns. unfold Diff.apply, mbind, M_bind, get_state.
  destruct w as [T ps i ev]. cbn [patches root nextId events] in *.
  destruct ps as [|q ps].
  - destruct (Hruns [] i ev) as [ev' E]. injection E as <- <-.
    by exists ev.
  - unfold Diff.emit_all. cbn [patches root nextId events].
    destruct (Hruns (q :: ps) i
                (ev ++ Lifecycle.beforeUpdate toolkit (q :: ps)))
      as [ev' E].
    rewrite E. cbn [patches root nextId events]. by eexists.
Qed.

(** [Diff.componentPatches] on the root. *)
Lemma root_componentPatches (fuel depth : nat) (R : VirtualNode)
    (d : Description) (w w' : World) :
  Diff.componentPatches toolkit (Diff.createFromDescription toolkit fuel)
    (Diff.childPatches toolkit fuel depth) R d w = (w', Ok tt) ->
  well_formed_root toolkit R ->
  Description.isCompatible (description R) d = true ->
  K d ->
  fits R (nextId w) ->
  exists ps R',
    extends w w' ps
    /\ well_formed_root toolkit R'
    /\ renders toolkit R' d
    /\ fits R' (nextId w')
    /\ Diff.constructor_of R' = Diff.constructor_of R
    /\ forall st', runs ps (set_state st' R) (set_state st' R').
Proof.
  intros Hrun [Hok Hkids] Hcompat HKd Hfit.
  destruct R as [i k p d0 ch|i c k p d0 child cm st].
  { by destruct Hok as (_ & _ & _ & _ & ?). }
  unfold Diff.componentPatches in Hrun.
  cbn [description Diff.constructor_of Node.child] in Hrun, Hcompat.
  match type of Hrun with
  | (if ?b then _ else _) _ = _ => destruct b eqn:Hskip
  end.
  { injection Hrun as <-. apply andb_true_iff in Hskip as [Heq _].
    exists [], (Component i c k p d0 child cm st).
    split; [apply extends_refl|]. split_and!; try done.
    - eapply (renders_deepEqual_on toolkit K); [done|done|done| |exact Heq]. apply Hok.
    - intros st'. apply runs_nil. }
  destruct (component_update toolkit K HK Hpure
              (Diff.createFromDescription toolkit fuel)
              (Diff.childPatches toolkit fuel depth)
              (createFromDescription_ok toolkit K HK fuel)
              (childPatches_ok toolkit K HK Hpure fuel depth)
              true i c k p d0 child cm st d w w' Hrun Hok Hkids Hcompat HKd
              Hfit)
    as (ps & child' & cm' & Hext & Hok' & Hkids' & Hnd' & Hb' & Hruns).
  exists ps, (Component i c k p d child' cm' st). split; [done|].
  split_and!; try done.
  - apply Hok'.
  - split; [done|]. intros j Hj. destruct Hext as (_ & _ & Hn).
    destruct (Hb' j Hj) as [Hold|?]; [|lia].
    destruct Hfit as [_ Hb]. specialize (Hb j Hold). lia.
  - intros st'. cbn [set_state].
    specialize (Hruns (Component i c k p d0 child cm st') st').
    rewrite replace_eq in Hruns. cbn [id] in Hruns.
    rewrite Nat.eqb_refl in Hruns. apply Hruns; [constructor|].
    destruct Hfit as [Hnd Hb]. by split.
Qed.

(** What [Renderer.update] does to the tree of a root that has a state:
    nothing when the next state is deep-equal to it, and otherwise the
    tree becomes a rendering of the next state. *)
Lemma update_ok_on (fuel : nat) (prev next : option Props) (w w' : World)
    (ps : list Patch) :
  Renderer.update toolkit fuel prev next w = (w', Ok ps) ->
  Diff.isDefined prev = true ->
  well_formed_root toolkit (root w) ->
  fits (root w) (nextId w) ->
  K (Diff.describe_root (Diff.constructor_of (root w)) next) ->
  (DeepEqual.deepEqual (Diff.state_value prev) (Diff.state_value next) = true
   /\ root w' = root w /\ nextId w' = nextId w)
  \/ (DeepEqual.deepEqual (Diff.state_value prev) (Diff.state_value next)
      = false
      /\ well_formed_root toolkit (root w')
      /\ fits (root w') (nextId w')
      /\ renders toolkit (root w')
           (Diff.describe_root (Diff.constructor_of (root w)) next)
      /\ Diff.constructor_of (root w') = Diff.constructor_of (root w)
      /\ state (root w') = next).
Proof.
  intros Hrun Hdef Hwf Hfit HKd. unfold Renderer.update in Hrun.
  apply bind_Ok_inv in Hrun as (w0 & [] & Hreset & Hrun).
  injection Hreset as <-.
  apply bind_Ok_inv in Hrun as (w1 & ps1 & Hroot & Hrun).
  apply bind_Ok_inv in Hrun as (w2 & [] & Happly & Hrun).
  unfold mbind, M_bind, get_state, mret, M_ret in Hrun.
  injection Hrun as <- <-.
  unfold Diff.rootPatches in Hroot. rewrite Hdef in Hroot.
  unfold mbind at 1, M_bind at 1, get_state in Hroot.
  unfold mbind at 1, M_bind at 1, mret at 1, M_ret at 1 in Hroot.
  cbn [root patches nextId events] in Hroot.
  destruct (DeepEqual.deepEqual (Diff.state_value prev)
              (Diff.state_value next)) eqn:Hsame.
  { left. injection Hroot as <- <-.
    unfold Diff.apply, mbind, M_bind, get_state in Happly.
    cbn [patches] in Happly. injection Happly as <-. by split_and!. }
  right. split; [done|].
  apply bind_Ok_inv in Hroot as (wa & [] & Hcomp & Hroot).
  unfold Diff.set_root_state, mbind, M_bind, get_state, mret, M_ret in Hroot.
  cbn [patches] in Hroot. injection Hroot as <- <-.
  set (D := Diff.describe_root (Diff.constructor_of (root w)) next) in *.
  assert (Hcompat : Description.isCompatible (description (root w)) D = true).
  { destruct Hwf as [(Hown & _ & _ & _ & Htop) _]. clear Hcomp Hfit.
    subst D. destruct (root w); [done|].
    cbn [description renders] in Hown.
    destruct Hown as ((k0 & p0 & ch0 & ->) & _).
    unfold Diff.describe_root. cbn [Diff.constructor_of].
    destruct next as [[|? ?]|]; cbn [Description.isCompatible];
      by apply Nat.eqb_refl. }
  destruct (root_componentPatches fuel fuel (root w) D _ wa Hcomp Hwf Hcompat
              HKd Hfit)
    as (qs & R' & (Hr & Hp & Hn) & Hwf' & Hren & Hfit' & Hctor & Hruns).
  cbn [root patches nextId events] in Hr, Hp, Hn.
  destruct (apply_runs
              (mkWorld (set_state next (root wa)) (patches wa) (nextId wa)
                 (events wa)) (set_state next R')) as [ev Happly'].
  { cbn [patches root]. rewrite Hr, Hp. apply Hruns. }
  rewrite Happly' in Happly. injection Happly as <-.
  cbn [root nextId]. split_and!.
  - by apply well_formed_root_set_state.
  - destruct Hfit' as [? ?]. split; by rewrite ids_set_state.
  - by apply renders_set_state.
  - rewrite <- Hctor. by destruct R'.
  - destruct Hwf' as [(_ & _ & _ & _ & Htop) _]. by destruct R'.
Qed.
(** The patches of a diff that was computed always apply: an update can
    only fail while the diff is computed, where a component may throw as
    it renders. *)
Lemma update_returns (fuel : nat) (prev next : option Props)
    (w wa : World) (qs : list Patch) :
  Diff.rootPatches toolkit fuel prev next
    (mkWorld (root w) [] (nextId w) (events w)) = (wa, Ok qs) ->
  Diff.isDefined prev = true ->
  well_formed_root toolkit (root w) ->
  fits (root w) (nextId w) ->
  K (Diff.describe_root (Diff.constructor_of (root w)) next) ->
  exists w' ps, Renderer.update toolkit fuel prev next w = (w', Ok ps).
Proof.
  intros Hroot Hdef Hwf Hfit HKd. unfold Renderer.update.
  unfold mbind at 1, M_bind at 1. unfold mbind at 1, M_bind at 1.
  rewrite Hroot. unfold mbind at 1, M_bind at 1.
  assert (exists T', runs (patches wa) (root wa) T') as [T' Hruns].
  { unfold Diff.rootPatches in Hroot. rewrite Hdef in Hroot.
    unfold mbind at 1, M_bind at 1, get_state in Hroot.
    unfold mbind at 1, M_bind at 1, mret at 1, M_ret at 1 in Hroot.
    cbn [root patches nextId events] in Hroot.
    destruct (DeepEqual.deepEqual (Diff.state_value prev)
                (Diff.state_value next)).
    { injection Hroot as <- <-. eexists. apply runs_nil. }
    apply bind_Ok_inv in Hroot as (wb & [] & Hcomp & Hroot).
    unfold Diff.set_root_state, mbind, M_bind, get_state, mret, M_ret
      in Hroot.
    cbn [patches] in Hroot. injection Hroot as <- <-.
    set (D := Diff.describe_root (Diff.constructor_of (root w)) next) in *.
    assert (Hcompat : Description.isCompatible (description (root w)) D
                      = true).
    { destruct Hwf as [(Hown & _ & _ & _ & Htop) _]. clear Hcomp Hfit.
      subst D. destruct (root w); [done|].
      cbn [description renders] in Hown.
      destruct Hown as ((k0 & p0 & ch0 & ->) & _).
      unfold Diff.describe_root. cbn [Diff.constructor_of].
      destruct next as [[|? ?]|]; cbn [Description.isCompatible];
        by apply Nat.eqb_refl. }
    destruct (root_componentPatches fuel fuel (root w) D _ wb Hcomp Hwf
                Hcompat HKd Hfit)
      as (ps & R' & (Hr & Hp & Hn) & _ & _ & _ & _ & Hruns).
    cbn [root patches nextId events] in Hr, Hp, Hn.
    exists (set_state next R'). cbn [patches root]. rewrite Hr, Hp.
    apply Hruns. }
  destruct (apply_runs wa T' Hruns) as [ev ->].
  by eexists _, _.
Qed.
(** The root of class [c] renders the state, and what it renders can be
    made within the fuel. *)
Definition state_renderable (fuel c : nat) (s : option Props) : Prop :=
  renders_in toolkit (renderable toolkit fuel) (Diff.describe_root c s).

Lemma rootPatches_returns (fuel : nat) (prev next : option Props)
    (w : World) :
  Diff.isDefined prev = true ->
  well_formed_root toolkit (root w) ->
  fits (root w) (nextId w) ->
  K (Diff.describe_root (Diff.constructor_of (root w)) next) ->
  state_renderable fuel (Diff.constructor_of (root w)) next ->
  exists w' ps, Diff.rootPatches toolkit fuel prev next w = (w', Ok ps).
Proof.
  intros Hdef Hwf Hfit HKd Hr. unfold Diff.rootPatches. rewrite Hdef.
  unfold mbind at 1, M_bind at 1, get_state.
  unfold mbind at 1, M_bind at 1, mret at 1, M_ret at 1.
  destruct (DeepEqual.deepEqual (Diff.state_value prev)
              (Diff.state_value next)); [by eexists _, _|].
  set (D := Diff.describe_root (Diff.constructor_of (root w)) next) in *.
  assert (Hcompat : Description.isCompatible (description (root w)) D = true
                    /\ isComponent (root w) = true).
  { destruct Hwf as [(Hown & _ & _ & _ & Htop) _]. clear Hfit Hr.
    subst D. destruct (root w); [done|].
    cbn [description renders] in Hown.
    destruct Hown as ((k0 & p0 & ch0 & ->) & _).
    unfold Diff.describe_root. cbn [Diff.constructor_of].
    split; [|done].
    destruct next as [[|? ?]|]; cbn [Description.isCompatible];
      by apply Nat.eqb_refl. }
  destruct Hcompat as [Hcompat Hcomp]. destruct Hwf as [Hok Hkids].
  destruct (componentPatches_returns toolkit K HK
              (Diff.createFromDescription toolkit fuel)
              (Diff.childPatches toolkit fuel fuel)
              (renderable toolkit fuel)
              (fun d p w0 Hd => createFromDescription_returns toolkit fuel d
                                  p w0 Hd)
              (childPatches_returns toolkit K HK Hpure fuel fuel
                 (Nat.le_refl fuel))
              true (root w) D w Hcomp Hr HKd Hok Hkids Hcompat Hfit)
    as [w1 Hw1].
  erewrite bind_ok by exact Hw1. by eexists _, _.
Qed.

(** An update to a state that can be rendered returns. *)
Lemma update_total_on (fuel : nat) (prev next : option Props) (w : World) :
  Diff.isDefined prev = true ->
  well_formed_root toolkit (root w) ->
  fits (root w) (nextId w) ->
  K (Diff.describe_root (Diff.constructor_of (root w)) next) ->
  state_renderable fuel (Diff.constructor_of (root w)) next ->
  exists w' ps, Renderer.update toolkit fuel prev next w = (w', Ok ps).
Proof.
  intros Hdef Hwf Hfit HKd Hr.
  destruct (rootPatches_returns fuel prev next
              (mkWorld (root w) [] (nextId w) (events w)) Hdef Hwf Hfit HKd
              Hr)
    as (wa & qs & Hroot).
  by eapply update_returns.
Qed.
End root_update.

(** The same for a toolkit whose components render nothing but lists with
    distinct keys, and render deep-equal descriptions alike. *)
Lemma update_ok (toolkit : Toolkit) :
  keyed_render toolkit -> pure_render toolkit ->
  forall (fuel : nat) (prev next : option Props) (w w' : World)
         (ps : list Patch),
    Renderer.update toolkit fuel prev next w = (w', Ok ps) ->
    Diff.isDefined prev = true ->
    well_formed_root toolkit (root w) ->
    fits (root w) (nextId w) ->
    (DeepEqual.deepEqual (Diff.state_value prev) (Diff.state_value next)
     = true
     /\ root w' = root w /\ nextId w' = nextId w)
    \/ (DeepEqual.deepEqual (Diff.state_value prev) (Diff.state_value next)
        = false
        /\ well_formed_root toolkit (root w')
        /\ fits (root w') (nextId w')
        /\ renders toolkit (root w')
             (Diff.describe_root (Diff.constructor_of (root w)) next)
        /\ Diff.constructor_of (root w') = Diff.constructor_of (root w)
        /\ Node.state (root w') = next).
Proof.
  intros Hkeyed Hpure fuel prev next w w' ps Hrun Hdef Hwf Hfit.
  apply (update_ok_on toolkit keyed (keyed_render_on toolkit Hkeyed)
           (pure_render_on toolkit keyed Hpure) fuel prev next w w' ps);
    try done.
  unfold Diff.describe_root. by destruct next as [[|? ?]|].
Qed.

Lemma update_total (toolkit : Toolkit) :
  keyed_render toolkit -> pure_render toolkit ->
  forall (fuel : nat) (prev next : option Props) (w : World),
    Diff.isDefined prev = true ->
    well_formed_root toolkit (root w) ->
    fits (root w) (nextId w) ->
    state_renderable toolkit fuel (Diff.constructor_of (root w)) next ->
    exists w' ps, Renderer.update toolkit fuel prev next w = (w', Ok ps).
Proof.
  intros Hkeyed Hpure fuel prev next w Hdef Hwf Hfit Hr.
  apply (update_total_on toolkit keyed (keyed_render_on toolkit Hkeyed)
           (pure_render_on toolkit keyed Hpure)); try done.
  unfold Diff.describe_root. by destruct next as [[|? ?]|].
Qed.

(** ** The description of the root for deep-equal states *)

Section root_descriptions.
Import Node DeepEqual.

Lemma get_absent (k : string) (l : list (string * value)) :
  k ∉ l.*1 -> get k l = VUndefined.
Proof.
  induction l as [|[k' v] l IH]; [done|].
  rewrite fmap_cons, not_elem_of_cons. intros [Hne Hl]. simpl in *.
  destruct (String.eqb_spec k' k); [congruence|auto].
Qed.

(** Deep-equal objects hold deep-equal values under every key. *)
Lemma deepEqual_get (c c' : nat) (f f' : list (string * value))
    (k : string) :
  deepEqual (VObj c f) (VObj c' f') = true ->
  deepEqual (get k f) (get k f') = true.
Proof.
  intros (_ & _ & Hkeys & Hall)%deepEqual_obj.
  destruct (decide (k ∈ f.*1)) as [Hin|Hout].
  - apply get_elem_of in Hin.
    by apply (proj1 (Forall_forall _ _) Hall (k, get k f)).
  - rewrite (get_absent k f Hout), get_absent; [done|].
    intros Hin. apply Hout.
    rewrite <- (string_sort_perm f.*1), Hkeys.
    by rewrite (string_sort_perm f'.*1).
Qed.



End root_descriptions.

(** ** Structural equality of trees *)

Section structure.
Import Node.




End structure.

(** ** The round trip *)

Section round_trip.
Import Node.
Context (toolkit : Toolkit).

Section on.
Context (K : Description -> Prop).
Hypothesis HK : keyed_on toolkit K.
Hypothesis Hpure : pure_on toolkit K.


End on.

End round_trip.

(** ** Round trips on lists *)

Section round_trip_examples.
Import Node DeepEqual.

Definition list_item (key : option Key) (label : string) : Description :=
  ElementDescription "li" key
    (mkElementFields None None None None None None None (Some label)) None.

Definition list_of (items : list Description) : Description :=
  ElementDescription "ul" None
    (mkElementFields None None None None None None None None) (Some items).

(** A toolkit, not in debug mode, whose components render the view that
    their prop [v] selects; [10] is the root class. *)
Definition view_toolkit (views : Z -> option Description) : Toolkit :=
  mkToolkit false (fun c => (c =? 10)%nat) (fun _ _ => false)
    (fun _ props _ =>
       match get "v" props with
       | VNum n => Ok (views n)
       | _ => Ok None
       end).

Definition in_state (n : Z) : Props := [("v"%string, VNum n)].

(** A root of class [10] in the state [n], over the list [l]. *)
Definition list_root (n : Z) (l : Description) (kids : list VirtualNode)
    : VirtualNode :=
  Component 0 10 None None
    (ComponentDescription 10 None (Some (in_state n)) None)
    (Some (VirtualElement 1 None (Some 0%nat) l (Some kids)))
    None (Some (in_state n)).

Definition item_node (id : nat) (key : option Key) (label : string)
    : VirtualNode :=
  VirtualElement id key (Some 1%nat) (list_item key label) None.




(** Views with a key for every item. *)
Definition unique (n : Z) : option Description :=
  if n =? 0 then
    Some (list_of [list_item (Some (KeyNum 1)) "a";
                   list_item (Some (KeyNum 2)) "b";
                   list_item (Some (KeyNum 3)) "c"])
  else if n =? 1 then
    Some (list_of [list_item (Some (KeyNum 3)) "c";
                   ComponentDescription 11 (Some (KeyNum 4))
                     (Some (in_state 2)) None;
                   list_item (Some (KeyNum 1)) "a!"])
  else if n =? 2 then Some (list_item None "d")
  else None.

Definition unique_world : World :=
  mkWorld
    (list_root 0
       (list_of [list_item (Some (KeyNum 1)) "a";
                 list_item (Some (KeyNum 2)) "b";
                 list_item (Some (KeyNum 3)) "c"])
       [item_node 2 (Some (KeyNum 1)) "a"; item_node 3 (Some (KeyNum 2)) "b";
        item_node 4 (Some (KeyNum 3)) "c"])
    [] 5 [].

Definition after (toolkit : Toolkit) (next : Z) (w : World) : World :=
  fst (Renderer.update toolkit 4 (state (root w)) (Some (in_state next)) w).


(** Deep-equal component descriptions have deep-equal props. *)
Lemma deepEqual_props (c c' : nat) (k k' : option Key) (p p' : option Props)
    (ch ch' : option (list Description)) :
  Diff.deepEqual (ComponentDescription c k p ch)
    (ComponentDescription c' k' p' ch') = true ->
  match p, p' with
  | Some a, Some b => deepEqual (plain a) (plain b) = true
  | None, None => True
  | _, _ => False
  end.
Proof.
  unfold Diff.deepEqual. rewrite !to_value_component.
  intros [_ Hall]%deepEqual_views;
    [|apply (bool_decide_unpack _); vm_compute; exact I|done..].
  unfold component_view in Hall.
  do 2 (apply Forall2_cons in Hall as [_ Hall]).
  apply Forall2_cons in Hall as [Hp _]. by destruct p, p'.
Qed.

Section views.
Context (views : Z -> option Description).

Lemma view_toolkit_keyed :
  (forall n d, views n = Some d -> keyed d) ->
  keyed_render (view_toolkit views).
Proof.
  intros Hv c p ch d. cbn [render view_toolkit].
  destruct (get "v" p); try done. intros [= Hd]. by eapply Hv.
Qed.

Lemma view_toolkit_pure :
  (forall n d, views n = Some d -> Diff.deepEqual d d = true) ->
  pure_render (view_toolkit views).
Proof.
  intros Hv d d' Heq. pose proof (deepEqual_description d d' Heq) as Hd.
  destruct d as [|c k p ch], d' as [|c' k' p' ch']; try done.
  apply deepEqual_props in Heq. cbn [render_of render view_toolkit].
  assert (Hget : deepEqual (get "v" (default [] p)) (get "v" (default [] p'))
                 = true).
  { destruct p as [a|], p' as [b|]; try done.
    by apply (deepEqual_get ObjectCtor ObjectCtor a b). }
  destruct (get "v" (default [] p)) as [| |x|x|x|x|x|? x] eqn:Hp.
  7:{ by apply deepEqual_arr_inv in Hget as [b ->]. }
  7:{ by apply deepEqual_obj_inv in Hget as (? & b & ->). }
  all: rewrite deepEqual_primitive in Hget by done;
    destruct (get "v" (default [] p')); try done.
  simpl in Hget. apply Z.eqb_eq in Hget as <-.
  destruct (views x) as [a|] eqn:Ha; [by eapply Hv|done].
Qed.
End views.


Lemma unique_keyed : keyed_render (view_toolkit unique).
Proof.
  apply view_toolkit_keyed. intros n d. unfold unique.
  repeat case_match; intros [= <-]; cbn; try done;
    split_and!; try done; apply (bool_decide_unpack _); vm_compute; exact I.
Qed.

Lemma unique_pure : pure_render (view_toolkit unique).
Proof.
  apply view_toolkit_pure. intros n d. unfold unique.
  repeat case_match; intros [= <-]; vm_compute; reflexivity.
Qed.

Lemma unique_world_well_formed :
  well_formed_root (view_toolkit unique) (root unique_world).
Proof.
  split.
  - split_and!; try done.
    + cbn. split_and!; try done; try (by left); try (by eexists _, _, _).
    + repeat constructor.
    + cbn. apply NoDup_singleton.
    + by left.
  - cbn [kids unique_world root list_root]. apply Forall_singleton.
    apply well_formed_eq. split.
    + split_and!; try done.
      * cbn. split_and!; try done; by left.
      * repeat constructor.
      * apply (bool_decide_unpack _); vm_compute; exact I.
    + cbn [kids]. repeat constructor; try done;
        try (cbn; split_and!; try done; by left).
Qed.

(** The tree of [unique_world] is the one the first update makes. *)
Lemma unique_world_built :
  root (fst (Renderer.update (view_toolkit unique) 4 None
               (Some (in_state 0)) new_world))
  = root unique_world.
Proof. vm_compute. reflexivity. Qed.

Lemma unique_world_fits : fits (root unique_world) (nextId unique_world).
Proof.
  split; [apply (bool_decide_unpack _); vm_compute; exact I|].
  intros j Hj. vm_compute in Hj. vm_compute.
  repeat (apply elem_of_cons in Hj as [->|Hj]; [lia|]).
  by apply elem_of_nil in Hj.
Qed.

End round_trip_examples.

(** * Further properties of the reconciler *)

Section reconciler_replay.
Context {K : Type} `{JSKey K}.
Import Reconciler.

Lemma valid_at (source l : list K) (before : list (Move.t K))
    (m : Move.t K) (rest : list (Move.t K)) :
  valid source l (before ++ m :: rest) ->
  step_valid source (apply_moves before l) m.
Proof. rewrite valid_app. by intros [_ [? _]]. Qed.

(** X1. Replayed in order on a copy of the source, every move that
    [calculateMoves] returns for duplicate-free sequences applies to the
    list as it is when its turn comes: a removal or a move names the item
    found at its index, which is not negative; a removed item is an item
    of the source; an inserted item is not in the list yet. *)
Theorem calculateMoves_moves_apply_in_turn (source target : list K)
    (favoredToMove : option K) (before : list (Move.t K)) (m : Move.t K)
    (rest : list (Move.t K)) :
  NoDup source -> NoDup target ->
  moves (calculateMoves source target favoredToMove) = before ++ m :: rest ->
  match m with
  | Move.remove x at_ =>
      0 <= at_ /\ apply_moves before source !! Z.to_nat at_ = Some x
      /\ x ∈ source
  | Move.insert x at_ => (x ∉ apply_moves before source) /\ 0 <= at_
  | Move.move x from to =>
      0 <= from /\ apply_moves before source !! Z.to_nat from = Some x
      /\ 0 <= to
  end.
Proof.
  intros Hs Ht Hm.
  pose proof (calculateMoves_valid source target favoredToMove Hs Ht) as Hv.
  rewrite Hm in Hv. apply valid_at in Hv. by destruct m.
Qed.

(** The forward scan makes no move for the last position: at most one
    move for every position but one. *)
Lemma forward_count (target pre rest : list K) (ms : list (Move.t K)) :
  NoDup (pre ++ target) -> rest ≡ₚ target ->
  (length (moves (foldl moveItemIfNeeded
                    {| moves := ms; result := pre ++ rest |}
                    (positions_from (length pre) target)))
   <= length ms + pred (length target))%nat.
Proof.
  revert pre rest ms.
  induction target as [|t target IH]; intros pre rest ms Hnd Hperm.
  { simpl. lia. }
  rewrite positions_from_cons, foldl_step.
  assert (Hnd' : NoDup (pre ++ rest)) by (by rewrite Hperm).
  apply Permutation_cons_inv_r in Hperm as (m & r & -> & Hperm).
  assert (Htpre : t ∉ pre).
  { apply NoDup_app in Hnd as (_ & Hd & _). intros Hin.
    apply (Hd _ Hin). left. }
  assert (Htm : t ∉ m).
  { apply NoDup_app in Hnd' as (_ & _ & Hr).
    apply NoDup_app in Hr as (_ & Hd & _). intros Hin.
    apply (Hd _ Hin). left. }
  assert (Hnext : NoDup ((pre ++ [t]) ++ target))
    by (by rewrite <- app_assoc).
  specialize (IH (pre ++ [t]) (m ++ r)).
  rewrite length_app, Nat.add_1_r, <- !app_assoc in IH. simpl in IH.
  destruct (decide ((pre ++ m ++ t :: r) !! length pre = Some t)) as [E|E].
  - rewrite moveItemIfNeeded_same by done.
    rewrite app_assoc in E, Hnd'.
    apply lookup_unique_middle in E; [|done].
    rewrite length_app in E. destruct m; [|simpl in E; lia].
    simpl in *. etrans; [by apply IH|]. lia.
  - rewrite moveItemIfNeeded_diff by done.
    unfold apply_move. cbn [moves result].
    rewrite move_step_forward by done.
    destruct target as [|t' target].
    + exfalso. apply E. symmetry in Hperm.
      apply Permutation_nil_r in Hperm.
      apply app_eq_nil in Hperm as [-> ->]. simpl.
      by rewrite list_lookup_middle.
    + etrans; [by apply IH|]. rewrite length_app. simpl. lia.
Qed.

Lemma reverse_count (target rest suf : list K) (ms : list (Move.t K)) :
  NoDup (target ++ suf) -> rest ≡ₚ target ->
  (length (moves (foldl moveItemIfNeeded
                    {| moves := ms; result := rest ++ suf |}
                    (reverse (positions_from 0 target))))
   <= length ms + pred (length target))%nat.
Proof.
  revert rest suf ms.
  induction target as [|t target IH] using rev_ind;
    intros rest suf ms Hnd Hperm.
  { simpl. lia. }
  rewrite positions_from_snoc, reverse_snoc, foldl_step.
  assert (Hnd' : NoDup (rest ++ suf)) by (by rewrite Hperm).
  assert (Hlen : length rest = S (length target)).
  { rewrite Hperm, length_app. simpl. lia. }
  rewrite <- Permutation_cons_append in Hperm.
  apply Permutation_cons_inv_r in Hperm as (m & r & -> & Hperm).
  assert (Htm : t ∉ m).
  { apply NoDup_app in Hnd' as (Hr & _ & _).
    apply NoDup_app in Hr as (_ & Hd & _). intros Hin.
    apply (Hd _ Hin). left. }
  assert (Hnext : NoDup (target ++ t :: suf))
    by (by rewrite <- app_assoc in Hnd).
  rewrite length_app in Hlen. simpl in Hlen.
  assert (Hi : (0 + length target)%nat = (length m + length r)%nat) by lia.
  specialize (IH (m ++ r) (t :: suf)).
  rewrite <- !app_assoc in IH. rewrite <- !app_assoc.
  change ([t] ++ suf) with (t :: suf).
  change ((t :: r) ++ suf) with (t :: r ++ suf). rewrite Hi.
  rewrite <- app_assoc in Hnd'.
  change ((t :: r) ++ suf) with (t :: r ++ suf) in Hnd'.
  symmetry in Hperm.
  rewrite length_app. cbn [length].
  destruct (decide ((m ++ t :: r ++ suf) !! (length m + length r)%nat
                    = Some t)) as [E|E].
  - rewrite moveItemIfNeeded_same by done.
    apply lookup_unique_middle in E; [|done].
    destruct r; [|simpl in E; lia].
    etrans; [by apply IH|]. lia.
  - rewrite moveItemIfNeeded_diff by done.
    unfold apply_move. cbn [moves result].
    rewrite move_step_reverse by done.
    destruct (decide (target = [])) as [->|Hne].
    + exfalso. apply E. apply Permutation_nil_r in Hperm.
      apply app_eq_nil in Hperm as [-> ->]. done.
    + etrans; [by apply IH|]. rewrite length_app. simpl.
      destruct target; [done|]. simpl. lia.
Qed.

Lemma calculateIndexChanges_count (current target : list K)
    (reversed : bool) :
  NoDup target -> current ≡ₚ target ->
  (length (moves (calculateIndexChanges current target reversed))
   <= pred (length target))%nat.
Proof.
  intros Hnd Hperm. unfold calculateIndexChanges. destruct reversed.
  - pose proof (reverse_count target current [] []) as Hr.
    rewrite !app_nil_r in Hr. by apply Hr.
  - by apply (forward_count target [] current []).
Qed.
End reconciler_replay.

Section reconciler_cost.
Context {K : Type} `{JSKey K}.
Import Reconciler.

Lemma length_filter_indexed (Q : K -> Prop) `{!forall x, Decision (Q x)}
    (l : list K) :
  length (filter (fun it => Q (key it)) (indexed l)) = length (filter Q l).
Proof.
  rewrite indexed_from_0, <- (key_filter_indexed_from Q 0 l).
  by rewrite length_fmap.
Qed.

(** X2. For duplicate-free sequences whose keys [>] orders, the number of
    moves returned is at most the number of source keys missing from the
    target (the removals), plus the number of target keys missing from the
    source (the insertions), plus one less than the length of the target
    (the reordering never has to place the last item). *)
Theorem calculateMoves_length_bound (source target : list K)
    (favoredToMove : option K) :
  NoDup source -> NoDup target ->
  keys_ordered (source ++ target) = true ->
  (length (moves (calculateMoves source target favoredToMove))
   <= length (difference source target)
      + length (difference target source)
      + pred (length target))%nat.
Proof.
  intros Hs Ht HD.
  assert (HDs : forall k, k ∈ source -> k ∈ source ++ target)
    by (intros; apply elem_of_app; by left).
  assert (HDt : forall k, k ∈ target -> k ∈ source ++ target)
    by (intros; apply elem_of_app; by right).
  assert (length (moves (setMoves source target))
          = (length (difference source target)
             + length (difference target source))%nat) as Hset.
  { rewrite setMoves_eq. cbn [moves].
    rewrite length_app, !length_fmap.
    rewrite (removed_items_spec _ HD), (inserted_items_spec _ HD) by done.
    rewrite length_reverse. unfold difference.
    f_equal.
    - exact (length_filter_indexed (fun k => k ∉ target) source).
    - exact (length_filter_indexed (fun k => k ∉ source) target). }
  pose proof (intermediate_perm source target Hs Ht) as Hperm.
  unfold calculateMoves. fold (intermediate source target).
  destruct (deepEqual (intermediate source target) target).
  { rewrite Hset. lia. }
  cbn [moves]. rewrite length_app, Hset.
  pose proof (calculateIndexChanges_count (intermediate source target)
                target false Ht Hperm).
  pose proof (calculateIndexChanges_count (intermediate source target)
                target true Ht Hperm).
  match goal with
  | |- context [if ?b then _ else _] => destruct b
  end; [destruct (_ <=? _)%nat|]; lia.
Qed.

(** X3. Reconciling a duplicate-free sequence whose keys [>] orders with
    a reordering of itself takes [move] operations only, no removal and
    no insertion; reconciling it with itself takes no operation at all. *)
Theorem calculateMoves_of_a_reordering (source target : list K)
    (favoredToMove : option K) :
  NoDup source -> source ≡ₚ target -> keys_ordered source = true ->
  Forall (fun m => Move.is_move m = true)
    (moves (calculateMoves source target favoredToMove))
  /\ (source = target ->
      calculateMoves source target favoredToMove
      = {| moves := []; result := source |}).
Proof.
  intros Hs Hperm HD.
  assert (Ht : NoDup target) by (by rewrite <- Hperm).
  destruct (calculateMoves_shape source target favoredToMove Hs Ht)
    as (reorder & Hre & Heq & _ & Hnil).
  rewrite Heq. unfold intermediate in Hnil.
  rewrite (setMoves_permutation source HD source target (fun _ Hk => Hk)
             Hs Ht Hperm) in Hnil |- *.
  cbn [moves result app] in Hnil |- *. split; [done|].
  intros <-. by rewrite Hnil.
Qed.
End reconciler_cost.

Lemma calculateMoves_moves_apply_in_turn_witness :
  let source := [1; 2; 3] in
  let target := [3; 1; 4] in
  NoDup source /\ NoDup target
  /\ Reconciler.moves (Reconciler.calculateMoves source target None)
     = [Move.remove 2 1; Move.insert 4 2] ++ Move.move 3 1 0 :: []
  /\ 0 <= 1
  /\ Reconciler.apply_moves [Move.remove 2 1; Move.insert 4 2] source
       !! Z.to_nat 1 = Some 3
  /\ 0 <= 0.
Proof.
  cbv zeta.
  assert (NoDup [1; 2; 3]) as Hs
    by (apply (bool_decide_unpack _); vm_compute; exact I).
  assert (NoDup [3; 1; 4]) as Ht
    by (apply (bool_decide_unpack _); vm_compute; exact I).
  assert (Reconciler.moves (Reconciler.calculateMoves [1; 2; 3] [3; 1; 4] None)
          = [Move.remove 2 1; Move.insert 4 2] ++ Move.move 3 1 0 :: [])
    as Hm by (vm_compute; reflexivity).
  split_and!; [exact Hs|exact Ht|exact Hm|..];
    apply (calculateMoves_moves_apply_in_turn [1; 2; 3] [3; 1; 4] None
             [Move.remove 2 1; Move.insert 4 2] (Move.move 3 1 0) []
             Hs Ht Hm).
Defined.

Lemma calculateMoves_length_bound_witness :
  let source := [1; 2; 3; 4] in
  let target := [4; 3; 5; 1] in
  NoDup source /\ NoDup target
  /\ keys_ordered (source ++ target) = true
  /\ (length (Reconciler.moves (Reconciler.calculateMoves source target None))
      <= length (difference source target)
         + length (difference target source)
         + pred (length target))%nat.
Proof.
  cbv zeta.
  assert (NoDup [1; 2; 3; 4]) as Hs
    by (apply (bool_decide_unpack _); vm_compute; exact I).
  assert (NoDup [4; 3; 5; 1]) as Ht
    by (apply (bool_decide_unpack _); vm_compute; exact I).
  assert (keys_ordered ([1; 2; 3; 4] ++ [4; 3; 5; 1]) = true) as Ho
    by (vm_compute; reflexivity).
  split_and!; [exact Hs|exact Ht|exact Ho|].
  exact (calculateMoves_length_bound [1; 2; 3; 4] [4; 3; 5; 1] None Hs Ht Ho).
Defined.

Lemma calculateMoves_of_a_reordering_witness :
  let source := ["a"; "b"; "c"]%string in
  let target := ["c"; "a"; "b"]%string in
  NoDup source /\ source ≡ₚ target /\ keys_ordered source = true
  /\ Forall (fun m => Move.is_move m = true)
       (Reconciler.moves (Reconciler.calculateMoves source target None))
  /\ (source = target ->
      Reconciler.calculateMoves source target None
      = {| Reconciler.moves := []; Reconciler.result := source |}).
Proof.
  cbv zeta.
  assert (NoDup ["a"; "b"; "c"]%string) as Hs
    by (apply (bool_decide_unpack _); vm_compute; exact I).
  assert (["a"; "b"; "c"]%string ≡ₚ ["c"; "a"; "b"]%string) as Hp.
  { symmetry. exact (Permutation_cons_append ["a"; "b"]%string "c"%string). }
  assert (keys_ordered ["a"; "b"; "c"]%string = true) as Ho
    by (vm_compute; reflexivity).
  split_and!; [exact Hs|exact Hp|exact Ho|..];
    apply (calculateMoves_of_a_reordering ["a"; "b"; "c"]%string
             ["c"; "a"; "b"]%string None Hs Hp Ho).
Defined.

(** * Deep equality as a relation *)

Section deep_equality_relation.
Import DeepEqual.

(** An object holds each of its keys once, all the way down: what every
    JavaScript object does. *)
Fixpoint distinct_keys (v : value) : Prop :=
  match v with
  | VArr items =>
      (fix each (l : list value) : Prop :=
         match l with
         | [] => True
         | x :: l' => distinct_keys x /\ each l'
         end) items
  | VObj _ fields =>
      NoDup fields.*1
      /\ (fix each (l : list (string * value)) : Prop :=
            match l with
            | [] => True
            | (_, x) :: l' => distinct_keys x /\ each l'
            end) fields
  | _ => True
  end.

Lemma distinct_keys_arr (items : list value) :
  distinct_keys (VArr items) <-> Forall distinct_keys items.
Proof.
  cbn [distinct_keys].
  induction items as [|x l IH]; [by split; [constructor|]|].
  by rewrite Forall_cons, IH.
Qed.

Lemma distinct_keys_obj (ctor : nat) (fields : list (string * value)) :
  distinct_keys (VObj ctor fields)
  <-> NoDup fields.*1 /\ Forall (fun kv => distinct_keys kv.2) fields.
Proof.
  cbn [distinct_keys].
  assert ((fix each (l : list (string * value)) : Prop :=
             match l with
             | [] => True
             | (_, x) :: l' => distinct_keys x /\ each l'
             end) fields
          <-> Forall (fun kv => distinct_keys kv.2) fields) as ->; [|done].
  induction fields as [|[k x] l IH]; [by split; [constructor|]|].
  by rewrite Forall_cons, IH.
Qed.

Lemma get_NoDup (k : string) (v : value) (l : list (string * value)) :
  NoDup l.*1 -> (k, v) ∈ l -> get k l = v.
Proof.
  induction l as [|[k' v'] l IH]; [by intros _ ?%elem_of_nil|].
  rewrite fmap_cons, NoDup_cons. simpl. intros [Hnin Hnd] Hin.
  apply elem_of_cons in Hin as [[= -> ->]|Hin].
  - by rewrite String.eqb_refl.
  - destruct (String.eqb_spec k' k) as [->|_]; [|by apply IH].
    exfalso. apply Hnin, list_elem_of_fmap. by exists (k, v).
Qed.

Lemma Object_is_sym (a b : value) : Object_is a b = Object_is b a.
Proof.
  destruct a as [| |x|x|x|x|x|? x], b as [| |y|y|y|y|y|? y]; try done; simpl.
  - by destruct x, y.
  - apply Z.eqb_sym.
  - apply String.eqb_sym.
  - apply Nat.eqb_sym.
Qed.

Lemma deepEqual_refl (v : value) : distinct_keys v -> deepEqual v v = true.
Proof.
  induction v as [| |x|x|x|x|items IH|ctor fields IH] using value_nested_ind;
    intros Hv;
    try (rewrite deepEqual_primitive by done; simpl;
         first [done|apply Z.eqb_refl|apply String.eqb_refl
               |apply Nat.eqb_refl|by destruct x]).
  - apply distinct_keys_arr in Hv. apply deepEqual_arr.
    induction items as [|x l IHl]; [constructor|].
    apply Forall_cons in IH as [IHx IH], Hv as [Hx Hv].
    constructor; [by apply IHx|by apply IHl].
  - apply distinct_keys_obj in Hv as [Hnd Hv]. apply deepEqual_obj.
    split_and!; [done..|].
    rewrite Forall_forall in IH, Hv |- *. intros [k v] Hkv. simpl.
    rewrite (get_NoDup k v fields Hnd Hkv).
    apply (IH _ Hkv), (Hv _ Hkv).
Qed.

Lemma deepEqual_sym (a b : value) :
  distinct_keys a -> distinct_keys b ->
  deepEqual a b = true -> deepEqual b a = true.
Proof.
  revert b.
  induction a as [| |x|x|x|x|items IH|ctor fields IH] using value_nested_ind;
    intros b Ha Hb Hab;
    try (rewrite deepEqual_primitive in Hab by done;
         rewrite deepEqual_primitive_r by done;
         by rewrite Object_is_sym).
  - destruct (deepEqual_arr_inv _ _ Hab) as [items' ->].
    apply distinct_keys_arr in Ha, Hb.
    rewrite deepEqual_arr in Hab |- *.
    induction Hab as [|x y l l' Hxy Hl IHl]; [constructor|].
    apply Forall_cons in IH as [IHx IH], Ha as [Hx Ha], Hb as [Hy Hb].
    constructor; [by apply IHx|by apply IHl].
  - destruct (deepEqual_obj_inv _ _ _ Hab) as (c' & f' & ->).
    apply distinct_keys_obj in Ha as [Hnd Ha], Hb as [Hnd' Hb].
    rewrite deepEqual_obj in Hab |- *.
    destruct Hab as (-> & Hl & Hk & Hall).
    split_and!; [done..|].
    rewrite Forall_forall in IH, Ha, Hb, Hall |- *.
    intros [k v'] Hkv. simpl.
    assert (k ∈ fields.*1) as Hin.
    { rewrite <- (string_sort_perm fields.*1), Hk, string_sort_perm.
      apply list_elem_of_fmap. by exists (k, v'). }
    pose proof (get_elem_of _ _ Hin) as Hget.
    pose proof (Hall _ Hget) as Heq. simpl in Heq.
    rewrite (get_NoDup k v' f' Hnd' Hkv) in Heq.
    apply (IH _ Hget); [apply (Ha _ Hget)|apply (Hb _ Hkv)|done].
Qed.

(** X4. On values whose objects hold each key once, [Diff.deepEqual] is an
    equivalence relation: every value is deep-equal to itself, the order
    of the two arguments does not matter, and two values deep-equal to a
    third are deep-equal to each other. *)
Theorem deepEqual_is_an_equivalence (a b c : value) :
  distinct_keys a -> distinct_keys b -> distinct_keys c ->
  deepEqual a a = true
  /\ deepEqual a b = deepEqual b a
  /\ (deepEqual a b = true -> deepEqual b c = true -> deepEqual a c = true).
Proof.
  intros Ha Hb Hc. split_and!.
  - by apply deepEqual_refl.
  - destruct (deepEqual a b) eqn:Hab.
    + symmetry. by apply deepEqual_sym.
    + destruct (deepEqual b a) eqn:Hba; [|done].
      apply deepEqual_sym in Hba; [congruence|done..].
  - apply deepEqual_trans.
Qed.
End deep_equality_relation.

Lemma deepEqual_is_an_equivalence_witness :
  let a := plain [("x", VNum 1); ("y", VArr [VStr "s"; VNull])]%string in
  let b := plain [("y", VArr [VStr "s"; VNull]); ("x", VNum 1)]%string in
  let c := plain [("x", VNum 1); ("y", VArr [VStr "s"; VNull])]%string in
  distinct_keys a /\ distinct_keys b /\ distinct_keys c
  /\ DeepEqual.deepEqual a a = true
  /\ DeepEqual.deepEqual a b = DeepEqual.deepEqual b a
  /\ (DeepEqual.deepEqual a b = true -> DeepEqual.deepEqual b c = true ->
      DeepEqual.deepEqual a c = true).
Proof.
  cbv zeta.
  assert (forall l : list (string * value),
            bool_decide (NoDup l.*1) = true ->
            Forall (fun kv => distinct_keys kv.2) l ->
            distinct_keys (plain l)) as Hd.
  { intros l Hnd Hall. apply distinct_keys_obj.
    split; [by apply bool_decide_eq_true in Hnd|done]. }
  assert (distinct_keys
            (plain [("x", VNum 1); ("y", VArr [VStr "s"; VNull])]%string))
    as Ha.
  { apply Hd; [vm_compute; reflexivity|]. repeat constructor. }
  assert (distinct_keys
            (plain [("y", VArr [VStr "s"; VNull]); ("x", VNum 1)]%string))
    as Hb.
  { apply Hd; [vm_compute; reflexivity|]. repeat constructor. }
  refine (conj Ha (conj Hb (conj Ha _))).
  exact (deepEqual_is_an_equivalence _ _ _ Ha Hb Ha).
Defined.

(** * One update *)

Section single_update.
Import Node.
Context (toolkit : Toolkit).

(** X5. An update of a well-formed tree from the state it is in to a
    state that is not deep-equal to it, and that the components can render,
    returns, and leaves a well-formed tree that is a rendering of the next
    state, held by the root as its state. *)
Theorem update_renders_next_state (fuel : nat) (A B : Props) (w : World) :
  keyed_render toolkit -> pure_render toolkit ->
  well_formed_root toolkit (root w) -> fits (root w) (nextId w) ->
  state (root w) = Some A ->
  DeepEqual.deepEqual (plain A) (plain B) = false ->
  state_renderable toolkit fuel (Diff.constructor_of (root w)) (Some B) ->
  exists w' ps,
    Renderer.update toolkit fuel (state (root w)) (Some B) w = (w', Ok ps)
    /\ well_formed_root toolkit (root w')
    /\ fits (root w') (nextId w')
    /\ renders toolkit (root w')
         (Diff.describe_root (Diff.constructor_of (root w)) (Some B))
    /\ state (root w') = Some B.
Proof.
  intros Hkeyed Hpure Hwf Hfit HA Hne HB. rewrite HA.
  destruct (update_total toolkit Hkeyed Hpure fuel (Some A) (Some B) w
              eq_refl Hwf Hfit HB) as (w' & ps & Hrun).
  exists w', ps. split; [done|].
  destruct (update_ok toolkit Hkeyed Hpure fuel (Some A) (Some B) w w' ps
              Hrun eq_refl Hwf Hfit)
    as [(Heq & _)|(_ & Hwf' & Hfit' & Hren & _ & Hst)].
  - unfold Diff.state_value in Heq. congruence.
  - done.
Qed.

(** X7. A node made from a description with distinct sibling keys that the
    components can render is a well-formed rendering of the description
    under the parent given; its nodes have distinct identities, all of
    them new; making it adds no patch and leaves the tree alone. *)
Theorem createFromDescription_builds (fuel : nat) (d : Description)
    (p : option nat) (w : World) :
  keyed_render toolkit -> keyed d -> renderable toolkit fuel d ->
  exists w' node,
    Diff.createFromDescription toolkit fuel d p w = (w', Ok node)
    /\ root w' = root w /\ patches w' = patches w
    /\ well_formed toolkit node /\ renders toolkit node d
    /\ parentNode node = p
    /\ NoDup (ids node)
    /\ forall j, j ∈ ids node -> (nextId w <= j < nextId w')%nat.
Proof.
  intros Hkeyed Hk Hr.
  destruct (createFromDescription_returns toolkit fuel d p w Hr)
    as (w' & node & Hc).
  exists w', node. split; [done|].
  destruct (createFromDescription_made toolkit keyed
              (keyed_render_on toolkit Hkeyed) fuel d p w w' node Hc Hk)
    as ((Hroot & Hps & _) & Hwf & Hren & Hp & Hnd & Hids).
  rewrite app_nil_r in Hps. by split_and!.
Qed.
End single_update.

(** The update of the list [a; b; c] to [c; (a component); a!]. *)
Lemma update_renders_next_state_witness :
  let toolkit := view_toolkit unique in
  let w := unique_world in
  keyed_render toolkit /\ pure_render toolkit
  /\ well_formed_root toolkit (root w) /\ fits (root w) (nextId w)
  /\ Node.state (root w) = Some (in_state 0)
  /\ DeepEqual.deepEqual (plain (in_state 0)) (plain (in_state 1)) = false
  /\ state_renderable toolkit 4 (Diff.constructor_of (root w))
       (Some (in_state 1))
  /\ exists w' ps,
       Renderer.update toolkit 4 (Node.state (root w)) (Some (in_state 1)) w
       = (w', Ok ps)
       /\ well_formed_root toolkit (root w')
       /\ fits (root w') (nextId w')
       /\ renders toolkit (root w')
            (Diff.describe_root (Diff.constructor_of (root w))
               (Some (in_state 1)))
       /\ Node.state (root w') = Some (in_state 1).
Proof.
  cbv zeta.
  assert (DeepEqual.deepEqual (plain (in_state 0)) (plain (in_state 1))
          = false) as Hne by (vm_compute; reflexivity).
  assert (state_renderable (view_toolkit unique) 4
            (Diff.constructor_of (root unique_world)) (Some (in_state 1)))
    as Hthere by (cbn; repeat constructor).
  split_and!;
    [exact unique_keyed|exact unique_pure|exact unique_world_well_formed
    |exact unique_world_fits|reflexivity|exact Hne|exact Hthere|].
  exact (update_renders_next_state (view_toolkit unique) 4 (in_state 0)
           (in_state 1) unique_world unique_keyed unique_pure
           unique_world_well_formed unique_world_fits eq_refl Hne Hthere).
Defined.

(** A list with a component among its items, made under the node 1. *)
Lemma createFromDescription_builds_witness :
  let toolkit := view_toolkit unique in
  let d := list_of [list_item (Some (KeyNum 3)) "c";
                    ComponentDescription 11 (Some (KeyNum 4))
                      (Some (in_state 2)) None;
                    list_item (Some (KeyNum 1)) "a!"] in
  let w := unique_world in
  keyed_render toolkit /\ keyed d /\ renderable toolkit 4 d
  /\ exists w' node,
       Diff.createFromDescription toolkit 4 d (Some 1%nat) w = (w', Ok node)
       /\ root w' = root w /\ patches w' = patches w
       /\ well_formed toolkit node /\ renders toolkit node d
       /\ Node.parentNode node = Some 1%nat
       /\ NoDup (ids node)
       /\ forall j, j ∈ ids node -> (nextId w <= j < nextId w')%nat.
Proof.
  cbv zeta.
  assert (keyed (list_of [list_item (Some (KeyNum 3)) "c";
                          ComponentDescription 11 (Some (KeyNum 4))
                            (Some (in_state 2)) None;
                          list_item (Some (KeyNum 1)) "a!"])) as Hk.
  { cbn. split_and!; try done.
    apply (bool_decide_unpack _); vm_compute; exact I. }
  assert (renderable (view_toolkit unique) 4
            (list_of [list_item (Some (KeyNum 3)) "c";
                      ComponentDescription 11 (Some (KeyNum 4))
                        (Some (in_state 2)) None;
                      list_item (Some (KeyNum 1)) "a!"])) as Hr
    by (cbn; repeat constructor).
  split_and!; [exact unique_keyed|exact Hk|exact Hr|].
  exact (createFromDescription_builds (view_toolkit unique) 4 _ (Some 1%nat)
           unique_world unique_keyed Hk Hr).
Defined.

(** * Duplicate keys in debug mode *)

Section debug_mode.
Import Node.
Context (toolkit : Toolkit).

Lemma neutral_first {A} (m : M World unit) (k : unit -> M World A)
    (w : World) :
  adds_neutral m -> exists ps, (m ≫= k) w = k tt (add_patches ps w).
Proof.
  intros Hm. destruct (Hm w) as (ps & E & _). exists ps.
  by erewrite bind_ok by exact E.
Qed.

(** In debug mode the diff of the children of an element throws when
    the keys of the current children, or those of the next ones, are not
    all different, before any child is looked at. *)
Lemma elementChildrenPatches_rejects
    (create : Description -> option nat -> M World VirtualNode)
    (cp : VirtualNode -> Description -> M World unit)
    (sourceNodes : option (list VirtualNode))
    (targetDescriptions : option (list Description))
    (parent : VirtualNode) (w : World) :
  isDebug toolkit = true ->
  ~ (NoDup (eff_keys (description <$> default [] sourceNodes))
     /\ NoDup (eff_keys (default [] targetDescriptions))) ->
  Diff.elementChildrenPatches toolkit create cp sourceNodes
    targetDescriptions parent w
  = (w, Throw (Thrown "Non-unique keys detected in:")).
Proof.
  intros Hdebug Hdup. unfold Diff.elementChildrenPatches.
  cbv zeta. rewrite Hdebug.
  match goal with
  | |- context [Diff.unique_keys ?a && Diff.unique_keys ?b] =>
      replace (Diff.unique_keys a && Diff.unique_keys b) with false; [done|]
  end.
  symmetry. apply andb_false_iff. unfold Diff.unique_keys.
  rewrite !bool_decide_eq_false. unfold eff_keys in Hdup.
  rewrite imap_fmap in Hdup.
  destruct (decide (NoDup (imap
              (fun index node =>
                 Diff.key_or_index (Description.key (description node)) index)
              (default [] sourceNodes)))) as [Hs|Hs]; [|by left].
  right. intros Ht. apply Hdup. by split.
Qed.

(** X8. In debug mode the patches of an element are not computed when the
    keys of its children, or the keys of the children it is to have, are
    not all different (a child without a key counts with its index): the
    diff of the element throws [Non-unique keys detected in:] before a
    child is looked at; it has added the patches of the element's own
    fields only, and the tree is as it was. *)
Theorem debug_mode_rejects_duplicate_keys
    (create : Description -> option nat -> M World VirtualNode)
    (cp : VirtualNode -> Description -> M World unit)
    (element : VirtualNode) (next : Description) (w : World) :
  isDebug toolkit = true ->
  Diff.deepEqual (description element) next = false ->
  ~ (NoDup (eff_keys (description <$> default [] (children element)))
     /\ NoDup (eff_keys (default [] (Description.children next)))) ->
  exists ps,
    Diff.elementPatches toolkit create cp element next w
    = (add_patches ps w, Throw (Thrown "Non-unique keys detected in:")).
Proof.
  intros Hdebug Hne Hdup. unfold Diff.elementPatches. rewrite Hne.
  repeat match goal with
  | |- exists ps, (?m ≫= ?k) ?w0 = _ =>
      lazymatch m with
      | (if _ then Diff.elementChildrenPatches _ _ _ _ _ _ else _) => fail
      | _ => idtac
      end;
      let Hs := fresh in
      assert (adds_neutral m) as Hs
        by (unfold Diff.classNamePatches, Diff.stylePatches,
              Diff.attributePatches, Diff.listenerPatches,
              Diff.datasetPatches, Diff.propertiesPatches;
            repeat neutral_step);
      destruct (neutral_first m k w0 Hs) as [? ->]; clear Hs;
      rewrite ?add_patches_app
  end.
  assert (Diff.isDefined (children element)
          || Diff.isDefined (Description.children next) = true) as ->.
  { destruct (children element), (Description.children next); try done.
    exfalso. apply Hdup. split; constructor. }
  eexists. erewrite bind_throw; [reflexivity|].
  by apply elementChildrenPatches_rejects.
Qed.
End debug_mode.

(** A toolkit in debug mode, and a list that is to show two items under
    the same key. *)
Definition debug_toolkit : Toolkit :=
  mkToolkit true (fun c => (c =? 10)%nat) (fun _ _ => false)
    (fun _ _ _ => Ok None).

Definition shown_list : VirtualNode :=
  VirtualElement 1 None None (list_of [list_item (Some (KeyStr "a")) "x"])
    (Some [item_node 2 (Some (KeyStr "a")) "x"]).

Definition twice_a : Description :=
  list_of [list_item (Some (KeyStr "a")) "x";
           list_item (Some (KeyStr "a")) "y"].

Lemma debug_mode_rejects_duplicate_keys_witness :
  isDebug debug_toolkit = true
  /\ Diff.deepEqual (Node.description shown_list) twice_a = false
  /\ ~ (NoDup (eff_keys (Node.description
                           <$> default [] (Node.children shown_list)))
        /\ NoDup (eff_keys (default [] (Description.children twice_a))))
  /\ exists ps,
       Diff.elementPatches debug_toolkit
         (Diff.createFromDescription debug_toolkit 0)
         (Diff.childPatches debug_toolkit 0 0) shown_list twice_a
         (mkWorld shown_list [] 3 [])
       = (add_patches ps (mkWorld shown_list [] 3 []),
          Throw (Thrown "Non-unique keys detected in:")).
Proof.
  assert (Diff.deepEqual (Node.description shown_list) twice_a = false)
    as Hne by (vm_compute; reflexivity).
  assert (~ (NoDup (eff_keys (Node.description
                                <$> default [] (Node.children shown_list)))
             /\ NoDup (eff_keys (default [] (Description.children twice_a)))))
    as Hdup by (apply (bool_decide_unpack _); vm_compute; exact I).
  refine (conj eq_refl (conj Hne (conj Hdup _))).
  exact (debug_mode_rejects_duplicate_keys debug_toolkit
           (Diff.createFromDescription debug_toolkit 0)
           (Diff.childPatches debug_toolkit 0 0) shown_list twice_a
           (mkWorld shown_list [] 3 []) eq_refl Hne Hdup).
Defined.

(** * The patches of a map *)

Section map_patches.
Import Node Diff.

(** What the patches of a style, of the attributes, of the dataset and of
    the properties ask of the backing element, on the map from the names of
    the description to the values that the element holds under them: a
    setting puts the value under the name, a removal takes the name out. *)
Definition style_after (m : gmap string string) (p : Patch)
    : gmap string string :=
  match p with
  | setStyleProperty property value _ => <[property := value]> m
  | removeStyleProperty property _ => delete property m
  | _ => m
  end.

Definition attributes_after (m : gmap string string) (p : Patch)
    : gmap string string :=
  match p with
  | setAttribute name value _ _ => <[name := value]> m
  | removeAttribute name _ _ => delete name m
  | _ => m
  end.

Definition dataset_after (m : gmap string string) (p : Patch)
    : gmap string string :=
  match p with
  | setDataAttribute name value _ => <[name := value]> m
  | removeDataAttribute name _ => delete name m
  | _ => m
  end.

Definition properties_after (m : gmap string value) (p : Patch)
    : gmap string value :=
  match p with
  | setProperty key v _ => <[key := v]> m
  | deleteProperty key _ => delete key m
  | _ => m
  end.

(** What a name holds once the patches are made: the next value, or the
    current one where the diff finds no difference between the two;
    nothing when the next map does not have the name. *)
Definition merged {V} (differ : V -> V -> bool)
    (current next : list (string * V)) (key : string) : option V :=
  match lookup_key key next with
  | None => None
  | Some b =>
      match lookup_key key current with
      | Some a => if differ a b then Some b else Some a
      | None => Some b
      end
  end.

Lemma lookup_list_to_map {V} (key : string) (m : list (string * V)) :
  (list_to_map m : gmap string V) !! key = lookup_key key m.
Proof.
  induction m as [|[k v] m IH]; [done|].
  cbn [list_to_map foldr lookup_key curry fst snd].
  destruct (String.eqb_spec k key) as [->|Hne].
  - by rewrite lookup_insert_eq.
  - by rewrite lookup_insert_ne.
Qed.

Lemma includes_elem_of (key : string) (l : list string) :
  includes key l = true <-> key ∈ l.
Proof.
  unfold includes. rewrite existsb_exists. split.
  - intros (x & Hx & ->%String.eqb_eq). by apply list_elem_of_In.
  - intros Hin. exists key. split; [by apply list_elem_of_In|].
    apply String.eqb_refl.
Qed.

Lemma includes_keys {V} (key : string) (m : list (string * V)) :
  includes key (keys m) = true <-> is_Some (lookup_key key m).
Proof.
  induction m as [|[k x] m IH]; [by split; [|intros [? ?]]|].
  unfold includes, keys in *. cbn [lookup_key fmap list_fmap existsb fst].
  rewrite (String.eqb_sym key k).
  destruct (String.eqb k key); [by split; [eexists|]|]. exact IH.
Qed.

Lemma elem_of_filter_keys (P : string -> bool) (l : list string)
    (key : string) :
  key ∈ List.filter P l <-> key ∈ l /\ P key = true.
Proof. by rewrite list_elem_of_In, filter_In, <- list_elem_of_In. Qed.

Section replay.
Context {V : Type} (differ : V -> V -> bool).
Context (set_ : string -> V -> Patch) (unset : string -> Patch).
Context (after : gmap string V -> Patch -> gmap string V).
Hypothesis after_set : forall m key v, after m (set_ key v) = <[key := v]> m.
Hypothesis after_unset : forall m key, after m (unset key) = delete key m.

Lemma lookup_after_sets (l : list string) (next : list (string * V))
    (m : gmap string V) (key : string) :
  foldl after m (omap (fun k => set_ k <$> lookup_key k next) l) !! key
  = if bool_decide (key ∈ l /\ is_Some (lookup_key key next))
    then lookup_key key next else m !! key.
Proof.
  revert m. induction l as [|k l IH]; intros m.
  { rewrite bool_decide_eq_false_2; [done|]. by intros [?%elem_of_nil _]. }
  cbn [omap list_omap].
  destruct (lookup_key k next) as [v|] eqn:Hk;
    cbn [fmap option_fmap option_map].
  - cbn [foldl]. rewrite IH, after_set.
    destruct (decide (key = k)) as [->|Hne].
    + rewrite Hk, lookup_insert_eq.
      rewrite (bool_decide_eq_true_2 (k ∈ k :: l /\ _)).
      2:{ split; [left|by eexists]. }
      clear IH. by case_bool_decide.
    + rewrite lookup_insert_ne by done.
      rewrite (bool_decide_ext (key ∈ k :: l /\ is_Some (lookup_key key next))
                 (key ∈ l /\ is_Some (lookup_key key next))); [done|].
      rewrite elem_of_cons. intuition congruence.
  - rewrite IH.
    rewrite (bool_decide_ext (key ∈ k :: l /\ is_Some (lookup_key key next))
                 (key ∈ l /\ is_Some (lookup_key key next))); [done|].
    rewrite elem_of_cons. split; [|tauto].
    intros [[->|?] Hs]; [|done]. rewrite Hk in Hs. by destruct Hs.
Qed.

Lemma lookup_after_unsets (l : list string) (m : gmap string V)
    (key : string) :
  foldl after m (unset <$> l) !! key
  = if bool_decide (key ∈ l) then None else m !! key.
Proof.
  revert m. induction l as [|k l IH]; intros m; [done|].
  cbn [fmap list_fmap foldl]. rewrite IH, after_unset.
  destruct (decide (key = k)) as [->|Hne].
  - rewrite lookup_delete_eq, (bool_decide_eq_true_2 (k ∈ k :: l)) by left.
    clear IH. by case_bool_decide.
  - rewrite lookup_delete_ne by done.
    rewrite (bool_decide_ext (key ∈ k :: l) (key ∈ l)); [done|].
    rewrite elem_of_cons. intuition congruence.
Qed.

(** The settings of the added names, the removals of the removed names
    and the settings of the changed names, made in this order on the
    current map, leave each name with what [merged] says. *)
Lemma replay_lookup (current next : list (string * V)) (key : string) :
  foldl after (list_to_map current)
    (omap (fun k => set_ k <$> lookup_key k next) (added current next)
     ++ (unset <$> removed current next)
     ++ omap (fun k => set_ k <$> lookup_key k next)
          (changed differ current next)) !! key
  = merged differ current next key.
Proof.
  rewrite !foldl_app, lookup_after_sets, lookup_after_unsets,
    lookup_after_sets, !lookup_list_to_map.
  unfold merged.
  destruct (decide (key ∈ changed differ current next
                    /\ is_Some (lookup_key key next))) as [Hch|Hch].
  { rewrite (bool_decide_eq_true_2 _ Hch). destruct Hch as [Hch [b Hb]].
    apply elem_of_filter_keys in Hch as [_ [_ Hd]%andb_true_iff].
    rewrite Hb in *. by destruct (lookup_key key current); [rewrite Hd|]. }
  rewrite (bool_decide_eq_false_2 _ Hch).
  destruct (decide (key ∈ removed current next)) as [Hrem|Hrem].
  { rewrite (bool_decide_eq_true_2 _ Hrem).
    apply elem_of_filter_keys in Hrem as [_ Hn]. apply negb_true_iff in Hn.
    destruct (lookup_key key next) eqn:Hk; [|done].
    assert (includes key (keys next) = true) as Hin
      by (apply includes_keys; by eexists).
    congruence. }
  rewrite (bool_decide_eq_false_2 _ Hrem).
  destruct (decide (key ∈ added current next
                    /\ is_Some (lookup_key key next))) as [Hadd|Hadd].
  { rewrite (bool_decide_eq_true_2 _ Hadd). destruct Hadd as [Hadd [b Hb]].
    apply elem_of_filter_keys in Hadd as [_ Hn]. apply negb_true_iff in Hn.
    rewrite Hb. destruct (lookup_key key current) eqn:Hc; [|done].
    assert (includes key (keys current) = true) as Hin
      by (apply includes_keys; by eexists).
    congruence. }
  rewrite (bool_decide_eq_false_2 _ Hadd).
  destruct (lookup_key key current) as [a|] eqn:Hc.
  - assert (includes key (keys current) = true) as Hin
      by (apply includes_keys; by eexists).
    assert (key ∈ keys current) as Hkc by (by apply includes_elem_of).
    destruct (includes key (keys next)) eqn:Hn.
    + apply includes_keys in Hn as Hs. destruct Hs as [b Hb].
      rewrite Hb. destruct (differ a b) eqn:Hd; [|done].
      exfalso. apply Hch.
      split; [|by eexists]. apply elem_of_filter_keys. split; [done|].
      by rewrite Hn, Hc, Hb.
    + exfalso. apply Hrem, elem_of_filter_keys. split; [done|].
      by rewrite Hn.
  - destruct (lookup_key key next) as [b|] eqn:Hb; [|done].
    exfalso. apply Hadd. split; [|by eexists]. apply elem_of_filter_keys.
    assert (includes key (keys next) = true) as Hin
      by (apply includes_keys; by eexists).
    split; [by apply includes_elem_of|].
    destruct (includes key (keys current)) eqn:Hn; [|done].
    apply includes_keys in Hn as [? ?]. congruence.
Qed.
End replay.

(** Strings differ when they are not the same string, so that the names
    are left with the values of the next map. *)
Lemma merged_strings (current next : Strings) (key : string) :
  merged string_differs current next key = lookup_key key next.
Proof.
  unfold merged. destruct (lookup_key key next) as [b|]; [|done].
  destruct (lookup_key key current) as [a|]; [|done].
  unfold string_differs. destruct (String.eqb_spec a b); by subst.
Qed.

Lemma replay_reaches_next (set_ : string -> string -> Patch)
    (unset : string -> Patch)
    (after : gmap string string -> Patch -> gmap string string)
    (current next : Strings) :
  (forall m key v, after m (set_ key v) = <[key := v]> m) ->
  (forall m key, after m (unset key) = delete key m) ->
  foldl after (list_to_map current)
    (omap (fun k => set_ k <$> lookup_key k next) (added current next)
     ++ (unset <$> removed current next)
     ++ omap (fun k => set_ k <$> lookup_key k next)
          (changed string_differs current next))
  = list_to_map next.
Proof.
  intros Hset Hunset. apply map_eq. intros key.
  rewrite (replay_lookup string_differs set_ unset after Hset Hunset).
  by rewrite merged_strings, lookup_list_to_map.
Qed.

(** X9. The patches that [stylePatches], [attributePatches] and
    [datasetPatches] add for a current and a next map (an absent map is
    empty), read in the order they were added as settings and removals on
    a map that holds the current entries, leave exactly the entries of
    the next map: nothing of the next map is missed, and nothing else is
    left behind. *)
Theorem string_map_patches_reach_next (current next : option Strings)
    (target : VirtualNode) (isCustom : bool) (w : World) :
  let before : gmap string string := list_to_map (default [] current) in
  let wanted : gmap string string := list_to_map (default [] next) in
  exists style attributes dataset,
    stylePatches current next target w = (add_patches style w, Ok tt)
    /\ foldl style_after before style = wanted
    /\ attributePatches current next target isCustom w
       = (add_patches attributes w, Ok tt)
    /\ foldl attributes_after before attributes = wanted
    /\ datasetPatches current next target w
       = (add_patches dataset w, Ok tt)
    /\ foldl dataset_after before dataset = wanted.
Proof.
  cbv zeta. eexists _, _, _. split_and!.
  - unfold stylePatches.
    erewrite bind_ok by apply for_keys_eq.
    erewrite bind_ok
      by apply (for_each_addPatch (fun p => removeStyleProperty p target)).
    rewrite for_keys_eq, !add_patches_app. reflexivity.
  - by apply (replay_reaches_next
                (fun k v => setStyleProperty k v target)
                (fun k => removeStyleProperty k target)).
  - unfold attributePatches.
    erewrite bind_ok by apply for_keys_eq.
    erewrite bind_ok
      by apply (for_each_addPatch
                  (fun a => removeAttribute a target isCustom)).
    rewrite for_keys_eq, !add_patches_app. reflexivity.
  - by apply (replay_reaches_next
                (fun k v => setAttribute k v target isCustom)
                (fun k => removeAttribute k target isCustom)).
  - unfold datasetPatches.
    erewrite bind_ok by apply for_keys_eq.
    erewrite bind_ok
      by apply (for_each_addPatch (fun a => removeDataAttribute a target)).
    rewrite for_keys_eq, !add_patches_app. reflexivity.
  - by apply (replay_reaches_next
                (fun k v => setDataAttribute k v target)
                (fun k => removeDataAttribute k target)).
Qed.

(** X10. The patches that [propertiesPatches] adds for the current and the
    next properties of an element (absent properties are none), read in
    the order they were added as settings and removals on a map that holds
    the current properties, leave the element with the names of the next
    properties and no other; a name holds the next value, or the value it
    had when that is deep-equal to the next one, whether or not the two
    are the same value. *)
Theorem properties_patches_reach_next (current next : option Props)
    (target : VirtualNode) (w : World) :
  exists ps,
    propertiesPatches current next target w = (add_patches ps w, Ok tt)
    /\ forall key,
         foldl properties_after (list_to_map (default [] current)) ps !! key
         = match lookup_key key (default [] next) with
           | None => None
           | Some b =>
               match lookup_key key (default [] current) with
               | Some a => if DeepEqual.deepEqual a b then Some a else Some b
               | None => Some b
               end
           end.
Proof.
  eexists. split.
  - unfold propertiesPatches.
    erewrite bind_ok by apply for_keys_eq.
    erewrite bind_ok
      by apply (for_each_addPatch (fun key => deleteProperty key target)).
    rewrite for_keys_eq, !add_patches_app. reflexivity.
  - intros key.
    rewrite (replay_lookup (fun a b => negb (DeepEqual.deepEqual a b))
               (fun k v => setProperty k v target)
               (fun k => deleteProperty k target) properties_after)
      by done.
    unfold merged. destruct (lookup_key key (default [] next)); [|done].
    destruct (lookup_key key (default [] current)); [|done].
    by destruct (DeepEqual.deepEqual _ _).
Qed.
End map_patches.

(** * The patches of the listeners *)

#[export] Instance Function_eq_dec : EqDecision Function.
Proof. solve_decision. Defined.

#[export] Instance Function_countable : Countable Function.
Proof.
  apply (inj_countable' (fun f => (fn_id f, fn_source f))
           (fun p => mkFunction (fst p) (snd p))).
  by intros [].
Defined.

Section listener_patches.
Import Node Diff.

(** What the patches of the listeners ask of the backing element, on the
    set of the listeners that it holds, each with the name of the
    description it is held under: a listener is added, or taken out when
    it is there; a replacement takes one out and adds the other. *)
Definition listeners_after (s : gset (string * Function)) (p : Patch)
    : gset (string * Function) :=
  match p with
  | addListener name listener _ _ => s ∪ {[(name, listener)]}
  | removeListener name listener _ _ => s ∖ {[(name, listener)]}
  | replaceListener name removed added _ _ =>
      (s ∖ {[(name, removed)]}) ∪ {[(name, added)]}
  | _ => s
  end.

(** The listeners an element holds for a map of listeners. *)
Definition held (m : Listeners) : gset (string * Function) :=
  map_to_set pair (list_to_map m : gmap string Function).

Lemma elem_of_held (m : Listeners) (event : string) (l : Function) :
  (event, l) ∈ held m <-> lookup_key event m = Some l.
Proof.
  unfold held. rewrite elem_of_map_to_set_pair. by rewrite lookup_list_to_map.
Qed.

Context (target : VirtualNode) (isCustom : bool).
Context (current next : Listeners).

Lemma after_added (l : list string) (s : gset (string * Function))
    (event : string) (f : Function) :
  (event, f) ∈ foldl listeners_after s
     (omap (fun k => (fun l => addListener k l target isCustom)
                     <$> lookup_key k next) l)
  <-> (event, f) ∈ s \/ (event ∈ l /\ lookup_key event next = Some f).
Proof.
  revert s. induction l as [|k l IH]; intros s.
  { cbn. rewrite elem_of_nil. tauto. }
  cbn [omap list_omap]. rewrite elem_of_cons.
  destruct (lookup_key k next) as [n|] eqn:Hk;
    cbn [fmap option_fmap option_map foldl]; rewrite IH.
  - cbn [listeners_after]. rewrite elem_of_union, elem_of_singleton.
    split; [intros [[?|[= -> ->]]|[? ?]]; eauto|].
    intros [?|[[->|?] ?]]; eauto.
    left. right. congruence.
  - split; [intros [?|[? ?]]; eauto|].
    intros [?|[[->|?] ?]]; eauto. congruence.
Qed.

Lemma after_removed (l : list string) (s : gset (string * Function))
    (event : string) (f : Function) :
  (event, f) ∈ foldl listeners_after s
     (omap (fun k => (fun l => removeListener k l target isCustom)
                     <$> lookup_key k current) l)
  <-> (event, f) ∈ s
      /\ ~ (event ∈ l /\ lookup_key event current = Some f).
Proof.
  revert s. induction l as [|k l IH]; intros s.
  { cbn. rewrite elem_of_nil. tauto. }
  cbn [omap list_omap]. rewrite elem_of_cons.
  destruct (lookup_key k current) as [c|] eqn:Hk;
    cbn [fmap option_fmap option_map foldl]; rewrite IH.
  - cbn [listeners_after]. rewrite elem_of_difference, elem_of_singleton.
    split.
    + intros [[Hs Hne] Hl]. split; [done|].
      intros [[->|?] Hf]; [|tauto]. apply Hne. congruence.
    + intros [Hs Hn]. split; [split; [done|]|tauto].
      intros [= -> ->]. tauto.
  - split; intros [Hs Hn]; (split; [done|]); [|tauto].
    intros [[->|?] Hf]; [congruence|tauto].
Qed.

Lemma after_changed (l : list string) (s : gset (string * Function))
    (event : string) (f : Function) :
  (forall k c n, k ∈ l -> lookup_key k current = Some c ->
                 lookup_key k next = Some n -> c <> n) ->
  (event, f) ∈ foldl listeners_after s
     (omap (fun k =>
              match lookup_key k current, lookup_key k next with
              | Some c, Some n => Some (replaceListener k c n target isCustom)
              | _, _ => None
              end) l)
  <-> ((event, f) ∈ s
       /\ ~ (event ∈ l /\ lookup_key event current = Some f
             /\ is_Some (lookup_key event next)))
      \/ (event ∈ l /\ is_Some (lookup_key event current)
          /\ lookup_key event next = Some f).
Proof.
  revert s. induction l as [|k l IH]; intros s Hne.
  { cbn. rewrite elem_of_nil. tauto. }
  cbn [omap list_omap]. rewrite elem_of_cons.
  assert (forall k0 c n, k0 ∈ l -> lookup_key k0 current = Some c ->
            lookup_key k0 next = Some n -> c <> n) as Hne'
    by (intros ? ? ? ?; apply Hne; by right).
  destruct (lookup_key k current) as [c|] eqn:Hc;
    [destruct (lookup_key k next) as [n|] eqn:Hn|];
    cbn [foldl]; rewrite (IH _ Hne'); clear IH.
  - assert (c <> n) as Hcn by (eapply Hne; [left|done..]).
    cbn [listeners_after].
    rewrite elem_of_union, elem_of_difference, !elem_of_singleton.
    destruct (decide (event = k)) as [->|Hek].
    + rewrite Hc, Hn.
      destruct (decide (f = n)) as [->|Hfn].
      * split; [intros _|intros _]; [right; eauto|].
        left. split; [by right|]. intros (_ & [= ?] & _). congruence.
      * split.
        -- intros [[[[Hs Hkc]|[= ?]] Hl]|(_ & _ & [= ?])]; try congruence.
           left. split; [done|]. intros (_ & [= ->] & _). by apply Hkc.
        -- intros [[Hs Hl]|(_ & _ & [= ?])]; [|congruence].
           left. split.
           ++ left. split; [done|]. intros [= ->]. apply Hl. eauto.
           ++ intros (? & [= ->] & ?). apply Hl. eauto.
    + split.
      * intros [[[[Hs _]|[= ? ?]] Hl]|(? & ? & ?)]; [|done|by eauto].
        left. split; [done|]. intros ([?|?] & ? & ?); [done|]. by apply Hl.
      * intros [[Hs Hl]|([?|?] & ? & ?)]; [|done|by eauto 6].
        left. split; [left; split; [done|congruence]|].
        intros (? & ? & ?). apply Hl. eauto.
  - split.
    + intros [[Hs Hl]|(? & ? & ?)]; [|by eauto].
      left. split; [done|]. intros ([->|?] & ? & Hsome); [|by apply Hl].
      rewrite Hn in Hsome. by destruct Hsome.
    + intros [[Hs Hl]|([->|?] & ? & ?)]; [|congruence|by eauto].
      left. split; [done|]. intros (? & ? & ?). apply Hl. eauto.
  - split.
    + intros [[Hs Hl]|(? & ? & ?)]; [|by eauto].
      left. split; [done|]. intros ([->|?] & ? & Hsome); [congruence|].
      by apply Hl.
    + intros [[Hs Hl]|([->|?] & Hsome & ?)]; [| |by eauto].
      * left. split; [done|]. intros (? & ? & ?). apply Hl. eauto.
      * rewrite Hc in Hsome. by destruct Hsome.
Qed.

Lemma elem_of_keys_lookup {V} (key : string) (m : list (string * V)) :
  key ∈ keys m <-> is_Some (lookup_key key m).
Proof. by rewrite <- includes_elem_of, includes_keys. Qed.

Lemma elem_of_added_iff (event : string) :
  event ∈ added current next
  <-> lookup_key event current = None /\ is_Some (lookup_key event next).
Proof.
  unfold added. rewrite elem_of_filter_keys, elem_of_keys_lookup.
  rewrite negb_true_iff, <- not_true_iff_false, includes_keys.
  rewrite <- eq_None_not_Some. tauto.
Qed.

Lemma elem_of_removed_iff (event : string) :
  event ∈ removed current next
  <-> is_Some (lookup_key event current) /\ lookup_key event next = None.
Proof.
  unfold removed. rewrite elem_of_filter_keys, elem_of_keys_lookup.
  rewrite negb_true_iff, <- not_true_iff_false, includes_keys.
  by rewrite <- eq_None_not_Some.
Qed.

Lemma elem_of_changed_iff (event : string) :
  event ∈ changed listener_changed current next
  <-> exists c n, lookup_key event current = Some c
                  /\ lookup_key event next = Some n
                  /\ listener_changed c n = true.
Proof.
  split; [apply elem_of_changed|].
  intros (c & n & Hc & Hn & Hd). unfold changed.
  apply elem_of_filter_keys. split; [apply elem_of_keys_lookup; by eexists|].
  rewrite Hc, Hn, Hd, andb_true_r. apply includes_keys. by eexists.
Qed.

Lemma listener_changed_differ (c n : Function) :
  listener_changed c n = true -> c <> n.
Proof. intros [Hid _]%listener_changed_spec ->. by apply Hid. Qed.

Lemma listener_patch_list_reaches (event : string) (l : Function) :
  (event, l) ∈ foldl listeners_after (held current)
                 (listener_patch_list current next target isCustom)
  <-> match lookup_key event next with
      | None => False
      | Some n =>
          match lookup_key event current with
          | Some c => if listener_changed c n then l = n else l = c
          | None => l = n
          end
      end.
Proof.
  unfold listener_patch_list. rewrite !foldl_app.
  rewrite after_changed.
  2:{ intros k c n (c' & n' & Hc & Hn & Hd)%elem_of_changed_iff Hc' Hn'.
      apply listener_changed_differ. congruence. }
  rewrite after_removed, after_added, elem_of_held.
  rewrite elem_of_added_iff, elem_of_removed_iff, elem_of_changed_iff.
  assert ((exists c n, lookup_key event current = Some c
                       /\ lookup_key event next = Some n
                       /\ listener_changed c n = true)
          <-> match lookup_key event current, lookup_key event next with
              | Some c, Some n => listener_changed c n = true
              | _, _ => False
              end) as ->.
  { split.
    - by intros (c & n & -> & -> & ?).
    - destruct (lookup_key event current) as [c|]; [|done].
      destruct (lookup_key event next) as [n|]; [|done]. eauto. }
  rewrite <- !not_eq_None_Some.
  destruct (lookup_key event next) as [n|];
    destruct (lookup_key event current) as [c|];
    [destruct (listener_changed c n)|..];
    intuition (simplify_eq; eauto).
Qed.
End listener_patches.

(** X11. The patches that [listenerPatches] adds for the current and the
    next listeners of an element (absent listeners are none), read in the
    order they were added on the set of the listeners that the element
    holds, leave it with one listener for each event of the next
    listeners and none for any other event.  The listener of an event is
    the next one, or the current one when the diff takes the two for the
    same: they are the same function, or one of them has a [source] and
    both have the same. *)
Theorem listener_patches_reach_next (current next : option Listeners)
    (target : VirtualNode) (isCustom : bool) (w : World) :
  exists ps,
    Diff.listenerPatches current next target isCustom w
    = (add_patches ps w, Ok tt)
    /\ forall event l,
         (event, l) ∈ foldl listeners_after (held (default [] current)) ps
         <-> match Diff.lookup_key event (default [] next) with
             | None => False
             | Some n =>
                 match Diff.lookup_key event (default [] current) with
                 | Some c => if Diff.listener_changed c n then l = n else l = c
                 | None => l = n
                 end
             end.
Proof.
  eexists. split; [apply listenerPatches_eq|].
  apply listener_patch_list_reaches.
Qed.

(** * The child list of an element *)

Section element_children.
Import Node.

Lemma splice_start_le (len : nat) (start : Z) :
  (splice_start len start <= len)%nat.
Proof. unfold splice_start. destruct (Z.ltb_spec start 0); lia. Qed.

Lemma indexOf_fresh_middle (child x : VirtualNode)
    (pre suf : list VirtualNode) :
  Forall (fun c => id c <> id child) pre -> id x = id child ->
  indexOf child (pre ++ x :: suf) = Z.of_nat (length pre).
Proof.
  intros Hpre Hx. induction Hpre as [|c pre Hc Hpre IH]; cbn [indexOf app].
  - unfold same. by rewrite Hx, Nat.eqb_refl.
  - unfold same at 1. rewrite (proj2 (Nat.eqb_neq _ _) Hc), IH.
    cbn [length]. destruct (Z.ltb_spec (Z.of_nat (length pre)) 0); lia.
Qed.

Lemma id_set_parentNode (p : option nat) (n : VirtualNode) :
  id (set_parentNode p n) = id n.
Proof. by destruct n. Qed.

(** X12. A node inserted into the child list of an element, at any index,
    and then removed again leaves the list as it was (an absent list has
    become the empty one), when no child had the identity of the node: the
    removal finds the node that was inserted, no assertion fails, and the
    backing element is asked for one insertion and one removal. *)
Theorem insertChild_then_removeChild (i : nat) (k : option Key)
    (p : option nat) (d : Description) (ch : option (list VirtualNode))
    (child : VirtualNode) (index : Z) (c : list Event) :
  Forall (fun x => id x <> id child) (default [] ch) ->
  (VirtualElement.insertChild child index ;;
   VirtualElement.removeChild child)
    (mkCall (VirtualElement i k p d ch) c)
  = (mkCall (VirtualElement i k p d (Some (default [] ch)))
       (c ++ [Backing (InsertBefore i (id child)
                         (id <$> at_index (default [] ch) index));
              Backing (RemoveChildRef i (id child))]),
     Ok tt).
Proof.
  intros Hfresh. set (l := default [] ch) in *.
  set (x := set_parentNode (Some i) child).
  assert (id x = id child) as Hx by apply id_set_parentNode.
  set (s := splice_start (length l) index).
  assert (s <= length l)%nat as Hs by apply splice_start_le.
  assert (splice index 0 [x] l = take s l ++ x :: drop s l) as Hsp.
  { unfold splice. fold s. by rewrite Nat.add_0_r. }
  assert (indexOf child (take s l ++ x :: drop s l) = Z.of_nat s) as Hi.
  { rewrite indexOf_fresh_middle; [|by apply Forall_take|done].
    by rewrite length_take_le. }
  unfold VirtualElement.insertChild, VirtualElement.removeChild,
    VirtualElement.ref_removeChild.
  unfold mbind, M_bind, get_state, set_this, emit, assert, mret, M_ret;
    cbn [this console].
  fold l. fold x. rewrite !Hsp, !Hi.
  destruct (Z.leb_spec 0 (Z.of_nat s)) as [_|?]; [|lia].
  cbn [this console]. rewrite splice_remove.
  assert (take s (take s l ++ x :: drop s l)
          ++ drop (S s) (take s l ++ x :: drop s l) = l) as ->.
  { rewrite take_app_length' by (by rewrite length_take_le).
    rewrite (cons_middle x (take s l) (drop s l)), app_assoc.
    rewrite drop_app_length'
      by (rewrite length_app, length_take_le by done; simpl; lia).
    apply take_drop. }
  by rewrite <- app_assoc.
Qed.

Lemma splice_insert_nat {A} (j : nat) (x : A) (l : list A) :
  splice (Z.of_nat j) 0 [x] l = take j l ++ x :: drop j l.
Proof. rewrite splice_nat. by rewrite Nat.add_0_r. Qed.

(** X13. Moving a child of an element from its index to another index of
    the list and then back again leaves the child list as it was; both
    moves find the child where they are told, so that no assertion
    fails. *)
Theorem moveChild_there_and_back (i : nat) (k : option Key)
    (p : option nat) (d : Description) (l : list VirtualNode)
    (child : VirtualNode) (from to : nat) (c : list Event) :
  l !! from = Some child -> (to < length l)%nat ->
  (VirtualElement.moveChild child (Z.of_nat from) (Z.of_nat to) ;;
   VirtualElement.moveChild child (Z.of_nat to) (Z.of_nat from))
    (mkCall (VirtualElement i k p d (Some l)) c)
  = (mkCall (VirtualElement i k p d (Some l))
       (c ++ [Backing (RemoveChildRef i (id child));
              Backing (InsertAt i (id child) (Z.of_nat to));
              Backing (RemoveChildRef i (id child));
              Backing (InsertAt i (id child) (Z.of_nat from))]),
     Ok tt).
Proof.
  intros Hfrom Hto.
  assert (from < length l)%nat as Hlt by (by eapply lookup_lt_Some).
  assert (forall (l0 : list VirtualNode) (j : nat),
            at_index l0 (Z.of_nat j) = l0 !! j) as Hat.
  { intros l0 j. unfold at_index, at_index'.
    destruct (Z.ltb_spec (Z.of_nat j) 0); [lia|]. by rewrite Nat2Z.id. }
  assert (is_child (Some child) child = true) as Hsame
    by (simpl; unfold same; apply Nat.eqb_refl).
  set (l1 := take to (delete from l) ++ child :: drop to (delete from l)).
  assert (length (delete from l) = pred (length l)) as Hdel.
  { rewrite length_delete by (by eexists). lia. }
  assert (l1 !! to = Some child) as Hl1.
  { subst l1. rewrite lookup_app_r by (rewrite length_take; lia).
    rewrite length_take_le by lia. by rewrite Nat.sub_diag. }
  assert (delete to l1 = delete from l) as Hback.
  { subst l1. rewrite delete_take_drop.
    rewrite take_app_length' by (rewrite length_take; lia).
    rewrite (cons_middle child (take to _) (drop to _)), app_assoc.
    rewrite drop_app_length'
      by (rewrite length_app, length_take; simpl; lia).
    apply take_drop. }
  pose proof (indexOf_found child l from child Hfrom eq_refl) as Hin.
  pose proof (indexOf_found child l1 to child Hl1 eq_refl) as Hin1.
  unfold VirtualElement.moveChild, VirtualElement.ref_removeChild.
  unfold mbind, M_bind, get_state, set_this, emit, assert, mret, M_ret;
    cbn [this console].
  rewrite Hat, Hfrom, Hsame, Hin. cbn [default this console].
  unfold Datatypes.id.
  rewrite splice_remove, <- delete_take_drop, splice_insert_nat.
  fold l1. rewrite Hat, Hl1, Hsame, Hin1. cbn [default this console].
  unfold Datatypes.id.
  rewrite splice_remove, <- delete_take_drop, splice_insert_nat, Hback.
  assert (take from (delete from l) ++ child :: drop from (delete from l) = l)
    as ->.
  { rewrite delete_take_drop.
    rewrite take_app_length', drop_app_length'
      by (rewrite length_take_le; lia).
    by apply take_drop_middle. }
  by rewrite <- !app_assoc.
Qed.
End element_children.

Definition bare (name : string) : Description :=
  ElementDescription name None
    (mkElementFields None None None None None None None None) None.

Lemma insertChild_then_removeChild_witness :
  let a := VirtualElement 2 None (Some 1%nat) (bare "li") None in
  let b := VirtualElement 3 None None (bare "li") None in
  Forall (fun x => Node.id x <> Node.id b) (default [] (Some [a]))
  /\ (VirtualElement.insertChild b 0 ;; VirtualElement.removeChild b)
       (Node.mkCall (VirtualElement 1 None None (bare "ul") (Some [a])) [])
     = (Node.mkCall
          (VirtualElement 1 None None (bare "ul")
             (Some (default [] (Some [a]))))
          ([] ++ [Backing (InsertBefore 1 (Node.id b)
                             (Node.id <$> Node.at_index
                                            (default [] (Some [a])) 0));
                  Backing (RemoveChildRef 1 (Node.id b))]),
        Ok tt).
Proof.
  cbv zeta.
  assert (Forall (fun x => Node.id x
                           <> Node.id (VirtualElement 3 None None (bare "li")
                                         None))
            (default []
               (Some [VirtualElement 2 None (Some 1%nat) (bare "li") None])))
    as Hf by (repeat constructor; simpl; lia).
  split; [exact Hf|].
  exact (insertChild_then_removeChild 1 None None (bare "ul")
           (Some [VirtualElement 2 None (Some 1%nat) (bare "li") None])
           (VirtualElement 3 None None (bare "li") None) 0 [] Hf).
Defined.

Lemma moveChild_there_and_back_witness :
  let li := fun id => VirtualElement id None (Some 1%nat) (bare "li") None in
  let l := [li 2%nat; li 3%nat; li 4%nat] in
  l !! 0%nat = Some (li 2%nat) /\ (2 < length l)%nat
  /\ (VirtualElement.moveChild (li 2%nat) (Z.of_nat 0) (Z.of_nat 2) ;;
      VirtualElement.moveChild (li 2%nat) (Z.of_nat 2) (Z.of_nat 0))
       (Node.mkCall (VirtualElement 1 None None (bare "ul") (Some l)) [])
     = (Node.mkCall (VirtualElement 1 None None (bare "ul") (Some l))
          ([] ++ [Backing (RemoveChildRef 1 (Node.id (li 2%nat)));
                  Backing (InsertAt 1 (Node.id (li 2%nat)) (Z.of_nat 2));
                  Backing (RemoveChildRef 1 (Node.id (li 2%nat)));
                  Backing (InsertAt 1 (Node.id (li 2%nat)) (Z.of_nat 0))]),
        Ok tt).
Proof.
  cbv zeta.
  assert (2 < length [VirtualElement 2 None (Some 1%nat) (bare "li") None;
                      VirtualElement 3 None (Some 1%nat) (bare "li") None;
                      VirtualElement 4 None (Some 1%nat) (bare "li") None])%nat
    as Hlt by (simpl; lia).
  refine (conj eq_refl (conj Hlt _)).
  exact (moveChild_there_and_back 1 None None (bare "ul")
           [VirtualElement 2 None (Some 1%nat) (bare "li") None;
            VirtualElement 3 None (Some 1%nat) (bare "li") None;
            VirtualElement 4 None (Some 1%nat) (bare "li") None]
           (VirtualElement 2 None (Some 1%nat) (bare "li") None) 0 2 []
           eq_refl Hlt).
Defined.

(** * Names in the backing document *)

Section names.
Import utils.

(** The characters of a string. *)
Definition chars (s : string) : list ascii := list_ascii_of_string s.

Lemma chars_append (s t : string) :
  chars (s ++ t)%string = chars s ++ chars t.
Proof. induction s as [|c s IH]; [done|]. simpl. by rewrite <- IH. Qed.

Lemma lower_not_capital (c : ascii) : is_capital (lower c) = false.
Proof.
  destruct c as [[] [] [] [] [] [] [] []]; vm_compute; reflexivity.
Qed.

Lemma lower_fixed (c : ascii) : is_capital c = false -> lower c = c.
Proof. unfold lower. by intros ->. Qed.

Lemma A_Z_capital (c : ascii) : is_A_Z c = true -> is_capital c = true.
Proof. unfold is_capital. by intros ->. Qed.

Lemma toLowerCase_no_capital (s : string) :
  Forall (fun c => is_capital c = false) (chars (toLowerCase s)).
Proof.
  induction s as [|c s IH]; [constructor|].
  simpl. constructor; [apply lower_not_capital|exact IH].
Qed.

Lemma toLowerCase_fixed (s : string) :
  Forall (fun c => is_capital c = false) (chars s) -> toLowerCase s = s.
Proof.
  induction s as [|c s IH]; [done|].
  simpl. intros [Hc Hs]%Forall_cons. by rewrite lower_fixed, IH.
Qed.

Lemma dashed_fixed (s : string) :
  Forall (fun c => is_capital c = false) (chars s) -> dashed s = s.
Proof.
  induction s as [|a s IH]; [done|].
  intros [Ha Hs]%Forall_cons. destruct s as [|b s']; [done|].
  cbn [dashed]. simpl in Hs. pose proof Hs as [Hb _]%Forall_cons.
  destruct (is_A_Z b) eqn:E.
  { apply A_Z_capital in E. congruence. }
  rewrite andb_false_r. f_equal. by apply IH.
Qed.

(** X14. The name [getAttributeName] gives for an attribute and the name
    [getEventName] gives for an event hold no capital letter, whatever
    the name they are given. *)
Theorem document_names_hold_no_capital (name : string) :
  Forall (fun c => is_capital c = false) (chars (getAttributeName name))
  /\ Forall (fun c => is_capital c = false) (chars (getEventName name)).
Proof.
  split.
  - unfold getAttributeName, lowerDash.
    destruct (includes name lower_case_attributes);
      [apply toLowerCase_no_capital|].
    destruct (String.prefix "aria" name); [|apply toLowerCase_no_capital].
    rewrite chars_append. apply Forall_app. split.
    + repeat constructor.
    + apply toLowerCase_no_capital.
  - unfold getEventName. destruct (String.eqb name "onDoubleClick").
    + repeat constructor.
    + apply toLowerCase_no_capital.
Qed.

(** X15. A name without a capital letter that does not start with [aria]
    is the name of the attribute in the document as it stands:
    [getAttributeName] gives it back unchanged. *)
Theorem getAttributeName_keeps_plain_names (name : string) :
  Forall (fun c => is_capital c = false) (chars name) ->
  String.prefix "aria" name = false ->
  getAttributeName name = name.
Proof.
  intros Hplain Haria. unfold getAttributeName, lowerDash.
  destruct (includes name lower_case_attributes) eqn:Hin.
  - by apply toLowerCase_fixed.
  - rewrite Haria, dashed_fixed by done. by apply toLowerCase_fixed.
Qed.

(** X16. The supported attributes have names of their own in the
    document, and so have the supported events: the names that
    [getAttributeName] gives the attributes of [SUPPORTED_ATTRIBUTES] are
    all different, and so are the names that [getEventName] gives the
    events of [SUPPORTED_EVENTS], each taken once ([onError] is listed
    twice). *)
Theorem supported_names_do_not_clash :
  NoDup (getAttributeName <$> Consts.SUPPORTED_ATTRIBUTES)
  /\ NoDup (getEventName <$> remove_dups Consts.SUPPORTED_EVENTS).
Proof.
  split.
  - apply (bool_decide_unpack _). vm_compute. exact I.
  - apply (bool_decide_unpack _). vm_compute. exact I.
Qed.
End names.

Lemma getAttributeName_keeps_plain_names_witness :
  Forall (fun c => utils.is_capital c = false) (chars "placeholder")
  /\ String.prefix "aria" "placeholder" = false
  /\ utils.getAttributeName "placeholder" = "placeholder"%string.
Proof.
  assert (Forall (fun c => utils.is_capital c = false) (chars "placeholder"))
    as Hp by (repeat constructor).
  refine (conj Hp (conj eq_refl _)).
  exact (getAttributeName_keeps_plain_names "placeholder" Hp eq_refl).
Defined.

(** * Class names *)

Section class_names.
Import Template.

(** The class names that a value gives, in order: a string that is not
    empty, the names that the items of an array give, the keys of an object
    that are not empty and have a truthy value. *)
Fixpoint names (v : value) : list string :=
  if negb (truthy v) then []
  else
    match v with
    | VStr s => [s]
    | VArr items =>
        (fix each (items : list value) : list string :=
           match items with
           | [] => []
           | item :: items' => names item ++ each items'
           end) items
    | VObj _ fields =>
        List.filter nonempty
          (omap (fun key => if truthy (get key fields) then Some key else None)
             (fst <$> fields))
    | _ => []
    end.

(** A value that [getClassName] takes: no truthy boolean, number or
    function, at any depth of its arrays. *)
Fixpoint resolvable (v : value) : bool :=
  if negb (truthy v) then true
  else
    match v with
    | VStr _ | VObj _ _ => true
    | VArr items =>
        (fix each (items : list value) : bool :=
           match items with
           | [] => true
           | item :: items' => resolvable item && each items'
           end) items
    | _ => false
    end.

Lemma names_VArr (items : list value) :
  names (VArr items) = concat (names <$> items).
Proof.
  cbn [names truthy negb].
  induction items as [|x l IH]; [done|]. cbn [fmap list_fmap concat].
  by rewrite <- IH.
Qed.

Lemma resolvable_VArr (items : list value) :
  resolvable (VArr items) = forallb resolvable items.
Proof.
  cbn [resolvable truthy negb].
  induction items as [|x l IH]; [done|]. cbn [forallb]. by rewrite <- IH.
Qed.

Lemma names_nonempty (v : value) :
  Forall (fun s => nonempty s = true) (names v).
Proof.
  induction v as [| |b|n|s|f|items IH|ctor fields _] using value_nested_ind;
    try (cbn; by destruct_all bool; constructor).
  - cbn. destruct (negb (n =? 0)); constructor.
  - cbn [names truthy]. unfold nonempty.
    destruct (negb (String.eqb s "")) eqn:E; cbn [negb]; by repeat constructor.
  - rewrite names_VArr. apply Forall_concat, Forall_fmap.
    eapply Forall_impl; [exact IH|]. by intros x Hx.
  - cbn [names truthy negb]. apply Forall_forall. intros s Hs.
    apply list_elem_of_In, filter_In in Hs. by destruct Hs.
Qed.

Lemma join_cons (sep x : string) (l : list string) :
  String.concat sep (x :: l)
  = match l with
    | [] => x
    | _ :: _ => (x ++ sep ++ String.concat sep l)%string
    end.
Proof. by destruct l. Qed.

Lemma string_app_nil_r (s : string) : (s ++ "")%string = s.
Proof.
  induction s as [|c s IH]; [done|].
  change (String c (s ++ "") = String c s)%string. by f_equal.
Qed.

Lemma string_app_assoc' (a b c : string) :
  (a ++ b ++ c)%string = ((a ++ b) ++ c)%string.
Proof.
  induction a as [|x a IH]; [done|].
  change (String x (a ++ b ++ c) = String x ((a ++ b) ++ c))%string.
  by f_equal.
Qed.

Lemma join_app (sep : string) (l1 l2 : list string) :
  l1 <> [] -> l2 <> [] ->
  String.concat sep (l1 ++ l2)
  = (String.concat sep l1 ++ sep ++ String.concat sep l2)%string.
Proof.
  intros H1 H2. induction l1 as [|x l1 IH]; [done|].
  destruct l1 as [|y l1].
  - cbn [app]. rewrite join_cons. by destruct l2.
  - cbn [app] in *. rewrite !(join_cons sep x). cbn [app].
    rewrite IH by done. by rewrite <- !string_app_assoc'.
Qed.

Lemma join_nonempty (sep : string) (l : list string) :
  Forall (fun s => nonempty s = true) l -> l <> [] ->
  nonempty (String.concat sep l) = true.
Proof.
  intros Hl Hne. destruct Hl as [|x l Hx Hl]; [done|].
  rewrite join_cons. destruct l; [done|].
  unfold nonempty in *. by destruct x.
Qed.

Lemma filter_pieces_nil (pieces : list (list string)) :
  Forall (Forall (fun s => nonempty s = true)) pieces ->
  List.filter nonempty (String.concat " " <$> pieces) = []
  <-> concat pieces = [].
Proof.
  induction 1 as [|l pieces Hl Hp IH]; [done|].
  cbn [fmap list_fmap concat List.filter].
  destruct l as [|x l]; [exact IH|].
  rewrite join_nonempty by done. done.
Qed.

(** Joining the names that the pieces give, piece by piece, comes to
    joining all the names. *)
Lemma join_pieces (pieces : list (list string)) :
  Forall (Forall (fun s => nonempty s = true)) pieces ->
  join_names (String.concat " " <$> pieces)
  = String.concat " " (concat pieces).
Proof.
  unfold join_names. induction 1 as [|l pieces Hl Hp IH]; [done|].
  cbn [fmap list_fmap concat List.filter].
  destruct l as [|x l]; [exact IH|].
  rewrite join_nonempty by done.
  pose proof (filter_pieces_nil pieces Hp) as Hnil.
  rewrite (join_cons " " (String.concat " " (x :: l))).
  destruct (List.filter nonempty (String.concat " " <$> pieces))
    as [|y r] eqn:Hf.
  - rewrite (proj1 Hnil eq_refl). by rewrite app_nil_r.
  - rewrite join_app; [by rewrite IH|done|].
    intros Hc. by apply Hnil in Hc.
Qed.

Lemma join_names_skip (result rest : list string) :
  join_names (result ++ "" :: rest) = join_names (result ++ rest).
Proof. unfold join_names. by rewrite !List.filter_app. Qed.

(** X17. [Template.getClassName] flattens what it is given.  For a value
    that holds no truthy boolean, number or function, at any depth of its
    arrays, it returns the class names that the value gives, in order and
    separated by single spaces: the strings that are not empty, those of
    nested arrays included, and the keys of the objects that are not empty
    and have a truthy value.  Falsy items, empty arrays and objects
    without such a key leave no space behind. *)
Theorem getClassName_joins_names (v : value) :
  resolvable v = true ->
  getClassName v = Returns (String.concat " " (names v)).
Proof.
  induction v as [| |b|n|s|f|items IH|ctor fields _] using value_nested_ind;
    try done.
  - by destruct b.
  - cbn. by destruct (negb (n =? 0)).
  - cbn. by destruct (negb (String.eqb s "")).
  - rewrite resolvable_VArr, names_VArr. intros Hres.
    rewrite <- join_pieces
      by (apply Forall_fmap, Forall_forall; intros; apply names_nonempty).
    cbn [getClassName truthy negb].
    match goal with
    | |- ?reduce items [] = _ =>
        enough (forall result,
                  reduce items result
                  = Returns (join_names
                               (result
                                ++ (String.concat " " <$> (names <$> items)))))
          as Hreduce by apply Hreduce
    end.
    induction IH as [|item items Hitem _ IHitems]; intros result.
    { cbn. by rewrite app_nil_r. }
    cbn [forallb] in Hres. apply andb_true_iff in Hres as [Hr Hrs].
    specialize (IHitems Hrs). specialize (Hitem Hr).
    cbn [fmap list_fmap].
    destruct (truthy item) eqn:Ht; cbn [negb].
    + assert (result ++ String.concat " " (names item)
                        :: (String.concat " " <$> (names <$> items))
              = (result ++ [String.concat " " (names item)])
                ++ (String.concat " " <$> (names <$> items))) as ->
        by (by rewrite <- app_assoc).
      destruct item; try (rewrite Hitem; apply IHitems).
      cbn [names]. rewrite Ht. cbn [negb String.concat]. apply IHitems.
    + assert (names item = []) as ->
        by (destruct item; cbn [names]; by rewrite ?Ht).
      cbn [String.concat]. rewrite join_names_skip. apply IHitems.
  - intros _. cbn [getClassName names truthy negb].
    destruct fields as [|kv fields]; [done|]. reflexivity.
Qed.
End class_names.

Lemma getClassName_joins_names_witness :
  let v := VArr [VStr "a"; VNull; VArr [VStr ""; VStr "b"; VArr []];
                 plain [("c", VBool true); ("d", VNum 0)]] in
  resolvable v = true
  /\ Template.getClassName v = Template.Returns (String.concat " " (names v)).
Proof.
  cbv zeta. split; [reflexivity|].
  exact (getClassName_joins_names
           (VArr [VStr "a"; VNull; VArr [VStr ""; VStr "b"; VArr []];
                  plain [("c", VBool true); ("d", VNum 0)]]) eq_refl).
Defined.

(** * The node a component is rendered by *)

Section rendered_node.
Import Node.
Context (toolkit : Toolkit).

Lemma rendered_by_one (top : bool) (n : VirtualNode) :
  isComponent n = true ->
  node_ok toolkit top n -> Forall (well_formed toolkit) (kids n) ->
  (is_Some (Rendered.childElement toolkit n)
   /\ Component.placeholder n = None)
  \/ (Rendered.childElement toolkit n = None
      /\ is_Some (Component.placeholder n)).
Proof.
  revert top. induction n as [n IH] using VirtualNode_kids_ind.
  intros top Hc (_ & _ & _ & Hslot & _) Hkids.
  destruct n as [|i c k p d child cm st]; [done|].
  cbn [slot_invariant] in Hslot.
  cbn [Rendered.childElement Component.placeholder].
  destruct Hslot as [[[x ->] ->]|[-> [cm' ->]]];
    [|right; by split; [|eexists]].
  cbn [kids] in IH, Hkids.
  rewrite Forall_singleton in Hkids. apply well_formed_eq in Hkids as [Hx Hxs].
  apply Forall_cons in IH as [IHx _].
  assert (Diff.isRoot toolkit x = false) as Hroot.
  { destruct Hx as (_ & _ & _ & _ & Htop). by destruct x. }
  rewrite Hroot, orb_false_r.
  destruct x as [j kx px dx chx|j cx kx px dx childx cmx stx].
  - left. by split; [eexists|].
  - cbn [isElement isComponent]. by apply (IHx false).
Qed.

(** X18. Every component of a well-formed tree, the root included, is
    rendered by exactly one node of the backing document: either it has a
    child element, found through the components it renders, and no
    placeholder, or it has a placeholder comment and no child element; so
    that its [renderedNode] is always there. *)
Theorem component_is_rendered_by_one_node (top : bool) (n : VirtualNode) :
  isComponent n = true ->
  node_ok toolkit top n -> Forall (well_formed toolkit) (kids n) ->
  ((exists element,
      Rendered.childElement toolkit n = Some element
      /\ isElement element = true
      /\ Component.placeholder n = None
      /\ Rendered.renderedNode toolkit n
         = Ok (Rendered.NodeRef (id element)))
   \/ (exists comment,
         Rendered.childElement toolkit n = None
         /\ Component.placeholder n = Some comment
         /\ Rendered.renderedNode toolkit n
            = Ok (Rendered.CommentRef comment))).
Proof.
  intros Hc Hok Hkids. unfold Rendered.renderedNode.
  destruct (rendered_by_one top n Hc Hok Hkids)
    as [[[e He] Hp]|[He [cm Hp]]].
  - left. exists e. rewrite He. split_and!; try done.
    clear Hp. revert top Hc Hok Hkids He.
    induction n as [n IH] using VirtualNode_kids_ind.
    intros top Hc Hok Hkids He.
    destruct n as [|i c k p d [x|] cm st]; [done| |done].
    cbn [Rendered.childElement] in He. cbn [kids] in IH, Hkids.
    rewrite Forall_singleton in Hkids.
    apply well_formed_eq in Hkids as [Hx Hxs].
    apply Forall_cons in IH as [IHx _].
    assert (Diff.isRoot toolkit x = false) as Hroot.
    { destruct Hx as (_ & _ & _ & _ & Htop). by destruct x. }
    rewrite Hroot, orb_false_r in He.
    destruct x as [j kx px dx chx|j cx kx px dx childx cmx stx].
    + by injection He as <-.
    + cbn [isElement isComponent] in He. by apply (IHx false).
  - right. exists cm. by rewrite He, Hp.
Qed.
End rendered_node.

Lemma component_is_rendered_by_one_node_witness :
  let toolkit := view_toolkit unique in
  let n := root unique_world in
  Node.isComponent n = true
  /\ node_ok toolkit true n /\ Forall (well_formed toolkit) (kids n)
  /\ ((exists element,
         Rendered.childElement toolkit n = Some element
         /\ Node.isElement element = true
         /\ Component.placeholder n = None
         /\ Rendered.renderedNode toolkit n
            = Ok (Rendered.NodeRef (Node.id element)))
      \/ (exists comment,
            Rendered.childElement toolkit n = None
            /\ Component.placeholder n = Some comment
            /\ Rendered.renderedNode toolkit n
               = Ok (Rendered.CommentRef comment))).
Proof.
  cbv zeta. destruct unique_world_well_formed as [Hok Hkids].
  refine (conj eq_refl (conj Hok (conj Hkids _))).
  exact (component_is_rendered_by_one_node (view_toolkit unique) true
           (root unique_world) eq_refl Hok Hkids).
Defined.

(** * Props, states and reducers *)

Section objects.

Lemma has_elem_of (key : string) (fields : list (string * value)) :
  Obj.has key fields = true <-> key ∈ fields.*1.
Proof.
  unfold Obj.has. rewrite existsb_exists. split.
  - intros ([k v] & Hin & Heq). simpl in Heq.
    apply String.eqb_eq in Heq as ->. apply list_elem_of_In in Hin.
    apply list_elem_of_fmap. by exists (key, v).
  - intros ([k v] & -> & Hin)%list_elem_of_fmap. exists (k, v).
    split; [by apply list_elem_of_In|]. apply String.eqb_refl.
Qed.

Lemma has_false (key : string) (fields : list (string * value)) :
  Obj.has key fields = false <-> key ∉ fields.*1.
Proof.
  rewrite <- has_elem_of. by destruct (Obj.has key fields).
Qed.

Lemma add_perm {A} (name : A -> string) (x : A) (l : list A) :
  Obj.add name x l ≡ₚ x :: l.
Proof.
  induction l as [|y l IH]; cbn [Obj.add]; [done|].
  destruct (Obj.goes_before _ _); [done|].
  rewrite IH. apply Permutation_swap.
Qed.

Lemma keys_add (k : string) (v : value) (fields : list (string * value)) :
  (Obj.add fst (k, v) fields).*1 = Obj.add Datatypes.id k fields.*1.
Proof.
  induction fields as [|[k' x] fields IH]; [done|].
  rewrite fmap_cons. cbn [Obj.add fst Datatypes.id].
  destruct (Obj.goes_before k k'); [done|].
  rewrite fmap_cons. cbn [fst]. f_equal. exact IH.
Qed.

Lemma get_add (key k : string) (v : value) (fields : list (string * value)) :
  k ∉ fields.*1 ->
  get key (Obj.add fst (k, v) fields)
  = if String.eqb k key then v else get key fields.
Proof.
  induction fields as [|[k' x] fields IH]; cbn [Obj.add fst]; [done|].
  rewrite fmap_cons, not_elem_of_cons. cbn [fst]. intros [Hne Hk].
  destruct (Obj.goes_before k k'); [done|]. cbn [get].
  destruct (String.eqb_spec k' key) as [->|Hne'].
  - by rewrite (proj2 (String.eqb_neq k key)).
  - by apply IH.
Qed.

Lemma keys_replace (k : string) (v : value) (fields : list (string * value)) :
  (Obj.replace k v fields).*1 = fields.*1.
Proof.
  induction fields as [|[k' x] fields IH]; cbn [Obj.replace]; [done|].
  destruct (String.eqb k' k); cbn [fmap list_fmap fst]; [done|].
  f_equal. exact IH.
Qed.

Lemma get_replace (key k : string) (v : value)
    (fields : list (string * value)) :
  k ∈ fields.*1 ->
  get key (Obj.replace k v fields)
  = if String.eqb k key then v else get key fields.
Proof.
  induction fields as [|[k' x] fields IH]; [by intros ?%elem_of_nil|].
  rewrite fmap_cons, elem_of_cons. cbn [Obj.replace get fst].
  destruct (String.eqb_spec k' k) as [->|Hne]; cbn [get].
  - intros _. by destruct (String.eqb k key).
  - intros [?|Hin]; [congruence|]. rewrite IH by done.
    destruct (String.eqb_spec k key) as [->|_]; [|done].
    by rewrite (proj2 (String.eqb_neq _ _) Hne).
Qed.

Lemma get_set (key k : string) (v : value) (fields : list (string * value)) :
  get key (Obj.set k v fields)
  = if String.eqb k key then v else get key fields.
Proof.
  unfold Obj.set. destruct (Obj.has k fields) eqn:Hh.
  - apply get_replace. by apply has_elem_of.
  - apply get_add. by apply has_false.
Qed.

Lemma keys_set (k : string) (v : value) (fields : list (string * value)) :
  (Obj.set k v fields).*1
  = if bool_decide (k ∈ fields.*1) then fields.*1
    else Obj.add Datatypes.id k fields.*1.
Proof.
  unfold Obj.set. destruct (Obj.has k fields) eqn:Hh.
  - rewrite bool_decide_eq_true_2 by (by apply has_elem_of).
    apply keys_replace.
  - rewrite bool_decide_eq_false_2 by (by apply has_false).
    apply keys_add.
Qed.

Lemma NoDup_set (k : string) (v : value) (fields : list (string * value)) :
  NoDup fields.*1 -> NoDup (Obj.set k v fields).*1.
Proof.
  intros Hnd. rewrite keys_set. case_bool_decide; [done|].
  rewrite add_perm. by constructor.
Qed.

Lemma get_undefined (key : string) (fields : list (string * value)) :
  key ∉ fields.*1 -> get key fields = VUndefined.
Proof.
  induction fields as [|[k x] fields IH]; [done|].
  rewrite fmap_cons, not_elem_of_cons. simpl. intros [Hne Hn].
  rewrite (proj2 (String.eqb_neq k key)) by congruence. by apply IH.
Qed.

Lemma elem_of_keys_set (key k : string) (v : value)
    (fields : list (string * value)) :
  key ∈ (Obj.set k v fields).*1 <-> key = k \/ key ∈ fields.*1.
Proof.
  rewrite keys_set. case_bool_decide.
  - split; [by right|]. by intros [->|?].
  - rewrite add_perm, elem_of_cons. tauto.
Qed.

(** What [Object.assign] leaves under a name: the property of the source
    when it has one, the property of the target otherwise. *)
Lemma get_assign (key : string) (target source : list (string * value)) :
  NoDup source.*1 ->
  get key (Obj.assign target source)
  = if bool_decide (key ∈ source.*1) then get key source
    else get key target.
Proof.
  unfold Obj.assign. revert target.
  induction source as [|[k v] source IH]; intros target Hnd; [done|].
  rewrite fmap_cons, NoDup_cons in Hnd. destruct Hnd as [Hk Hnd].
  cbn [foldl fst snd]. rewrite IH by done. cbn [get fmap list_fmap fst].
  change (list_fmap _ _ fst ?l) with (l.*1).
  destruct (String.eqb_spec k key) as [->|Hne].
  - rewrite (bool_decide_eq_false_2 _ Hk), get_set, String.eqb_refl.
    by rewrite bool_decide_eq_true_2 by left.
  - rewrite get_set, (proj2 (String.eqb_neq _ _) Hne).
    rewrite (bool_decide_ext (key ∈ k :: source.*1) (key ∈ source.*1))
      by (rewrite elem_of_cons; intuition congruence).
    done.
Qed.

Lemma NoDup_assign (target source : list (string * value)) :
  NoDup target.*1 -> NoDup (Obj.assign target source).*1.
Proof.
  unfold Obj.assign. revert target.
  induction source as [|[k v] source IH]; intros target Hnd; [done|].
  cbn [foldl]. by apply IH, NoDup_set.
Qed.

Lemma elem_of_keys_assign (key : string)
    (target source : list (string * value)) :
  key ∈ (Obj.assign target source).*1
  <-> key ∈ target.*1 \/ key ∈ source.*1.
Proof.
  unfold Obj.assign. revert target.
  induction source as [|[k v] source IH]; intros target.
  { simpl. rewrite elem_of_nil. tauto. }
  cbn [foldl fst snd]. rewrite IH, elem_of_keys_set, fmap_cons, elem_of_cons.
  simpl. tauto.
Qed.

(** The names of an object are listed in order: no name stands behind a
    name it goes in front of. *)
Definition listed_in_order (names : list string) : Prop :=
  StronglySorted (fun a b => Obj.goes_before b a = false) names.

Lemma goes_before_cases (a b : string) :
  Obj.goes_before a b = true ->
  exists i, Obj.array_index a = Some i
    /\ match Obj.array_index b with Some j => i < j | None => True end.
Proof.
  unfold Obj.goes_before.
  destruct (Obj.array_index a) as [i|]; [|done]. intros Hab. exists i.
  split; [done|]. destruct (Obj.array_index b); [|done]. by apply Z.ltb_lt.
Qed.

(** A name that goes in front of a name goes in front of the names behind
    that one. *)
Lemma goes_before_behind (x y z : string) :
  Obj.goes_before x y = true -> Obj.goes_before z y = false ->
  Obj.goes_before z x = false.
Proof.
  intros (i & Hx & Hy)%goes_before_cases. unfold Obj.goes_before.
  rewrite Hx. destruct (Obj.array_index z) as [k|]; [|done].
  destruct (Obj.array_index y) as [j|]; [|done].
  rewrite !Z.ltb_ge. lia.
Qed.

Lemma add_listed_in_order (k : string) (names : list string) :
  listed_in_order names -> listed_in_order (Obj.add Datatypes.id k names).
Proof.
  induction 1 as [|y names Hs IH Hy]; cbn [Obj.add Datatypes.id].
  { repeat constructor. }
  destruct (Obj.goes_before k y) eqn:Hky.
  - constructor; [by constructor|]. constructor.
    + unfold Obj.goes_before in Hky |- *.
      destruct (Obj.array_index k) as [i|]; [|done].
      destruct (Obj.array_index y) as [j|]; [|done].
      apply Z.ltb_lt in Hky. apply Z.ltb_ge. lia.
    + eapply Forall_impl; [exact Hy|]. intros z Hz. simpl in Hz.
      by apply (goes_before_behind k y z).
  - constructor; [done|]. rewrite add_perm. by constructor.
Qed.

(** A name that goes in front of none of the names that are there goes
    behind them. *)
Lemma add_last {A} (name : A -> string) (x : A) (l : list A) :
  Forall (fun y => Obj.goes_before (name x) (name y) = false) l ->
  Obj.add name x l = l ++ [x].
Proof.
  induction 1 as [|y l Hy _ IH]; cbn [Obj.add]; [done|].
  by rewrite Hy, IH.
Qed.

Lemma set_listed_in_order (k : string) (v : value)
    (fields : list (string * value)) :
  listed_in_order fields.*1 -> listed_in_order (Obj.set k v fields).*1.
Proof.
  intros Hs. rewrite keys_set. case_bool_decide; [done|].
  by apply add_listed_in_order.
Qed.

Lemma assign_listed_in_order (target source : list (string * value)) :
  listed_in_order target.*1 -> listed_in_order (Obj.assign target source).*1.
Proof.
  unfold Obj.assign. revert target.
  induction source as [|[k v] source IH]; intros target Hs; [done|].
  cbn [foldl]. by apply IH, set_listed_in_order.
Qed.

(** Copying an object whose names are listed in order gives it back. *)
Lemma assign_fresh (target source : list (string * value)) :
  NoDup (target ++ source).*1 -> listed_in_order (target ++ source).*1 ->
  Obj.assign target source = target ++ source.
Proof.
  unfold Obj.assign. revert target.
  induction source as [|[k v] source IH]; intros target Hnd Hs.
  { by rewrite app_nil_r. }
  cbn [foldl fst snd].
  assert (Obj.set k v target = target ++ [(k, v)]) as ->.
  { unfold Obj.set.
    assert (k ∉ target.*1) as Hk.
    { rewrite fmap_app, fmap_cons in Hnd.
      apply NoDup_app in Hnd as (_ & Hd & _). intros Hin.
      apply (Hd _ Hin). left. }
    rewrite (proj2 (has_false k target) Hk).
    apply add_last. cbn [fst].
    rewrite fmap_app, fmap_cons in Hs.
    apply StronglySorted_app in Hs as (Hs & _ & _).
    apply Forall_forall. intros [k' x] Hin. cbn [fst].
    apply (Hs k' k); [|left]. apply list_elem_of_fmap. by exists (k', x). }
  rewrite IH; rewrite <- app_assoc; done.
Qed.

Lemma replace_by_same (k : string) (fields : list (string * value)) :
  Obj.replace k (get k fields) fields = fields.
Proof.
  induction fields as [|[k' x] fields IH]; cbn [Obj.replace get]; [done|].
  destruct (String.eqb_spec k' k) as [->|Hne]; [done|]. by rewrite IH.
Qed.

(** Setting a property to the value it has changes nothing. *)
Lemma set_same (k : string) (fields : list (string * value)) :
  k ∈ fields.*1 -> Obj.set k (get k fields) fields = fields.
Proof.
  intros Hin. unfold Obj.set.
  rewrite (proj2 (has_elem_of k fields) Hin). apply replace_by_same.
Qed.

Lemma set_get_other (k k' : string) (v : value)
    (fields : list (string * value)) :
  k <> k' -> get k' (Obj.set k v fields) = get k' fields.
Proof.
  intros Hne. by rewrite get_set, (proj2 (String.eqb_neq _ _) Hne).
Qed.

(** Assigning properties that are there already, with the values they
    have, changes nothing. *)
Lemma assign_same (target source : list (string * value)) :
  Forall (fun kv => kv.1 ∈ target.*1 /\ get kv.1 target = kv.2) source ->
  Obj.assign target source = target.
Proof.
  unfold Obj.assign. induction 1 as [|[k v] source [Hin Hget] _ IH]; [done|].
  cbn [foldl fst snd] in *. by rewrite <- Hget, set_same.
Qed.
End objects.

Section props.
Import Props.

Definition defined (v : value) : bool := negb (Obj.is_undefined v).

(** The first value of a list that is not [undefined], or [undefined]. *)
Fixpoint first_defined (l : list value) : value :=
  match l with
  | [] => VUndefined
  | v :: l' => if defined v then v else first_defined l'
  end.

Definition supplement (result : Props) (override : option Props) : Props :=
  foldl
    (fun result kv =>
       if Obj.lacks kv.1 result && negb (Obj.is_undefined kv.2)
       then Obj.set kv.1 kv.2 result
       else result)
    result (default [] override).

(** For a name that is not inherited, a property that is missing reads as
    [undefined], like one that holds [undefined]. *)
Lemma lacks_own (key : string) (result : Props) :
  Obj.inherits key = false ->
  Obj.lacks key result = Obj.is_undefined (get key result).
Proof.
  intros Hi. unfold Obj.lacks. rewrite Hi.
  destruct (Obj.has key result) eqn:Hh; [done|].
  apply has_false in Hh. by rewrite get_undefined.
Qed.

Lemma lacks_inherited (key : string) (result : Props) :
  Obj.inherits key = true -> key ∉ result.*1 ->
  Obj.lacks key result = false.
Proof.
  intros Hi Hk. unfold Obj.lacks. by rewrite (proj2 (has_false _ _) Hk), Hi.
Qed.

Lemma get_supplement (key : string) (result : Props)
    (override : option Props) :
  Obj.inherits key = false ->
  NoDup (default [] override).*1 ->
  get key (supplement result override)
  = if defined (get key result) then get key result
    else get key (default [] override).
Proof.
  intros Hi. unfold supplement. generalize (default [] override).
  clear override.
  intros o. revert result. induction o as [|[k v] o IH]; intros result Hnd.
  { simpl. unfold defined. by destruct (get key result). }
  rewrite fmap_cons, NoDup_cons in Hnd. destruct Hnd as [Hk Hnd].
  cbn [foldl fst snd]. rewrite IH by done. cbn [get].
  destruct (String.eqb_spec k key) as [->|Hne].
  - rewrite (get_undefined key o Hk), (lacks_own key result Hi).
    destruct (Obj.is_undefined (get key result)) eqn:Hr;
      destruct (Obj.is_undefined v) eqn:Hv; cbn [andb negb];
      unfold defined; rewrite ?get_set, ?String.eqb_refl, ?Hr, ?Hv;
      cbn [negb]; try done.
    by destruct v.
  - assert (get key
              (if Obj.lacks k result && negb (Obj.is_undefined v)
               then Obj.set k v result else result)
            = get key result) as ->; [|done].
    destruct (_ && _); [by apply set_get_other|done].
Qed.

(** What a result of [normalizeProps] is like: it holds each name once, no
    [undefined] value and no name that is inherited. *)
Definition normal (result : Props) : Prop :=
  NoDup result.*1
  /\ Forall (fun kv => defined kv.2 = true) result
  /\ Forall (fun k => Obj.inherits k = false) result.*1.

Lemma set_normal (k : string) (v : value) (result : Props) :
  normal result -> defined v = true -> Obj.inherits k = false ->
  k ∉ result.*1 -> normal (Obj.set k v result).
Proof.
  intros (Hnd & Hdef & Hown) Hv Hk Hout. split_and!.
  - by apply NoDup_set.
  - unfold Obj.set. rewrite (proj2 (has_false _ _) Hout).
    rewrite add_perm. by constructor.
  - rewrite keys_set, bool_decide_eq_false_2 by done.
    rewrite add_perm. by constructor.
Qed.

Lemma supplement_kept (result : Props) (override : option Props) :
  normal result -> normal (supplement result override).
Proof.
  unfold supplement. generalize (default [] override). clear override.
  intros o. revert result. induction o as [|[k v] o IH]; intros result Hr;
    [done|].
  cbn [foldl fst snd]. apply IH.
  destruct (Obj.lacks k result) eqn:Hl; [|done].
  destruct (Obj.is_undefined v) eqn:Hv; cbn [andb negb]; [done|].
  assert (k ∉ result.*1) as Hout.
  { intros Hin. unfold Obj.lacks in Hl.
    rewrite (proj2 (has_elem_of _ _) Hin) in Hl.
    destruct Hr as (_ & Hdef & _). apply get_elem_of in Hin.
    rewrite Forall_forall in Hdef. specialize (Hdef _ Hin).
    unfold defined in Hdef. simpl in Hdef. by rewrite Hl in Hdef. }
  apply set_normal; [done|by unfold defined; rewrite Hv| |done].
  unfold Obj.lacks in Hl. rewrite (proj2 (has_false _ _) Hout) in Hl.
  by destruct (Obj.inherits k).
Qed.

Lemma get_normalizeProps_from (key : string) (result : Props)
    (overrides : list (option Props)) :
  Obj.inherits key = false ->
  Forall (fun o => NoDup (default [] o).*1) overrides ->
  get key (foldl supplement result overrides)
  = if defined (get key result) then get key result
    else first_defined ((fun o => get key (default [] o)) <$> overrides).
Proof.
  intros Hi. revert result.
  induction overrides as [|o os IH]; intros result Hall.
  { simpl. unfold defined. by destruct (get key result). }
  apply Forall_cons in Hall as [Ho Hos].
  cbn [foldl fmap list_fmap first_defined]. rewrite IH by done.
  rewrite get_supplement by done.
  destruct (defined (get key result)) eqn:Hr; [by rewrite Hr|].
  by destruct (defined (get key (default [] o))).
Qed.

Lemma normalizeProps_normal (overrides : list (option Props)) :
  normal (normalizeProps overrides).
Proof.
  change (normalizeProps overrides) with (foldl supplement [] overrides).
  assert (normal []) as Hr by (split_and!; constructor).
  revert Hr. generalize ([] : Props).
  induction overrides as [|o os IH]; intros result Hr; [done|].
  cbn [foldl]. by apply IH, supplement_kept.
Qed.

(** X19. Of the objects given to [normalizeProps], each holding a name
    once, the result holds under every name that an object does not
    inherit from [Object.prototype] the first value given for it that is
    not [undefined], in the order of the arguments: a prop that is given
    wins over the default, a prop that is missing or [undefined] gets the
    default, and [null] counts as given.  A prop under an inherited name,
    such as [constructor] or [toString], is never taken over.  The result
    holds each name once and no [undefined] value. *)
Theorem normalizeProps_takes_first_defined (overrides : list (option Props))
    (key : string) :
  Forall (fun o => NoDup (default [] o).*1) overrides ->
  (if Obj.inherits key then key ∉ (normalizeProps overrides).*1
   else get key (normalizeProps overrides)
        = first_defined ((fun o => get key (default [] o)) <$> overrides))
  /\ NoDup (normalizeProps overrides).*1
  /\ Forall (fun kv => kv.2 <> VUndefined) (normalizeProps overrides).
Proof.
  intros Hall.
  destruct (normalizeProps_normal overrides) as (Hnd & Hdef & Hown).
  split_and!; [|done|].
  - destruct (Obj.inherits key) eqn:Hi.
    + intros Hin. rewrite Forall_forall in Hown.
      specialize (Hown _ Hin). congruence.
    + change (normalizeProps overrides)
        with (foldl supplement [] overrides).
      by rewrite get_normalizeProps_from.
  - eapply Forall_impl; [exact Hdef|].
    intros [k v] Hv Heq. simpl in *. by subst.
Qed.
End props.

Section reducers.
Import Reducers.

(** X20. The [update] command merges: for a state and a command state
    that hold each name once, the core reducer gives a state that holds
    under every name the value of the command when the command has the
    name, and the value of the old state otherwise, with no other name and
    each name once; reducing the new state with the same command again
    gives the new state back.  [Root.getUpdatedState] merges the props
    into the state in the same way. *)
Theorem update_command_merges (current partial : Props) (key : string) :
  NoDup current.*1 -> NoDup partial.*1 ->
  let command := mkCommand UPDATE (Some partial) in
  exists next,
    reduce coreReducer (Some current) command = Some next
    /\ Props.getUpdatedState (Some partial) (Some current) = next
    /\ get key next
       = (if bool_decide (key ∈ partial.*1) then get key partial
          else get key current)
    /\ (key ∈ next.*1 <-> key ∈ current.*1 \/ key ∈ partial.*1)
    /\ NoDup next.*1
    /\ reduce coreReducer (Some next) command = Some next.
Proof.
  intros Hc Hp command.
  set (next := Obj.assign (Obj.assign [] current) partial).
  exists next.
  assert (NoDup next.*1) as Hnd
    by (apply NoDup_assign, NoDup_assign; constructor).
  assert (listed_in_order next.*1) as Hord
    by (apply assign_listed_in_order, assign_listed_in_order; constructor).
  cbn [reduce coreReducer coreReducer_reduce type state command default].
  unfold Props.getUpdatedState. cbn [default]. fold next.
  split_and!; try done.
  - unfold next. rewrite !get_assign by done.
    case_bool_decide; [done|].
    case_bool_decide as Hin; [done|].
    by rewrite (get_undefined key current).
  - unfold next. rewrite !elem_of_keys_assign, elem_of_nil. tauto.
  - f_equal. unfold Datatypes.id.
    rewrite (assign_fresh [] next) by done. cbn [app].
    apply assign_same. apply Forall_forall. intros [k v] Hkv.
    assert (k ∈ partial.*1) as Hk
      by (apply list_elem_of_fmap; by exists (k, v)).
    cbn [fst snd]. split.
    + unfold next. apply elem_of_keys_assign. by right.
    + unfold next. rewrite get_assign, bool_decide_eq_true_2 by done.
      by apply get_NoDup.
Qed.


(** A name that is not an array index. *)
Definition plain_name (key : string) : Prop := Obj.array_index key = None.

#[local] Instance plain_name_dec (key : string) : Decision (plain_name key).
Proof. unfold plain_name. apply _. Defined.

Lemma goes_before_plain (k y : string) :
  plain_name k -> Obj.goes_before k y = false.
Proof. unfold plain_name, Obj.goes_before. by intros ->. Qed.




End reducers.

Lemma normalizeProps_takes_first_defined_witness :
  let props := [("size", VNum 3); ("label", VUndefined); ("icon", VNull);
                ("toString", VStr "x")] in
  let defaults := [("label", VStr "none"); ("icon", VStr "star");
                   ("open", VBool false)] in
  Forall (fun o => NoDup (default [] o).*1) [Some props; Some defaults]
  /\ get "label" (Props.normalizeProps [Some props; Some defaults])
     = VStr "none"
  /\ ("toString"%string
      ∉ (Props.normalizeProps [Some props; Some defaults]).*1)
  /\ Props.normalizeProps [Some props; Some defaults]
     = [("size", VNum 3); ("icon", VNull); ("label", VStr "none");
        ("open", VBool false)].
Proof.
  cbv zeta.
  assert (Forall (fun o : option Props => NoDup (default [] o).*1)
            [Some [("size", VNum 3); ("label", VUndefined); ("icon", VNull);
                   ("toString", VStr "x")];
             Some [("label", VStr "none"); ("icon", VStr "star");
                   ("open", VBool false)]])%string as Hall.
  { repeat constructor; apply (bool_decide_unpack _); vm_compute; exact I. }
  refine (conj Hall (conj _ (conj _ eq_refl))).
  - exact (proj1 (normalizeProps_takes_first_defined _ "label" Hall)).
  - exact (proj1 (normalizeProps_takes_first_defined _ "toString" Hall)).
Defined.

Lemma update_command_merges_witness :
  let current := [("count", VNum 1); ("name", VStr "a")] in
  let partial := [("count", VNum 2)] in
  NoDup current.*1 /\ NoDup partial.*1
  /\ exists next,
       Reducers.reduce Reducers.coreReducer (Some current)
         (Reducers.mkCommand Reducers.UPDATE (Some partial)) = Some next
       /\ Props.getUpdatedState (Some partial) (Some current) = next
       /\ get "count" next
          = (if bool_decide ("count"%string ∈ partial.*1)
             then get "count" partial else get "count" current)
       /\ ("count"%string ∈ next.*1
           <-> "count"%string ∈ current.*1 \/ "count"%string ∈ partial.*1)
       /\ NoDup next.*1
       /\ Reducers.reduce Reducers.coreReducer (Some next)
            (Reducers.mkCommand Reducers.UPDATE (Some partial)) = Some next.
Proof.
  cbv zeta.
  assert (NoDup [("count", VNum 1); ("name", VStr "a")].*1)%string as Hc
    by (apply (bool_decide_unpack _); vm_compute; exact I).
  assert (NoDup [("count", VNum 2)].*1)%string as Hp
    by (apply (bool_decide_unpack _); vm_compute; exact I).
  refine (conj Hc (conj Hp _)).
  exact (update_command_merges _ _ "count" Hc Hp).
Defined.


(** * Dispatching a command *)

Section dispatching.
Import Node Reducers.
Context (toolkit : Toolkit).

(** X22. For a toolkit whose components render lists with distinct keys
    and render deep-equal descriptions alike: dispatching the [update]
    command to a well-formed root without reducers of its own merges the
    state of the command into the state of the root, and, when the merged
    state is not deep-equal to the old one and can be rendered, leaves a
    well-formed tree that renders the merged state, held by the root;
    every listener plugin is told of the update before it is made, and
    every listener is told of it afterwards, with the patches that the
    update of the tree from the old state to the merged one has returned
    and applied. *)
Theorem dispatch_update_renders_merged_state (fuel : nat)
    (reducer : Reducer) (listeners : list nat) (current partial : Props)
    (s : Root.Session) :
  let w := Root.world s in
  let command := mkCommand UPDATE (Some partial) in
  let merged := Obj.assign (Obj.assign [] current) partial in
  combineReducers [] = Ok reducer ->
  keyed_render toolkit -> pure_render toolkit ->
  well_formed_root toolkit (root w) -> fits (root w) (nextId w) ->
  Node.state (root w) = Some current ->
  DeepEqual.deepEqual (plain current) (plain merged) = false ->
  state_renderable toolkit fuel (Diff.constructor_of (root w))
    (Some merged) ->
  exists w' ps,
    Renderer.update toolkit fuel (Some current) (Some merged) w
    = (w', Ok ps)
    /\ Root.dispatch toolkit fuel reducer listeners command s
       = (Root.mkSession w'
            (Root.told s
             ++ ((fun l => Root.onBeforeUpdate l command (Some current)
                             (Some merged)) <$> listeners)
             ++ ((fun l => Root.onUpdate l command (Some current)
                             (Some merged) ps) <$> listeners)),
          Ok tt)
    /\ well_formed_root toolkit (root w')
    /\ renders toolkit (root w')
         (Diff.describe_root (Diff.constructor_of (root w)) (Some merged))
    /\ Node.state (root w') = Some merged.
Proof.
  intros w command merged [= <-] Hkeyed Hpure Hwf Hfit Hst Hne Hr.
  destruct (update_total toolkit Hkeyed Hpure fuel (Some current)
              (Some merged) w eq_refl Hwf Hfit Hr) as (w' & ps & Hrun).
  destruct (update_ok toolkit Hkeyed Hpure fuel (Some current) (Some merged)
              w w' ps Hrun eq_refl Hwf Hfit)
    as [(Heq & _)|(_ & Hwf' & _ & Hren & _ & Hst')];
    [unfold Diff.state_value in Heq; congruence|].
  exists w', ps. split; [done|]. split; [|by split_and!].
  unfold Root.dispatch, Root.updateDOM, Root.notify, Root.in_world.
  unfold mbind, M_bind, get_state. cbn [Root.world Root.told].
  fold w. rewrite Hst.
  cbn [reduce foldl coreReducer coreReducer_reduce type Reducers.state
         command default].
  unfold Datatypes.id. fold merged.
  match goal with
  | |- context [Renderer.update ?t ?f ?a ?b ?x] =>
      replace (Renderer.update t f a b x) with (w', Ok ps)
        by (symmetry; exact Hrun)
  end.
  cbn [Root.world Root.told]. by rewrite <- app_assoc.
Qed.
End dispatching.

(** The list [a; b; c] after the command [update({v: 1})]. *)
Lemma dispatch_update_renders_merged_state_witness :
  let toolkit := view_toolkit unique in
  let s := Root.mkSession unique_world [] in
  let w := Root.world s in
  let reducer :=
    match Reducers.combineReducers [] with
    | Ok r => r
    | Throw _ => Reducers.coreReducer
    end in
  let command := Reducers.mkCommand Reducers.UPDATE (Some (in_state 1)) in
  let merged := Obj.assign (Obj.assign [] (in_state 0)) (in_state 1) in
  Reducers.combineReducers [] = Ok reducer
  /\ keyed_render toolkit /\ pure_render toolkit
  /\ well_formed_root toolkit (root w) /\ fits (root w) (nextId w)
  /\ Node.state (root w) = Some (in_state 0)
  /\ DeepEqual.deepEqual (plain (in_state 0)) (plain merged) = false
  /\ state_renderable toolkit 4 (Diff.constructor_of (root w))
       (Some merged)
  /\ exists w' ps,
       Renderer.update toolkit 4 (Some (in_state 0)) (Some merged) w
       = (w', Ok ps)
       /\ Root.dispatch toolkit 4 reducer [7; 8]%nat command s
          = (Root.mkSession w'
               (Root.told s
                ++ ((fun l => Root.onBeforeUpdate l command
                                (Some (in_state 0)) (Some merged))
                    <$> [7; 8]%nat)
                ++ ((fun l => Root.onUpdate l command (Some (in_state 0))
                                (Some merged) ps) <$> [7; 8]%nat)),
             Ok tt)
       /\ well_formed_root toolkit (root w')
       /\ renders toolkit (root w')
            (Diff.describe_root (Diff.constructor_of (root w))
               (Some merged))
       /\ Node.state (root w') = Some merged.
Proof.
  cbv zeta.
  assert (DeepEqual.deepEqual (plain (in_state 0))
            (plain (Obj.assign (Obj.assign [] (in_state 0)) (in_state 1)))
          = false) as Hne
    by (vm_compute; reflexivity).
  assert (state_renderable (view_toolkit unique) 4
            (Diff.constructor_of (root unique_world))
            (Some (Obj.assign (Obj.assign [] (in_state 0)) (in_state 1))))
    as Hthere
    by (cbn; repeat constructor).
  split_and!;
    [reflexivity|exact unique_keyed|exact unique_pure
    |exact unique_world_well_formed|exact unique_world_fits|reflexivity
    |exact Hne|exact Hthere|].
  exact (dispatch_update_renders_merged_state (view_toolkit unique) 4 _
           [7; 8]%nat (in_state 0) (in_state 1)
           (Root.mkSession unique_world []) eq_refl unique_keyed unique_pure
           unique_world_well_formed unique_world_fits eq_refl Hne Hthere).
Defined.

(** * The root of a node *)

Section root_of_a_node.
Import Node.
Context (toolkit : Toolkit) (tree : VirtualNode).
Hypothesis distinct : NoDup (ids tree).

Lemma At_length (T : VirtualNode) (i : nat) (n : VirtualNode) :
  At T i n -> NoDup (ids T) -> (length (ids n) <= length (ids T))%nat.
Proof.
  intros Hat Hnd. apply submseteq_length, NoDup_submseteq.
  - exact (At_NoDup T i n Hat Hnd).
  - intros j. exact (At_ids T i n j Hat).
Qed.

Lemma length_ids_kid (T c : VirtualNode) (l1 l2 : list VirtualNode) :
  kids T = l1 ++ c :: l2 -> (length (ids c) < length (ids T))%nat.
Proof.
  intros Hk. rewrite (ids_eq T), Hk, ids_of_app, ids_of_cons.
  cbn [length]. rewrite !length_app. lia.
Qed.

Lemma well_formed_not_root (c : VirtualNode) :
  well_formed toolkit c -> Diff.isRoot toolkit c = false.
Proof.
  intros [(_ & _ & _ & _ & Htop) _]%well_formed_eq.
  by destruct c.
Qed.

(** Below a node of the tree whose kids are well-formed and whose
    [rootNode] is the root of the tree, every node has that [rootNode]. *)
Lemma rootNode_below (T : VirtualNode) (i : nat) (n : VirtualNode) :
  At T i n ->
  forall j,
    At tree j T ->
    (forall fuel, (length (ids tree) < fuel + length (ids T))%nat ->
                  Ancestry.rootNode toolkit tree fuel T = Ok tree) ->
    Forall (fun c => parentNode c = Some (id T)) (kids T) ->
    Forall (well_formed toolkit) (kids T) ->
    forall fuel,
      (length (ids tree) < fuel + length (ids n))%nat ->
      Ancestry.rootNode toolkit tree fuel n = Ok tree.
Proof.
  induction 1 as [n|T l1 l2 c i n Hk Hd Hat IH];
    intros j HT Hroot Hpar Hwf; [done|].
  assert (NoDup (ids T)) as HndT by exact (At_NoDup tree j T HT distinct).
  assert (At tree (id c) c) as Hc
    by exact (At_trans tree j T (id c) c HT (At_child T c l1 l2 HndT Hk)).
  assert (c ∈ kids T) as Hin
    by (rewrite Hk; apply elem_of_app; right; left).
  rewrite Forall_forall in Hpar, Hwf.
  pose proof (Hwf c Hin) as Hwfc.
  apply well_formed_eq in Hwfc as Hokc. destruct Hokc as [Hokc Hkids].
  apply (IH (id c)); try done.
  - intros fuel Hfuel.
    pose proof (At_length tree (id c) c Hc distinct).
    destruct fuel as [|fuel]; [lia|]. cbn [Ancestry.rootNode].
    rewrite (well_formed_not_root c Hwfc), (Hpar c Hin).
    rewrite <- (At_id _ _ _ HT) in HT. rewrite (At_find _ _ _ HT).
    apply Hroot. pose proof (length_ids_kid T c l1 l2 Hk). lia.
  - by destruct Hokc as (_ & ? & _).
Qed.

(** X24. In a well-formed tree whose nodes have distinct identities the
    [rootNode] getter of every node returns the root of the tree, within
    as many steps up as the tree has nodes: the way up from a node ends at
    the root, and never at a node without a parent, for which the getter
    throws [Inconsistent virtual DOM tree detected!]. *)
Theorem rootNode_is_the_root (i : nat) (n : VirtualNode) :
  well_formed_root toolkit tree ->
  Tree.find i tree = Some n ->
  Ancestry.rootNode toolkit tree (length (ids tree)) n = Ok tree.
Proof.
  intros [(_ & Hpar & _ & _ & Htop) Hwf] Hfind.
  apply (rootNode_below tree i n (find_At i tree n Hfind distinct) (id tree));
    try done.
  - constructor.
  - intros [|fuel] Hfuel; [lia|]. cbn [Ancestry.rootNode].
    destruct tree; [done|]. cbn [Diff.isRoot]. by rewrite Htop.
  - pose proof (id_in_ids n) as Hid. destruct (ids n); [by inversion Hid|].
    simpl. lia.
Qed.
End root_of_a_node.

(** The second item of the list [a; b; c]. *)
Lemma rootNode_is_the_root_witness :
  let toolkit := view_toolkit unique in
  let tree := root unique_world in
  let item := item_node 3 (Some (KeyNum 2)) "b" in
  NoDup (ids tree)
  /\ well_formed_root toolkit tree
  /\ Tree.find 3 tree = Some item
  /\ Ancestry.rootNode toolkit tree (length (ids tree)) item = Ok tree.
Proof.
  cbv zeta.
  refine (conj (proj1 unique_world_fits)
            (conj unique_world_well_formed (conj eq_refl _))).
  exact (rootNode_is_the_root (view_toolkit unique) (root unique_world)
           (proj1 unique_world_fits) 3
           (item_node 3 (Some (KeyNum 2)) "b") unique_world_well_formed
           eq_refl).
Defined.

(** * The dependencies of a module *)

Section deep_dependencies.
Context (dependencies : nat -> list nat).

(** A module depends on the modules in its set of dependencies. *)
Definition depends (module dependency : nat) : Prop :=
  dependency ∈ dependencies module.

Context (modules : list nat).
Hypothesis closed :
  forall x y, x ∈ modules -> depends x y -> y ∈ modules.

(** What [collect] adds to the set it is given: the dependencies of the
    module are in the set then, what was added has its dependencies in
    the set, and depends on the module, directly or not. *)
Lemma collect_adds (fuel : nat) (module : nat) (deps : list nat) :
  (forall y, depends module y -> y ∈ modules) ->
  NoDup deps -> (forall x, x ∈ deps -> x ∈ modules) ->
  (length modules < fuel + length deps)%nat ->
  exists added,
    Loader.collect dependencies fuel module deps = Ok (deps ++ added)
    /\ NoDup (deps ++ added)
    /\ (forall x, x ∈ added -> x ∈ modules)
    /\ (forall y, depends module y -> y ∈ deps ++ added)
    /\ (forall z y, z ∈ added -> depends z y -> y ∈ deps ++ added)
    /\ (forall y, y ∈ added -> tc depends module y).
Proof.
  revert module deps. induction fuel as [|fuel IH];
    intros module deps Hin Hnd Hsub Hfuel.
  { exfalso.
    assert (length deps <= length modules)%nat
      by (by apply submseteq_length, NoDup_submseteq).
    lia. }
  cbn [Loader.collect].
  match goal with
  | |- exists added, ?each (dependencies module) deps = _ /\ _ =>
      enough (forall l a0,
                (forall y, y ∈ l -> depends module y) ->
                NoDup (deps ++ a0) ->
                (forall x, x ∈ a0 -> x ∈ modules) ->
                (forall z y, z ∈ a0 -> depends z y -> y ∈ deps ++ a0) ->
                (forall y, y ∈ a0 -> tc depends module y) ->
                exists a1,
                  each l (deps ++ a0) = Ok (deps ++ a1)
                  /\ NoDup (deps ++ a1)
                  /\ (forall x, x ∈ a1 -> x ∈ modules)
                  /\ (forall y, y ∈ l -> y ∈ deps ++ a1)
                  /\ (forall y, y ∈ deps ++ a0 -> y ∈ deps ++ a1)
                  /\ (forall z y, z ∈ a1 -> depends z y -> y ∈ deps ++ a1)
                  /\ (forall y, y ∈ a1 -> tc depends module y)) as Hloop
  end.
  { destruct (Hloop (dependencies module) [])
      as (a1 & He & ? & ? & ? & _ & ? & ?);
      [done|by rewrite app_nil_r|by intros ? ?%elem_of_nil
      |by intros ? ? ?%elem_of_nil|by intros ? ?%elem_of_nil|].
    exists a1. rewrite app_nil_r in He. by split_and!. }
  assert (forall y a b, y ∈ deps ++ a -> y ∈ deps ++ (a ++ b)) as Hgrow
    by (intros y a b Hy; rewrite app_assoc; apply elem_of_app; by left).
  induction l as [|c l IHl]; intros a0 Hl Hnd0 Hsub0 Hcl0 Htc0.
  { exists a0. split_and!; try done. by intros ? ?%elem_of_nil. }
  assert (depends module c) as Hc by (apply Hl; left).
  assert (forall y, y ∈ l -> depends module y) as Hl'
    by (intros; apply Hl; by right).
  case_bool_decide as Hseen.
  - destruct (IHl a0 Hl' Hnd0 Hsub0 Hcl0 Htc0)
      as (a1 & He & ? & ? & Hin1 & Hmono & ? & ?).
    exists a1. split_and!; try done.
    intros y [->|?]%elem_of_cons; [by apply Hmono|by apply Hin1].
  - destruct (IH c ((deps ++ a0) ++ [c])) as (added & He & Hnd1 & Hsub1
                                                 & Hin1 & Hcl1 & Htc1).
    + intros y Hy. apply (closed c); [by apply Hin|done].
    + apply NoDup_app. split_and!; [done| |apply NoDup_singleton].
      intros x Hx ->%list_elem_of_singleton. done.
    + intros x [[?|?]%elem_of_app| ->%list_elem_of_singleton]%elem_of_app;
        [by apply Hsub|by apply Hsub0|by apply Hin].
    + rewrite !length_app. simpl. lia.
    + rewrite He.
      assert (((deps ++ a0) ++ [c]) ++ added = deps ++ (a0 ++ c :: added))
        as Heq by (by rewrite <- !app_assoc).
      rewrite Heq in *.
      destruct (IHl (a0 ++ c :: added)) as (a1 & He1 & ? & ? & Hin2 & Hmono
                                              & ? & ?); try done.
      * intros x [?|[->|?]%elem_of_cons]%elem_of_app;
          [by apply Hsub0|by apply Hin|by apply Hsub1].
      * intros z y [Hz|[->|Hz]%elem_of_cons]%elem_of_app Hy.
        -- by apply Hgrow, (Hcl0 z).
        -- by apply Hin1.
        -- by apply (Hcl1 z).
      * intros y [?|[->|Hy]%elem_of_cons]%elem_of_app;
          [by apply Htc0|by apply tc_once|].
        eapply tc_l, Htc1; done.
      * exists a1. split_and!; try done.
        -- intros y [->|?]%elem_of_cons; [|by apply Hin2].
           apply Hmono. rewrite !elem_of_app, elem_of_cons. auto.
        -- intros y Hy. by apply Hmono, Hgrow.
Qed.

(** X25. The [deepDependencies] getter of a module returns the modules that
    the module depends on, directly or through other modules, each once:
    among finitely many modules it comes to an end, also when modules
    depend on each other in a circle, and the module itself is in the set
    exactly when it is on such a circle. *)
Theorem deepDependencies_are_the_reachable (this : nat) :
  (forall y, depends this y -> y ∈ modules) ->
  exists deps,
    Loader.deepDependencies dependencies (S (length modules)) this = Ok deps
    /\ NoDup deps
    /\ forall y, y ∈ deps <-> tc depends this y.
Proof.
  intros Hin.
  destruct (collect_adds (S (length modules)) this [] Hin (NoDup_nil_2))
    as (deps & He & Hnd & Hsub & Hch & Hcl & Htc);
    [by intros ? ?%elem_of_nil|simpl; lia|].
  exists deps. split_and!; try done.
  intros y. split; [apply Htc|].
  intros Hy. apply tc_nsteps in Hy as (n & Hn & Hy).
  revert y Hy. induction n as [n IHn] using lt_wf_ind. intros y Hy.
  destruct n as [|n]; [lia|].
  apply nsteps_inv_r in Hy as (z & Hz & Hzy).
  destruct n as [|n].
  - inversion Hz; subst. by apply Hch.
  - apply (Hcl z); [|done]. apply (IHn (S n)); [lia..|done].
Qed.
End deep_dependencies.

(** Three modules that depend on each other in a circle. *)
Definition circle (module : nat) : list nat :=
  match module with
  | 0 => [1; 2]
  | 1 => [2]
  | 2 => [0]
  | _ => []
  end%nat.

Lemma deepDependencies_are_the_reachable_witness :
  (forall x y, x ∈ [0; 1; 2]%nat -> depends circle x y -> y ∈ [0; 1; 2]%nat)
  /\ (forall y, depends circle 0 y -> y ∈ [0; 1; 2]%nat)
  /\ exists deps,
       Loader.deepDependencies circle (S (length [0; 1; 2]%nat)) 0 = Ok deps
       /\ NoDup deps
       /\ forall y, y ∈ deps <-> tc (depends circle) 0%nat y.
Proof.
  assert (forall x y, x ∈ [0; 1; 2]%nat -> depends circle x y ->
                      y ∈ [0; 1; 2]%nat) as Hclosed.
  { intros x y Hx. unfold depends.
    repeat (apply elem_of_cons in Hx as [->|Hx]); simpl;
      rewrite ?elem_of_cons, ?elem_of_nil; try tauto.
    by apply elem_of_nil in Hx. }
  assert (forall y, depends circle 0 y -> y ∈ [0; 1; 2]%nat) as Hin
    by (intros y; apply Hclosed; left).
  refine (conj Hclosed (conj Hin _)).
  exact (deepDependencies_are_the_reachable circle [0; 1; 2]%nat Hclosed
           0%nat Hin).
Defined.
